(** * fadec: the decode-table generator [parseinstrs.py]

    A shallow embedding of the instruction-descriptor encoder, the opcode
    parser and expander, the trie builder and the deduplicating layout
    compiler, followed by the properties established about them.

    Python integers are modelled as [Z], Python strings as [string], tuples
    and lists as [list], the insertion-ordered dictionary [Table.data] as an
    association list with unique keys, and exceptions as the [Raise] branch
    of [result]. *)

From Stdlib Require Import ZArith List String Ascii Bool Lia Arith.
From Equations Require Import Equations.
Import ListNotations.

Local Open Scope string_scope.
Local Open Scope Z_scope.

(** ** Python runtime fragments used by the script *)

(** The exceptions the script can raise.  [BuildError] is an explicit
    [raise Exception(...)] of the script; its argument names the message
    template.  The others are raised by the Python runtime itself. *)
Inductive exn : Type :=
| BuildError (msg : string)
| StopIteration
| IndexError
| KeyError
| ValueError
| AttributeError
| OverflowError
| TypeError.

Inductive result (A : Type) : Type :=
| Ok (a : A)
| Raise (e : exn).
Arguments Ok {A} a.
Arguments Raise {A} e.

Definition bind {A B} (r : result A) (k : A -> result B) : result B :=
  match r with
  | Ok a => k a
  | Raise e => Raise e
  end.

Notation "x <- r ;; k" := (bind r (fun x => k))
  (at level 61, r at next level, right associativity).
Notation "' p <- r ;; k" := (bind r (fun x => match x with p => k end))
  (at level 61, p pattern, r at next level, right associativity).

Definition is_ok {A} (r : result A) : bool :=
  match r with Ok _ => true | Raise _ => false end.

Definition from_option {A} (e : exn) (o : option A) : result A :=
  match o with Some a => Ok a | None => Raise e end.

Module Py.

Definition len {A} (l : list A) : Z := Z.of_nat (List.length l).

(** [l[i]]: negative indices count from the end, anything outside
    [-len, len) raises IndexError. *)
Definition index {A} (l : list A) (i : Z) : result A :=
  if (0 <=? i) && (i <? len l) then
    from_option IndexError (nth_error l (Z.to_nat i))
  else if (- len l <=? i) && (i <? 0) then
    from_option IndexError (nth_error l (Z.to_nat (len l + i)))
  else Raise IndexError.

(** [l.index(x)]: position of the first occurrence, ValueError if none. *)
Fixpoint index_of {A} (eqb : A -> A -> bool) (x : A) (l : list A) : result Z :=
  match l with
  | [] => Raise ValueError
  | y :: l' => if eqb y x then Ok 0
               else i <- index_of eqb x l' ;; Ok (i + 1)
  end.

(** Dictionary lookup [d[k]] on a dictionary with string keys. *)
Fixpoint get {V} (d : list (string * V)) (k : string) : option V :=
  match d with
  | [] => None
  | (k', v) :: d' => if String.eqb k' k then Some v else get d' k
  end.

Definition getitem {V} (d : list (string * V)) (k : string) : result V :=
  from_option KeyError (get d k).

(** [d[k] = v]: an existing key keeps its position, a new key is appended. *)
Fixpoint set {V} (d : list (string * V)) (k : string) (v : V)
  : list (string * V) :=
  match d with
  | [] => [(k, v)]
  | (k', v') :: d' =>
      if String.eqb k' k then (k', v) :: d' else (k', v') :: set d' k v
  end.

(** [del d[k]]. *)
Fixpoint del {V} (d : list (string * V)) (k : string) : list (string * V) :=
  match d with
  | [] => []
  | (k', v') :: d' => if String.eqb k' k then d' else (k', v') :: del d' k
  end.

Definition keys {V} (d : list (string * V)) : list string := map fst d.

Definition mem (x : string) (s : list string) : bool :=
  existsb (String.eqb x) s.

(** Digits of a non-negative integer, most significant first. *)
Definition digit_char (d : Z) : ascii :=
  if d <? 10 then ascii_of_nat (Z.to_nat (48 + d))
  else ascii_of_nat (Z.to_nat (87 + d)).

Fixpoint digits (fuel : nat) (base n : Z) (acc : string) : string :=
  match fuel with
  | O => acc
  | S fuel' =>
      let acc' := String (digit_char (n mod base)) acc in
      if n / base =? 0 then acc' else digits fuel' base (n / base) acc'
  end.

Definition unsigned_str (base n : Z) : string :=
  digits (S (Z.to_nat (Z.log2 n))) base n "".

(** ["%d" % n] and ["{}".format(n)]. *)
Definition dec (n : Z) : string :=
  if n <? 0 then "-" ++ unsigned_str 10 (- n) else unsigned_str 10 n.

(** ["{:x}".format(n)]. *)
Definition hex (n : Z) : string :=
  if n <? 0 then "-" ++ unsigned_str 16 (- n) else unsigned_str 16 n.

(** ["{:02x}".format(n)]: zero padding goes after the sign and the sign
    counts towards the width. *)
Definition hex02 (n : Z) : string :=
  if n <? 0 then "-" ++ unsigned_str 16 (- n)
  else if n <? 16 then "0" ++ unsigned_str 16 n
  else unsigned_str 16 n.

End Py.

(** ** Bit-structs *)

(** An instance of a [bitstruct] class is its attribute dictionary. *)
Definition object := list (string * Z).

Definition getattr (o : object) (name : string) : result Z :=
  from_option AttributeError (Py.get o name).

Definition setattr (o : object) (name : string) (v : Z) : object :=
  Py.set o name v.

Module bitstruct.

(** [__init__] with keyword arguments: every declared field, defaulting to 0; keyword
    arguments that name no field are dropped. *)
Definition init (fields : list (string * Z)) (kwargs : list (string * Z))
  : object :=
  map (fun '(name, _) =>
         (name, match Py.get kwargs name with Some v => v | None => 0 end))
      fields.

(** The accumulation loop of [_encode]: [offset] is the running sum of the
    sizes of the fields before the current one. *)
Fixpoint pack (fields : list (string * Z)) (o : object) (offset enc : Z)
  : result Z :=
  match fields with
  | [] => Ok enc
  | (name, size) :: rest =>
      v <- getattr o name ;;
      pack rest o (offset + size)
           (enc + Z.shiftl (Z.land v (Z.shiftl 1 size - 1)) offset)
  end.

(** [int.to_bytes(length, "little")]. *)
Fixpoint le_bytes (length : nat) (n : Z) : list Z :=
  match length with
  | O => []
  | S l => (n mod 256) :: le_bytes l (n / 256)
  end.

Definition to_bytes (n : Z) (length : nat) : result (list Z) :=
  if (n <? 0) || (256 ^ Z.of_nat length <=? n) then Raise OverflowError
  else Ok (le_bytes length n).

(** [int.from_bytes(bs, "little")]. *)
Fixpoint from_bytes (bs : list Z) : Z :=
  match bs with
  | [] => 0
  | b :: bs' => b + 256 * from_bytes bs'
  end.

Definition _encode (fields : list (string * Z)) (o : object) (length : nat)
  : result (list Z) :=
  enc <- pack fields o 0 0 ;;
  to_bytes enc length.

End bitstruct.

Definition InstrFlags_fields : list (string * Z) :=
  [ ("modrm_idx", 2); ("modreg_idx", 2); ("vexreg_idx", 2);
    ("zeroreg_idx", 2); ("imm_idx", 2); ("zeroreg_val", 1); ("lock", 1);
    ("imm_control", 3); ("vsib", 1); ("op0_size", 2); ("op1_size", 2);
    ("op2_size", 2); ("op3_size", 2); ("size8", 1); ("sized64", 1);
    ("size_fix1", 3); ("size_fix2", 2); ("instr_width", 1);
    ("op0_regty", 3); ("op1_regty", 3); ("op2_regty", 3); ("_unused", 7) ].

Definition InstrFlags (kwargs : list (string * Z)) : object :=
  bitstruct.init InstrFlags_fields kwargs.

Definition x3 (n : Z) : Z := Z.lxor n 3.

Definition ENCODINGS : list (string * object) :=
  [ ("NP", InstrFlags []);
    ("M", InstrFlags [("modrm_idx", x3 0)]);
    ("M1", InstrFlags [("modrm_idx", x3 0); ("imm_idx", x3 1); ("imm_control", 1)]);
    ("MI", InstrFlags [("modrm_idx", x3 0); ("imm_idx", x3 1); ("imm_control", 4)]);
    ("MC", InstrFlags [("modrm_idx", x3 0); ("zeroreg_idx", x3 1); ("zeroreg_val", 1)]);
    ("MR", InstrFlags [("modrm_idx", x3 0); ("modreg_idx", x3 1)]);
    ("RM", InstrFlags [("modrm_idx", x3 1); ("modreg_idx", x3 0)]);
    ("RMA", InstrFlags [("modrm_idx", x3 1); ("modreg_idx", x3 0); ("zeroreg_idx", x3 2)]);
    ("MRI", InstrFlags [("modrm_idx", x3 0); ("modreg_idx", x3 1); ("imm_idx", x3 2); ("imm_control", 4)]);
    ("RMI", InstrFlags [("modrm_idx", x3 1); ("modreg_idx", x3 0); ("imm_idx", x3 2); ("imm_control", 4)]);
    ("MRC", InstrFlags [("modrm_idx", x3 0); ("modreg_idx", x3 1); ("zeroreg_idx", x3 2); ("zeroreg_val", 1)]);
    ("I", InstrFlags [("imm_idx", x3 0); ("imm_control", 4)]);
    ("IA", InstrFlags [("zeroreg_idx", x3 0); ("imm_idx", x3 1); ("imm_control", 4)]);
    ("O", InstrFlags [("modreg_idx", x3 0)]);
    ("OI", InstrFlags [("modreg_idx", x3 0); ("imm_idx", x3 1); ("imm_control", 4)]);
    ("OA", InstrFlags [("modreg_idx", x3 0); ("zeroreg_idx", x3 1)]);
    ("AO", InstrFlags [("modreg_idx", x3 1); ("zeroreg_idx", x3 0)]);
    ("A", InstrFlags [("zeroreg_idx", x3 0)]);
    ("D", InstrFlags [("imm_idx", x3 0); ("imm_control", 6)]);
    ("FD", InstrFlags [("zeroreg_idx", x3 0); ("imm_idx", x3 1); ("imm_control", 2)]);
    ("TD", InstrFlags [("zeroreg_idx", x3 1); ("imm_idx", x3 0); ("imm_control", 2)]);
    ("RVM", InstrFlags [("modrm_idx", x3 2); ("modreg_idx", x3 0); ("vexreg_idx", x3 1)]);
    ("RVMI", InstrFlags [("modrm_idx", x3 2); ("modreg_idx", x3 0); ("vexreg_idx", x3 1); ("imm_idx", x3 3); ("imm_control", 4); ("imm_byte", 1)]);
    ("RVMR", InstrFlags [("modrm_idx", x3 2); ("modreg_idx", x3 0); ("vexreg_idx", x3 1); ("imm_idx", x3 3); ("imm_control", 3); ("imm_byte", 1)]);
    ("RMV", InstrFlags [("modrm_idx", x3 1); ("modreg_idx", x3 0); ("vexreg_idx", x3 2)]);
    ("VM", InstrFlags [("modrm_idx", x3 1); ("vexreg_idx", x3 0)]);
    ("VMI", InstrFlags [("modrm_idx", x3 1); ("vexreg_idx", x3 0); ("imm_idx", x3 2); ("imm_control", 4); ("imm_byte", 1)]);
    ("MVR", InstrFlags [("modrm_idx", x3 0); ("modreg_idx", x3 2); ("vexreg_idx", x3 1)]) ].

(** ** Operand kinds and instruction descriptors *)

Record OpKind : Type := mkOpKind { size : Z; kind : string }.

Definition SZ_OP : Z := -1.
Definition SZ_VEC : Z := -2.
Definition K_MEM : string := "mem".
Definition K_IMM : string := "imm".

Definition OPKINDS : list (string * OpKind) :=
  [ ("IMM", mkOpKind SZ_OP K_IMM); ("IMM8", mkOpKind 1 K_IMM);
    ("IMM16", mkOpKind 2 K_IMM); ("IMM32", mkOpKind 4 K_IMM);
    ("GP", mkOpKind SZ_OP "GP"); ("GP8", mkOpKind 1 "GP");
    ("GP16", mkOpKind 2 "GP"); ("GP32", mkOpKind 4 "GP");
    ("GP64", mkOpKind 8 "GP"); ("MMX", mkOpKind 8 "MMX");
    ("XMM", mkOpKind SZ_VEC "XMM"); ("XMM8", mkOpKind 1 "XMM");
    ("XMM16", mkOpKind 2 "XMM"); ("XMM32", mkOpKind 4 "XMM");
    ("XMM64", mkOpKind 8 "XMM"); ("XMM128", mkOpKind 16 "XMM");
    ("XMM256", mkOpKind 32 "XMM"); ("SREG", mkOpKind 2 "SEG");
    ("FPU", mkOpKind 10 "FPU"); ("MEM", mkOpKind SZ_OP K_MEM);
    ("MEMV", mkOpKind SZ_VEC K_MEM); ("MEMZ", mkOpKind 0 K_MEM);
    ("MEM8", mkOpKind 1 K_MEM); ("MEM16", mkOpKind 2 K_MEM);
    ("MEM32", mkOpKind 4 K_MEM); ("MEM64", mkOpKind 8 K_MEM);
    ("MEM128", mkOpKind 16 K_MEM); ("MASK8", mkOpKind 1 "MASK");
    ("MASK16", mkOpKind 2 "MASK"); ("MASK32", mkOpKind 4 "MASK");
    ("MASK64", mkOpKind 8 "MASK"); ("BND", mkOpKind 0 "BND");
    ("CR", mkOpKind 0 "CR"); ("DR", mkOpKind 0 "DR") ].

(** A payload word of a trie entry: the encoder stores the mnemonic as a
    symbol and the record as integers. *)
Inductive word : Type :=
| Tag (name : string)
| Int (n : Z).

Definition word_eqb (a b : word) : bool :=
  match a, b with
  | Tag s, Tag t => String.eqb s t
  | Int n, Int m => Z.eqb n m
  | _, _ => false
  end.

(** [str.split()]: the characters on which it splits. *)
Definition isspace (c : ascii) : bool :=
  let n := Z.of_nat (nat_of_ascii c) in
  ((9 <=? n) && (n <=? 13)) || ((28 <=? n) && (n <=? 32))
  || (n =? 133) || (n =? 160).

(** [cur] is the current field, reversed. *)
Fixpoint split_go (s : string) (cur : list ascii) : list string :=
  let flush := match cur with
               | [] => []
               | _ => [string_of_list_ascii (rev cur)]
               end in
  match s with
  | EmptyString => flush
  | String c s' =>
      if isspace c then flush ++ split_go s' [] else split_go s' (c :: cur)
  end.

Definition split (s : string) : list string := split_go s [].

Module InstrDesc.

Record t : Type := mk {
  mnemonic : string;
  encoding : string;
  operands : list OpKind;
  flags : list string
}.

Definition OPKIND_REGTYS : list (string * Z) :=
  [ ("GP", 0); ("FPU", 1); ("XMM", 2); ("MASK", 3); ("MMX", 4); ("BND", 5) ].

Definition OPKIND_SIZES : list (Z * Z) :=
  [ (0, 0); (1, 1); (2, 2); (4, 3); (8, 4); (16, 5); (32, 6); (10, 0);
    (SZ_OP, -2); (SZ_VEC, -3) ].

Fixpoint zget (d : list (Z * Z)) (k : Z) : result Z :=
  match d with
  | [] => Raise KeyError
  | (k', v) :: d' => if Z.eqb k' k then Ok v else zget d' k
  end.

(** [InstrDesc.parse]. *)
Fixpoint parse_operands (ops : list string) : result (list OpKind) :=
  match ops with
  | [] => Ok []
  | op :: rest =>
      if String.eqb op "-" then parse_operands rest
      else k <- Py.getitem OPKINDS op ;;
           ks <- parse_operands rest ;;
           Ok (k :: ks)
  end.

Definition parse (desc : string) : result t :=
  let desc := split desc in
  operands <- parse_operands (firstn 4 (skipn 1 desc)) ;;
  mnem <- Py.index desc 5 ;;
  enc <- Py.index desc 0 ;;
  Ok (mk mnem enc operands (skipn 6 desc)).

(** The size codes of the operands, one per operand. *)
Fixpoint size_codes (ops : list OpKind) : result (list Z) :=
  match ops with
  | [] => Ok []
  | op :: rest =>
      c <- zget OPKIND_SIZES (size op) ;;
      cs <- size_codes rest ;;
      Ok (c :: cs)
  end.

(** Iteration over the set [opsz] restricted to its non-negative members.
    The members are small integers that hash to themselves, so the set is
    walked in increasing order whenever at most two of them are fixed codes
    below 5; in the remaining cases [encode] raises or the sort key below
    decides the order. *)
Definition fixed_codes (codes : list Z) : list Z :=
  filter (fun x => existsb (Z.eqb x) codes) [0; 1; 2; 3; 4; 5; 6].

Definition in_1_4 (x : Z) : bool := (1 <=? x) && (x <=? 4).

(** [sorted(..., key=lambda x: 1 <= x <= 4)]: stable, False before True. *)
Definition sort_fixed (l : list Z) : list Z :=
  (filter (fun x => negb (in_1_4 x)) l ++ filter in_1_4 l)%list.

(** The loop over the operands; [i] is the position of the head of [ops]. *)
Fixpoint encode_operands (sizes : list Z) (ops : list OpKind) (i : Z)
         (flags : object) : result object :=
  match ops with
  | [] => Ok flags
  | opkind :: rest =>
      sz <- zget OPKIND_SIZES (size opkind) ;;
      let reg_type := match Py.get OPKIND_REGTYS (kind opkind) with
                      | Some r => r
                      | None => 7
                      end in
      idx <- Py.index_of Z.eqb sz sizes ;;
      let flags := setattr flags ("op" ++ Py.dec i ++ "_size") idx in
      if i <? 3 then
        encode_operands sizes rest (i + 1)
                        (setattr flags ("op" ++ Py.dec i ++ "_regty") reg_type)
      else if negb ((reg_type =? 7) || (reg_type =? 2)) then
        Raise (BuildError "invalid regty for op 3, must be VEC")
      else encode_operands sizes rest (i + 1) flags
  end.

Definition set_if (flag : string) (self : t) (field : string) (o : object)
  : object :=
  if Py.mem flag (flags self) then setattr o field 1 else o.

(** [encode] up to and including the miscellaneous flags. *)
Definition encode_flags (self : t) : result object :=
  flags <- Py.getitem ENCODINGS (encoding self) ;;
  codes <- size_codes (operands self) ;;
  let fixed := sort_fixed (fixed_codes codes) in
  if (2 <? Py.len fixed)
     || ((Py.len fixed =? 2) && negb (in_1_4 (nth 1 fixed 0))) then
    Raise (BuildError "invalid fixed operand sizes")
  else
    let sizes := (firstn 2 (fixed ++ [1; 1]) ++ [-2; -3])%list in
    s0 <- Py.index sizes 0 ;;
    s1 <- Py.index sizes 1 ;;
    let flags := setattr flags "size_fix1" s0 in
    let flags := setattr flags "size_fix2" (s1 - 1) in
    flags <- encode_operands sizes (operands self) 0 flags ;;
    let flags := set_if "DEF64" self "sized64" flags in
    let flags := set_if "SIZE_8" self "size8" flags in
    let flags := set_if "INSTR_WIDTH" self "instr_width" flags in
    let flags := set_if "LOCK" self "lock" flags in
    let flags := set_if "VSIB" self "vsib" flags in
    Ok flags.

(** [next(op for op in self.operands if op.kind == OpKind.K_IMM)]. *)
Definition next_imm (ops : list OpKind) : result OpKind :=
  from_option StopIteration
              (find (fun op => String.eqb (kind op) K_IMM) ops).

(** The immediate-width refinement. *)
Definition refine_imm (self : t) (flags : object) : result object :=
  imm_control <- getattr flags "imm_control" ;;
  if 4 <=? imm_control then
    imm_op <- next_imm (operands self) ;;
    size8 <- getattr flags "size8" ;;
    if Py.mem "IMM_8" (InstrDesc.flags self) || (size imm_op =? 1)
       || ((size imm_op =? SZ_OP) && negb (size8 =? 0)) then
      Ok (setattr flags "imm_control" (Z.lor imm_control 1))
    else Ok flags
  else Ok flags.

(** The 48-bit record as three 16-bit words, after the mnemonic symbol. *)
Definition emit (self : t) (flags : object) : result (list word) :=
  enc <- bitstruct._encode InstrFlags_fields flags 6 ;;
  let words := map (fun i => bitstruct.from_bytes (firstn 2 (skipn i enc)))
                   [0; 2; 4]%nat in
  Ok (Tag ("FDI_" ++ mnemonic self) :: map Int words).

Definition encode (self : t) : result (list word) :=
  flags <- encode_flags self ;;
  flags <- refine_imm self flags ;;
  emit self flags.

End InstrDesc.

(** ** Trie entries *)

Inductive EntryKind : Type :=
| NONE
| INSTR
| TABLE256
| TABLE8
| TABLE72
| TABLE_PREFIX
| TABLE_VEX
| TABLE_PREFIX_REP
| TABLE_ROOT.

Definition EntryKind_value (k : EntryKind) : Z :=
  match k with
  | NONE => 0
  | INSTR => 1
  | TABLE256 => 2
  | TABLE8 => 3
  | TABLE72 => 4
  | TABLE_PREFIX => 5
  | TABLE_VEX => 6
  | TABLE_PREFIX_REP => 7
  | TABLE_ROOT => -1
  end.

Definition EntryKind_eqb (a b : EntryKind) : bool :=
  EntryKind_value a =? EntryKind_value b.

Definition option_eqb {A} (eqb : A -> A -> bool) (a b : option A) : bool :=
  match a, b with
  | Some x, Some y => eqb x y
  | None, None => true
  | _, _ => false
  end.

Fixpoint list_eqb {A} (eqb : A -> A -> bool) (l1 l2 : list A) : bool :=
  match l1, l2 with
  | [], [] => true
  | x :: l1', y :: l2' => eqb x y && list_eqb eqb l1' l2'
  | _, _ => false
  end.

Module TrieEntry.

Record t : Type := mk {
  kind : EntryKind;
  items : list (option string);
  payload : list word
}.

(** Equality of the named tuples, as used for dictionary keys. *)
Definition eqb (a b : t) : bool :=
  EntryKind_eqb (kind a) (kind b)
  && list_eqb (option_eqb String.eqb) (items a) (items b)
  && list_eqb word_eqb (payload a) (payload b).

Definition TABLE_LENGTH (k : EntryKind) : option nat :=
  match k with
  | TABLE256 => Some 256%nat
  | TABLE8 => Some 8%nat
  | TABLE72 => Some 72%nat
  | TABLE_PREFIX => Some 4%nat
  | TABLE_VEX => Some 4%nat
  | TABLE_PREFIX_REP => Some 4%nat
  | TABLE_ROOT => Some 8%nat
  | NONE | INSTR => None
  end.

Definition table (k : EntryKind) : result t :=
  n <- from_option KeyError (TABLE_LENGTH k) ;;
  Ok (mk k (repeat None n) []).

Definition instr (payload : list word) : t := mk INSTR [] payload.

Definition encode_length (self : t) : Z :=
  Py.len (payload self) + Py.len (items self).

(** A child that is [None] or the empty string is falsy and encodes as 0. *)
Fixpoint encode_items (encode_item : string -> result Z)
         (l : list (option string)) : result (list word) :=
  match l with
  | [] => Ok []
  | item :: rest =>
      w <- match item with
           | None => Ok 0
           | Some name => if String.eqb name "" then Ok 0
                          else encode_item name
           end ;;
      ws <- encode_items encode_item rest ;;
      Ok (Int w :: ws)
  end.

Definition encode (self : t) (encode_item : string -> result Z)
  : result (list word) :=
  enc_items <- encode_items encode_item (items self) ;;
  Ok (payload self ++ enc_items)%list.

Fixpoint map_from (i : Z) (map_func : Z -> option string -> option string)
         (l : list (option string)) : list (option string) :=
  match l with
  | [] => []
  | v :: rest => map_func i v :: map_from (i + 1) map_func rest
  end.

Definition map (self : t) (map_func : Z -> option string -> option string)
  : t :=
  mk (kind self) (map_from 0 map_func (items self)) (payload self).

(** The slot is selected by equality with the enumeration index, so a
    negative or too large [idx] leaves every slot as it is. *)
Definition update (self : t) (idx : Z) (new_val : option string) : t :=
  map self (fun i v => if i =? idx then new_val else v).

End TrieEntry.

(** ** Opcode patterns *)

(** *** The regular expression [opcode_regex]

    The expression has no ambiguity that backtracking could exploit: the
    alternatives of every choice start with different characters, each
    optional group is followed by something that cannot start the way the
    group does, and a shorter run of hex pairs leaves a hex digit where only
    ['/'], ['+'] or the end may follow.  The matcher below therefore commits
    to the first way of matching each part, in the order the parts are
    written in the expression. *)

Module Regex.

(** The named groups of a match. *)
Record groups : Type := mk {
  vex : option string;
  legacy : option string;
  rexw : option string;
  vexl : option string;
  repprefix : option string;
  opcode : string;
  modrm : option string;
  extended : option string
}.

(** [strip p s] is the rest of [s] after its prefix [p]. *)
Fixpoint strip (p s : string) : option string :=
  match p, s with
  | EmptyString, _ => Some s
  | String a p', String b s' => if Ascii.eqb a b then strip p' s' else None
  | String _ _, EmptyString => None
  end.

(** An alternation of literals: the first that matches. *)
Fixpoint alt (alts : list string) (s : string) : option (string * string) :=
  match alts with
  | [] => None
  | a :: rest => match strip a s with
                 | Some r => Some (a, r)
                 | None => alt rest s
                 end
  end.

Definition in_range (lo hi c : ascii) : bool :=
  (nat_of_ascii lo <=? nat_of_ascii c)%nat
  && (nat_of_ascii c <=? nat_of_ascii hi)%nat.

(** [[0-9a-f]] *)
Definition hex_digit (c : ascii) : bool :=
  in_range "0" "9" c || in_range "a" "f" c.

Definition newline : ascii := ascii_of_nat 10.

(** [(?:X(?P<g>[01]|IG)\.)?] for the letter [X]. *)
Definition opt_bit (letter : string) (s : string) : option string * string :=
  match strip letter s with
  | Some s1 =>
      match alt ["0"; "1"; "IG"] s1 with
      | Some (v, s2) =>
          match strip "." s2 with
          | Some s3 => (Some v, s3)
          | None => (None, s)
          end
      | None => (None, s)
      end
  | None => (None, s)
  end.

(** [(?P<vex>VEX\.)?(?P<legacy>NP|66|F2|F3)\.(?:W...\.)?(?:L...\.)?] *)
Definition prefixes (s : string)
  : option (option string * string * option string * option string * string) :=
  let '(vex, s1) := match strip "VEX." s with
                    | Some r => (Some "VEX.", r)
                    | None => (None, s)
                    end in
  match alt ["NP"; "66"; "F2"; "F3"] s1 with
  | Some (leg, s2) =>
      match strip "." s2 with
      | Some s3 =>
          let '(rexw, s4) := opt_bit "W" s3 in
          let '(vexl, s5) := opt_bit "L" s4 in
          Some (vex, leg, rexw, vexl, s5)
      | None => None
      end
  | None => None
  end.

(** [R(?P<repprefix>NP|F2|F3).]: the final dot is unescaped and stands for
    any character but a newline. *)
Definition rep (s : string) : option (string * string) :=
  match strip "R" s with
  | Some s1 =>
      match alt ["NP"; "F2"; "F3"] s1 with
      | Some (p, String c s2) =>
          if Ascii.eqb c newline then None else Some (p, s2)
      | _ => None
      end
  | None => None
  end.

(** [(?:[0-9a-f]{2})+], greedy: the pairs taken and the rest. *)
Fixpoint pairs (s : string) : string * string :=
  match s with
  | String a (String b rest) =>
      if hex_digit a && hex_digit b then
        let '(p, r) := pairs rest in (String a (String b p), r)
      else (EmptyString, s)
  | _ => (EmptyString, s)
  end.

(** [//?[0-7]|//[c-f][0-9a-f]] *)
Definition modrm_match (s : string) : option (string * string) :=
  match s with
  | String c0 (String c1 r1) =>
      if Ascii.eqb c0 "/" then
        if Ascii.eqb c1 "/" then
          match r1 with
          | String c r =>
              if in_range "0" "7" c then
                Some (String "/" (String "/" (String c "")), r)
              else
                match r with
                | String d r' =>
                    if in_range "c" "f" c && hex_digit d then
                      Some (String "/" (String "/" (String c (String d ""))),
                            r')
                    else None
                | EmptyString => None
                end
          | EmptyString => None
          end
        else if in_range "0" "7" c1 then
          Some (String "/" (String c1 ""), r1)
        else None
      else None
  | _ => None
  end.

(** [$]: the end of the string, or just before a final newline. *)
Definition at_end (s : string) : bool :=
  match s with
  | EmptyString => true
  | String c EmptyString => Ascii.eqb c newline
  | _ => false
  end.

(** The optional group of prefixes at the start: the groups [vex],
    [legacy], [rexw], [vexl] and [repprefix], and the rest of the string. *)
Definition head (s : string)
  : option string * option string * option string * option string
    * option string * string :=
  match prefixes s with
  | Some (vex, leg, rexw, vexl, r) => (vex, Some leg, rexw, vexl, None, r)
  | None =>
      match rep s with
      | Some (p, r) => (None, None, None, None, Some p, r)
      | None => (None, None, None, None, None, s)
      end
  end.

(** The opcode bytes, the ModR/M extension, the ['+'] and the end. *)
Definition tail (vex leg rexw vexl repp : option string) (s1 : string)
  : option groups :=
  let '(opc, s2) := pairs s1 in
  if String.eqb opc "" then None
  else
    let '(modrm, s3) := match modrm_match s2 with
                        | Some (m, r) => (Some m, r)
                        | None => (None, s2)
                        end in
    let '(ext, s4) := match strip "+" s3 with
                      | Some r => (Some "+", r)
                      | None => (None, s3)
                      end in
    if at_end s4 then Some (mk vex leg rexw vexl repp opc modrm ext)
    else None.

Definition match_ (s : string) : option groups :=
  let '(vex, leg, rexw, vexl, repp, s1) := head s in
  tail vex leg rexw vexl repp s1.

End Regex.

(** A path: one [(kind, byte)] pair per level of the trie. *)
Definition path : Type := list (EntryKind * Z).

(** [int(s, 16)] on a string of hex digits. *)
Definition hex_value (c : ascii) : option Z :=
  let n := Z.of_nat (nat_of_ascii c) in
  if (48 <=? n) && (n <=? 57) then Some (n - 48)
  else if (97 <=? n) && (n <=? 102) then Some (n - 87)
  else if (65 <=? n) && (n <=? 70) then Some (n - 55)
  else None.

Fixpoint int16_go (s : string) (acc : Z) : result Z :=
  match s with
  | EmptyString => Ok acc
  | String c s' => d <- from_option ValueError (hex_value c) ;;
                   int16_go s' (16 * acc + d)
  end.

Definition int16 (s : string) : result Z :=
  match s with
  | EmptyString => Raise ValueError
  | _ => int16_go s 0
  end.

(** [s[n:]] and [s[:-2]], [s[-2:]]. *)
Fixpoint drop (n : nat) (s : string) : string :=
  match n, s with
  | O, _ => s
  | S n', String _ s' => drop n' s'
  | S _, EmptyString => EmptyString
  end.

Definition all_but_last2 (s : string) : string :=
  substring 0 (String.length s - 2) s.

Definition last2 (s : string) : string :=
  drop (String.length s - 2) s.

Definition is_some {A} (o : option A) : bool :=
  match o with Some _ => true | None => false end.

Module Opcode.

Record t : Type := mk {
  prefix : option (bool * Z);
  escape : Z;
  opc : Z;
  opcext : option (bool * Z);
  extended : bool;
  vex : bool;
  vexl : option string;
  rexw : option string
}.

(** The ModR/M group as [(is72, value)]. *)
Definition parse_opcext (modrm : option string) : result (option (bool * Z)) :=
  match modrm with
  | Some opcext =>
      c <- from_option IndexError (String.get 1 opcext) ;;
      let is72 := Ascii.eqb c "/" in
      v <- int16 (drop (1 + if is72 then 1 else 0) opcext) ;;
      Ok (Some (is72, v))
  | None => Ok None
  end.

(** [prefix_strs[0] or prefix_strs[1]] and its index. *)
Definition parse_prefix (legacy repprefix : option string)
  : result (option (bool * Z)) :=
  match legacy, repprefix with
  | Some p, r | None, (Some p) as r =>
      i <- Py.index_of String.eqb p ["NP"; "66"; "F3"; "F2"] ;;
      Ok (Some (is_some r, i))
  | None, None => Ok None
  end.

(** [Opcode.parse]: [Ok None] when the pattern does not match. *)
Definition parse (opcode_string : string) : result (option t) :=
  match Regex.match_ opcode_string with
  | None => Ok None
  | Some m =>
      opcext <- parse_opcext (Regex.modrm m) ;;
      if is_some (Regex.extended m)
         && match opcext with Some (is72, _) => negb is72 | None => false end
      then Raise (BuildError "invalid opcode extension: {}")
      else
        prefix <- parse_prefix (Regex.legacy m) (Regex.repprefix m) ;;
        escape <- Py.index_of String.eqb (all_but_last2 (Regex.opcode m))
                              ["" ; "0f"; "0f38"; "0f3a"] ;;
        opc <- int16 (last2 (Regex.opcode m)) ;;
        Ok (Some (mk prefix escape opc opcext
                     (is_some (Regex.extended m)) (is_some (Regex.vex m))
                     (Regex.vexl m) (Regex.rexw m)))
  end.

Definition bit_values (shift : Z) (s : string) : result (list Z) :=
  if String.eqb s "0" then Ok [0]
  else if String.eqb s "1" then Ok [Z.shiftl 1 shift]
  else if String.eqb s "IG" then Ok [0; Z.shiftl 1 shift]
  else Raise KeyError.

(** [x or "IG"]: [None] and the empty string are falsy. *)
Definition or_IG (x : option string) : string :=
  match x with
  | None => "IG"
  | Some s => if String.eqb s "" then "IG" else s
  end.

Definition is_bit (x : option string) : bool :=
  match x with
  | Some s => String.eqb s "0" || String.eqb s "1"
  | None => false
  end.

(** [itertools.product] over the levels: the rightmost position varies fastest. *)
Fixpoint product (values : list (list Z)) : list (list Z) :=
  match values with
  | [] => [[]]
  | vs :: rest => flat_map (fun v => List.map (cons v) (product rest)) vs
  end.

(** The levels of the pattern, each with the bytes it may take. *)
Definition levels (self : t) : result (list (EntryKind * list Z)) :=
  let opcode := [ (TABLE_ROOT, [Z.lor (escape self)
                                      (Z.shiftl (Z.b2z (vex self)) 2)]);
                  (TABLE256, [opc self]) ] in
  let opcode :=
    match opcext self with
    | Some (is72, v) =>
        let opcext_kind := if is72 then TABLE72 else TABLE8 in
        let opcext_val := v - (if v <? 8 then 0 else 184) in
        (opcode ++ [(opcext_kind, [opcext_val])])%list
    | None => opcode
    end in
  opcode <-
    (if extended self then
       match rev opcode with
       | (last_type, last_indices) :: before =>
           first <- Py.index last_indices 0 ;;
           Ok (rev before
               ++ [(last_type,
                    List.map (fun i => first + i) [0; 1; 2; 3; 4; 5; 6; 7])])%list
       | [] => Raise IndexError
       end
     else Ok opcode) ;;
  let opcode :=
    match prefix self with
    | Some (is_rep, prefix_val) =>
        let prefix_kind := if is_rep then TABLE_PREFIX_REP else TABLE_PREFIX in
        (opcode ++ [(prefix_kind, [prefix_val])])%list
    | None => opcode
    end in
  if is_bit (vexl self) || is_bit (rexw self) then
    rexw <- bit_values 0 (or_IG (rexw self)) ;;
    vexl <- bit_values 1 (or_IG (vexl self)) ;;
    let entries := flat_map (fun r => List.map (fun l => r + l) vexl) rexw in
    Ok (opcode ++ [(TABLE_VEX, entries)])%list
  else Ok opcode.

Definition for_trie (self : t) : result (list path) :=
  opcode <- levels self ;;
  let kinds := List.map fst opcode in
  let values := List.map snd opcode in
  Ok (List.map (fun prod => combine kinds prod) (product values)).

End Opcode.

(** [format_opcode]: the name of a path, the prefixes before the opcode. *)
Fixpoint format_go (opcode : path) (prefix opcode_string : string)
  : result string :=
  match opcode with
  | [] => Ok (prefix ++ opcode_string)
  | (kind, byte) :: rest =>
      match kind with
      | TABLE_ROOT =>
          e <- Py.index [""; "0f"; "0f38"; "0f3a"] (Z.land byte 3) ;;
          v <- Py.index [""; "VEX."] (Z.shiftr byte 2) ;;
          format_go rest (prefix ++ v) (opcode_string ++ e)
      | TABLE256 =>
          format_go rest prefix (opcode_string ++ Py.hex02 byte)
      | TABLE8 | TABLE72 =>
          format_go rest prefix (opcode_string ++ "/" ++ Py.hex byte)
      | TABLE_PREFIX =>
          let prefix := if Z.land byte 4 =? 0 then prefix
                        else prefix ++ "VEX." in
          p <- Py.index ["NP."; "66."; "F3."; "F2."] (Z.land byte 3) ;;
          format_go rest (prefix ++ p) opcode_string
      | TABLE_PREFIX_REP =>
          p <- Py.index ["RNP."; "??."; "RF3."; "RF2."] (Z.land byte 3) ;;
          format_go rest (prefix ++ p) opcode_string
      | TABLE_VEX =>
          format_go rest
                    (prefix ++ "W" ++ Py.dec (Z.land byte 1) ++ ".L"
                            ++ Py.dec (Z.shiftr byte 1) ++ ".")
                    opcode_string
      | NONE | INSTR => Raise (BuildError "unsupported opcode kind {}")
      end
  end.

Definition format_opcode (opcode : path) : result string :=
  format_go opcode "" "".

(** ** The table under construction *)

Module Table.

(** [data] is the ordered dictionary of the nodes, [offsets] and
    [annotations] are filled by [calc_offsets]. *)
Record t : Type := mk {
  data : list (string * TrieEntry.t);
  roots : list string;
  offsets : list (string * Z);
  annotations : list (Z * string)
}.

Definition with_data (self : t) (d : list (string * TrieEntry.t)) : t :=
  mk d (roots self) (offsets self) (annotations self).

Definition root_name (i : Z) : string := "root" ++ Py.dec i.

(** ["t{},{}".format(root_idx, s)] *)
Definition node_name (root_idx : Z) (s : string) : string :=
  "t" ++ Py.dec root_idx ++ "," ++ s.

Definition range (n : nat) : list Z := List.map Z.of_nat (seq 0 n).

Definition init (root_count : nat) : result t :=
  root <- TrieEntry.table TABLE_ROOT ;;
  Ok (mk (fold_left (fun d i => Py.set d (root_name i) root)
                    (range root_count) [])
         (List.map root_name (range root_count)) [] []).

(** A stored child is truthy unless it is [None] or the empty string. *)
Definition truthy (item : option string) : bool :=
  match item with
  | Some s => negb (String.eqb s "")
  | None => false
  end.

Definition _update_table (self : t) (name : string) (idx : Z)
           (entry_name : string) (entry_val : TrieEntry.t) : result t :=
  e <- Py.getitem (data self) name ;;
  item <- Py.index (TrieEntry.items e) idx ;;
  if truthy item then Raise (BuildError "{}/{} set, not overriding to {}")
  else
    let d := Py.set (data self) entry_name entry_val in
    e <- Py.getitem d name ;;
    Ok (with_data self
                  (Py.set d name (TrieEntry.update e idx (Some entry_name)))).

(** The loop of [add_opcode]: [rest] is [opcode[i:]] and [tn] the node
    reached so far.  It returns the node that takes the terminal. *)
Fixpoint walk (root_idx : Z) (opcode : path) (i : nat) (rest : path)
         (tn : string) (self : t) : result (string * t) :=
  match rest with
  | (_, byte) :: ((kind, _) :: _) as rest' =>
      let prev_tn := tn in
      e <- Py.getitem (data self) tn ;;
      tn <- Py.index (TrieEntry.items e) byte ;;
      '(tn, self) <-
        match tn with
        | None =>
            s <- format_opcode (firstn (i + 1) opcode) ;;
            let tn := node_name root_idx s in
            entry <- TrieEntry.table kind ;;
            self <- _update_table self prev_tn byte tn entry ;;
            Ok (tn, self)
        | Some tn => Ok (tn, self)
        end ;;
      e <- Py.getitem (data self) tn ;;
      if negb (EntryKind_eqb (TrieEntry.kind e) kind) then
        Raise (BuildError "{}, have {}, want {}")
      else walk root_idx opcode (S i) rest' tn self
  | _ => Ok (tn, self)
  end.

Definition add_opcode (self : t) (opcode : path)
           (instr_encoding : list word) (root_idx : Z) : result t :=
  s <- format_opcode opcode ;;
  let name := node_name root_idx s in
  '(tn, self) <- walk root_idx opcode 0 opcode (root_name root_idx) self ;;
  last <- Py.index opcode (-1) ;;
  _update_table self tn (snd last) name (TrieEntry.instr instr_encoding).

End Table.

(** ** Deduplication and layout *)

Definition nodes : Type := list (string * TrieEntry.t).

Module Dedup.

(** [entries[entry]] on the dictionary keyed by entries. *)
Fixpoint lookup (entries : list (TrieEntry.t * string)) (e : TrieEntry.t)
  : option string :=
  match entries with
  | [] => None
  | (e', name) :: rest =>
      if TrieEntry.eqb e' e then Some name else lookup rest e
  end.

(** The first loop of a pass: [entries] maps each entry to the first name
    that carries it, [synonyms] maps every later name to that first one. *)
Fixpoint scan (d : nodes) (entries : list (TrieEntry.t * string))
         (synonyms : list (string * string)) : list (string * string) :=
  match d with
  | [] => synonyms
  | (name, entry) :: rest =>
      match lookup entries entry with
      | Some first => scan rest entries (Py.set synonyms name first)
      | None => scan rest (entries ++ [(entry, name)]) synonyms
      end
  end.

(** [synonyms.get(v, v)] *)
Definition rename (synonyms : list (string * string)) (v : option string)
  : option string :=
  match v with
  | Some s => match Py.get synonyms s with
              | Some u => Some u
              | None => v
              end
  | None => None
  end.

(** The second loop: every child reference goes through [synonyms]. *)
Definition rewrite (synonyms : list (string * string)) (d : nodes) : nodes :=
  List.map (fun '(name, entry) =>
              (name, TrieEntry.map entry (fun _ v => rename synonyms v)))
           d.

(** The third loop: the synonyms are deleted. *)
Definition delete (synonyms : list (string * string)) (d : nodes) : nodes :=
  fold_left (fun d key => Py.del d key) (Py.keys synonyms) d.

(** One pass, given the synonyms it found. *)
Definition apply (synonyms : list (string * string)) (d : nodes) : nodes :=
  delete synonyms (rewrite synonyms d).

Definition pass (d : nodes) : nodes := apply (scan d [] []) d.

Lemma del_length {V} (d : list (string * V)) k :
  (List.length (Py.del d k) <= List.length d)%nat.
Proof.
  induction d as [|[k' v] d IH]; simpl; [lia|].
  destruct (String.eqb k' k); simpl; lia.
Qed.

Lemma del_length_in {V} (d : list (string * V)) k :
  In k (Py.keys d) -> (List.length (Py.del d k) < List.length d)%nat.
Proof.
  induction d as [|[k' v] d IH]; simpl; [tauto|].
  intros [->|Hin].
  - rewrite String.eqb_refl. lia.
  - destruct (String.eqb k' k); simpl; [lia|]. apply IH in Hin. lia.
Qed.

Lemma delete_keys_length (ks : list string) (d : nodes) :
  (List.length (fold_left (fun d key => Py.del d key) ks d)
   <= List.length d)%nat.
Proof.
  revert d. induction ks as [|k ks IH]; intros d; simpl; [lia|].
  specialize (IH (Py.del d k)). pose proof (del_length d k). lia.
Qed.

Lemma rewrite_keys synonyms d : Py.keys (rewrite synonyms d) = Py.keys d.
Proof.
  unfold rewrite, Py.keys. rewrite List.map_map.
  apply List.map_ext. now intros [n e].
Qed.

Lemma set_keys_incl {V} (s : list (string * V)) k v x :
  In x (Py.keys (Py.set s k v)) -> x = k \/ In x (Py.keys s).
Proof.
  induction s as [|[k' v'] s IH]; simpl.
  - intros [<-|[]]. now left.
  - destruct (String.eqb k' k) eqn:E; simpl; [tauto|].
    intros [<-|H]; [tauto|]. apply IH in H. tauto.
Qed.

(** Every synonym is the name of a node. *)
Lemma scan_keys d : forall entries synonyms x,
  In x (Py.keys (scan d entries synonyms)) ->
  In x (Py.keys synonyms) \/ In x (Py.keys d).
Proof.
  induction d as [|[name entry] d IH]; intros entries synonyms x; simpl.
  - tauto.
  - destruct (lookup entries entry); intros H; apply IH in H.
    + destruct H as [H|H]; [|tauto].
      apply set_keys_incl in H. destruct H as [->|H]; tauto.
    + tauto.
Qed.

(** A pass that found a synonym leaves fewer nodes. *)
Lemma apply_shrinks synonyms d :
  synonyms <> [] ->
  (forall x, In x (Py.keys synonyms) -> In x (Py.keys d)) ->
  (List.length (apply synonyms d) < List.length d)%nat.
Proof.
  intros Hne Hsub. unfold apply, delete.
  destruct synonyms as [|[k u] syn]; [congruence|]. simpl.
  assert (Hk : In k (Py.keys (rewrite ((k, u) :: syn) d))).
  { rewrite rewrite_keys. apply Hsub. now left. }
  apply del_length_in in Hk.
  pose proof (delete_keys_length (Py.keys syn)
                (Py.del (rewrite ((k, u) :: syn) d) k)) as Hle.
  unfold rewrite in *. rewrite List.length_map in *. lia.
Qed.

Lemma pass_shrinks d :
  scan d [] [] <> [] -> (List.length (pass d) < List.length d)%nat.
Proof.
  intros Hne. apply apply_shrinks; [exact Hne|].
  intros x Hx. apply scan_keys in Hx. simpl in Hx. tauto.
Qed.

Definition inspect {A} (a : A) : {b : A | a = b} := exist _ a eq_refl.

(** The loop of [deduplicate]: passes are repeated until one finds no
    synonym. *)
#[local] Obligation Tactic := idtac.

Equations loop (d : nodes) : nodes by wf (List.length d) lt :=
  loop d with inspect (scan d [] []) := {
    | exist _ [] _ => apply [] d
    | exist _ (s :: syn) Heq => loop (apply (s :: syn) d)
  }.
Next Obligation.
  intros d s syn Heq _. simpl in Heq.
  rewrite <- Heq. apply pass_shrinks. rewrite Heq. discriminate.
Qed.

End Dedup.

Module Layout.

(** [(n + 3) & ~3] *)
Definition round4 (n : Z) : Z := Z.land (n + 3) (Z.lnot 3).

Fixpoint zset {V} (d : list (Z * V)) (k : Z) (v : V) : list (Z * V) :=
  match d with
  | [] => [(k, v)]
  | (k', v') :: d' =>
      if Z.eqb k' k then (k', v) :: d' else (k', v') :: zset d' k v
  end.

(** The loop of [calc_offsets]; the result carries the final [current]. *)
Fixpoint assign (d : nodes) (current : Z) (self : Table.t) : Table.t * Z :=
  match d with
  | [] => (self, current)
  | (name, entry) :: rest =>
      let note := name ++ "("
                  ++ Py.dec (EntryKind_value (TrieEntry.kind entry)) ++ ")" in
      let self := Table.mk (Table.data self) (Table.roots self)
                           (Py.set (Table.offsets self) name current)
                           (zset (Table.annotations self) current note) in
      assign rest (current + round4 (TrieEntry.encode_length entry)) self
  end.

Definition calc_offsets (self : Table.t) : result Table.t :=
  let '(self, current) := assign (Table.data self) 0 self in
  if 32768 <=? current then
    Raise (BuildError "maximum table size exceeded: {:x}")
  else Ok self.

Definition encode_item (self : Table.t) (name : string) : result Z :=
  off <- Py.getitem (Table.offsets self) name ;;
  e <- Py.getitem (Table.data self) name ;;
  Ok (Z.lor (Z.shiftl off 1) (EntryKind_value (TrieEntry.kind e))).

(** [<] on strings: by code point, a proper prefix first. *)
Fixpoint str_lt (a b : string) : bool :=
  match a, b with
  | EmptyString, EmptyString => false
  | EmptyString, String _ _ => true
  | String _ _, EmptyString => false
  | String x a', String y b' =>
      if Ascii.eqb x y then str_lt a' b'
      else (nat_of_ascii x <? nat_of_ascii y)%nat
  end.

(** [<] on tuples: the first position where the two differ decides, and a
    proper prefix comes first. *)
Fixpoint tuple_lt {A} (eqb : A -> A -> bool) (lt : A -> A -> result bool)
         (v w : list A) : result bool :=
  match v, w with
  | [], [] => Ok false
  | [], _ :: _ => Ok true
  | _ :: _, [] => Ok false
  | x :: v', y :: w' => if eqb x y then tuple_lt eqb lt v' w' else lt x y
  end.

(** [<] on child references: [None] is not ordered. *)
Definition item_lt (a b : option string) : result bool :=
  match a, b with
  | Some x, Some y => Ok (str_lt x y)
  | _, _ => Raise TypeError
  end.

(** [<] on payload words: a number and a string are not ordered. *)
Definition word_lt (a b : word) : result bool :=
  match a, b with
  | Int n, Int m => Ok (n <? m)
  | Tag x, Tag y => Ok (str_lt x y)
  | _, _ => Raise TypeError
  end.

(** [<] on entries, which are tuples of a kind, the items and the
    payload: the members of [EntryKind] are not ordered. *)
Definition entry_lt (a b : TrieEntry.t) : result bool :=
  if negb (EntryKind_eqb (TrieEntry.kind a) (TrieEntry.kind b)) then
    Raise TypeError
  else if negb (list_eqb (option_eqb String.eqb)
                         (TrieEntry.items a) (TrieEntry.items b)) then
    tuple_lt (option_eqb String.eqb) item_lt
             (TrieEntry.items a) (TrieEntry.items b)
  else tuple_lt word_eqb word_lt (TrieEntry.payload a) (TrieEntry.payload b).

(** [<] on the [(offset, entry)] pairs: the entries are compared when the
    offsets are equal. *)
Definition pair_lt (x y : Z * TrieEntry.t) : result bool :=
  if fst x =? fst y then entry_lt (snd x) (snd y)
  else Ok (fst x <? fst y).

(** [sorted] on the [(offset, entry)] pairs.  CPython's sort starts by
    comparing each element with the one before it, for as long as the list
    is in order; on a list that is in order, as the offsets that
    [calc_offsets] assigns are, it makes no other comparison.  Each
    element is therefore inserted from the right end of the part that is
    sorted, which is kept last element first. *)
Fixpoint insert (x : Z * TrieEntry.t) (acc : list (Z * TrieEntry.t))
  : result (list (Z * TrieEntry.t)) :=
  match acc with
  | [] => Ok [x]
  | y :: rest =>
      b <- pair_lt x y ;;
      if b then r <- insert x rest ;; Ok (y :: r)
      else Ok (x :: acc)
  end.

Fixpoint sort_into (l acc : list (Z * TrieEntry.t))
  : result (list (Z * TrieEntry.t)) :=
  match l with
  | [] => Ok (rev acc)
  | x :: l' => acc <- insert x acc ;; sort_into l' acc
  end.

Definition sorted (l : list (Z * TrieEntry.t))
  : result (list (Z * TrieEntry.t)) :=
  sort_into l [].

(** [(off, self.data[k]) for k, off in self.offsets.items()] *)
Fixpoint placed (self : Table.t) (offs : list (string * Z))
  : result (list (Z * TrieEntry.t)) :=
  match offs with
  | [] => Ok []
  | (k, off) :: rest =>
      e <- Py.getitem (Table.data self) k ;;
      l <- placed self rest ;;
      Ok ((off, e) :: l)
  end.

(** The serialisation loop of [compile]. *)
Fixpoint emit (self : Table.t) (ordered : list (Z * TrieEntry.t))
         (data : list word) : result (list word) :=
  match ordered with
  | [] => Ok data
  | (off, entry) :: rest =>
      enc <- TrieEntry.encode entry (encode_item self) ;;
      emit self rest
           (data ++ repeat (Int 0) (Z.to_nat (off - Py.len data)) ++ enc)%list
  end.

Fixpoint root_offsets (self : Table.t) (roots : list string)
  : result (list Z) :=
  match roots with
  | [] => Ok []
  | k :: rest =>
      off <- Py.getitem (Table.offsets self) k ;;
      offs <- root_offsets self rest ;;
      Ok (off :: offs)
  end.

(** [compile] returns the table data, the annotations and the offsets of
    the roots. *)
Definition compile (self : Table.t)
  : result (list word * list (Z * string) * list Z) :=
  self <- calc_offsets self ;;
  ordered <- placed self (Table.offsets self) ;;
  ordered <- sorted ordered ;;
  data <- emit self ordered [] ;;
  roots <- root_offsets self (Table.roots self) ;;
  Ok (data, Table.annotations self, roots).

End Layout.

Definition deduplicate (self : Table.t) : Table.t :=
  Table.with_data self (Dedup.loop (Table.data self)).

(** ** The driver *)

Module Main.

(** [line.split(maxsplit=1)]: the first field and what follows the
    whitespace after it. *)
Fixpoint lstrip (s : string) : string :=
  match s with
  | String c s' => if isspace c then lstrip s' else s
  | EmptyString => s
  end.

Fixpoint first_field (s : string) : string * string :=
  match s with
  | String c s' =>
      if isspace c then (EmptyString, lstrip s')
      else let '(f, r) := first_field s' in (String c f, r)
  | EmptyString => (EmptyString, EmptyString)
  end.

Definition split1 (line : string) : list string :=
  let '(f, r) := first_field (lstrip line) in
  filter (fun x => negb (String.eqb x "")) [f; r].

(** The loop that reads the catalog: blank lines and lines that start
    with ['#'] are skipped. *)
Fixpoint read (lines : list string)
  : result (list (option Opcode.t * InstrDesc.t)) :=
  match lines with
  | [] => Ok []
  | line :: rest =>
      match line with
      | EmptyString | String "#" _ => read rest
      | _ =>
          match split1 line with
          | [opcode_string; desc] =>
              o <- Opcode.parse opcode_string ;;
              d <- InstrDesc.parse desc ;;
              es <- read rest ;;
              Ok ((o, d) :: es)
          | _ => Raise ValueError
          end
      end
  end.

(** ["ONLY%d" % (96 - mode) not in desc.flags] *)
Definition selected (mode : Z) (desc : InstrDesc.t) : bool :=
  negb (Py.mem ("ONLY" ++ Py.dec (96 - mode)) (InstrDesc.flags desc)).

Fixpoint add_paths (table : Table.t) (paths : list path)
         (desc : InstrDesc.t) (i : Z) : result Table.t :=
  match paths with
  | [] => Ok table
  | opcode_path :: rest =>
      enc <- InstrDesc.encode desc ;;
      table <- Table.add_opcode table opcode_path enc i ;;
      add_paths table rest desc i
  end.

(** The loop over [enumerate(args.modes)] for one entry. *)
Fixpoint add_entry (table : Table.t) (opcode : option Opcode.t)
         (desc : InstrDesc.t) (i : Z) (modes : list Z) : result Table.t :=
  match modes with
  | [] => Ok table
  | mode :: rest =>
      table <-
        (if selected mode desc then
           o <- from_option AttributeError opcode ;;
           paths <- Opcode.for_trie o ;;
           add_paths table paths desc i
         else Ok table) ;;
      add_entry table opcode desc (i + 1) rest
  end.

Fixpoint add_entries (table : Table.t)
         (entries : list (option Opcode.t * InstrDesc.t)) (modes : list Z)
  : result Table.t :=
  match entries with
  | [] => Ok table
  | (opcode, desc) :: rest =>
      table <- add_entry table opcode desc 0 modes ;;
      add_entries table rest modes
  end.

(** The table data and the [FD_TABLE_OFFSET_<mode>] constants. *)
Definition main (modes : list Z) (lines : list string)
  : result (list word * list (Z * Z)) :=
  entries <- read lines ;;
  table <- Table.init (List.length modes) ;;
  table <- add_entries table entries modes ;;
  let table := deduplicate table in
  '(table_data, _, root_offsets) <- Layout.compile table ;;
  Ok (table_data, combine modes root_offsets).

End Main.

(** * Properties *)

(** ** Inversion of the error monad *)

Lemma bind_ok {A B} (r : result A) (k : A -> result B) (b : B) :
  bind r k = Ok b -> exists a, r = Ok a /\ k a = Ok b.
Proof. destruct r as [a|e]; simpl; [eauto | discriminate]. Qed.

Ltac inv_bind H :=
  let a := fresh "a" in
  let Ha := fresh "Ha" in
  apply bind_ok in H; destruct H as (a & Ha & H).

(** ** The payload of an instruction node *)

Definition record_words (enc : Z) : list word :=
  [ Int (enc mod 65536); Int ((enc / 65536) mod 65536);
    Int ((enc / 4294967296) mod 65536) ].

Lemma le16 (n : Z) : n mod 256 + 256 * ((n / 256) mod 256 + 256 * 0) = n mod 65536.
Proof.
  change 65536 with (256 * 256).
  rewrite Z.rem_mul_r by lia. lia.
Qed.

Lemma emit_words (self : InstrDesc.t) (flags : object) (p : list word) :
  InstrDesc.emit self flags = Ok p ->
  exists enc, bitstruct.pack InstrFlags_fields flags 0 0 = Ok enc
              /\ 0 <= enc < 2 ^ 48
              /\ p = Tag ("FDI_" ++ InstrDesc.mnemonic self) :: record_words enc.
Proof.
  unfold InstrDesc.emit, bitstruct._encode. intros H.
  inv_bind H. inv_bind Ha. exists a0. split; [exact Ha0|].
  unfold bitstruct.to_bytes in Ha.
  destruct ((a0 <? 0) || (256 ^ Z.of_nat 6 <=? a0)) eqn:E; [discriminate|].
  apply orb_false_iff in E. destruct E as [E1 E2].
  apply Z.ltb_ge in E1. apply Z.leb_gt in E2.
  change (256 ^ Z.of_nat 6) with (2 ^ 48) in E2.
  split; [lia|].
  injection Ha as <-. injection H as <-.
  unfold record_words. cbn [bitstruct.le_bytes List.map skipn firstn bitstruct.from_bytes].
  rewrite !le16.
  replace (a0 / 256 / 256) with (a0 / 65536)
    by (rewrite Z.div_div by lia; reflexivity).
  replace (a0 / 65536 / 256 / 256) with (a0 / 4294967296)
    by (rewrite !Z.div_div by lia; reflexivity).
  reflexivity.
Qed.

(** C1 (as the code has it).  The payload that [InstrDesc.encode] produces
    starts with the mnemonic symbol; the three 16-bit words of the 48-bit
    record follow it, least significant first, and the layout compiler emits
    the payload of an instruction node unchanged, in that order. *)
Theorem encode_payload_tag_first (d : InstrDesc.t) (p : list word) :
  InstrDesc.encode d = Ok p ->
  exists flags0 flags enc,
    InstrDesc.encode_flags d = Ok flags0
    /\ InstrDesc.refine_imm d flags0 = Ok flags
    /\ bitstruct.pack InstrFlags_fields flags 0 0 = Ok enc
    /\ 0 <= enc < 2 ^ 48
    /\ p = Tag ("FDI_" ++ InstrDesc.mnemonic d) :: record_words enc
    /\ forall encode_item,
         TrieEntry.encode (TrieEntry.instr p) encode_item = Ok p.
Proof.
  unfold InstrDesc.encode. intros H.
  inv_bind H. inv_bind H.
  apply emit_words in H. destruct H as (enc & Hp & Hr & ->).
  exists a, a0, enc.
  split; [assumption|]. split; [assumption|]. split; [assumption|].
  split; [lia|]. split; [reflexivity|].
  intros f. reflexivity.
Qed.

Definition nop : InstrDesc.t := InstrDesc.mk "NOP" "NP" [] [].

Lemma encode_payload_tag_first_witness :
  InstrDesc.encode nop = Ok [Tag "FDI_NOP"; Int 0; Int 1024; Int 0]
  /\ exists flags0 flags enc,
       InstrDesc.encode_flags nop = Ok flags0
       /\ InstrDesc.refine_imm nop flags0 = Ok flags
       /\ bitstruct.pack InstrFlags_fields flags 0 0 = Ok enc
       /\ 0 <= enc < 2 ^ 48
       /\ [Tag "FDI_NOP"; Int 0; Int 1024; Int 0]
          = Tag ("FDI_" ++ InstrDesc.mnemonic nop) :: record_words enc
       /\ forall encode_item,
            TrieEntry.encode
              (TrieEntry.instr [Tag "FDI_NOP"; Int 0; Int 1024; Int 0])
              encode_item
            = Ok [Tag "FDI_NOP"; Int 0; Int 1024; Int 0].
Proof.
  split; [reflexivity|].
  apply (encode_payload_tag_first nop). reflexivity.
Defined.

(** The payload order of the claim, record first and tag last. *)
Definition tag_last (p : list word) : Prop :=
  exists w0 w1 w2 tag, p = [Int w0; Int w1; Int w2; Tag tag].

(** C1 (counterexample).  For the line [90 NP - - - - NOP] the serialised
    instruction node starts with the mnemonic symbol, so the tag is not its
    fourth word. *)
Lemma encode_payload_not_tag_last :
  exists p,
    (d <- InstrDesc.parse "NP - - - - NOP" ;; InstrDesc.encode d) = Ok p
    /\ TrieEntry.encode (TrieEntry.instr p) (fun _ => Ok 0) = Ok p
    /\ p = [Tag "FDI_NOP"; Int 0; Int 1024; Int 0]
    /\ ~ tag_last p.
Proof.
  eexists. split; [reflexivity|]. split; [reflexivity|]. split; [reflexivity|].
  intros (w0 & w1 & w2 & tag & H). discriminate H.
Qed.

(** ** The capacity check of the layout *)

(** The 16-bit words the nodes occupy, each node padded to four words. *)
Fixpoint total_words (d : nodes) : Z :=
  match d with
  | [] => 0
  | (_, entry) :: rest =>
      Layout.round4 (TrieEntry.encode_length entry) + total_words rest
  end.

(** The size of the serialised nodes in bytes. *)
Definition serialized_bytes (d : nodes) : Z := 2 * total_words d.

Lemma assign_current (d : nodes) : forall current self,
  snd (Layout.assign d current self) = current + total_words d.
Proof.
  induction d as [|[name entry] d IH]; intros current self; simpl.
  - lia.
  - rewrite IH. lia.
Qed.

(** C3 (as the code has it).  [calc_offsets] counts 16-bit words: it raises
    the capacity error exactly when the nodes take 0x8000 words or more,
    that is 0x10000 bytes or more, and lays out every smaller table. *)
Theorem calc_offsets_capacity (self : Table.t) :
  match Layout.calc_offsets self with
  | Ok _ => serialized_bytes (Table.data self) < 65536
  | Raise e => e = BuildError "maximum table size exceeded: {:x}"
               /\ 65536 <= serialized_bytes (Table.data self)
  end.
Proof.
  unfold Layout.calc_offsets, serialized_bytes.
  pose proof (assign_current (Table.data self) 0 self) as H.
  destruct (Layout.assign (Table.data self) 0 self) as [self' current].
  cbn [snd] in H. rewrite Z.add_0_l in H. subst current. cbv beta iota.
  destruct (32768 <=? total_words (Table.data self)) eqn:E.
  - apply Z.leb_le in E. split; [reflexivity | lia].
  - apply Z.leb_gt in E. lia.
Qed.

(** ** Parsing and expansion of opcode patterns *)

(** The paths of a pattern, as the driver obtains them. *)
Definition expand (opcode_string : string) : result (list path) :=
  o <- Opcode.parse opcode_string ;;
  o <- from_option AttributeError o ;;
  Opcode.for_trie o.

(** The nodes that the table holds after the given catalog lines. *)
Definition build (modes : list Z) (lines : list string) : result Table.t :=
  entries <- Main.read lines ;;
  table <- Table.init (List.length modes) ;;
  Main.add_entries table entries modes.

Definition payload_of (t : Table.t) (name : string) : option (list word) :=
  option_map TrieEntry.payload (Py.get (Table.data t) name).

Lemma parse_extended (s : string) (o : Opcode.t) :
  Opcode.parse s = Ok (Some o) ->
  Opcode.extended o = true ->
  Opcode.opcext o = None \/ exists v, Opcode.opcext o = Some (true, v).
Proof.
  unfold Opcode.parse. intros H Hext.
  destruct (Regex.match_ s) as [m|]; [|discriminate].
  inv_bind H.
  destruct (is_some (Regex.extended m)
            && match a with Some (is72, _) => negb is72 | None => false end)
    eqn:E; [discriminate|].
  inv_bind H. inv_bind H. inv_bind H. injection H as <-.
  simpl in Hext. rewrite Hext in E. simpl in E. simpl.
  destruct a as [[[|] v]|]; [right; eauto | discriminate | now left].
Qed.

(** C4 (as the code has it).  The ['+'] marker is accepted only without a
    ModR/M extension or with a [//] extension: ['c0/0+'] is rejected with a
    build error, while ['c0//0+'] parses and expands to exactly eight paths
    whose TABLE72 bytes are the slots 0 to 7, and a catalog line with that
    pattern stores the same record under each of them. *)
Theorem extended_requires_72_kind :
  (forall s o, Opcode.parse s = Ok (Some o) ->
               Opcode.extended o = true ->
               Opcode.opcext o = None
               \/ exists v, Opcode.opcext o = Some (true, v))
  /\ Opcode.parse "c0/0+" = Raise (BuildError "invalid opcode extension: {}")
  /\ expand "c0//0+"
     = Ok (List.map (fun i => [(TABLE_ROOT, 0); (TABLE256, 192); (TABLE72, i)])
                    [0; 1; 2; 3; 4; 5; 6; 7])
  /\ (t <- build [64] ["c0//0+ MI GP8 IMM8 - - ROL SIZE_8"] ;;
      Ok (List.map (payload_of t)
                   ["t0,c0/0"; "t0,c0/1"; "t0,c0/2"; "t0,c0/3";
                    "t0,c0/4"; "t0,c0/5"; "t0,c0/6"; "t0,c0/7"]))
     = Ok (repeat (Some [Tag "FDI_ROL"; Int 20995; Int 1280; Int 56]) 8).
Proof.
  split; [exact parse_extended|].
  split; [reflexivity|]. split; [reflexivity|].
  vm_compute. reflexivity.
Qed.

Lemma extended_requires_72_kind_witness :
  exists o, Opcode.parse "c0//0+" = Ok (Some o)
            /\ Opcode.extended o = true
            /\ (Opcode.opcext o = None
                \/ exists v, Opcode.opcext o = Some (true, v)).
Proof.
  eexists. split; [reflexivity|]. split; [reflexivity|].
  apply (proj1 extended_requires_72_kind "c0//0+"); reflexivity.
Defined.

(** C4 (counterexample).  Parsing ['c0/0+'] does not succeed. *)
Lemma parse_c0_slash0_plus_rejected :
  ~ exists o, Opcode.parse "c0/0+" = Ok (Some o).
Proof. intros [o H]. vm_compute in H. discriminate H. Qed.

(** *** VEX.W and VEX.L *)

Definition without_WL (o : Opcode.t) : Opcode.t :=
  Opcode.mk (Opcode.prefix o) (Opcode.escape o) (Opcode.opc o)
            (Opcode.opcext o) (Opcode.extended o) (Opcode.vex o) None None.

Lemma in_combine_fst {A B} (k : A) (ks : list A) : forall (vs : list B),
  In k (List.map fst (combine ks vs)) -> In k ks.
Proof.
  induction ks as [|k' ks IH]; intros [|v vs]; simpl; try tauto.
  intros [->|H]; [now left | right; eauto].
Qed.

Lemma levels_IG_IG (o : Opcode.t) (l : list (EntryKind * list Z)) :
  Opcode.vexl o = Some "IG" -> Opcode.rexw o = Some "IG" ->
  Opcode.levels o = Ok l ->
  Opcode.levels (without_WL o) = Ok l /\ ~ In TABLE_VEX (List.map fst l).
Proof.
  destruct o as [prefix escape opc opcext extended vex vexl rexw].
  simpl. intros -> ->. unfold Opcode.levels. simpl.
  destruct opcext as [[[|] v]|], extended, prefix as [[[|] pv]|]; simpl;
    intros H; injection H as <-; (split; [reflexivity|]); simpl;
    intuition discriminate.
Qed.

(** C6 (as the code has it).  When both VEX.L and VEX.W are given as [IG]
    the expansion has no TABLE_VEX level at all: the pattern yields exactly
    the paths of the same pattern written without the two markers. *)
Theorem for_trie_IG_IG (o : Opcode.t) (paths : list path) :
  Opcode.vexl o = Some "IG" -> Opcode.rexw o = Some "IG" ->
  Opcode.for_trie o = Ok paths ->
  Opcode.for_trie (without_WL o) = Ok paths
  /\ forall p, In p paths -> ~ In TABLE_VEX (List.map fst p).
Proof.
  intros Hl Hw. unfold Opcode.for_trie. intros H. inv_bind H.
  injection H as <-.
  destruct (levels_IG_IG o a Hl Hw Ha) as [-> Hno].
  split; [reflexivity|].
  intros p Hp. apply in_map_iff in Hp. destruct Hp as (prod & <- & _).
  intros Hin. apply in_combine_fst in Hin. exact (Hno Hin).
Qed.

Definition vex_IG_IG : Opcode.t :=
  Opcode.mk (Some (false, 1)) 1 16 None false true (Some "IG") (Some "IG").

Lemma for_trie_IG_IG_witness :
  Opcode.parse "VEX.66.WIG.LIG.0f10" = Ok (Some vex_IG_IG)
  /\ Opcode.for_trie (without_WL vex_IG_IG)
     = Ok [[(TABLE_ROOT, 5); (TABLE256, 16); (TABLE_PREFIX, 1)]]
  /\ forall p, In p [[(TABLE_ROOT, 5); (TABLE256, 16); (TABLE_PREFIX, 1)]] ->
               ~ In TABLE_VEX (List.map fst p).
Proof.
  split; [reflexivity|].
  apply (for_trie_IG_IG vex_IG_IG); reflexivity.
Defined.

(** C6 (counterexample).  ['VEX.66.WIG.LIG.0f10'] expands to one path, as
    many as the pattern with fixed bits or with no markers, and not to four
    times as many. *)
Lemma IG_IG_does_not_multiply :
  (ps <- expand "VEX.66.WIG.LIG.0f10" ;; Ok (List.length ps)) = Ok 1%nat
  /\ (ps <- expand "VEX.66.W0.L0.0f10" ;; Ok (List.length ps)) = Ok 1%nat
  /\ (ps <- expand "VEX.66.0f10" ;; Ok (List.length ps)) = Ok 1%nat
  /\ expand "VEX.66.WIG.LIG.0f10"
     = Ok [[(TABLE_ROOT, 5); (TABLE256, 16); (TABLE_PREFIX, 1)]]
  /\ (1 <> 4 * 1)%nat.
Proof. repeat split; try reflexivity. lia. Qed.

(** ** Mode filtering *)

Lemma mem_In (x : string) (s : list string) : Py.mem x s = true <-> In x s.
Proof.
  unfold Py.mem. rewrite existsb_exists. split.
  - intros (y & Hy & E). apply String.eqb_eq in E. now subst.
  - intros H. exists x. split; [exact H | apply String.eqb_refl].
Qed.

Lemma selected_iff (mode : Z) (desc : InstrDesc.t) :
  Main.selected mode desc = true
  <-> ~ In ("ONLY" ++ Py.dec (96 - mode)) (InstrDesc.flags desc).
Proof.
  unfold Main.selected. rewrite negb_true_iff, <- not_true_iff_false, mem_In.
  tauto.
Qed.

(** ** The immediate-width refinement *)

Lemma get_set {V} (d : list (string * V)) (k n : string) (v : V) :
  Py.get (Py.set d k v) n = if String.eqb k n then Some v else Py.get d n.
Proof.
  induction d as [|[k' v'] d IH]; simpl.
  - reflexivity.
  - destruct (String.eqb k' k) eqn:E; simpl.
    + apply String.eqb_eq in E. subst k'.
      destruct (String.eqb k n); reflexivity.
    + rewrite IH. destruct (String.eqb k n) eqn:E2; [|reflexivity].
      apply String.eqb_eq in E2. subst n. now rewrite E.
Qed.

(** Every field of the bit-struct is an attribute of the object. *)
Definition has_fields (o : object) : Prop :=
  forall n, In n (List.map fst InstrFlags_fields) -> Py.get o n <> None.

Lemma has_fields_set (o : object) (k : string) (v : Z) :
  has_fields o -> has_fields (setattr o k v).
Proof.
  intros H n Hn. unfold setattr. rewrite get_set.
  destruct (String.eqb k n); [discriminate | now apply H].
Qed.

Lemma has_fields_init kwargs : has_fields (InstrFlags kwargs).
Proof.
  intros n Hn. unfold InstrFlags, bitstruct.init. simpl in Hn.
  repeat (destruct Hn as [<-|Hn]; [simpl; discriminate|]).
  destruct Hn.
Qed.

Lemma encodings_have_fields (name : string) (f : object) :
  Py.get ENCODINGS name = Some f -> has_fields f.
Proof.
  unfold ENCODINGS. cbn [Py.get].
  repeat (destruct (String.eqb _ name);
          [intros H; injection H as <-; apply has_fields_init|]).
  discriminate.
Qed.

(** The operand loop leaves [imm_control] alone and keeps the fields. *)
Lemma encode_operands_keeps (sizes : list Z) (ops : list OpKind) :
  forall i flags flags',
    InstrDesc.encode_operands sizes ops i flags = Ok flags' ->
    Py.get flags' "imm_control" = Py.get flags "imm_control"
    /\ (has_fields flags -> has_fields flags').
Proof.
  induction ops as [|op ops IH]; intros i flags flags'; simpl.
  - intros H. injection H as <-. tauto.
  - intros H. inv_bind H. inv_bind H.
    destruct (i <? 3).
    + apply IH in H. destruct H as [H1 H2]. split.
      * rewrite H1. unfold setattr. rewrite !get_set. reflexivity.
      * intros Hf. apply H2. now repeat apply has_fields_set.
    + destruct (negb ((_ =? 7) || (_ =? 2))); [discriminate|].
      apply IH in H. destruct H as [H1 H2]. split.
      * rewrite H1. unfold setattr. rewrite !get_set. reflexivity.
      * intros Hf. apply H2. now apply has_fields_set.
Qed.

Lemma set_if_keeps (flag field : string) (self : InstrDesc.t) (o : object) :
  String.eqb field "imm_control" = false ->
  Py.get (InstrDesc.set_if flag self field o) "imm_control"
  = Py.get o "imm_control"
  /\ (has_fields o -> has_fields (InstrDesc.set_if flag self field o)).
Proof.
  intros E. unfold InstrDesc.set_if.
  destruct (Py.mem flag (InstrDesc.flags self)); [|tauto].
  unfold setattr at 1. rewrite get_set, E. split; [reflexivity|].
  apply has_fields_set.
Qed.

Lemma encode_flags_keeps (d : InstrDesc.t) (flags0 : object) :
  InstrDesc.encode_flags d = Ok flags0 ->
  exists f, Py.get ENCODINGS (InstrDesc.encoding d) = Some f
            /\ Py.get flags0 "imm_control" = Py.get f "imm_control"
            /\ has_fields flags0.
Proof.
  unfold InstrDesc.encode_flags. intros H. inv_bind H.
  unfold Py.getitem in Ha.
  destruct (Py.get ENCODINGS (InstrDesc.encoding d)) as [f|] eqn:Ef;
    [|discriminate].
  injection Ha as <-. exists f. split; [reflexivity|].
  inv_bind H.
  destruct ((2 <? _) || _); [discriminate|].
  inv_bind H. inv_bind H. inv_bind H. injection H as <-.
  apply encode_operands_keeps in Ha2. destruct Ha2 as [H1 H2].
  repeat match goal with
  | |- context [InstrDesc.set_if ?fl d ?fd ?o] =>
      let K := fresh "K" in
      destruct (set_if_keeps fl fd d o eq_refl) as [K ?];
      rewrite K; clear K
  end.
  split.
  - rewrite H1. unfold setattr. rewrite !get_set. reflexivity.
  - repeat match goal with
    | H : has_fields ?o -> has_fields ?o' |- has_fields ?o' => apply H
    end.
    repeat apply has_fields_set. exact (encodings_have_fields _ _ Ef).
Qed.

Fixpoint total_size (fields : list (string * Z)) : Z :=
  match fields with
  | [] => 0
  | (_, size) :: rest => size + total_size rest
  end.

Lemma masked_range (v size : Z) :
  0 <= size -> 0 <= Z.land v (Z.shiftl 1 size - 1) < 2 ^ size.
Proof.
  intros Hs. rewrite Z.shiftl_1_l, Z.sub_1_r.
  change (Z.pred (2 ^ size)) with (Z.pred (2 ^ size)).
  rewrite <- Z.ones_equiv, Z.land_ones by exact Hs.
  apply Z.mod_pos_bound. apply Z.pow_pos_nonneg; lia.
Qed.

(** Packing succeeds on an object that has the fields, and the fields do
    not overlap: the result fits the sum of their sizes. *)
Lemma pack_ok (o : object) (fields : list (string * Z)) :
  forall offset enc,
    (forall n, In n (List.map fst fields) -> Py.get o n <> None) ->
    (forall n s, In (n, s) fields -> 0 <= s) ->
    0 <= offset -> 0 <= enc < 2 ^ offset ->
    exists r, bitstruct.pack fields o offset enc = Ok r
              /\ 0 <= r < 2 ^ (offset + total_size fields).
Proof.
  induction fields as [|[name size] fields IH]; intros offset enc Hf Hs Ho He.
  - simpl. exists enc. rewrite Z.add_0_r. now split.
  - simpl. unfold getattr.
    destruct (Py.get o name) as [v|] eqn:Ev;
      [|exfalso; apply (Hf name); [now left | exact Ev]].
    simpl.
    assert (Hsz : 0 <= size) by (apply (Hs name); now left).
    pose proof (masked_range v size Hsz) as Hm.
    destruct (IH (offset + size)
                 (enc + Z.shiftl (Z.land v (Z.shiftl 1 size - 1)) offset))
      as (r & Hr & Hb).
    + intros n Hn. apply Hf. now right.
    + intros n s Hn. apply (Hs n). now right.
    + lia.
    + rewrite Z.shiftl_mul_pow2 by exact Ho.
      rewrite Z.pow_add_r by lia.
      assert (0 < 2 ^ offset) by (apply Z.pow_pos_nonneg; lia).
      nia.
    + exists r. split; [exact Hr|]. now rewrite Z.add_assoc.
Qed.

Lemma emit_ok (self : InstrDesc.t) (flags : object) :
  has_fields flags -> exists p, InstrDesc.emit self flags = Ok p.
Proof.
  intros Hf.
  destruct (pack_ok flags InstrFlags_fields 0 0) as (r & Hr & Hb).
  - exact Hf.
  - intros n s Hin. simpl in Hin.
    repeat (destruct Hin as [Hin|Hin]; [injection Hin as <- <-; lia|]).
    destruct Hin.
  - lia.
  - simpl. lia.
  - change (0 + total_size InstrFlags_fields) with 48 in Hb.
    unfold InstrDesc.emit, bitstruct._encode. rewrite Hr. simpl bind.
    unfold bitstruct.to_bytes.
    change (256 ^ Z.of_nat 6) with (2 ^ 48).
    destruct (r <? 0) eqn:E1; [apply Z.ltb_lt in E1; lia|].
    destruct (2 ^ 48 <=? r) eqn:E2; [apply Z.leb_le in E2; lia|].
    simpl. eauto.
Qed.

(** The encoding forms whose [imm_control] is at least 4. *)
Definition imm_forms : list string :=
  ["MI"; "MRI"; "RMI"; "I"; "IA"; "OI"; "D"; "RVMI"; "VMI"].

Definition control_ge_4 (f : object) : bool :=
  match Py.get f "imm_control" with
  | Some v => 4 <=? v
  | None => false
  end.

Definition has_imm (ops : list OpKind) : bool :=
  existsb (fun op => String.eqb (kind op) K_IMM) ops.

Lemma imm_forms_control (name : string) (f : object) :
  In name imm_forms -> Py.get ENCODINGS name = Some f ->
  exists ic, Py.get f "imm_control" = Some ic /\ 4 <= ic.
Proof.
  intros Hin. simpl in Hin.
  repeat (destruct Hin as [<-|Hin];
          [vm_compute; intros H; injection H as <-;
           eexists; split; [reflexivity | discriminate]|]).
  destruct Hin.
Qed.

Lemma find_existsb {A} (f : A -> bool) (l : list A) :
  existsb f l = is_some (find f l).
Proof.
  induction l as [|x l IH]; simpl; [reflexivity|].
  destruct (f x); [reflexivity | exact IH].
Qed.

(** C10 (as the code has it).  For a descriptor with an encoding form of
    [imm_control >= 4] (MI, MRI, RMI, I, IA, OI, D, RVMI, VMI) that passes
    what [encode] does before the refinement of the immediate (the lookup
    of the operand sizes, the check of the fixed sizes and the check of the
    register types), [encode] raises StopIteration from the search for the
    immediate operand when no operand has category IMM, and the refinement
    and the whole of [encode] complete normally when one has. *)
Theorem refine_imm_requires_imm_operand (d : InstrDesc.t) (flags0 : object) :
  In (InstrDesc.encoding d) imm_forms ->
  InstrDesc.encode_flags d = Ok flags0 ->
  List.map fst (filter (fun e => control_ge_4 (snd e)) ENCODINGS) = imm_forms
  /\ (has_imm (InstrDesc.operands d) = false ->
      InstrDesc.refine_imm d flags0 = Raise StopIteration
      /\ InstrDesc.encode d = Raise StopIteration)
  /\ (has_imm (InstrDesc.operands d) = true ->
      exists flags p, InstrDesc.refine_imm d flags0 = Ok flags
                      /\ InstrDesc.encode d = Ok p).
Proof.
  intros Hform Hflags. split; [reflexivity|].
  destruct (encode_flags_keeps d flags0 Hflags) as (f & Hf & Hic & Hfields).
  destruct (imm_forms_control _ f Hform Hf) as (ic & Hic' & Hge).
  rewrite Hic' in Hic.
  assert (Hs8 : exists s8, Py.get flags0 "size8" = Some s8).
  { destruct (Py.get flags0 "size8") as [s8|] eqn:E; [eauto|].
    exfalso. apply (Hfields "size8"); [simpl; tauto | exact E]. }
  destruct Hs8 as [s8 Hs8].
  unfold InstrDesc.encode. rewrite Hflags. simpl bind.
  unfold InstrDesc.refine_imm, getattr. rewrite Hic, Hs8. simpl bind.
  apply Z.leb_le in Hge. rewrite Hge.
  unfold InstrDesc.next_imm, has_imm. rewrite find_existsb.
  destruct (find _ (InstrDesc.operands d)) as [imm_op|]; simpl.
  - split; [discriminate|]. intros _.
    destruct (Py.mem "IMM_8" (InstrDesc.flags d) || (size imm_op =? 1)
              || (size imm_op =? SZ_OP) && negb (s8 =? 0)).
    + destruct (emit_ok d (setattr flags0 "imm_control" (Z.lor ic 1)))
        as [p Hp]; [now apply has_fields_set|].
      do 2 eexists. split; [reflexivity|]. simpl. exact Hp.
    + destruct (emit_ok d flags0 Hfields) as [p Hp].
      do 2 eexists. split; [reflexivity|]. simpl. exact Hp.
  - split; [now split | discriminate].
Qed.

Definition rol_no_imm : InstrDesc.t :=
  InstrDesc.mk "ROL" "MI" [mkOpKind 1 "GP"] ["SIZE_8"].

Definition rol_imm : InstrDesc.t :=
  InstrDesc.mk "ROL" "MI" [mkOpKind 1 "GP"; mkOpKind 1 K_IMM] ["SIZE_8"].

Lemma refine_imm_requires_imm_operand_witness :
  InstrDesc.encode rol_no_imm = Raise StopIteration
  /\ exists p, InstrDesc.encode rol_imm = Ok p.
Proof.
  destruct (InstrDesc.encode_flags rol_no_imm) as [f0|] eqn:E0;
    [|vm_compute in E0; discriminate E0].
  destruct (InstrDesc.encode_flags rol_imm) as [f1|] eqn:E1;
    [|vm_compute in E1; discriminate E1].
  split.
  - apply (refine_imm_requires_imm_operand rol_no_imm f0);
      [simpl; tauto | exact E0 | reflexivity].
  - destruct (refine_imm_requires_imm_operand rol_imm f1) as (_ & _ & H);
      [simpl; tauto | exact E1 |].
    destruct (H eq_refl) as (flags & p & _ & Hp). exists p. exact Hp.
Defined.

(** Two descriptors of the form MI with two vector operands of different
    fixed sizes, the second with an immediate operand besides. *)
Definition mi_two_vectors : InstrDesc.t :=
  InstrDesc.mk "X" "MI" [mkOpKind 16 "XMM"; mkOpKind 32 "XMM"] [].

Definition mi_two_vectors_imm : InstrDesc.t :=
  InstrDesc.mk "X" "MI"
               [mkOpKind 16 "XMM"; mkOpKind 32 "XMM"; mkOpKind 1 K_IMM] [].

(** C10, as stated, fails: the check of the fixed operand sizes comes before
    the search for the immediate operand.  A descriptor of the form MI
    without an IMM operand raises the size error and no StopIteration, and
    one with an IMM operand does not complete. *)
Lemma encode_size_check_precedes_imm_search :
  InstrDesc.parse "MI XMM128 XMM256 - - X" = Ok mi_two_vectors
  /\ In (InstrDesc.encoding mi_two_vectors) imm_forms
  /\ has_imm (InstrDesc.operands mi_two_vectors) = false
  /\ InstrDesc.encode mi_two_vectors
     = Raise (BuildError "invalid fixed operand sizes")
  /\ InstrDesc.encode mi_two_vectors <> Raise StopIteration
  /\ InstrDesc.parse "MI XMM128 XMM256 IMM8 - X" = Ok mi_two_vectors_imm
  /\ has_imm (InstrDesc.operands mi_two_vectors_imm) = true
  /\ InstrDesc.encode mi_two_vectors_imm
     = Raise (BuildError "invalid fixed operand sizes").
Proof.
  split; [vm_compute; reflexivity|].
  split; [simpl; tauto|].
  split; [reflexivity|].
  assert (E : InstrDesc.encode mi_two_vectors
              = Raise (BuildError "invalid fixed operand sizes"))
    by (vm_compute; reflexivity).
  split; [exact E|]. split; [rewrite E; discriminate|].
  split; [vm_compute; reflexivity|].
  split; [reflexivity|]. vm_compute. reflexivity.
Qed.

(** ** Deduplication *)

Lemma EntryKind_eqb_eq (a b : EntryKind) : EntryKind_eqb a b = true <-> a = b.
Proof.
  split; [|intros ->; apply Z.eqb_refl].
  destruct a, b; intros H; try reflexivity; discriminate H.
Qed.

Lemma word_eqb_eq (a b : word) : word_eqb a b = true <-> a = b.
Proof.
  destruct a as [s|n], b as [t|m]; simpl.
  - rewrite String.eqb_eq. split; congruence.
  - split; discriminate.
  - split; discriminate.
  - rewrite Z.eqb_eq. split; congruence.
Qed.

Lemma option_eqb_eq {A} (eqb : A -> A -> bool) :
  (forall x y, eqb x y = true <-> x = y) ->
  forall a b, option_eqb eqb a b = true <-> a = b.
Proof.
  intros H [x|] [y|]; simpl; try (split; congruence).
  rewrite H. split; congruence.
Qed.

Lemma list_eqb_eq {A} (eqb : A -> A -> bool) :
  (forall x y, eqb x y = true <-> x = y) ->
  forall l1 l2, list_eqb eqb l1 l2 = true <-> l1 = l2.
Proof.
  intros H. induction l1 as [|x l1 IH]; intros [|y l2]; simpl;
    try (split; congruence).
  rewrite andb_true_iff, H, IH.
  split; [intros [-> ->]; reflexivity | intros E; injection E; auto].
Qed.

(** The equality test of entries decides structural equality: same kind,
    same children, same payload. *)
Lemma TrieEntry_eqb_eq (a b : TrieEntry.t) : TrieEntry.eqb a b = true <-> a = b.
Proof.
  unfold TrieEntry.eqb. rewrite !andb_true_iff, EntryKind_eqb_eq.
  rewrite (list_eqb_eq _ (option_eqb_eq _ String.eqb_eq)).
  rewrite (list_eqb_eq _ word_eqb_eq).
  destruct a, b; simpl.
  split; [intros [[-> ->] ->]; reflexivity | intros E; injection E; auto].
Qed.

Lemma lookup_some entries e :
  (exists n, In (e, n) entries) -> Dedup.lookup entries e <> None.
Proof.
  induction entries as [|[e' n'] entries IH]; simpl; intros [n Hin].
  - destruct Hin.
  - destruct (TrieEntry.eqb e' e) eqn:E; [discriminate|].
    destruct Hin as [Hin|Hin].
    + injection Hin as -> ->.
      rewrite (proj2 (TrieEntry_eqb_eq e e) eq_refl) in E. discriminate.
    + apply IH. eauto.
Qed.

Lemma lookup_in entries e n :
  Dedup.lookup entries e = Some n -> In (e, n) entries.
Proof.
  induction entries as [|[e' n'] entries IH]; simpl; [discriminate|].
  destruct (TrieEntry.eqb e' e) eqn:E.
  - apply TrieEntry_eqb_eq in E. subst e'. intros H. injection H as ->.
    now left.
  - intros H. right. now apply IH.
Qed.

Lemma set_keys {V} (s : list (string * V)) k v x :
  In x (Py.keys (Py.set s k v)) <-> x = k \/ In x (Py.keys s).
Proof.
  induction s as [|[k' v'] s IH]; simpl.
  - intuition.
  - destruct (String.eqb k' k) eqn:E; simpl.
    + apply String.eqb_eq in E. subst k'. intuition.
    + rewrite IH. intuition.
Qed.

(** Synonyms are never forgotten. *)
Lemma scan_mono d : forall entries synonyms x,
  In x (Py.keys synonyms) -> In x (Py.keys (Dedup.scan d entries synonyms)).
Proof.
  induction d as [|[name entry] d IH]; intros entries synonyms x Hx; simpl.
  - exact Hx.
  - destruct (Dedup.lookup entries entry); apply IH; [|exact Hx].
    apply set_keys. now right.
Qed.

(** A node whose entry has been seen becomes a synonym. *)
Lemma scan_seen d : forall entries synonyms j n e,
  (exists m, In (e, m) entries) ->
  nth_error d j = Some (n, e) ->
  In n (Py.keys (Dedup.scan d entries synonyms)).
Proof.
  induction d as [|[name entry] d IH]; intros entries synonyms j n e Hseen Hj.
  - destruct j; discriminate.
  - simpl. destruct j as [|j]; simpl in Hj.
    + injection Hj as -> ->.
      destruct (Dedup.lookup entries e) eqn:E;
        [|exfalso; now apply (lookup_some entries e)].
      apply scan_mono. apply set_keys. now left.
    + destruct Hseen as [m Hm].
      destruct (Dedup.lookup entries entry); eapply IH; eauto.
      exists m. apply in_or_app. now left.
Qed.

(** Of two nodes with the same entry, the later one becomes a synonym. *)
Lemma scan_dup d : forall entries synonyms i j n1 n2 e,
  (i < j)%nat ->
  nth_error d i = Some (n1, e) -> nth_error d j = Some (n2, e) ->
  In n2 (Py.keys (Dedup.scan d entries synonyms)).
Proof.
  induction d as [|[name entry] d IH];
    intros entries synonyms i j n1 n2 e Hlt Hi Hj.
  - destruct i; discriminate.
  - destruct j as [|j]; [lia|]. simpl in Hj. simpl.
    destruct i as [|i]; simpl in Hi.
    + injection Hi as -> ->.
      destruct (Dedup.lookup entries e) eqn:E.
      * eapply scan_seen; [|exact Hj]. exists s. now apply lookup_in.
      * eapply scan_seen; [|exact Hj]. exists n1.
        apply in_or_app. right. now left.
    + destruct (Dedup.lookup entries entry);
        eapply (IH _ _ i j); eauto; lia.
Qed.

Lemma del_keys_incl {V} (d : list (string * V)) k x :
  In x (Py.keys (Py.del d k)) -> In x (Py.keys d).
Proof.
  induction d as [|[k' v] d IH]; simpl; [tauto|].
  destruct (String.eqb k' k); simpl; tauto.
Qed.

Lemma del_not_in {V} (d : list (string * V)) k :
  NoDup (Py.keys d) -> ~ In k (Py.keys (Py.del d k)).
Proof.
  induction d as [|[k' v] d IH]; simpl; [tauto|].
  intros Hnd. inversion Hnd as [|? ? Hk' Hd]; subst.
  destruct (String.eqb k' k) eqn:E; simpl.
  - apply String.eqb_eq in E. now subst k'.
  - apply String.eqb_neq in E. intros [H|H]; [contradiction | now apply IH].
Qed.

Lemma del_NoDup {V} (d : list (string * V)) k :
  NoDup (Py.keys d) -> NoDup (Py.keys (Py.del d k)).
Proof.
  induction d as [|[k' v] d IH]; simpl; [tauto|].
  intros Hnd. inversion Hnd as [|? ? Hk' Hd]; subst.
  destruct (String.eqb k' k); simpl; [exact Hd|].
  constructor; [|now apply IH].
  intros H. apply Hk'. eapply del_keys_incl; eauto.
Qed.

Lemma delete_keys_incl (ks : list string) : forall (d : nodes) x,
  In x (Py.keys (fold_left (fun d key => Py.del d key) ks d)) ->
  In x (Py.keys d).
Proof.
  induction ks as [|k ks IH]; intros d x; simpl; [tauto|].
  intros H. apply IH in H. eapply del_keys_incl; eauto.
Qed.

Lemma delete_removes (ks : list string) : forall (d : nodes) k,
  NoDup (Py.keys d) -> In k ks ->
  ~ In k (Py.keys (fold_left (fun d key => Py.del d key) ks d)).
Proof.
  induction ks as [|k0 ks IH]; intros d k Hnd Hin; simpl; [destruct Hin|].
  destruct (string_dec k0 k) as [->|Hne].
  - intros H. apply delete_keys_incl in H. now apply (del_not_in d k).
  - destruct Hin as [Hin|Hin]; [contradiction|].
    apply IH; [now apply del_NoDup | exact Hin].
Qed.

Lemma round4_nonneg (n : Z) : 0 <= n -> 0 <= Layout.round4 n.
Proof. intros H. unfold Layout.round4. apply Z.land_nonneg. lia. Qed.

Lemma encode_length_nonneg (e : TrieEntry.t) : 0 <= TrieEntry.encode_length e.
Proof. unfold TrieEntry.encode_length, Py.len. lia. Qed.

Lemma total_words_nonneg (d : nodes) : 0 <= total_words d.
Proof.
  induction d as [|[n e] d IH]; simpl; [lia|].
  pose proof (round4_nonneg _ (encode_length_nonneg e)). lia.
Qed.



Lemma map_from_length f (l : list (option string)) : forall i,
  List.length (TrieEntry.map_from i f l) = List.length l.
Proof. induction l as [|v l IH]; intros i; simpl; [|rewrite IH]; reflexivity. Qed.


Lemma map_from_id (l : list (option string)) : forall i,
  TrieEntry.map_from i (fun _ v => Dedup.rename [] v) l = l.
Proof.
  induction l as [|v l IH]; intros i; simpl; [reflexivity|].
  rewrite IH. now destruct v.
Qed.

(** A pass that finds no synonym leaves the nodes as they are. *)
Lemma apply_nil (d : nodes) : Dedup.apply [] d = d.
Proof.
  unfold Dedup.apply, Dedup.delete. simpl.
  induction d as [|[n e] d IH]; simpl; [reflexivity|].
  rewrite IH. unfold TrieEntry.map. rewrite map_from_id. now destruct e.
Qed.











(** A catalog for two 32-bit and six 64-bit roots whose nodes take exactly
    0x4000 words: 8 roots, 62 opcode tables, 30 prefix tables and 82
    instruction nodes. *)
Definition catalog_0x8000 : list string :=
  [ "90 NP - - - - A"; "0f90 NP - - - - A"; "0f3890 NP - - - - A";
    "0f3a90 NP - - - - A"; "VEX.NP.10 NP - - - - A";
    "VEX.NP.0f10 NP - - - - A"; "VEX.NP.0f3810 NP - - - - A";
    "VEX.NP.0f3a10 NP - - - - A ONLY64"; "91 NP - - - - A";
    "92 NP - - - - A"; "93 NP - - - - A ONLY32"; "94 NP - - - - A ONLY32" ].

(** C3 (counterexample).  The table built from that catalog serialises to
    exactly 0x8000 bytes and is laid out without error. *)
Lemma calc_offsets_accepts_0x8000_bytes :
  (t <- build [32; 32; 64; 64; 64; 64; 64; 64] catalog_0x8000 ;;
   Ok (List.length (Table.data t), serialized_bytes (Table.data t),
       is_ok (Layout.calc_offsets t)))
  = Ok (182%nat, 32768, true).
Proof. vm_compute. reflexivity. Qed.

(** ** Layout *)

(** The offsets that [calc_offsets] assigns, starting at [c]. *)
Fixpoint layout (d : nodes) (c : Z) : list (string * Z) :=
  match d with
  | [] => []
  | (name, entry) :: rest =>
      (name, c) :: layout rest (c + Layout.round4 (TrieEntry.encode_length entry))
  end.

Fixpoint placed_at (d : nodes) (c : Z) : list (Z * TrieEntry.t) :=
  match d with
  | [] => []
  | (_, entry) :: rest =>
      (c, entry)
        :: placed_at rest (c + Layout.round4 (TrieEntry.encode_length entry))
  end.

(** [enc] is what the table data holds from word index [off] on. *)
Definition slice_at (data : list word) (off : Z) (enc : list word) : Prop :=
  0 <= off /\ firstn (List.length enc) (skipn (Z.to_nat off) data) = enc.

Lemma round4_ge (n : Z) : n <= Layout.round4 n.
Proof.
  unfold Layout.round4. rewrite <- Z.ldiff_land.
  change 3 with (Z.ones 2) at 2. rewrite Z.ldiff_ones_r by lia.
  rewrite Z.shiftl_mul_pow2, Z.shiftr_div_pow2 by lia.
  change (2 ^ 2) with 4.
  pose proof (Z.div_mod (n + 3) 4 ltac:(lia)).
  pose proof (Z.mod_pos_bound (n + 3) 4 ltac:(lia)). lia.
Qed.

Lemma set_fresh {V} (s : list (string * V)) k v :
  ~ In k (Py.keys s) -> Py.set s k v = (s ++ [(k, v)])%list.
Proof.
  induction s as [|[k' v'] s IH]; simpl; intros H; [reflexivity|].
  destruct (String.eqb k' k) eqn:E.
  - apply String.eqb_eq in E. subst k'. exfalso. apply H. now left.
  - rewrite IH; [reflexivity|]. intros Hin. apply H. now right.
Qed.

Lemma layout_keys (d : nodes) c : Py.keys (layout d c) = Py.keys d.
Proof.
  revert c. induction d as [|[n e] d IH]; intros c; simpl; [reflexivity|].
  now rewrite IH.
Qed.

Lemma assign_spec (d : nodes) : forall c self,
  NoDup (Py.keys d) ->
  (forall k, In k (Py.keys d) -> ~ In k (Py.keys (Table.offsets self))) ->
  Table.offsets (fst (Layout.assign d c self))
  = (Table.offsets self ++ layout d c)%list
  /\ Table.data (fst (Layout.assign d c self)) = Table.data self
  /\ Table.roots (fst (Layout.assign d c self)) = Table.roots self.
Proof.
  induction d as [|[n e] d IH]; intros c self Hnd Hdis; simpl.
  - now rewrite app_nil_r.
  - inversion Hnd as [|? ? Hn Hd]; subst.
    match goal with
    | |- context [Layout.assign d ?c' ?s'] =>
        destruct (IH c' s' Hd) as (H1 & H2 & H3)
    end.
    + simpl. intros k Hk. rewrite set_fresh by (apply Hdis; now left).
      unfold Py.keys. rewrite List.map_app, in_app_iff. simpl.
      intros [H|[<-|[]]]; [|contradiction].
      apply (Hdis k); [now right | exact H].
    + rewrite H1, H2, H3. simpl.
      rewrite set_fresh by (apply Hdis; now left).
      now rewrite <- app_assoc.
Qed.

Lemma get_in_nodup {V} (d : list (string * V)) n e :
  NoDup (Py.keys d) -> In (n, e) d -> Py.get d n = Some e.
Proof.
  induction d as [|[k v] d IH]; simpl; intros Hnd Hin; [destruct Hin|].
  inversion Hnd as [|? ? Hk Hd]; subst.
  destruct Hin as [Hin|Hin].
  - injection Hin as -> ->. now rewrite String.eqb_refl.
  - destruct (String.eqb k n) eqn:E; [|now apply IH].
    apply String.eqb_eq in E. subst k. exfalso. apply Hk.
    apply (in_map fst) in Hin. exact Hin.
Qed.

Lemma placed_layout (self : Table.t) (d : nodes) : forall c,
  (forall n e, In (n, e) d -> Py.get (Table.data self) n = Some e) ->
  Layout.placed self (layout d c) = Ok (placed_at d c).
Proof.
  induction d as [|[n e] d IH]; intros c H; simpl; [reflexivity|].
  unfold Py.getitem. rewrite (H n e) by now left. simpl.
  rewrite IH by (intros; apply H; now right). reflexivity.
Qed.

(** An entry without words. *)
Definition empty_entry (e : TrieEntry.t) : Prop :=
  TrieEntry.items e = [] /\ TrieEntry.payload e = [].

Lemma round4_zero (e : TrieEntry.t) :
  Layout.round4 (TrieEntry.encode_length e) = 0 -> empty_entry e.
Proof.
  intros H. pose proof (round4_ge (TrieEntry.encode_length e)) as Hge.
  unfold TrieEntry.encode_length, Py.len, empty_entry in *.
  destruct (TrieEntry.items e), (TrieEntry.payload e); simpl in *;
    try lia. now split.
Qed.

(** An entry is never below an entry without words of the same kind. *)
Lemma entry_lt_empty (e y : TrieEntry.t) :
  empty_entry y ->
  Layout.entry_lt e y
  = if EntryKind_eqb (TrieEntry.kind e) (TrieEntry.kind y)
    then Ok false else Raise TypeError.
Proof.
  intros [Hi Hp]. unfold Layout.entry_lt. rewrite Hi, Hp.
  destruct (EntryKind_eqb _ _); [|reflexivity]. cbn [negb].
  destruct (TrieEntry.items e) as [|i its]; simpl.
  - now destruct (TrieEntry.payload e).
  - reflexivity.
Qed.

(** The next pair of a list in order goes to the end, unless it shares its
    offset with an entry of another kind. *)
Lemma insert_next (x y : Z * TrieEntry.t) (acc : list (Z * TrieEntry.t)) :
  fst y <= fst x -> (fst y = fst x -> empty_entry (snd y)) ->
  Layout.insert x (y :: acc)
  = if (fst x =? fst y)
       && negb (EntryKind_eqb (TrieEntry.kind (snd x)) (TrieEntry.kind (snd y)))
    then Raise TypeError else Ok (x :: y :: acc).
Proof.
  intros Hle He. cbn [Layout.insert]. unfold Layout.pair_lt.
  destruct (fst x =? fst y) eqn:E.
  - apply Z.eqb_eq in E. rewrite entry_lt_empty by (apply He; lia).
    now destruct (EntryKind_eqb _ _).
  - cbn [bind andb]. now rewrite (proj2 (Z.ltb_ge _ _) Hle).
Qed.

(** The state of the sort after the nodes before offset [c]. *)
Definition in_order (acc : list (Z * TrieEntry.t)) (c : Z) : Prop :=
  match acc with
  | [] => True
  | y :: _ => fst y <= c /\ (fst y = c -> empty_entry (snd y))
  end.

Lemma in_order_next (acc : list (Z * TrieEntry.t)) (c : Z) (e : TrieEntry.t) :
  in_order ((c, e) :: acc) (c + Layout.round4 (TrieEntry.encode_length e)).
Proof.
  pose proof (round4_nonneg _ (encode_length_nonneg e)). simpl.
  split; [lia|]. intros E. apply round4_zero. lia.
Qed.

Lemma insert_in_order (acc : list (Z * TrieEntry.t)) (c : Z) (e : TrieEntry.t) :
  in_order acc c ->
  Layout.insert (c, e) acc = Ok ((c, e) :: acc)
  \/ Layout.insert (c, e) acc = Raise TypeError.
Proof.
  destruct acc as [|y acc]; [now left|]. intros [H1 H2].
  rewrite insert_next by assumption.
  destruct (_ && _); [now right | now left].
Qed.

(** The offsets grow along the nodes, so sorting, where it returns, leaves
    the order alone. *)
Lemma sorted_placed (d : nodes) : forall c acc l,
  in_order acc c ->
  Layout.sort_into (placed_at d c) acc = Ok l ->
  l = (rev acc ++ placed_at d c)%list.
Proof.
  induction d as [|[n e] d IH]; intros c acc l H Hs; simpl in *.
  - injection Hs as <-. now rewrite app_nil_r.
  - destruct (insert_in_order acc c e H) as [Hi|Hi]; rewrite Hi in Hs;
      [|discriminate].
    cbn [bind] in Hs. apply IH in Hs; [|apply in_order_next].
    rewrite Hs. simpl. now rewrite <- app_assoc.
Qed.

(** Without a node that has no words, sorting returns. *)
Lemma sorted_placed_ok (d : nodes) : forall c acc,
  match acc with [] => True | y :: _ => fst y < c end ->
  (forall n e, In (n, e) d -> 0 < TrieEntry.encode_length e) ->
  Layout.sort_into (placed_at d c) acc = Ok (rev acc ++ placed_at d c)%list.
Proof.
  induction d as [|[n e] d IH]; intros c acc H Hd; simpl.
  - now rewrite app_nil_r.
  - assert (Hi : Layout.insert (c, e) acc = Ok ((c, e) :: acc)).
    { destruct acc as [|y acc]; [reflexivity|].
      rewrite insert_next by (simpl; lia).
      now rewrite (proj2 (Z.eqb_neq (fst (c, e)) (fst y)))
        by (simpl; lia). }
    rewrite Hi. cbn [bind]. rewrite IH.
    + simpl. now rewrite <- app_assoc.
    + pose proof (Hd n e ltac:(now left)) as Hpos.
      pose proof (round4_ge (TrieEntry.encode_length e)). simpl. lia.
    + intros n0 e0 Hin. apply (Hd n0). now right.
Qed.

Lemma encode_items_length f (l : list (option string)) : forall ws,
  TrieEntry.encode_items f l = Ok ws -> List.length ws = List.length l.
Proof.
  induction l as [|item l IH]; simpl; intros ws H.
  - injection H as <-. reflexivity.
  - inv_bind H. inv_bind H. injection H as <-. simpl. f_equal. now apply IH.
Qed.

Lemma encode_len (e : TrieEntry.t) f enc :
  TrieEntry.encode e f = Ok enc -> Py.len enc = TrieEntry.encode_length e.
Proof.
  unfold TrieEntry.encode, TrieEntry.encode_length, Py.len. intros H.
  inv_bind H. injection H as <-. apply encode_items_length in Ha.
  rewrite List.length_app, Ha. lia.
Qed.

Lemma emit_app (self : Table.t) (l : list (Z * TrieEntry.t)) :
  forall data out,
    Layout.emit self l data = Ok out -> exists tail, out = (data ++ tail)%list.
Proof.
  induction l as [|[off e] l IH]; simpl; intros data out H.
  - injection H as <-. exists []. now rewrite app_nil_r.
  - inv_bind H. apply IH in H. destruct H as [tail ->].
    eexists. rewrite <- !app_assoc. reflexivity.
Qed.

Lemma slice_intro (pre enc tail : list word) (off : Z) :
  Z.of_nat (List.length pre) = off ->
  slice_at (pre ++ enc ++ tail) off enc.
Proof.
  intros <-. split; [lia|]. rewrite Nat2Z.id.
  rewrite skipn_app, skipn_all, Nat.sub_diag. simpl.
  rewrite firstn_app, firstn_all, Nat.sub_diag. simpl.
  apply app_nil_r.
Qed.

(** Every node is serialised at the offset that the layout gave it. *)
Lemma emit_slices (self : Table.t) (d : nodes) :
  forall c data out,
    Py.len data <= c ->
    Layout.emit self (placed_at d c) data = Ok out ->
    forall j n e off,
      nth_error d j = Some (n, e) ->
      nth_error (layout d c) j = Some (n, off) ->
      exists enc, TrieEntry.encode e (Layout.encode_item self) = Ok enc
                  /\ slice_at out off enc.
Proof.
  induction d as [|[n0 e0] d IH]; intros c data out Hlen H j n e off Hj Hl.
  - destruct j; discriminate.
  - simpl in H. inv_bind H.
    pose proof (encode_len _ _ _ Ha) as Hae.
    destruct j as [|j]; simpl in Hj, Hl.
    + injection Hj as -> ->. injection Hl as <-.
      exists a. split; [exact Ha|].
      apply emit_app in H. destruct H as [tail ->].
      rewrite <- !app_assoc. rewrite app_assoc.
      apply slice_intro.
      rewrite List.length_app, repeat_length. unfold Py.len in *. lia.
    + eapply IH; [|exact H|exact Hj|exact Hl].
      pose proof (round4_ge (TrieEntry.encode_length e0)).
      unfold Py.len in *.
      rewrite !List.length_app, repeat_length. lia.
Qed.

Lemma get_layout_nth (d : nodes) : forall c k off,
  Py.get (layout d c) k = Some off ->
  exists j e, nth_error d j = Some (k, e)
              /\ nth_error (layout d c) j = Some (k, off).
Proof.
  induction d as [|[n e] d IH]; intros c k off; simpl; [discriminate|].
  destruct (String.eqb n k) eqn:E.
  - apply String.eqb_eq in E. subst n. intros H. injection H as <-.
    exists 0%nat, e. now split.
  - intros H. apply IH in H. destruct H as (j & e' & H1 & H2).
    exists (S j), e'. now split.
Qed.

Lemma root_offsets_nth (self : Table.t) (roots : list string) : forall offs,
  Layout.root_offsets self roots = Ok offs ->
  List.length offs = List.length roots
  /\ forall i k, nth_error roots i = Some k ->
                 exists off, nth_error offs i = Some off
                             /\ Py.get (Table.offsets self) k = Some off.
Proof.
  induction roots as [|r roots IH]; simpl; intros offs H.
  - injection H as <-. split; [reflexivity|]. intros [|i] k Hk; discriminate.
  - inv_bind H. inv_bind H. injection H as <-.
    destruct (IH _ Ha0) as [Hlen Hn]. split; [simpl; now rewrite Hlen|].
    intros [|i] k Hk; simpl in Hk.
    + injection Hk as <-. exists a. split; [reflexivity|].
      unfold Py.getitem in Ha. now destruct (Py.get _ r); [injection Ha as ->|].
    + now apply Hn.
Qed.

(** C2 (as the code has it).  Each root offset that [compile] returns, and
    that the driver emits as the constant of that mode, is the index in
    16-bit words at which the serialisation of that root starts in the table
    data, which is half its byte offset. *)
Theorem root_offsets_are_word_indices
        (t : Table.t) (data : list word) (notes : list (Z * string))
        (offs : list Z) :
  Table.offsets t = [] ->
  NoDup (Py.keys (Table.data t)) ->
  Layout.compile t = Ok (data, notes, offs) ->
  exists t',
    Layout.calc_offsets t = Ok t'
    /\ List.length offs = List.length (Table.roots t)
    /\ forall i k,
         nth_error (Table.roots t) i = Some k ->
         exists off e enc,
           nth_error offs i = Some off
           /\ Py.get (Table.data t) k = Some e
           /\ TrieEntry.encode e (Layout.encode_item t') = Ok enc
           /\ slice_at data off enc.
Proof.
  intros Hoff Hnd H. unfold Layout.compile in H.
  inv_bind H. rename a into t'. exists t'. split; [exact Ha|].
  assert (Ht' : t' = fst (Layout.assign (Table.data t) 0 t)).
  { unfold Layout.calc_offsets in Ha.
    destruct (Layout.assign (Table.data t) 0 t) as [s cur].
    destruct (32768 <=? cur); [discriminate|]. now injection Ha as <-. }
  destruct (assign_spec (Table.data t) 0 t Hnd) as (Ho & Hd & Hr).
  { rewrite Hoff. auto. }
  rewrite <- Ht', Hoff in Ho. rewrite <- Ht' in Hd, Hr. simpl in Ho.
  rewrite Ho, Hr in H.
  rewrite (placed_layout t' (Table.data t) 0) in H.
  2:{ intros n e Hin. rewrite Hd. now apply get_in_nodup. }
  cbn [bind] in H.
  destruct (Layout.sorted (placed_at (Table.data t) 0)) as [ordered|] eqn:Hs;
    [|discriminate H].
  apply (sorted_placed _ 0 []) in Hs; [|exact I]. simpl in Hs. subst ordered.
  cbn [bind] in H.
  inv_bind H. inv_bind H. injection H as <- _ <-.
  destruct (root_offsets_nth _ _ _ Ha1) as [Hlen Hn].
  split; [exact Hlen|].
  intros i k Hk. destruct (Hn i k Hk) as (off & Hi & Hget).
  rewrite Ho in Hget. apply get_layout_nth in Hget.
  destruct Hget as (j & e & Hj & Hl).
  destruct (emit_slices t' (Table.data t) 0 [] a
                        ltac:(unfold Py.len; simpl; lia) Ha0 j k e off Hj Hl)
    as (enc & Henc & Hs).
  exists off, e, enc. split; [exact Hi|]. split; [|now split].
  apply get_in_nodup; [exact Hnd|]. eapply nth_error_In; eauto.
Qed.

Lemma root_offsets_are_word_indices_witness :
  exists t data notes,
    Table.init 2 = Ok t
    /\ Layout.compile t = Ok (data, notes, [0; 8])
    /\ exists t',
         Layout.calc_offsets t = Ok t'
         /\ List.length [0; 8] = List.length (Table.roots t)
         /\ forall i k,
              nth_error (Table.roots t) i = Some k ->
              exists off e enc,
                nth_error [0; 8] i = Some off
                /\ Py.get (Table.data t) k = Some e
                /\ TrieEntry.encode e (Layout.encode_item t') = Ok enc
                /\ slice_at data off enc.
Proof.
  eexists. eexists. eexists.
  split; [reflexivity|]. split; [reflexivity|].
  eapply root_offsets_are_word_indices.
  - reflexivity.
  - simpl. repeat constructor; simpl; intuition discriminate.
  - reflexivity.
Defined.

Definition two_modes_catalog : list string :=
  ["90 NP - - - - NOP"; "91 NP - - - - LAHF ONLY64"].

(** The root of the second mode, its offset constant, and whether its
    serialisation is found at the given word index of the table data. *)
Definition second_root_report (word_index : nat)
  : result (list (Z * Z) * bool) :=
  '(table_data, defines) <- Main.main [32; 64] two_modes_catalog ;;
  t <- build [32; 64] two_modes_catalog ;;
  t' <- Layout.calc_offsets (deduplicate t) ;;
  e <- Py.getitem (Table.data t') "root1" ;;
  enc <- TrieEntry.encode e (Layout.encode_item t') ;;
  Ok (defines,
      list_eqb word_eqb (firstn (List.length enc) (skipn word_index table_data))
               enc).

(** C2 (counterexample).  With two modes the constant emitted for the
    second root is 8: its serialisation starts at word 8 of the table data,
    that is at byte 16, and not at byte 8 (word 4). *)
Lemma root_offset_is_not_byte_offset :
  second_root_report 8 = Ok ([(32, 0); (64, 8)], true)
  /\ second_root_report 4 = Ok ([(32, 0); (64, 8)], false)
  /\ 8 <> 2 * 8.
Proof.
  split; [vm_compute; reflexivity|].
  split; [vm_compute; reflexivity|]. discriminate.
Qed.

(** ** Canonical forms *)

Definition hexchars : list ascii :=
  ["0"; "1"; "2"; "3"; "4"; "5"; "6"; "7"; "8"; "9";
   "a"; "b"; "c"; "d"; "e"; "f"]%char.

Ltac ascii_cases c H :=
  destruct c as [[] [] [] [] [] [] [] []];
  vm_compute in H; try discriminate H; clear H.

Lemma hex_digit_cases (c : ascii) :
  Regex.hex_digit c = true -> In c hexchars.
Proof. intros H. ascii_cases c H; simpl; tauto. Qed.

Lemma in_range_07_cases (c : ascii) :
  Regex.in_range "0" "7" c = true ->
  In c ["0"; "1"; "2"; "3"; "4"; "5"; "6"; "7"]%char.
Proof. intros H. ascii_cases c H; simpl; tauto. Qed.

Lemma in_range_cf_cases (c : ascii) :
  Regex.in_range "c" "f" c = true -> In c ["c"; "d"; "e"; "f"]%char.
Proof. intros H. ascii_cases c H; simpl; tauto. Qed.

Lemma hex_value_digit (c : ascii) :
  Regex.hex_digit c = true -> exists v, hex_value c = Some v /\ 0 <= v < 16.
Proof.
  intros H. apply hex_digit_cases in H. unfold hexchars in H. simpl in H.
  repeat (destruct H as [<-|H];
          [eexists; split; [vm_compute; reflexivity | lia]|]).
  destruct H.
Qed.

(** Strings made of pairs of hex digits. *)
Inductive hexpairs : string -> Prop :=
| hexpairs_nil : hexpairs ""
| hexpairs_cons a b p :
    Regex.hex_digit a = true -> Regex.hex_digit b = true -> hexpairs p ->
    hexpairs (String a (String b p)).

Lemma pairs_hexpairs (n : nat) : forall s p r,
  (String.length s < n)%nat -> Regex.pairs s = (p, r) -> hexpairs p.
Proof.
  induction n as [|n IH]; intros s p r Hlen H; [lia|].
  destruct s as [|a [|b s]]; simpl in H.
  - injection H as <- _. constructor.
  - injection H as <- _. constructor.
  - destruct (Regex.hex_digit a && Regex.hex_digit b) eqn:E.
    + destruct (Regex.pairs s) as [p' r'] eqn:Ep.
      injection H as <- _. apply andb_true_iff in E. destruct E.
      constructor; try assumption.
      apply (IH s p' r'); [simpl in Hlen; lia | exact Ep].
    + injection H as <- _. constructor.
Qed.

Lemma int16_two (a b : ascii) (va vb : Z) :
  hex_value a = Some va -> hex_value b = Some vb ->
  int16 (String a (String b "")) = Ok (16 * va + vb).
Proof.
  intros Ha Hb. unfold int16. cbn [int16_go]. rewrite Ha. cbn [from_option bind].
  rewrite Hb. cbn [from_option bind]. f_equal; lia.
Qed.

(** The ModR/M group, when present, and its value. *)
Definition modrm_ok (m : option string) : Prop :=
  forall r, Opcode.parse_opcext m = r ->
            r = Ok None
            \/ exists is72 v, r = Ok (Some (is72, v))
                              /\ (0 <= v < 8 \/ is72 = true /\ 192 <= v < 256).

Lemma modrm_match_ok (s m r : string) :
  Regex.modrm_match s = Some (m, r) -> modrm_ok (Some m).
Proof.
  unfold Regex.modrm_match.
  destruct s as [|c0 [|c1 r1]]; try discriminate.
  destruct (Ascii.eqb c0 "/"); [|discriminate].
  destruct (Ascii.eqb c1 "/").
  - destruct r1 as [|c r2]; [discriminate|].
    destruct (Regex.in_range "0" "7" c) eqn:E07.
    + intros H. injection H as <- _. intros res <-.
      apply in_range_07_cases in E07. simpl in E07. right.
      repeat (destruct E07 as [<-|E07];
              [do 2 eexists; split; [vm_compute; reflexivity | left; lia]|]).
      destruct E07.
    + destruct r2 as [|d r3]; [discriminate|].
      destruct (Regex.in_range "c" "f" c && Regex.hex_digit d) eqn:E;
        [|discriminate].
      apply andb_true_iff in E. destruct E as [Ec Ed].
      intros H. injection H as <- _. intros res <-.
      apply hex_value_digit in Ed. destruct Ed as (vd & Hd & Hr).
      apply in_range_cf_cases in Ec. simpl in Ec. right.
      unfold Opcode.parse_opcext. cbn [String.get from_option bind].
      change (Ascii.eqb "/" "/") with true. cbn [drop Nat.add].
      repeat (destruct Ec as [<-|Ec];
              [erewrite int16_two; [|vm_compute; reflexivity|exact Hd];
               cbn [bind]; do 2 eexists;
               split; [reflexivity | right; split; [reflexivity | lia]]|]).
      destruct Ec.
  - destruct (Regex.in_range "0" "7" c1) eqn:E07; [|discriminate].
    intros H. injection H as <- _. intros res <-.
    apply in_range_07_cases in E07. simpl in E07. right.
    repeat (destruct E07 as [<-|E07];
            [do 2 eexists; split; [vm_compute; reflexivity | left; lia]|]).
    destruct E07.
Qed.

Definition bit_opts : list (option string) :=
  [None; Some "0"; Some "1"; Some "IG"].

Lemma alt_in (alts : list string) (s a r : string) :
  Regex.alt alts s = Some (a, r) -> In a alts.
Proof.
  induction alts as [|x alts IH]; simpl; [discriminate|].
  destruct (Regex.strip x s).
  - intros H. injection H as <- _. now left.
  - intros H. right. now apply IH.
Qed.

Lemma opt_bit_in (letter s r : string) (v : option string) :
  Regex.opt_bit letter s = (v, r) -> In v bit_opts.
Proof.
  unfold Regex.opt_bit.
  destruct (Regex.strip letter s) as [s1|]; [|intros H; injection H as <- _; simpl; tauto].
  destruct (Regex.alt ["0"; "1"; "IG"] s1) as [[b s2]|] eqn:E;
    [|intros H; injection H as <- _; simpl; tauto].
  apply alt_in in E.
  destruct (Regex.strip "." s2); intros H; injection H as <- _;
    simpl in *; intuition (subst; auto).
Qed.

Lemma prefixes_inv (s : string) vex leg rexw vexl r :
  Regex.prefixes s = Some (vex, leg, rexw, vexl, r) ->
  In leg ["NP"; "66"; "F2"; "F3"] /\ In rexw bit_opts /\ In vexl bit_opts.
Proof.
  unfold Regex.prefixes.
  destruct (match Regex.strip "VEX." s with
            | Some r0 => (Some "VEX.", r0)
            | None => (None, s)
            end) as [vex0 s1].
  destruct (Regex.alt ["NP"; "66"; "F2"; "F3"] s1) as [[leg0 s2]|] eqn:E;
    [|discriminate].
  destruct (Regex.strip "." s2) as [s3|]; [|discriminate].
  destruct (Regex.opt_bit "W" s3) as [rexw0 s4] eqn:Ew.
  destruct (Regex.opt_bit "L" s4) as [vexl0 s5] eqn:El.
  intros H. injection H as _ <- <- <- _.
  apply alt_in in E. apply opt_bit_in in Ew, El. tauto.
Qed.

Lemma rep_inv (s p r : string) :
  Regex.rep s = Some (p, r) -> In p ["NP"; "F2"; "F3"].
Proof.
  unfold Regex.rep. destruct (Regex.strip "R" s) as [s1|]; [|discriminate].
  destruct (Regex.alt ["NP"; "F2"; "F3"] s1) as [[p0 [|c s2]]|] eqn:E;
    try discriminate.
  destruct (Ascii.eqb c Regex.newline); [discriminate|].
  intros H. injection H as <- _. now apply alt_in in E.
Qed.

Lemma index_of_range {A} (eqb : A -> A -> bool) (x : A) (l : list A) :
  forall i, Py.index_of eqb x l = Ok i -> 0 <= i < Py.len l.
Proof.
  unfold Py.len.
  induction l as [|y l IH]; simpl; intros i H; [discriminate|].
  destruct (eqb y x).
  - injection H as <-. lia.
  - inv_bind H. injection H as <-. apply IH in Ha. lia.
Qed.

Lemma last2_hexpairs (p : string) :
  hexpairs p -> p <> "" ->
  exists a b, last2 p = String a (String b "")
              /\ Regex.hex_digit a = true /\ Regex.hex_digit b = true.
Proof.
  induction 1 as [|a b p Ha Hb Hp IH]; intros Hne; [congruence|].
  destruct Hp as [|a' b' p' Ha' Hb' Hp'].
  - exists a, b. now repeat split.
  - destruct IH as (x & y & Hl & Hx & Hy); [discriminate|].
    exists x, y. split; [|now split].
    rewrite <- Hl. unfold last2. simpl. now rewrite !Nat.sub_0_r.
Qed.

(** The canonical structured form: what [Opcode.parse] can return. *)
Definition canonical (o : Opcode.t) : Prop :=
  0 <= Opcode.escape o < 4
  /\ 0 <= Opcode.opc o < 256
  /\ (Opcode.opcext o = None
      \/ exists is72 v, Opcode.opcext o = Some (is72, v)
                        /\ (0 <= v < 8 \/ is72 = true /\ 192 <= v < 256))
  /\ ((Opcode.prefix o = None /\ Opcode.vex o = false
       /\ Opcode.vexl o = None /\ Opcode.rexw o = None)
      \/ (exists i, Opcode.prefix o = Some (true, i) /\ In i [0; 2; 3]
                    /\ Opcode.vex o = false
                    /\ Opcode.vexl o = None /\ Opcode.rexw o = None)
      \/ (exists i, Opcode.prefix o = Some (false, i) /\ 0 <= i < 4
                    /\ In (Opcode.vexl o) bit_opts
                    /\ In (Opcode.rexw o) bit_opts)).

Lemma tail_inv vex leg rexw vexl repp (s1 : string) (m : Regex.groups) :
  Regex.tail vex leg rexw vexl repp s1 = Some m ->
  Regex.vex m = vex /\ Regex.legacy m = leg /\ Regex.rexw m = rexw
  /\ Regex.vexl m = vexl /\ Regex.repprefix m = repp
  /\ hexpairs (Regex.opcode m) /\ Regex.opcode m <> ""
  /\ modrm_ok (Regex.modrm m).
Proof.
  unfold Regex.tail.
  destruct (Regex.pairs s1) as [opc s2] eqn:Ep.
  destruct (String.eqb opc "") eqn:Ee; [discriminate|].
  apply String.eqb_neq in Ee.
  apply (pairs_hexpairs (S (String.length s1))) in Ep; [|lia].
  destruct (Regex.modrm_match s2) as [[mm r]|] eqn:Em.
  - destruct (Regex.strip "+" r); destruct (Regex.at_end _); try discriminate;
      intros H; injection H as <-; simpl; repeat split; auto;
      eapply modrm_match_ok; eauto.
  - destruct (Regex.strip "+" s2); destruct (Regex.at_end _); try discriminate;
      intros H; injection H as <-; simpl; repeat split; auto;
      intros r <-; now left.
Qed.

Lemma head_inv (s : string) vex leg rexw vexl repp s1 :
  Regex.head s = (vex, leg, rexw, vexl, repp, s1) ->
  (leg = None /\ repp = None /\ vex = None /\ rexw = None /\ vexl = None)
  \/ (leg = None /\ vex = None /\ rexw = None /\ vexl = None
      /\ exists p, repp = Some p /\ In p ["NP"; "F2"; "F3"])
  \/ (repp = None /\ In rexw bit_opts /\ In vexl bit_opts
      /\ exists p, leg = Some p /\ In p ["NP"; "66"; "F2"; "F3"]).
Proof.
  unfold Regex.head.
  destruct (Regex.prefixes s) as [[[[[vex0 leg0] rexw0] vexl0] r]|] eqn:Ep.
  - intros H. injection H as <- <- <- <- <- _.
    apply prefixes_inv in Ep. right. right. intuition eauto.
  - destruct (Regex.rep s) as [[p r]|] eqn:Er; intros H;
      injection H as <- <- <- <- <- _.
    + apply rep_inv in Er. right. left. intuition eauto.
    + left. tauto.
Qed.

Lemma Ok_inj {A} (a b : A) : Ok a = Ok b -> a = b.
Proof. intros H. now injection H. Qed.

(** Every opcode that [Opcode.parse] returns is in canonical form. *)
Lemma parse_canonical (s : string) (o : Opcode.t) :
  Opcode.parse s = Ok (Some o) -> canonical o.
Proof.
  unfold Opcode.parse, Regex.match_.
  destruct (Regex.head s) as [[[[[vex leg] rexw] vexl] repp] s1] eqn:Eh.
  destruct (Regex.tail vex leg rexw vexl repp s1) as [m|] eqn:Et;
    [|discriminate].
  apply tail_inv in Et.
  destruct Et as (Hvex & Hleg & Hrexw & Hvexl & Hrepp & Hhex & Hne & Hmod).
  intros H. inv_bind H. rename a into opcext.
  destruct (is_some (Regex.extended m) && _); [discriminate|].
  inv_bind H. rename a into prefix.
  inv_bind H. rename a into escape.
  inv_bind H. rename a into opc.
  injection H as <-. unfold canonical. simpl.
  split; [exact (index_of_range _ _ _ _ Ha1)|].
  split.
  { destruct (last2_hexpairs _ Hhex Hne) as (a & b & Hl & Hxa & Hxb).
    rewrite Hl in Ha2.
    destruct (hex_value_digit a Hxa) as (va & Hva & Ra).
    destruct (hex_value_digit b Hxb) as (vb & Hvb & Rb).
    rewrite (int16_two a b va vb Hva Hvb) in Ha2.
    apply Ok_inj in Ha2. subst opc. lia. }
  split.
  { destruct (Hmod _ Ha) as [E|(is72 & v & E & R)]; injection E as ->;
      [now left | right; eauto]. }
  rewrite Hvex, Hvexl, Hrexw. rewrite Hleg, Hrepp in Ha0.
  apply head_inv in Eh.
  destruct Eh as [(-> & -> & -> & -> & ->)
                 |[(-> & -> & -> & -> & p & -> & Hp)
                  |(-> & Hw & Hl & p & -> & Hp)]].
  - left. simpl in Ha0. injection Ha0 as <-. tauto.
  - right. left. simpl in Hp.
    destruct Hp as [<-|[<-|[<-|[]]]]; vm_compute in Ha0; injection Ha0 as <-;
      eexists; (split; [reflexivity|]); simpl; tauto.
  - right. right. simpl in Hp.
    assert (Hv : is_some vex = true \/ is_some vex = false)
      by (destruct vex; auto).
    destruct Hp as [<-|[<-|[<-|[<-|[]]]]]; vm_compute in Ha0;
      injection Ha0 as <-;
      eexists; (split; [reflexivity|]); (split; [lia|]); tauto.
Qed.

(** *** The name of the path of a plain pattern *)

(** The accumulators of [format_opcode] after a part of the path. *)
Fixpoint format_acc (opcode : path) (prefix opcode_string : string)
  : result (string * string) :=
  match opcode with
  | [] => Ok (prefix, opcode_string)
  | (kind, byte) :: rest =>
      match kind with
      | TABLE_ROOT =>
          e <- Py.index [""; "0f"; "0f38"; "0f3a"] (Z.land byte 3) ;;
          v <- Py.index [""; "VEX."] (Z.shiftr byte 2) ;;
          format_acc rest (prefix ++ v) (opcode_string ++ e)
      | TABLE256 =>
          format_acc rest prefix (opcode_string ++ Py.hex02 byte)
      | TABLE8 | TABLE72 =>
          format_acc rest prefix (opcode_string ++ "/" ++ Py.hex byte)
      | TABLE_PREFIX =>
          let prefix := if Z.land byte 4 =? 0 then prefix
                        else prefix ++ "VEX." in
          p <- Py.index ["NP."; "66."; "F3."; "F2."] (Z.land byte 3) ;;
          format_acc rest (prefix ++ p) opcode_string
      | TABLE_PREFIX_REP =>
          p <- Py.index ["RNP."; "??."; "RF3."; "RF2."] (Z.land byte 3) ;;
          format_acc rest (prefix ++ p) opcode_string
      | TABLE_VEX =>
          format_acc rest
                     (prefix ++ "W" ++ Py.dec (Z.land byte 1) ++ ".L"
                             ++ Py.dec (Z.shiftr byte 1) ++ ".")
                     opcode_string
      | NONE | INSTR => Raise (BuildError "unsupported opcode kind {}")
      end
  end.

Lemma format_go_acc (l : path) : forall p s,
  format_go l p s = '(p', s') <- format_acc l p s ;; Ok (p' ++ s').
Proof.
  induction l as [|[kind byte] l IH]; intros p s; simpl; [reflexivity|].
  destruct kind; try reflexivity; try apply IH.
  - destruct (Py.index _ (Z.land byte 3)); simpl; [apply IH | reflexivity].
  - destruct (Py.index _ (Z.land byte 3)); simpl; [apply IH | reflexivity].
  - destruct (Py.index _ (Z.land byte 3)); simpl; [|reflexivity].
    destruct (Py.index _ (Z.shiftr byte 2)); simpl; [apply IH | reflexivity].
Qed.

Lemma format_acc_app (l1 l2 : path) : forall p s,
  format_acc (l1 ++ l2)%list p s
  = '(p1, s1) <- format_acc l1 p s ;; format_acc l2 p1 s1.
Proof.
  induction l1 as [|[kind byte] l1 IH]; intros p s; simpl; [reflexivity|].
  destruct kind; try reflexivity; try apply IH.
  - destruct (Py.index _ (Z.land byte 3)); simpl; [apply IH | reflexivity].
  - destruct (Py.index _ (Z.land byte 3)); simpl; [apply IH | reflexivity].
  - destruct (Py.index _ (Z.land byte 3)); simpl; [|reflexivity].
    destruct (Py.index _ (Z.shiftr byte 2)); simpl; [apply IH | reflexivity].
Qed.

(** The parts of the name. *)
Definition Vstr (vex : bool) : string := if vex then "VEX." else "".

Definition Estr (escape : Z) : string :=
  nth (Z.to_nat escape) [""; "0f"; "0f38"; "0f3a"] "".

Definition PFstr (prefix : option (bool * Z)) : string :=
  match prefix with
  | None => ""
  | Some (false, i) => nth (Z.to_nat i) ["NP."; "66."; "F3."; "F2."] ""
  | Some (true, i) => nth (Z.to_nat i) ["RNP."; "??."; "RF3."; "RF2."] ""
  end.

Definition WLstr (vexl rexw : option string) : string :=
  match vexl, rexw with
  | Some l, Some w => "W" ++ w ++ ".L" ++ l ++ "."
  | _, _ => ""
  end.

Definition Xstr (opcext : option (bool * Z)) : string :=
  match opcext with
  | None => ""
  | Some (_, v) => "/" ++ Py.hex v
  end.

(** The levels after the opcode byte. *)
Definition ext_path (opcext : option (bool * Z)) : path :=
  match opcext with
  | Some (_, v) => [(TABLE8, v)]
  | None => []
  end.

Definition prefix_path (prefix : option (bool * Z)) : path :=
  match prefix with
  | Some (is_rep, i) =>
      [(if is_rep then TABLE_PREFIX_REP else TABLE_PREFIX, i)]
  | None => []
  end.

Definition bit_of (x : option string) : Z :=
  match x with
  | Some s => if String.eqb s "1" then 1 else 0
  | None => 0
  end.

Definition vex_path (vexl rexw : option string) : path :=
  match vexl, rexw with
  | Some _, Some _ => [(TABLE_VEX, bit_of rexw + 2 * bit_of vexl)]
  | _, _ => []
  end.

(** Patterns without ['+'], without a [//] extension, and with VEX.W and
    VEX.L either both absent or both fixed. *)
Definition plain (o : Opcode.t) : Prop :=
  Opcode.extended o = false
  /\ (Opcode.opcext o = None \/ exists v, Opcode.opcext o = Some (false, v))
  /\ In (Opcode.vexl o, Opcode.rexw o)
        [ (None, None); (Some "0", Some "0"); (Some "0", Some "1");
          (Some "1", Some "0"); (Some "1", Some "1") ].

Definition plain_path (o : Opcode.t) : path :=
  ([ (TABLE_ROOT,
      Z.lor (Opcode.escape o) (Z.shiftl (Z.b2z (Opcode.vex o)) 2));
     (TABLE256, Opcode.opc o) ]
     ++ ext_path (Opcode.opcext o)
     ++ prefix_path (Opcode.prefix o)
     ++ vex_path (Opcode.vexl o) (Opcode.rexw o))%list.

Lemma for_trie_plain (o : Opcode.t) :
  canonical o -> plain o -> Opcode.for_trie o = Ok [plain_path o].
Proof.
  intros (_ & _ & Hext & _) (Hx & Hp & Hwl).
  destruct o as [prefix escape opc opcext extended vex vexl rexw].
  simpl in *. subst extended. unfold Opcode.for_trie, Opcode.levels, plain_path.
  simpl.
  assert (Hv : forall v, opcext = Some (false, v) -> (v <? 8) = true).
  { intros v ->. destruct Hext as [E|(is72 & v' & E & R)]; [discriminate|].
    injection E as <- <-. apply Z.ltb_lt. destruct R as [R|[R _]]; [lia|].
    discriminate. }
  destruct Hp as [->|[v ->]]; [|rewrite (Hv v eq_refl), Z.sub_0_r];
    destruct prefix as [[[|] i]|];
    repeat (destruct Hwl as [Hwl|Hwl]; [injection Hwl as <- <-; reflexivity|]);
    destruct Hwl.
Qed.

Lemma append_nil_r (s : string) : s ++ "" = s.
Proof. induction s as [|c s IH]; simpl; [|rewrite IH]; reflexivity. Qed.

Lemma append_assoc (a b c : string) : (a ++ b) ++ c = a ++ (b ++ c).
Proof. induction a as [|x a IH]; simpl; [|rewrite IH]; reflexivity. Qed.

Lemma stage_root (escape : Z) (vex : bool) (p s : string) :
  0 <= escape < 4 ->
  format_acc [(TABLE_ROOT, Z.lor escape (Z.shiftl (Z.b2z vex) 2))] p s
  = Ok (p ++ Vstr vex, s ++ Estr escape).
Proof.
  intros H.
  assert (E : escape = 0 \/ escape = 1 \/ escape = 2 \/ escape = 3) by lia.
  destruct E as [-> | [-> | [-> | -> ]]]; destruct vex; reflexivity.
Qed.

Lemma stage_ext (opcext : option (bool * Z)) (p s : string) :
  format_acc (ext_path opcext) p s = Ok (p, s ++ Xstr opcext).
Proof.
  destruct opcext as [[b v]|]; simpl; [reflexivity|].
  now rewrite append_nil_r.
Qed.

(** The prefixes that a canonical form can carry. *)
Definition prefix_ok (prefix : option (bool * Z)) : Prop :=
  In prefix [ None; Some (true, 0); Some (true, 2); Some (true, 3);
              Some (false, 0); Some (false, 1); Some (false, 2);
              Some (false, 3) ].

Lemma stage_prefix (prefix : option (bool * Z)) (p s : string) :
  prefix_ok prefix ->
  format_acc (prefix_path prefix) p s = Ok (p ++ PFstr prefix, s).
Proof.
  unfold prefix_ok. simpl. intros H.
  repeat (destruct H as [<-|H];
          [simpl; try rewrite append_nil_r; reflexivity|]).
  destruct H.
Qed.

Definition wl_ok (vexl rexw : option string) : Prop :=
  In (vexl, rexw)
     [ (None, None); (Some "0", Some "0"); (Some "0", Some "1");
       (Some "1", Some "0"); (Some "1", Some "1") ].

Lemma stage_vex (vexl rexw : option string) (p s : string) :
  wl_ok vexl rexw ->
  format_acc (vex_path vexl rexw) p s = Ok (p ++ WLstr vexl rexw, s).
Proof.
  unfold wl_ok. simpl. intros H.
  repeat (destruct H as [H|H];
          [injection H as <- <-; simpl; try rewrite append_nil_r;
           reflexivity|]).
  destruct H.
Qed.

Lemma canonical_prefix_ok (o : Opcode.t) :
  canonical o -> prefix_ok (Opcode.prefix o).
Proof.
  intros (_ & _ & _ & [(-> & _)|[(i & -> & Hi & _)|(i & -> & Hi & _)]]);
    unfold prefix_ok; simpl.
  - tauto.
  - simpl in Hi. destruct Hi as [<-|[<-|[<-|[]]]]; tauto.
  - assert (E : i = 0 \/ i = 1 \/ i = 2 \/ i = 3) by lia.
    destruct E as [-> | [-> | [-> | -> ]]]; tauto.
Qed.

(** The formatter on the path of a plain canonical form. *)
Lemma format_plain (o : Opcode.t) :
  canonical o -> plain o ->
  format_opcode (plain_path o)
  = Ok (((Vstr (Opcode.vex o) ++ PFstr (Opcode.prefix o))
           ++ WLstr (Opcode.vexl o) (Opcode.rexw o))
          ++ ((Estr (Opcode.escape o) ++ Py.hex02 (Opcode.opc o))
                ++ Xstr (Opcode.opcext o))).
Proof.
  intros Hc Hp. pose proof (canonical_prefix_ok o Hc) as Hpre.
  destruct Hc as (Hesc & _). destruct Hp as (_ & _ & Hwl).
  unfold format_opcode, plain_path. rewrite format_go_acc.
  change ([(TABLE_ROOT, ?r); ?t] ++ ?rest)%list
    with ([(TABLE_ROOT, r)] ++ [t] ++ rest)%list.
  rewrite format_acc_app, stage_root by exact Hesc. cbn [bind].
  rewrite format_acc_app. cbn [format_acc bind].
  rewrite format_acc_app, stage_ext. cbn [bind].
  rewrite format_acc_app, stage_prefix by exact Hpre. cbn [bind].
  rewrite stage_vex by exact Hwl. cbn [bind]. reflexivity.
Qed.

(** *** Parsing the name of a plain path *)

Definition hex02_ok (opc : Z) : bool :=
  match Py.hex02 opc with
  | String a (String b EmptyString) =>
      Regex.hex_digit a && Regex.hex_digit b
      && match int16 (String a (String b "")) with
         | Ok v => v =? opc
         | Raise _ => false
         end
  | _ => false
  end.

Definition zrange (n : nat) : list Z := List.map Z.of_nat (seq 0 n).

Lemma hex02_all : forallb hex02_ok (zrange 256) = true.
Proof. vm_compute. reflexivity. Qed.

Lemma in_zrange (n : nat) (z : Z) : 0 <= z < Z.of_nat n -> In z (zrange n).
Proof.
  intros H. unfold zrange. apply in_map_iff. exists (Z.to_nat z).
  split; [lia|]. apply in_seq. lia.
Qed.

Lemma hex02_spec (opc : Z) :
  0 <= opc < 256 ->
  exists a b, Py.hex02 opc = String a (String b "")
              /\ Regex.hex_digit a = true /\ Regex.hex_digit b = true
              /\ int16 (String a (String b "")) = Ok opc.
Proof.
  intros H. pose proof hex02_all as Hall.
  rewrite forallb_forall in Hall. specialize (Hall opc (in_zrange 256 opc H)).
  unfold hex02_ok in Hall.
  destruct (Py.hex02 opc) as [|a [|b [|c s]]]; try discriminate.
  apply andb_true_iff in Hall. destruct Hall as [Hab Hv].
  apply andb_true_iff in Hab. destruct Hab as [Ha Hb].
  exists a, b. repeat split; try assumption.
  destruct (int16 _) as [v|]; [|discriminate].
  apply Z.eqb_eq in Hv. now subst.
Qed.

Lemma pairs_app (o x : string) :
  hexpairs o -> Regex.pairs x = ("", x) -> Regex.pairs (o ++ x) = (o, x).
Proof.
  intros Ho Hx. induction Ho as [|a b p Ha Hb Hp IH]; [exact Hx|].
  cbn [append Regex.pairs]. rewrite Ha, Hb, IH. reflexivity.
Qed.

Lemma hexpairs_escape (escape : Z) (a b : ascii) :
  0 <= escape < 4 ->
  Regex.hex_digit a = true -> Regex.hex_digit b = true ->
  hexpairs (Estr escape ++ String a (String b ""))
  /\ String.eqb (Estr escape ++ String a (String b "")) "" = false
  /\ all_but_last2 (Estr escape ++ String a (String b "")) = Estr escape
  /\ last2 (Estr escape ++ String a (String b "")) = String a (String b "")
  /\ Py.index_of String.eqb (Estr escape) [""; "0f"; "0f38"; "0f3a"]
     = Ok escape.
Proof.
  intros H Ha Hb.
  assert (E : escape = 0 \/ escape = 1 \/ escape = 2 \/ escape = 3) by lia.
  assert (H2 : hexpairs (String a (String b "")))
    by (constructor; [assumption | assumption | constructor]).
  destruct E as [-> | [-> | [-> | -> ]]];
    (split; [simpl;
             repeat (apply hexpairs_cons; [reflexivity | reflexivity |]);
             exact H2
            | repeat split; reflexivity]).
Qed.

(** The ModR/M group that matches the name of an extension. *)
Definition modrm_of (opcext : option (bool * Z)) : option string :=
  match opcext with
  | None => None
  | Some _ => Some (Xstr opcext)
  end.

Definition plain_ext_ok (opcext : option (bool * Z)) : Prop :=
  In opcext (None :: List.map (fun v => Some (false, v)) (zrange 8)).

Lemma tail_plain vex leg rexw vexl repp (o : string)
      (opcext : option (bool * Z)) :
  hexpairs o -> String.eqb o "" = false -> plain_ext_ok opcext ->
  Regex.tail vex leg rexw vexl repp (o ++ Xstr opcext)
  = Some (Regex.mk vex leg rexw vexl repp o (modrm_of opcext) None)
  /\ Opcode.parse_opcext (modrm_of opcext) = Ok opcext.
Proof.
  intros Ho Hne Hx. unfold plain_ext_ok in Hx. simpl in Hx.
  unfold Regex.tail.
  repeat (destruct Hx as [<-|Hx];
          [match goal with
           | |- context [Regex.pairs (o ++ ?x)] =>
               rewrite (pairs_app o x Ho eq_refl), Hne
           end; split; reflexivity|]).
  destruct Hx.
Qed.

(** What follows the prefixes: two hex digits, and no dot after [66]. *)
Definition good_tail (t : string) : Prop :=
  exists c1 c2 t',
    t = String c1 (String c2 t')
    /\ Regex.hex_digit c1 = true /\ Regex.hex_digit c2 = true
    /\ (c1 = "6"%char -> c2 = "6"%char -> Regex.strip "." t' = None).

Lemma opt_bit_hex (letter : string) (c : ascii) (t : string) :
  letter = "W" \/ letter = "L" ->
  Regex.hex_digit c = true ->
  Regex.opt_bit letter (String c t) = (None, String c t).
Proof.
  intros Hl Hc. apply hex_digit_cases in Hc. unfold hexchars in Hc.
  simpl in Hc.
  destruct Hl as [-> | ->];
    repeat (destruct Hc as [<-|Hc]; [reflexivity|]); destruct Hc.
Qed.

Lemma prefixes_66 (t : string) :
  Regex.strip "." t = None -> Regex.prefixes (String "6" (String "6" t)) = None.
Proof.
  intros H. unfold Regex.prefixes.
  replace (Regex.strip "VEX." (String "6" (String "6" t))) with (@None string)
    by reflexivity.
  replace (Regex.alt ["NP"; "66"; "F2"; "F3"] (String "6" (String "6" t)))
    with (Some ("66", t)) by reflexivity.
  cbv beta iota. rewrite H. reflexivity.
Qed.

Lemma head_none (t : string) :
  good_tail t -> Regex.head t = (None, None, None, None, None, t).
Proof.
  intros (c1 & c2 & t' & -> & H1 & H2 & Hdot).
  apply hex_digit_cases in H1. unfold hexchars in H1. simpl in H1.
  destruct (ascii_dec c1 "6") as [-> | Hne].
  - clear H1. specialize (Hdot eq_refl).
    apply hex_digit_cases in H2. unfold hexchars in H2. simpl in H2.
    destruct (ascii_dec c2 "6") as [-> | Hne2].
    + specialize (Hdot eq_refl).
      unfold Regex.head. rewrite (prefixes_66 t' Hdot). reflexivity.
    + repeat (destruct H2 as [<-|H2]; [try reflexivity; congruence|]).
      destruct H2.
  - repeat (destruct H1 as [<-|H1]; [try reflexivity; congruence|]).
    destruct H1.
Qed.

Lemma head_rep (i : Z) (t : string) :
  In i [0; 2; 3] ->
  exists p,
    Regex.head (((Vstr false ++ PFstr (Some (true, i))) ++ WLstr None None) ++ t)
    = (None, None, None, None, Some p, t)
    /\ Opcode.parse_prefix None (Some p) = Ok (Some (true, i)).
Proof.
  simpl. intros [<-|[<-|[<-|[]]]]; eexists; split; reflexivity.
Qed.

Lemma head_legacy (i : Z) (vex : bool) (vexl rexw : option string)
      (t : string) :
  0 <= i < 4 -> wl_ok vexl rexw -> good_tail t ->
  exists vexg p,
    Regex.head (((Vstr vex ++ PFstr (Some (false, i))) ++ WLstr vexl rexw) ++ t)
    = (vexg, Some p, rexw, vexl, None, t)
    /\ is_some vexg = vex
    /\ Opcode.parse_prefix (Some p) None = Ok (Some (false, i)).
Proof.
  intros Hi Hwl (c1 & c2 & t' & -> & H1 & _).
  assert (E : i = 0 \/ i = 1 \/ i = 2 \/ i = 3) by lia.
  pose proof (opt_bit_hex "W" c1 (String c2 t') (or_introl eq_refl) H1) as HW.
  pose proof (opt_bit_hex "L" c1 (String c2 t') (or_intror eq_refl) H1) as HL.
  unfold wl_ok in Hwl. simpl in Hwl.
  destruct Hwl as [Hwl|Hwl].
  - injection Hwl as <- <-.
    destruct E as [-> | [-> | [-> | -> ]]]; destruct vex;
      do 2 eexists;
      match goal with
      | |- context [PFstr ?x] =>
          let s := eval vm_compute in (PFstr x) in change (PFstr x) with s
      end;
      unfold Regex.head, Regex.prefixes;
      cbn [Vstr WLstr append Regex.strip Regex.alt Ascii.eqb Bool.eqb];
      rewrite HW; cbv beta iota; rewrite HL; (split; [reflexivity|]);
      split; reflexivity.
  - destruct E as [-> | [-> | [-> | -> ]]]; destruct vex;
      repeat (destruct Hwl as [Hwl|Hwl];
              [injection Hwl as <- <-; do 2 eexists;
               split; [reflexivity|]; split; reflexivity|]);
      destruct Hwl.
Qed.

Lemma canonical_plain_ext (o : Opcode.t) :
  canonical o -> plain o -> plain_ext_ok (Opcode.opcext o).
Proof.
  intros (_ & _ & Hext & _) (_ & Hp & _). unfold plain_ext_ok. simpl.
  destruct Hp as [->|[v Hv]]; [tauto|]. rewrite Hv in *.
  destruct Hext as [E|(is72 & v' & E & R)]; [discriminate|].
  injection E as <- <-.
  assert (Hr : 0 <= v < 8) by (destruct R as [R|[R _]]; [lia | discriminate]).
  assert (E : v = 0 \/ v = 1 \/ v = 2 \/ v = 3 \/ v = 4 \/ v = 5 \/ v = 6
              \/ v = 7) by lia.
  intuition (subst; tauto).
Qed.

Lemma good_tail_plain (escape : Z) (a b : ascii)
      (opcext : option (bool * Z)) :
  0 <= escape < 4 ->
  Regex.hex_digit a = true -> Regex.hex_digit b = true ->
  plain_ext_ok opcext ->
  good_tail ((Estr escape ++ String a (String b "")) ++ Xstr opcext).
Proof.
  intros He Ha Hb Hx. unfold good_tail.
  assert (E : escape = 0 \/ escape = 1 \/ escape = 2 \/ escape = 3) by lia.
  destruct E as [-> | [-> | [-> | -> ]]].
  - exists a, b, (Xstr opcext). repeat split; try assumption.
    intros _ _. unfold plain_ext_ok in Hx. simpl in Hx.
    repeat (destruct Hx as [<-|Hx]; [reflexivity|]). destruct Hx.
  - do 3 eexists. split; [reflexivity|]. repeat split; discriminate.
  - do 3 eexists. split; [reflexivity|]. repeat split; discriminate.
  - do 3 eexists. split; [reflexivity|]. repeat split; discriminate.
Qed.

(** The name of the path of a plain canonical form parses back to it. *)
Lemma parse_plain_name (o : Opcode.t) :
  canonical o -> plain o ->
  Opcode.parse
    (((Vstr (Opcode.vex o) ++ PFstr (Opcode.prefix o))
        ++ WLstr (Opcode.vexl o) (Opcode.rexw o))
       ++ ((Estr (Opcode.escape o) ++ Py.hex02 (Opcode.opc o))
             ++ Xstr (Opcode.opcext o)))
  = Ok (Some o).
Proof.
  intros Hc Hp.
  pose proof (canonical_plain_ext o Hc Hp) as Hx.
  destruct Hc as (Hesc & Hopc & _ & Hpre). destruct Hp as (Hext & _ & Hwl).
  destruct o as [prefix escape opc opcext extended vex vexl rexw].
  cbn [Opcode.prefix Opcode.escape Opcode.opc Opcode.opcext Opcode.extended
       Opcode.vex Opcode.vexl Opcode.rexw] in *.
  subst extended.
  destruct (hex02_spec opc Hopc) as (a & b & -> & Ha & Hb & Hint).
  destruct (hexpairs_escape escape a b Hesc Ha Hb)
    as (Hhex & Hne & Habl & Hl2 & Hidx).
  pose proof (good_tail_plain escape a b opcext Hesc Ha Hb Hx) as Hgood.
  unfold Opcode.parse, Regex.match_.
  assert (Hhead : exists vexg leg repp,
             Regex.head (((Vstr vex ++ PFstr prefix) ++ WLstr vexl rexw)
                           ++ (Estr escape ++ String a (String b ""))
                           ++ Xstr opcext)
             = (vexg, leg, rexw, vexl, repp,
                (Estr escape ++ String a (String b "")) ++ Xstr opcext)
             /\ is_some vexg = vex
             /\ Opcode.parse_prefix leg repp = Ok prefix).
  { destruct Hpre as [(-> & -> & -> & ->)
                     |[(i & -> & Hi & -> & -> & ->)
                      |(i & -> & Hi & _)]].
    - exists None, None, None. split; [|split; reflexivity].
      exact (head_none _ Hgood).
    - destruct (head_rep i ((Estr escape ++ String a (String b ""))
                           ++ Xstr opcext) Hi) as (p & H1 & H2).
      exists None, None, (Some p). rewrite H1. now repeat split.
    - destruct (head_legacy i vex vexl rexw
                            ((Estr escape ++ String a (String b ""))
                               ++ Xstr opcext) Hi Hwl Hgood)
        as (vexg & p & H1 & H2 & H3).
      exists vexg, (Some p), None. rewrite H1. now repeat split. }
  destruct Hhead as (vexg & leg & repp & -> & Hvex & Hpp).
  destruct (tail_plain vexg leg rexw vexl repp _ opcext Hhex Hne Hx)
    as [-> Hpo].
  cbn [Regex.modrm Regex.extended Regex.legacy Regex.repprefix Regex.opcode
       Regex.vex Regex.vexl Regex.rexw].
  rewrite Hpo. cbn [bind is_some andb].
  rewrite Hpp. cbn [bind].
  rewrite Habl, Hidx. cbn [bind].
  rewrite Hl2, Hint. cbn [bind].
  rewrite Hvex. reflexivity.
Qed.

(** C5 (as the code has it).  For every accepted opcode string whose
    canonical form has no ['+'], no [//] extension, and VEX.W and VEX.L
    either both absent or both fixed to 0 or 1, the pattern expands to a
    single path, and formatting that path and parsing the result again
    yields the same canonical form. *)
Theorem parse_format_roundtrip (s : string) (o : Opcode.t) :
  Opcode.parse s = Ok (Some o) ->
  plain o ->
  exists p str,
    Opcode.for_trie o = Ok [p]
    /\ format_opcode p = Ok str
    /\ Opcode.parse str = Ok (Some o).
Proof.
  intros Hparse Hp. pose proof (parse_canonical s o Hparse) as Hc.
  exists (plain_path o). eexists.
  split; [exact (for_trie_plain o Hc Hp)|].
  split; [exact (format_plain o Hc Hp)|].
  exact (parse_plain_name o Hc Hp).
Qed.

Definition andn : Opcode.t :=
  Opcode.mk (Some (false, 1)) 2 242 None false true (Some "0") (Some "0").

Lemma parse_format_roundtrip_witness :
  Opcode.parse "VEX.66.W0.L0.0f38f2" = Ok (Some andn)
  /\ plain andn
  /\ exists p str,
       Opcode.for_trie andn = Ok [p]
       /\ format_opcode p = Ok str
       /\ Opcode.parse str = Ok (Some andn).
Proof.
  assert (Hp : plain andn).
  { unfold plain. simpl. split; [reflexivity|]. split; [now left|]. tauto. }
  split; [reflexivity|]. split; [exact Hp|].
  apply (parse_format_roundtrip "VEX.66.W0.L0.0f38f2" andn eq_refl Hp).
Defined.

(** The claim at one pattern: every path of the pattern formats to a name
    that parses to the canonical form of the pattern. *)
Definition roundtrip_holds (s : string) : Prop :=
  forall o paths p str,
    Opcode.parse s = Ok (Some o) ->
    Opcode.for_trie o = Ok paths -> In p paths ->
    format_opcode p = Ok str ->
    Opcode.parse str = Ok (Some o).

(** C5 (counterexample).  ['90//0'] parses with a TABLE72 extension; its
    only path is named ['90/0'], which parses with a TABLE8 extension. *)
Lemma roundtrip_fails_on_72_kind : ~ roundtrip_holds "90//0".
Proof.
  intros H.
  specialize (H (Opcode.mk None 0 144 (Some (true, 0)) false false None None)
                [[(TABLE_ROOT, 0); (TABLE256, 144); (TABLE72, 0)]]
                [(TABLE_ROOT, 0); (TABLE256, 144); (TABLE72, 0)]
                "90/0" eq_refl eq_refl (or_introl eq_refl) eq_refl).
  vm_compute in H. discriminate H.
Qed.

(** ** Conflicts on insertion *)

(** The child stored in a slot of a node. *)
Definition child (d : nodes) (tn : string) (byte : Z) : option string :=
  match Py.get d tn with
  | Some e => match Py.index (TrieEntry.items e) byte with
              | Ok (Some c) => Some c
              | _ => None
              end
  | None => None
  end.

(** The path meets an existing node of another kind than it demands. *)
Fixpoint mismatch (d : nodes) (tn : string) (rest : path) : bool :=
  match rest with
  | (_, byte) :: ((kind, _) :: _) as rest' =>
      match child d tn byte with
      | Some c =>
          match Py.get d c with
          | Some e => if EntryKind_eqb (TrieEntry.kind e) kind
                      then mismatch d c rest' else true
          | None => false
          end
      | None => false
      end
  | _ => false
  end.

(** Every node of the path exists and the slot of the terminal is taken. *)
Fixpoint occupied (d : nodes) (tn : string) (rest : path) : bool :=
  match rest with
  | [] => false
  | (_, byte) :: rest' =>
      match rest' with
      | [] => is_some (child d tn byte)
      | _ :: _ =>
          match child d tn byte with
          | Some c => occupied d c rest'
          | None => false
          end
      end
  end.

Definition conflict (t : Table.t) (root_idx : Z) (opcode : path) : bool :=
  mismatch (Table.data t) (Table.root_name root_idx) opcode
  || occupied (Table.data t) (Table.root_name root_idx) opcode.

(** A level of a path: a table kind and a slot of that table. *)
Definition level_ok (x : EntryKind * Z) : Prop :=
  exists n, TrieEntry.TABLE_LENGTH (fst x) = Some n
            /\ 0 <= snd x < Z.of_nat n.

(** A path starts at a root level; the levels below are not roots. *)
Definition wf_path (opcode : path) : Prop :=
  match opcode with
  | [] => False
  | (k, b) :: rest =>
      k = TABLE_ROOT
      /\ Forall level_ok opcode
      /\ Forall (fun x => fst x <> TABLE_ROOT) rest
  end.

(** The nodes are closed under child references, no name is empty, and every
    table has the fan-out of its kind. *)
Definition wf_nodes (d : nodes) : Prop :=
  forall n e,
    Py.get d n = Some e ->
    (forall c, In (Some c) (TrieEntry.items e) ->
               c <> "" /\ Py.get d c <> None)
    /\ (TrieEntry.kind e <> INSTR ->
        TrieEntry.TABLE_LENGTH (TrieEntry.kind e)
        = Some (List.length (TrieEntry.items e))).

(** The name that [add_opcode] gives to the node of the first [i] levels. *)
Definition prefix_name (root_idx : Z) (opcode : path) (i : nat)
  : result string :=
  s <- format_opcode (firstn i opcode) ;;
  Ok (Table.node_name root_idx s).

(** Where the walk finds an empty slot, the name of the node to create is
    not the name of the node that has the slot. *)
Fixpoint names_fresh (d : nodes) (root_idx : Z) (opcode : path) (i : nat)
         (tn : string) (rest : path) : Prop :=
  match rest with
  | (_, byte) :: ((kind, _) :: _) as rest' =>
      match child d tn byte with
      | Some c =>
          match Py.get d c with
          | Some e => if EntryKind_eqb (TrieEntry.kind e) kind
                      then names_fresh d root_idx opcode (S i) c rest'
                      else True
          | None => True
          end
      | None => prefix_name root_idx opcode (S i) <> Ok tn
      end
  | _ => True
  end.

Lemma string_length_append (a b : string) :
  String.length (a ++ b) = (String.length a + String.length b)%nat.
Proof. induction a as [|c a IH]; simpl; [|rewrite IH]; reflexivity. Qed.

Lemma index_in_range {A} (l : list A) (i : Z) :
  0 <= i < Py.len l -> Py.index l i = from_option IndexError (nth_error l (Z.to_nat i)).
Proof.
  intros H. unfold Py.index.
  destruct (0 <=? i) eqn:E1; [|apply Z.leb_gt in E1; lia].
  destruct (i <? Py.len l) eqn:E2; [|apply Z.ltb_ge in E2; lia].
  reflexivity.
Qed.

Lemma index_repeat {A} (x : A) (n : nat) (i : Z) :
  0 <= i < Z.of_nat n -> Py.index (repeat x n) i = Ok x.
Proof.
  intros H. rewrite index_in_range by (unfold Py.len; rewrite repeat_length; lia).
  rewrite nth_error_repeat by lia. reflexivity.
Qed.

Lemma index_ok {A} (l : list A) (i : Z) :
  0 <= i < Py.len l -> exists x, Py.index l i = Ok x /\ In x l.
Proof.
  intros H. rewrite index_in_range by exact H.
  destruct (nth_error l (Z.to_nat i)) as [x|] eqn:E.
  - exists x. split; [reflexivity|]. eapply nth_error_In; eauto.
  - apply nth_error_None in E. unfold Py.len in H. lia.
Qed.

Lemma digits_length (base n : Z) (fuel : nat) : forall acc,
  (String.length acc < String.length (Py.digits (S fuel) base n acc))%nat.
Proof.
  revert n. induction fuel as [|fuel IH]; intros n acc.
  - simpl. destruct (n / base =? 0); simpl; lia.
  - change (Py.digits (S (S fuel)) base n acc)
      with (let acc' := String (Py.digit_char (n mod base)) acc in
            if n / base =? 0 then acc'
            else Py.digits (S fuel) base (n / base) acc').
    cbv zeta. destruct (n / base =? 0); [simpl; lia|].
    specialize (IH (n / base) (String (Py.digit_char (n mod base)) acc)).
    simpl String.length in IH at 1. lia.
Qed.

Lemma hex02_length (n : Z) : (0 < String.length (Py.hex02 n))%nat.
Proof.
  unfold Py.hex02, Py.unsigned_str.
  destruct (n <? 0); [simpl; lia|].
  destruct (n <? 16); [simpl; lia|].
  pose proof (digits_length 16 n (Z.to_nat (Z.log2 n)) ""). simpl in *. lia.
Qed.

(** What one level adds to the two accumulators of the formatter. *)
Lemma level_format (x : EntryKind * Z) :
  level_ok x ->
  exists cp cs,
    (forall p s, format_acc [x] p s = Ok (p ++ cp, s ++ cs))
    /\ (fst x <> TABLE_ROOT -> (0 < String.length cp + String.length cs)%nat).
Proof.
  destruct x as [k b]. intros (n & Hn & Hb). simpl in Hn, Hb.
  destruct k; simpl in Hn; try discriminate; injection Hn as <-.
  - exists "", (Py.hex02 b). split.
    + intros p s. simpl. now rewrite append_nil_r.
    + intros _. pose proof (hex02_length b). simpl. lia.
  - exists "", ("/" ++ Py.hex b). split.
    + intros p s. simpl. now rewrite append_nil_r.
    + intros _. simpl. lia.
  - exists "", ("/" ++ Py.hex b). split.
    + intros p s. simpl. now rewrite append_nil_r.
    + intros _. simpl. lia.
  - assert (E : b = 0 \/ b = 1 \/ b = 2 \/ b = 3) by lia.
    destruct E as [-> | [-> | [-> | -> ]]]; eexists; exists "";
      (split; [intros p s; simpl; rewrite (append_nil_r s); reflexivity
              | intros _; simpl; lia]).
  - assert (E : b = 0 \/ b = 1 \/ b = 2 \/ b = 3) by lia.
    destruct E as [-> | [-> | [-> | -> ]]]; eexists; exists "";
      (split; [intros p s; simpl; rewrite (append_nil_r s); reflexivity
              | intros _; simpl; lia]).
  - assert (E : b = 0 \/ b = 1 \/ b = 2 \/ b = 3) by lia.
    destruct E as [-> | [-> | [-> | -> ]]]; eexists; exists "";
      (split; [intros p s; simpl; rewrite (append_nil_r s); reflexivity
              | intros _; simpl; lia]).
  - assert (E : b = 0 \/ b = 1 \/ b = 2 \/ b = 3 \/ b = 4 \/ b = 5 \/ b = 6
                \/ b = 7) by lia.
    destruct E as [-> | [-> | [-> | [-> | [-> | [-> | [-> | -> ]]]]]]];
      do 2 eexists;
      (split; [intros p s; simpl; reflexivity | intros H; exfalso; apply H; reflexivity]).
Qed.

Lemma format_acc_levels (l : path) :
  Forall level_ok l ->
  exists cp cs, forall p s, format_acc l p s = Ok (p ++ cp, s ++ cs).
Proof.
  induction 1 as [|x l Hx Hl (cp & cs & IH)].
  - exists "", "". intros p s. simpl. now rewrite !append_nil_r.
  - destruct (level_format x Hx) as (xp & xs & Hf & _).
    exists (xp ++ cp), (xs ++ cs). intros p s.
    change (x :: l) with ([x] ++ l)%list.
    rewrite format_acc_app, Hf. cbn [bind]. rewrite IH.
    now rewrite !append_assoc.
Qed.

(** The formatter accepts every list of levels. *)
Lemma format_levels (l : path) :
  Forall level_ok l -> exists s, format_opcode l = Ok s.
Proof.
  intros H. destruct (format_acc_levels l H) as (cp & cs & Hf).
  unfold format_opcode. rewrite format_go_acc, Hf. cbn [bind]. eauto.
Qed.

(** One more level that is not a root level makes the name longer. *)
Lemma format_longer (l : path) (x : EntryKind * Z) (s1 s2 : string) :
  Forall level_ok l -> level_ok x -> fst x <> TABLE_ROOT ->
  format_opcode l = Ok s1 -> format_opcode (l ++ [x])%list = Ok s2 ->
  (String.length s1 < String.length s2)%nat.
Proof.
  intros Hl Hx Hk. destruct (format_acc_levels l Hl) as (cp & cs & Hf).
  destruct (level_format x Hx) as (xp & xs & Hfx & Hlen).
  unfold format_opcode. rewrite !format_go_acc, format_acc_app, Hf.
  cbn [bind]. rewrite Hfx. cbn [bind]. intros E1 E2.
  apply Ok_inj in E1, E2. subst s1 s2.
  specialize (Hlen Hk). rewrite !string_length_append.
  simpl String.length. lia.
Qed.

Lemma update_table_raise (self : Table.t) name idx entry_name entry_val e item :
  Py.get (Table.data self) name = Some e ->
  Py.index (TrieEntry.items e) idx = Ok item ->
  Table.truthy item = true ->
  Table._update_table self name idx entry_name entry_val
  = Raise (BuildError "{}/{} set, not overriding to {}").
Proof.
  intros Hg Hi Ht. unfold Table._update_table, Py.getitem.
  rewrite Hg. simpl. rewrite Hi. simpl. now rewrite Ht.
Qed.

Lemma update_table_ok (self : Table.t) name idx entry_name entry_val e item :
  Py.get (Table.data self) name = Some e ->
  Py.index (TrieEntry.items e) idx = Ok item ->
  Table.truthy item = false ->
  exists t', Table._update_table self name idx entry_name entry_val = Ok t'.
Proof.
  intros Hg Hi Ht. unfold Table._update_table, Py.getitem.
  rewrite Hg. simpl. rewrite Hi. simpl. rewrite Ht, get_set.
  destruct (String.eqb entry_name name); simpl; [eauto|].
  rewrite Hg. simpl. eauto.
Qed.

Lemma update_table_new (self : Table.t) name idx entry_name entry_val e :
  Py.get (Table.data self) name = Some e ->
  Py.index (TrieEntry.items e) idx = Ok None ->
  entry_name <> name ->
  Table._update_table self name idx entry_name entry_val
  = Ok (Table.with_data self
          (Py.set (Py.set (Table.data self) entry_name entry_val) name
                  (TrieEntry.update e idx (Some entry_name)))).
Proof.
  intros Hg Hi Hne. unfold Table._update_table, Py.getitem.
  rewrite Hg. simpl. rewrite Hi. simpl. rewrite get_set.
  apply String.eqb_neq in Hne. rewrite Hne, Hg. reflexivity.
Qed.

Lemma firstn_S_skipn {A} (l : list A) : forall i x r,
  skipn i l = x :: r ->
  firstn (S i) l = (firstn i l ++ [x])%list /\ skipn (S i) l = r.
Proof.
  induction l as [|y l IH]; intros [|i] x r H; simpl in *; try discriminate.
  - injection H as -> ->. now split.
  - destruct (IH i x r H) as [H1 H2]. split; [|exact H2].
    simpl in H1. now rewrite H1.
Qed.

Lemma skipn_in {A} (l : list A) i x r : skipn i l = x :: r -> In x l.
Proof.
  intros H. rewrite <- (firstn_skipn i l), H. apply in_or_app. right. now left.
Qed.

Lemma skipn_S_in_tl {A} (l : list A) i x r :
  skipn (S i) l = x :: r -> In x (tl l).
Proof.
  destruct l as [|y l]; simpl; [discriminate|]. apply skipn_in.
Qed.

Lemma node_name_inj_length (r : Z) (s1 s2 : string) :
  String.length s1 <> String.length s2 ->
  Table.node_name r s1 <> Table.node_name r s2.
Proof.
  intros Hl E. apply Hl. unfold Table.node_name in E.
  apply (f_equal String.length) in E.
  rewrite !string_length_append in E. lia.
Qed.

Lemma index_last {A} (l : list A) (d : A) :
  l <> [] -> Py.index l (-1) = Ok (last l d).
Proof.
  intros Hne. unfold Py.index.
  assert (Hlen : 0 < Py.len l).
  { unfold Py.len. destruct l; [congruence | simpl; lia]. }
  destruct (0 <=? -1) eqn:E0; [apply Z.leb_le in E0; lia|]. simpl.
  destruct (- Py.len l <=? -1) eqn:E1; [|apply Z.leb_gt in E1; lia].
  simpl. unfold Py.len in *.
  replace (Z.to_nat (Z.of_nat (List.length l) + -1))
    with (List.length l - 1)%nat by lia.
  clear E0 E1 Hlen. induction l as [|x l IH]; [congruence|].
  destruct l as [|y l]; [reflexivity|].
  simpl List.length. replace (S (S (List.length l)) - 1)%nat
    with (S (List.length l)) by lia.
  simpl nth_error. simpl List.length in IH.
  replace (S (List.length l) - 1)%nat with (List.length l) in IH by lia.
  rewrite IH by discriminate. reflexivity.
Qed.

Lemma Forall_firstn {A} (P : A -> Prop) (l : list A) (i : nat) :
  Forall P l -> Forall P (firstn i l).
Proof.
  intros H. rewrite Forall_forall in *. intros x Hx. apply H.
  rewrite <- (firstn_skipn i l). apply in_or_app. now left.
Qed.

Lemma last_in {A} (l : list A) (d : A) : l <> [] -> In (last l d) l.
Proof.
  induction l as [|x l IH]; [congruence|]. intros _.
  destruct l as [|y l]; [now left|]. right. apply IH. discriminate.
Qed.

Section Walk.

Variable root_idx : Z.
Variable opcode : path.
Hypothesis Hlevels : Forall level_ok opcode.
Hypothesis Hinner : Forall (fun x => fst x <> TABLE_ROOT) (tl opcode).

Lemma walk_step i x0 x1 rest tn self :
  Table.walk root_idx opcode i (x0 :: x1 :: rest) tn self
  = (e <- Py.getitem (Table.data self) tn ;;
     c <- Py.index (TrieEntry.items e) (snd x0) ;;
     '(tn', self') <-
       match c with
       | None =>
           s <- format_opcode (firstn (i + 1) opcode) ;;
           entry <- TrieEntry.table (fst x1) ;;
           self' <- Table._update_table self tn (snd x0)
                                        (Table.node_name root_idx s) entry ;;
           Ok (Table.node_name root_idx s, self')
       | Some c => Ok (c, self)
       end ;;
     e' <- Py.getitem (Table.data self') tn' ;;
     if negb (EntryKind_eqb (TrieEntry.kind e') (fst x1)) then
       Raise (BuildError "{}, have {}, want {}")
     else Table.walk root_idx opcode (S i) (x1 :: rest) tn' self').
Proof. destruct x0 as [k0 b0], x1 as [k1 b1]. reflexivity. Qed.

Lemma prefix_name_ok (i : nat) :
  exists s, format_opcode (firstn i opcode) = Ok s
            /\ prefix_name root_idx opcode i
               = Ok (Table.node_name root_idx s).
Proof.
  destruct (format_levels (firstn i opcode) (Forall_firstn _ _ i Hlevels))
    as [s Hs].
  exists s. split; [exact Hs|]. unfold prefix_name. now rewrite Hs.
Qed.

(** The names of two successive prefixes of the path differ. *)
Lemma prefix_name_next (i : nat) (x : EntryKind * Z) (rest : path)
      (s1 s2 : string) :
  skipn (S i) opcode = x :: rest ->
  format_opcode (firstn (S i) opcode) = Ok s1 ->
  format_opcode (firstn (S (S i)) opcode) = Ok s2 ->
  Table.node_name root_idx s2 <> Table.node_name root_idx s1.
Proof.
  intros Hs H1 H2.
  destruct (firstn_S_skipn opcode (S i) x rest Hs) as [Hf _].
  rewrite Hf in H2.
  assert (Hx : level_ok x).
  { rewrite Forall_forall in Hlevels. apply Hlevels. eapply skipn_in; eauto. }
  assert (Hk : fst x <> TABLE_ROOT).
  { rewrite Forall_forall in Hinner. apply Hinner.
    eapply skipn_S_in_tl; eauto. }
  pose proof (format_longer _ x s1 s2 (Forall_firstn _ _ (S i) Hlevels)
                            Hx Hk H1 H2).
  apply node_name_inj_length. lia.
Qed.

(** From a node without children the walk creates every node below it. *)
Lemma walk_fresh (rest : path) : forall i tn self k n,
  skipn i opcode = rest -> rest <> [] ->
  Py.get (Table.data self) tn = Some (TrieEntry.mk k (repeat None n) []) ->
  TrieEntry.TABLE_LENGTH (fst (hd (NONE, 0) rest)) = Some n ->
  (forall x1 r1, tl rest = x1 :: r1 ->
                 prefix_name root_idx opcode (S i) <> Ok tn) ->
  exists tn' self' k' n',
    Table.walk root_idx opcode i rest tn self = Ok (tn', self')
    /\ Py.get (Table.data self') tn'
       = Some (TrieEntry.mk k' (repeat None n') [])
    /\ TrieEntry.TABLE_LENGTH (fst (last rest (NONE, 0))) = Some n'.
Proof.
  induction rest as [|x0 rest IH]; intros i tn self k n Hs Hne Hg Hn Hfresh;
    [congruence|].
  destruct rest as [|x1 rest].
  - exists tn, self, k, n. destruct x0. simpl. now repeat split.
  - rewrite walk_step. unfold Py.getitem. rewrite Hg. cbn [from_option bind].
    cbn [TrieEntry.items].
    assert (Hx0 : level_ok x0).
    { rewrite Forall_forall in Hlevels. apply Hlevels. eapply skipn_in; eauto. }
    destruct Hx0 as (n0 & Hn0 & Hb0). simpl in Hn. rewrite Hn in Hn0.
    injection Hn0 as <-.
    rewrite (index_repeat None n (snd x0) Hb0). cbn [bind].
    destruct (firstn_S_skipn opcode i x0 (x1 :: rest) Hs) as [Hf Hs1].
    destruct (prefix_name_ok (S i)) as (s1 & Hs1f & Hp1).
    rewrite Nat.add_1_r, Hs1f. cbn [bind].
    assert (Hx1 : level_ok x1).
    { rewrite Forall_forall in Hlevels. apply Hlevels. eapply skipn_in; eauto. }
    destruct Hx1 as (n1 & Hn1 & Hb1).
    unfold TrieEntry.table. rewrite Hn1. cbn [from_option bind].
    assert (Hnew : Table.node_name root_idx s1 <> tn).
    { intros E. apply (Hfresh x1 rest eq_refl). now rewrite Hp1, E. }
    rewrite (update_table_new self tn (snd x0) _ _ _ Hg)
      by (first [exact Hnew | apply index_repeat; exact Hb0]).
    cbn [bind Table.with_data Table.data].
    rewrite get_set. rewrite (proj2 (String.eqb_neq _ _)) by congruence.
    rewrite get_set, String.eqb_refl. cbn [from_option bind TrieEntry.kind].
    rewrite (proj2 (EntryKind_eqb_eq _ _) eq_refl). cbn [negb].
    eapply IH; [exact Hs1 | discriminate | | exact Hn1 |].
    + cbn [Table.with_data Table.data]. rewrite get_set.
      rewrite (proj2 (String.eqb_neq _ _)) by congruence.
      rewrite get_set, String.eqb_refl. reflexivity.
    + intros x2 r2 Ht. simpl in Ht. subst rest.
      destruct (prefix_name_ok (S (S i))) as (s2 & Hs2f & Hp2).
      rewrite Hp2. intros E. apply Ok_inj in E.
      exact (prefix_name_next i x1 (x2 :: r2) s1 s2 Hs1 Hs1f Hs2f E).
Qed.

Lemma level_index (x : EntryKind * Z) (e : TrieEntry.t) :
  level_ok x ->
  TrieEntry.TABLE_LENGTH (fst x) = Some (List.length (TrieEntry.items e)) ->
  exists item, Py.index (TrieEntry.items e) (snd x) = Ok item
               /\ In item (TrieEntry.items e).
Proof.
  intros (n & Hn & Hb) Hl. rewrite Hl in Hn. injection Hn as <-.
  apply index_ok. exact Hb.
Qed.

Lemma level_in (i : nat) (x : EntryKind * Z) (rest : path) :
  skipn i opcode = x :: rest -> level_ok x.
Proof.
  intros H. rewrite Forall_forall in Hlevels. apply Hlevels.
  eapply skipn_in; eauto.
Qed.

Lemma mismatch_cons d tn k0 b0 k1 b1 rest :
  mismatch d tn ((k0, b0) :: (k1, b1) :: rest)
  = match child d tn b0 with
    | Some c =>
        match Py.get d c with
        | Some e => if EntryKind_eqb (TrieEntry.kind e) k1
                    then mismatch d c ((k1, b1) :: rest) else true
        | None => false
        end
    | None => false
    end.
Proof. reflexivity. Qed.

Lemma occupied_cons d tn x0 x1 rest :
  occupied d tn (x0 :: x1 :: rest)
  = match child d tn (snd x0) with
    | Some c => occupied d c (x1 :: rest)
    | None => false
    end.
Proof. destruct x0. reflexivity. Qed.

Lemma names_fresh_cons d i tn x0 x1 rest :
  names_fresh d root_idx opcode i tn (x0 :: x1 :: rest)
  = match child d tn (snd x0) with
    | Some c =>
        match Py.get d c with
        | Some e => if EntryKind_eqb (TrieEntry.kind e) (fst x1)
                    then names_fresh d root_idx opcode (S i) c (x1 :: rest)
                    else True
        | None => True
        end
    | None => prefix_name root_idx opcode (S i) <> Ok tn
    end.
Proof. destruct x0, x1. reflexivity. Qed.

(** The walk raises exactly on a kind mismatch; otherwise it ends on the
    node that takes the terminal, whose slot is taken exactly when every
    node of the path existed and the slot was taken before. *)
Lemma walk_spec (rest : path) : forall i tn self e,
  skipn i opcode = rest -> rest <> [] ->
  wf_nodes (Table.data self) ->
  Py.get (Table.data self) tn = Some e ->
  TrieEntry.TABLE_LENGTH (fst (hd (NONE, 0) rest))
  = Some (List.length (TrieEntry.items e)) ->
  names_fresh (Table.data self) root_idx opcode i tn rest ->
  if mismatch (Table.data self) tn rest then
    Table.walk root_idx opcode i rest tn self
    = Raise (BuildError "{}, have {}, want {}")
  else
    exists tn' self' e' item,
      Table.walk root_idx opcode i rest tn self = Ok (tn', self')
      /\ Py.get (Table.data self') tn' = Some e'
      /\ Py.index (TrieEntry.items e') (snd (last rest (NONE, 0))) = Ok item
      /\ Table.truthy item = occupied (Table.data self) tn rest.
Proof.
  induction rest as [|x0 rest IH]; intros i tn self e Hs Hne Hwf Hg Hn Hfr;
    [congruence|].
  pose proof (level_in i x0 rest Hs) as Hx0.
  destruct (level_index x0 e Hx0 Hn) as (item & Hitem & Hin).
  destruct rest as [|x1 rest].
  - destruct x0 as [k0 b0]. cbn [mismatch].
    exists tn, self, e, item. split; [reflexivity|]. split; [exact Hg|].
    split; [exact Hitem|].
    cbn [occupied]. unfold child. simpl snd in Hitem. rewrite Hg, Hitem.
    destruct item as [c|]; [|reflexivity].
    destruct (proj1 (Hwf tn e Hg) c Hin) as [Hc _].
    apply String.eqb_neq in Hc. simpl. now rewrite Hc.
  - destruct (firstn_S_skipn opcode i x0 (x1 :: rest) Hs) as [Hf Hs1].
    pose proof (level_in (S i) x1 rest Hs1) as Hx1.
    assert (Hchild : child (Table.data self) tn (snd x0) = item).
    { unfold child. rewrite Hg, Hitem. now destruct item. }
    destruct x0 as [k0 b0], x1 as [k1 b1]. cbn [snd fst] in *.
    remember (Table.walk root_idx opcode i ((k0, b0) :: (k1, b1) :: rest)
                         tn self) as W eqn:HW.
    rewrite walk_step in HW. unfold Py.getitem at 1 in HW. rewrite Hg in HW.
    cbn [from_option bind snd fst] in HW. rewrite Hitem in HW.
    cbn [bind] in HW.
    rewrite mismatch_cons, occupied_cons. rewrite names_fresh_cons in Hfr.
    cbn [snd] in *. rewrite Hchild in *.
    destruct item as [c|].
    + destruct (proj1 (Hwf tn e Hg) c Hin) as [_ Hc].
      destruct (Py.get (Table.data self) c) as [ec|] eqn:Egc; [|congruence].
      cbn [bind] in HW. unfold Py.getitem in HW. rewrite Egc in HW.
      cbn [from_option bind] in HW.
      destruct (EntryKind_eqb (TrieEntry.kind ec) k1) eqn:Ek;
        cbn [negb] in HW; subst W; [|reflexivity].
      cbn [fst] in Hfr. rewrite Ek in Hfr.
      apply EntryKind_eqb_eq in Ek.
      apply (IH (S i) c self ec Hs1); try assumption; [discriminate|].
      cbn [hd fst]. rewrite <- Ek.
      apply (proj2 (Hwf c ec Egc)). rewrite Ek.
      destruct Hx1 as (n1 & Hn1 & _). intros E. simpl in Hn1.
      rewrite E in Hn1. discriminate.
    + destruct (prefix_name_ok (S i)) as (s1 & Hs1f & Hp1).
      rewrite Nat.add_1_r, Hs1f in HW. cbn [bind] in HW.
      destruct Hx1 as (n1 & Hn1 & Hb1). simpl in Hn1.
      unfold TrieEntry.table in HW. rewrite Hn1 in HW.
      cbn [from_option bind] in HW.
      assert (Hnew : Table.node_name root_idx s1 <> tn).
      { intros E. apply Hfr. now rewrite Hp1, E. }
      rewrite (update_table_new self tn b0 _ _ _ Hg Hitem Hnew) in HW.
      cbn [bind Table.with_data Table.data] in HW. unfold Py.getitem in HW.
      rewrite get_set in HW.
      rewrite (proj2 (String.eqb_neq _ _)) in HW by congruence.
      rewrite get_set, String.eqb_refl in HW.
      cbn [from_option bind TrieEntry.kind] in HW.
      rewrite (proj2 (EntryKind_eqb_eq _ _) eq_refl) in HW. cbn [negb] in HW.
      match type of HW with
      | _ = Table.walk _ _ _ _ _ ?s1' =>
          destruct (walk_fresh ((k1, b1) :: rest) (S i)
                               (Table.node_name root_idx s1) s1' k1 n1)
            as (tn' & self' & k' & n' & Hw & Hg' & Hn')
      end.
      * exact Hs1.
      * discriminate.
      * cbn [Table.with_data Table.data]. rewrite get_set.
        rewrite (proj2 (String.eqb_neq _ _)) by congruence.
        rewrite get_set, String.eqb_refl. reflexivity.
      * exact Hn1.
      * intros x2 r2 Ht. simpl in Ht. subst rest.
        destruct (prefix_name_ok (S (S i))) as (s2 & Hs2f & Hp2).
        rewrite Hp2. intros E. apply Ok_inj in E.
        exact (prefix_name_next i (k1, b1) (x2 :: r2) s1 s2 Hs1 Hs1f Hs2f E).
      * rewrite Hw in HW. subst W.
        exists tn', self', (TrieEntry.mk k' (repeat None n') []), None.
        split; [reflexivity|]. split; [exact Hg'|]. split; [|reflexivity].
        cbn [TrieEntry.items]. apply index_repeat.
        assert (Hlast : level_ok (last ((k1, b1) :: rest) (NONE, 0))).
        { rewrite Forall_forall in Hlevels. apply Hlevels.
          rewrite <- (firstn_skipn (S i) opcode). apply in_or_app. right.
          rewrite Hs1. apply last_in. discriminate. }
        destruct Hlast as (nl & Hnl & Hbl).
        rewrite Hn' in Hnl. injection Hnl as <-. exact Hbl.
Qed.

End Walk.

(** On a well-formed table whose names are fresh along the path,
    [add_opcode] raises a build error exactly when the insertion conflicts:
    when a node on the path exists with another kind than the path demands,
    or when every node of the path exists and the slot of the terminal is
    already taken. *)
Lemma add_opcode_conflict_wf
        (t : Table.t) (opcode : path) (w : list word) (root_idx : Z) :
  wf_path opcode ->
  wf_nodes (Table.data t) ->
  (exists e, Py.get (Table.data t) (Table.root_name root_idx) = Some e
             /\ TrieEntry.kind e = TABLE_ROOT) ->
  names_fresh (Table.data t) root_idx opcode 0 (Table.root_name root_idx)
              opcode ->
  if conflict t root_idx opcode
  then exists msg,
      Table.add_opcode t opcode w root_idx = Raise (BuildError msg)
  else exists t', Table.add_opcode t opcode w root_idx = Ok t'.
Proof.
  intros Hwf Hnodes (e & Hg & Hk) Hfresh.
  destruct opcode as [|[k0 b0] rest] eqn:Eop; [destruct Hwf|].
  rewrite <- Eop in *.
  assert (Hlevels : Forall level_ok opcode) by (subst opcode; apply Hwf).
  assert (Hinner : Forall (fun x => fst x <> TABLE_ROOT) (tl opcode))
    by (subst opcode; apply Hwf).
  assert (Hroot : k0 = TABLE_ROOT) by (subst opcode; apply Hwf).
  assert (Hne : opcode <> []) by (subst opcode; discriminate).
  destruct (format_levels opcode Hlevels) as [s Hs].
  unfold Table.add_opcode, conflict. rewrite Hs. cbn [bind].
  pose proof (walk_spec root_idx opcode Hlevels Hinner opcode 0
                        (Table.root_name root_idx) t e eq_refl Hne Hnodes Hg)
    as Hwalk.
  assert (Hlen : TrieEntry.TABLE_LENGTH (fst (hd (NONE, 0) opcode))
                 = Some (List.length (TrieEntry.items e))).
  { subst opcode. cbn [hd fst]. rewrite Hroot, <- Hk.
    apply (proj2 (Hnodes _ e Hg)). rewrite Hk. discriminate. }
  specialize (Hwalk Hlen Hfresh).
  destruct (mismatch (Table.data t) (Table.root_name root_idx) opcode).
  - rewrite Hwalk. cbn [bind orb]. eauto.
  - destruct Hwalk as (tn' & self' & e' & item & Hw & Hg' & Hi & Ht).
    rewrite Hw. cbn [bind orb].
    rewrite (index_last opcode (NONE, 0) Hne). cbn [bind].
    destruct (occupied (Table.data t) (Table.root_name root_idx) opcode).
    + rewrite (update_table_raise self' tn' _ _ _ e' item Hg' Hi Ht). eauto.
    + exact (update_table_ok self' tn' _ _ _ e' item Hg' Hi Ht).
Qed.

(** A decidable form of [wf_nodes]. *)
Definition wf_entry_b (d : nodes) (e : TrieEntry.t) : bool :=
  forallb (fun item => match item with
                       | Some c => negb (String.eqb c "") && is_some (Py.get d c)
                       | None => true
                       end)
          (TrieEntry.items e)
  && match TrieEntry.kind e with
     | INSTR => true
     | k => match TrieEntry.TABLE_LENGTH k with
            | Some n => Nat.eqb n (List.length (TrieEntry.items e))
            | None => false
            end
     end.

Definition wf_nodes_b (d : nodes) : bool :=
  forallb (fun ne => wf_entry_b d (snd ne)) d.

Lemma get_in {V} (d : list (string * V)) n e :
  Py.get d n = Some e -> In (n, e) d.
Proof.
  induction d as [|[k v] d IH]; simpl; [discriminate|].
  destruct (String.eqb k n) eqn:E.
  - apply String.eqb_eq in E. subst k. intros H. injection H as ->. now left.
  - intros H. right. now apply IH.
Qed.

Lemma wf_nodes_b_sound (d : nodes) : wf_nodes_b d = true -> wf_nodes d.
Proof.
  unfold wf_nodes_b, wf_nodes. rewrite forallb_forall. intros H n e Hg.
  specialize (H (n, e) (get_in d n e Hg)). unfold wf_entry_b in H. cbn [snd] in H.
  apply andb_true_iff in H. destruct H as [H1 H2].
  rewrite forallb_forall in H1. split.
  - intros c Hc. specialize (H1 (Some c) Hc). simpl in H1.
    apply andb_true_iff in H1. destruct H1 as [Ha Hb]. split.
    + apply negb_true_iff, String.eqb_neq in Ha. exact Ha.
    + destruct (Py.get d c); [discriminate | discriminate Hb].
  - intros Hk.
    destruct (TrieEntry.kind e); try congruence;
      cbn [TrieEntry.TABLE_LENGTH] in *; try discriminate H2;
      apply Nat.eqb_eq in H2; now rewrite H2.
Qed.

(** *** Names of nodes *)

Fixpoint contains (c : ascii) (s : string) : bool :=
  match s with
  | EmptyString => false
  | String x s' => Ascii.eqb x c || contains c s'
  end.

Lemma contains_app (c : ascii) (a b : string) :
  contains c (a ++ b) = contains c a || contains c b.
Proof.
  induction a as [|x a IH]; simpl; [reflexivity|].
  rewrite IH. now rewrite orb_assoc.
Qed.

(** A string is cut in one way only at the first occurrence of [c]. *)
Lemma split_first (c : ascii) (a a' b b' : string) :
  contains c a = false -> contains c a' = false ->
  a ++ String c b = a' ++ String c b' -> a = a' /\ b = b'.
Proof.
  revert a'. induction a as [|x a IH]; intros [|x' a'] Ha Ha' E; simpl in *.
  - injection E as <-. now split.
  - injection E as <- _. rewrite Ascii.eqb_refl in Ha'. discriminate.
  - injection E as -> _. rewrite Ascii.eqb_refl in Ha. discriminate.
  - injection E as <- E. apply orb_false_iff in Ha, Ha'.
    destruct (IH a' (proj2 Ha) (proj2 Ha') E) as [-> ->]. now split.
Qed.

Definition dotfree (s : string) : Prop := contains "." s = false.

Definition dotted (s : string) : Prop := s = "" \/ exists q, s = q ++ ".".

Lemma dotted_tail (c : ascii) (s : string) : dotted (String c s) -> dotted s.
Proof.
  intros [H|[q H]]; [discriminate|].
  destruct q as [|x q]; simpl in H; injection H as _ H.
  - now left.
  - right. eauto.
Qed.

Lemma dotted_has_dot (c : ascii) (s : string) :
  dotted (String c s) -> contains "." (String c s) = true.
Proof.
  intros [H|[q H]]; [discriminate|]. rewrite H, contains_app. simpl.
  apply orb_true_r.
Qed.

(** A dotted part followed by a dot-free part is cut in one way only. *)
Lemma split_dot (p p' o o' : string) :
  dotted p -> dotted p' -> dotfree o -> dotfree o' ->
  p ++ o = p' ++ o' -> p = p' /\ o = o'.
Proof.
  unfold dotfree.
  revert p'. induction p as [|x p IH]; intros [|x' p'] Hp Hp' Ho Ho' E.
  - simpl in E. now split.
  - exfalso. simpl in E. apply dotted_has_dot in Hp'.
    rewrite E in Ho. change (String x' (p' ++ o')) with (String x' p' ++ o') in Ho.
    rewrite contains_app, Hp' in Ho. discriminate.
  - exfalso. simpl in E. apply dotted_has_dot in Hp.
    rewrite <- E in Ho'. change (String x (p ++ o)) with (String x p ++ o) in Ho'.
    rewrite contains_app, Hp in Ho'. discriminate.
  - simpl in E. injection E as <- E.
    destruct (IH p' (dotted_tail _ _ Hp) (dotted_tail _ _ Hp') Ho Ho' E)
      as [-> ->].
    now split.
Qed.

Lemma dotted_app (a b : string) : dotted a -> dotted b -> dotted (a ++ b).
Proof.
  intros Ha [->|[q ->]].
  - now rewrite append_nil_r.
  - right. exists (a ++ q). now rewrite append_assoc.
Qed.

Lemma dotfree_app (a b : string) : dotfree a -> dotfree b -> dotfree (a ++ b).
Proof. unfold dotfree. intros Ha Hb. now rewrite contains_app, Ha, Hb. Qed.

Lemma digit_char_no_comma (d : Z) :
  0 <= d < 10 -> Ascii.eqb (Py.digit_char d) "," = false.
Proof.
  intros H.
  assert (E : d = 0 \/ d = 1 \/ d = 2 \/ d = 3 \/ d = 4 \/ d = 5 \/ d = 6
              \/ d = 7 \/ d = 8 \/ d = 9) by lia.
  destruct E as [-> | [-> | [-> | [-> | [-> | [-> | [-> | [-> | [-> | -> ]]]]]]]]];
    reflexivity.
Qed.

Lemma digits_no_comma (fuel : nat) : forall n acc,
  contains "," acc = false ->
  contains "," (Py.digits fuel 10 n acc) = false.
Proof.
  induction fuel as [|fuel IH]; intros n acc Hacc; [exact Hacc|].
  cbn [Py.digits]. cbv zeta.
  assert (Hd : contains "," (String (Py.digit_char (n mod 10)) acc) = false).
  { cbn [contains]. rewrite digit_char_no_comma, Hacc; [reflexivity|].
    apply Z.mod_pos_bound. lia. }
  destruct (n / 10 =? 0); [exact Hd | now apply IH].
Qed.

Lemma dec_no_comma (r : Z) : contains "," (Py.dec r) = false.
Proof.
  unfold Py.dec, Py.unsigned_str.
  destruct (r <? 0).
  - change ("-" ++ ?s) with (String "-" s). cbn [contains].
    rewrite digits_no_comma; reflexivity.
  - apply digits_no_comma. reflexivity.
Qed.

(** Equal node names have the same root digits and the same path name. *)
Lemma node_name_inj (r r' : Z) (s s' : string) :
  Table.node_name r s = Table.node_name r' s' ->
  Py.dec r = Py.dec r' /\ s = s'.
Proof.
  unfold Table.node_name. simpl. intros E. injection E as E.
  change ("," ++ ?x) with (String "," x) in E.
  apply (split_first "," _ _ _ _ (dec_no_comma r) (dec_no_comma r')) in E.
  exact E.
Qed.

Fixpoint last_char (s : string) : option ascii :=
  match s with
  | EmptyString => None
  | String c EmptyString => Some c
  | String _ s' => last_char s'
  end.

Definition dotted_b (s : string) : bool :=
  match last_char s with
  | None => true
  | Some c => Ascii.eqb c "."
  end.

Lemma dotted_b_sound (s : string) : dotted_b s = true -> dotted s.
Proof.
  induction s as [|c s IH]; [now left|].
  destruct s as [|c' s'].
  - unfold dotted_b. simpl. intros H. apply Ascii.eqb_eq in H. subst c.
    right. now exists "".
  - intros H. destruct (IH H) as [E|[q E]]; [discriminate|].
    right. exists (String c q). simpl. now rewrite E.
Qed.

(** The part that a level adds before the opcode ends with a dot or is
    empty; the part that it adds to the opcode has no dot. *)
Definition parts_b (x : EntryKind * Z) : bool :=
  match format_acc [x] "" "" with
  | Ok (cp, cs) => dotted_b cp && negb (contains "." cs)
  | Raise _ => false
  end.

Definition all_levels : list (EntryKind * Z) :=
  flat_map (fun k => match TrieEntry.TABLE_LENGTH k with
                     | Some n => List.map (fun b => (k, b)) (Table.range n)
                     | None => []
                     end)
           [TABLE256; TABLE8; TABLE72; TABLE_PREFIX; TABLE_VEX;
            TABLE_PREFIX_REP; TABLE_ROOT].

Lemma all_levels_parts : forallb parts_b all_levels = true.
Proof. vm_compute. reflexivity. Qed.

Lemma level_in_all (x : EntryKind * Z) : level_ok x -> In x all_levels.
Proof.
  destruct x as [k b]. intros (n & Hn & Hb). simpl in Hn, Hb.
  unfold all_levels. apply in_flat_map. exists k. split.
  - destruct k; simpl in Hn; try discriminate; simpl; tauto.
  - rewrite Hn. apply in_map_iff. exists b. split; [reflexivity|].
    unfold Table.range. apply in_map_iff. exists (Z.to_nat b).
    split; [lia|]. apply in_seq. lia.
Qed.

Lemma level_parts (x : EntryKind * Z) :
  level_ok x ->
  exists cp cs,
    (forall p s, format_acc [x] p s = Ok (p ++ cp, s ++ cs))
    /\ dotted cp /\ dotfree cs.
Proof.
  intros Hx. destruct (level_format x Hx) as (cp & cs & Hf & _).
  exists cp, cs. split; [exact Hf|].
  pose proof all_levels_parts as Hall. rewrite forallb_forall in Hall.
  specialize (Hall x (level_in_all x Hx)). unfold parts_b in Hall.
  rewrite Hf in Hall. cbn [append] in Hall.
  apply andb_true_iff in Hall. destruct Hall as [H1 H2].
  split; [now apply dotted_b_sound | now apply negb_true_iff in H2].
Qed.

Lemma format_parts (l : path) :
  Forall level_ok l ->
  exists cp cs,
    (forall p s, format_acc l p s = Ok (p ++ cp, s ++ cs))
    /\ dotted cp /\ dotfree cs.
Proof.
  induction 1 as [|x l Hx Hl (cp & cs & IH & Hp & Hs)].
  - exists "", "". split; [|split; [now left | reflexivity]].
    intros p s. simpl. now rewrite !append_nil_r.
  - destruct (level_parts x Hx) as (xp & xs & Hf & Hxp & Hxs).
    exists (xp ++ cp), (xs ++ cs). split; [|split].
    + intros p s. change (x :: l) with ([x] ++ l)%list.
      rewrite format_acc_app, Hf. cbn [bind]. rewrite IH.
      now rewrite !append_assoc.
    + now apply dotted_app.
    + now apply dotfree_app.
Qed.

(** The name of a list of levels, and the name of its node under a root. *)
Definition fmt (l : path) : string :=
  match format_opcode l with
  | Ok s => s
  | Raise _ => ""
  end.

Definition pname (root_idx : Z) (l : path) : string :=
  match l with
  | [] => Table.root_name root_idx
  | _ :: _ => Table.node_name root_idx (fmt l)
  end.

Lemma fmt_parts (l : path) :
  Forall level_ok l ->
  exists cp cs,
    (forall p s, format_acc l p s = Ok (p ++ cp, s ++ cs))
    /\ dotted cp /\ dotfree cs
    /\ format_opcode l = Ok (cp ++ cs) /\ fmt l = cp ++ cs.
Proof.
  intros H. destruct (format_parts l H) as (cp & cs & Hf & Hp & Hs).
  exists cp, cs. repeat split; try assumption.
  - unfold format_opcode. rewrite format_go_acc, Hf. reflexivity.
  - unfold fmt, format_opcode. rewrite format_go_acc, Hf. reflexivity.
Qed.

Lemma fmt_snoc (l : path) (x : EntryKind * Z) :
  Forall level_ok l -> level_ok x ->
  exists cp cs xp xs,
    dotted cp /\ dotfree cs /\ fmt l = cp ++ cs
    /\ fmt (l ++ [x])%list = (cp ++ xp) ++ (cs ++ xs)
    /\ (fst x <> TABLE_ROOT -> (0 < String.length xp + String.length xs)%nat).
Proof.
  intros Hl Hx.
  destruct (fmt_parts l Hl) as (cp & cs & Hf & Hp & Hs & _ & E).
  destruct (level_format x Hx) as (xp & xs & Hfx & Hlen).
  exists cp, cs, xp, xs. repeat split; try assumption.
  unfold fmt, format_opcode.
  rewrite format_go_acc, format_acc_app, Hf. cbn [bind]. rewrite Hfx.
  reflexivity.
Qed.

Lemma fmt_snoc_parts (l : path) (x : EntryKind * Z) (xp xs : string) :
  Forall level_ok l ->
  (forall p s, format_acc [x] p s = Ok (p ++ xp, s ++ xs)) ->
  exists cp cs,
    dotted cp /\ dotfree cs /\ fmt l = cp ++ cs
    /\ fmt (l ++ [x])%list = (cp ++ xp) ++ (cs ++ xs).
Proof.
  intros Hl Hfx.
  destruct (fmt_parts l Hl) as (cp & cs & Hf & Hp & Hs & _ & E).
  exists cp, cs. repeat split; try assumption.
  unfold fmt, format_opcode.
  rewrite format_go_acc, format_acc_app, Hf. cbn [bind]. rewrite Hfx.
  reflexivity.
Qed.

Lemma pname_snoc_node (r : Z) (l : path) (x : EntryKind * Z) :
  pname r (l ++ [x])%list = Table.node_name r (fmt (l ++ [x])%list).
Proof. destruct l; reflexivity. Qed.

Lemma node_name_dec (r r' : Z) (s : string) :
  Py.dec r = Py.dec r' -> Table.node_name r s = Table.node_name r' s.
Proof. unfold Table.node_name. now intros ->. Qed.

(** Nodes of the same name have children of the same name: the name of a
    node one level down is a function of the name of the node, of its kind
    and of the slot. *)
Lemma pname_snoc (r r' : Z) (l l' : path) (x : EntryKind * Z) :
  Forall level_ok l -> Forall level_ok l' -> level_ok x ->
  pname r l = pname r' l' ->
  pname r (l ++ [x])%list = pname r' (l' ++ [x])%list.
Proof.
  intros Hl Hl' Hx E. rewrite !pname_snoc_node.
  destruct (level_format x Hx) as (xp & xs & Hfx & _).
  destruct l as [|y l], l' as [|y' l'].
  - simpl in E. unfold Table.root_name in E. simpl in E.
    injection E as E. now apply node_name_dec.
  - exfalso. simpl in E. unfold Table.root_name, Table.node_name in E.
    simpl in E. discriminate E.
  - exfalso. simpl in E. unfold Table.root_name, Table.node_name in E.
    simpl in E. discriminate E.
  - cbn [pname] in E. apply node_name_inj in E. destruct E as [Ed Ef].
    destruct (fmt_snoc_parts _ x xp xs Hl Hfx) as (cp & cs & Hp & Hs & E1 & E2).
    destruct (fmt_snoc_parts _ x xp xs Hl' Hfx)
      as (cp' & cs' & Hp' & Hs' & E1' & E2').
    rewrite E1, E1' in Ef.
    destruct (split_dot _ _ _ _ Hp Hp' Hs Hs' Ef) as [-> ->].
    rewrite E2, E2'. now apply node_name_dec.
Qed.

Lemma fmt_length_app (s : path) : forall l,
  Forall level_ok l -> Forall level_ok s ->
  Forall (fun x => fst x <> TABLE_ROOT) s ->
  (String.length (fmt l) <= String.length (fmt (l ++ s)%list))%nat
  /\ (s <> [] ->
      (String.length (fmt l) < String.length (fmt (l ++ s)%list))%nat).
Proof.
  induction s as [|x s IH]; intros l Hl Hs Hr.
  - rewrite app_nil_r. split; [lia | congruence].
  - inversion Hs as [|? ? Hx Hs']; subst. inversion Hr as [|? ? Hk Hr']; subst.
    assert (Hlx : Forall level_ok (l ++ [x])%list).
    { apply Forall_app. split; [exact Hl | now constructor]. }
    destruct (IH (l ++ [x])%list Hlx Hs' Hr') as [Hle _].
    rewrite <- app_assoc in Hle. cbn [app] in Hle.
    destruct (fmt_snoc l x Hl Hx) as (cp & cs & xp & xs & _ & _ & E1 & E2 & Hlen).
    specialize (Hlen Hk). rewrite E1, E2, !string_length_append in *.
    split; [lia | intros _; lia].
Qed.

(** The node of a list of levels and the node of a longer list have
    different names. *)
Lemma pname_app_neq (r : Z) (l s : path) :
  Forall level_ok l -> Forall level_ok s ->
  (l <> [] -> Forall (fun x => fst x <> TABLE_ROOT) s) -> s <> [] ->
  pname r l <> pname r (l ++ s)%list.
Proof.
  intros Hl Hs Hr Hne.
  destruct l as [|y l].
  - destruct s as [|x s]; [congruence|]. simpl.
    unfold Table.root_name, Table.node_name. simpl. discriminate.
  - cbn [pname app]. apply node_name_inj_length.
    assert (Hr' : Forall (fun x => fst x <> TABLE_ROOT) s)
      by (apply Hr; discriminate).
    pose proof (proj2 (fmt_length_app s (y :: l) Hl Hs Hr') Hne) as H.
    cbn [app] in H. lia.
Qed.

Lemma firstn_add {A} (l : list A) : forall i m,
  firstn (i + m) l = (firstn i l ++ firstn m (skipn i l))%list.
Proof.
  induction l as [|x l IH]; intros [|i] m; simpl; try reflexivity.
  - now rewrite firstn_nil.
  - now rewrite IH.
Qed.

Lemma Forall_skipn {A} (P : A -> Prop) (l : list A) (i : nat) :
  Forall P l -> Forall P (skipn i l).
Proof.
  intros H. rewrite Forall_forall in *. intros x Hx. apply H.
  rewrite <- (firstn_skipn i l). apply in_or_app. now right.
Qed.

Lemma skipn_tl {A} (l : list A) (i : nat) : skipn (S i) l = skipn i (tl l).
Proof. destruct l; simpl; [now rewrite skipn_nil | reflexivity]. Qed.

Lemma pname_root_neq (r r' : Z) (s : string) :
  Table.node_name r s <> Table.root_name r'.
Proof. unfold Table.root_name, Table.node_name. simpl. discriminate. Qed.

Lemma node_name_nonempty (r : Z) (s : string) : Table.node_name r s <> "".
Proof. unfold Table.node_name. simpl. discriminate. Qed.

(** *** Updating a slot *)

Lemma map_from_nth f (l : list (option string)) : forall i k,
  nth_error (TrieEntry.map_from i f l) k
  = option_map (f (i + Z.of_nat k)) (nth_error l k).
Proof.
  induction l as [|v l IH]; intros i [|k]; simpl; try reflexivity.
  - now rewrite Z.add_0_r.
  - rewrite IH. do 2 f_equal. lia.
Qed.

Lemma map_from_in f (l : list (option string)) x : forall i,
  In x (TrieEntry.map_from i f l) ->
  exists j v, In v l /\ x = f j v.
Proof.
  induction l as [|v l IH]; intros i; simpl; [tauto|].
  intros [H|H].
  - exists i, v. split; [now left | now symmetry].
  - destruct (IH _ H) as (j & v' & Hin & E). exists j, v'. split; [now right | exact E].
Qed.

Lemma update_kind (e : TrieEntry.t) idx v :
  TrieEntry.kind (TrieEntry.update e idx v) = TrieEntry.kind e.
Proof. reflexivity. Qed.

Lemma update_length (e : TrieEntry.t) idx v :
  List.length (TrieEntry.items (TrieEntry.update e idx v))
  = List.length (TrieEntry.items e).
Proof. apply map_from_length. Qed.

Lemma update_index (e : TrieEntry.t) idx v b :
  0 <= b < Py.len (TrieEntry.items e) ->
  Py.index (TrieEntry.items (TrieEntry.update e idx v)) b
  = if b =? idx then Ok v else Py.index (TrieEntry.items e) b.
Proof.
  intros Hb.
  rewrite !index_in_range
    by (unfold Py.len in *; rewrite ?update_length; exact Hb).
  unfold TrieEntry.update, TrieEntry.map. cbn [TrieEntry.items].
  rewrite map_from_nth.
  destruct (nth_error (TrieEntry.items e) (Z.to_nat b)) as [y|] eqn:E.
  - cbn [option_map from_option].
    replace (0 + Z.of_nat (Z.to_nat b)) with b by lia.
    now destruct (b =? idx).
  - apply nth_error_None in E. unfold Py.len in Hb. lia.
Qed.

Lemma update_in (e : TrieEntry.t) idx v x :
  In x (TrieEntry.items (TrieEntry.update e idx v)) ->
  x = v \/ In x (TrieEntry.items e).
Proof.
  intros H. apply map_from_in in H. destruct H as (j & y & Hin & ->).
  destruct (j =? idx); [now left | now right].
Qed.

Lemma index_some_in {A} (l : list A) (b : Z) (x : A) :
  Py.index l b = Ok x -> In x l.
Proof.
  assert (Hn : forall k, from_option IndexError (nth_error l k) = Ok x -> In x l).
  { intros k. destruct (nth_error l k) eqn:E; simpl; [|discriminate].
    intros H. injection H as <-. eapply nth_error_In; eauto. }
  unfold Py.index.
  destruct ((0 <=? b) && (b <? Py.len l)); [apply Hn|].
  destruct ((- Py.len l <=? b) && (b <? 0)); [apply Hn | discriminate].
Qed.

Lemma get_set_same {V} (d : list (string * V)) (k : string) (v : V) :
  Py.get (Py.set d k v) k = Some v.
Proof. now rewrite get_set, String.eqb_refl. Qed.

Lemma get_set_other {V} (d : list (string * V)) (k n : string) (v : V) :
  k <> n -> Py.get (Py.set d k v) n = Py.get d n.
Proof. intros H. apply String.eqb_neq in H. now rewrite get_set, H. Qed.

(** *** The tables that insertions build *)

(** The child in slot [b] of a node is named after the node, its kind and
    the slot, whatever list of levels the name of the node is read as. *)
Definition named (d : nodes) : Prop :=
  forall tn e b c r l,
    Py.get d tn = Some e ->
    0 <= b < Py.len (TrieEntry.items e) ->
    Py.index (TrieEntry.items e) b = Ok (Some c) ->
    Forall level_ok l -> tn = pname r l ->
    c = pname r (l ++ [(TrieEntry.kind e, b)])%list.

Definition rooted (n : nat) (d : nodes) : Prop :=
  forall r, 0 <= r < Z.of_nat n ->
    exists e, Py.get d (Table.root_name r) = Some e
              /\ TrieEntry.kind e = TABLE_ROOT.

Definition inv (n : nat) (d : nodes) : Prop :=
  wf_nodes d /\ named d /\ rooted n d.

(** A node without children: a new table or an instruction. *)
Definition leaf (v : TrieEntry.t) : Prop :=
  (forall c, ~ In (Some c) (TrieEntry.items v))
  /\ (TrieEntry.kind v <> INSTR ->
      TrieEntry.TABLE_LENGTH (TrieEntry.kind v)
      = Some (List.length (TrieEntry.items v))).

Lemma leaf_instr (w : list word) : leaf (TrieEntry.instr w).
Proof. split; [intros c []|]. intros H. now elim H. Qed.

Lemma leaf_table (k : EntryKind) (n : nat) :
  TrieEntry.TABLE_LENGTH k = Some n ->
  leaf (TrieEntry.mk k (repeat None n) []).
Proof.
  intros H. split.
  - intros c Hin. apply repeat_spec in Hin. discriminate.
  - intros _. simpl. now rewrite repeat_length.
Qed.

(** The two writes of [_update_table]. *)
Definition link (d : nodes) (tn : string) (e : TrieEntry.t) (b : Z)
           (c : string) (v : TrieEntry.t) : nodes :=
  Py.set (Py.set d c v) tn (TrieEntry.update e b (Some c)).

Lemma get_link d tn e b c v x :
  Py.get (link d tn e b c v) x
  = if String.eqb tn x then Some (TrieEntry.update e b (Some c))
    else if String.eqb c x then Some v else Py.get d x.
Proof. unfold link. now rewrite !get_set. Qed.

Lemma get_link_keeps d tn e b c v x :
  Py.get d x <> None -> Py.get (link d tn e b c v) x <> None.
Proof.
  intros H. rewrite get_link.
  destruct (String.eqb tn x); [discriminate|].
  destruct (String.eqb c x); [discriminate | exact H].
Qed.

Lemma link_wf d tn e b c v :
  wf_nodes d -> Py.get d tn = Some e -> c <> "" -> leaf v ->
  wf_nodes (link d tn e b c v).
Proof.
  intros Hwf Hg Hc [Hv1 Hv2] n0 e0 Hg0. rewrite get_link in Hg0.
  destruct (String.eqb tn n0) eqn:E1.
  - injection Hg0 as <-. split.
    + intros c' Hin. apply update_in in Hin. destruct Hin as [Hin|Hin].
      * injection Hin as ->. split; [exact Hc|].
        rewrite get_link. destruct (String.eqb tn c); [discriminate|].
        rewrite String.eqb_refl. discriminate.
      * destruct (proj1 (Hwf tn e Hg) c' Hin) as [H1 H2].
        split; [exact H1 | now apply get_link_keeps].
    + rewrite update_kind, update_length. apply (Hwf tn e Hg).
  - destruct (String.eqb c n0) eqn:E2.
    + injection Hg0 as <-. split; [|exact Hv2].
      intros c' Hin. now elim (Hv1 c').
    + split; [|apply (Hwf n0 e0 Hg0)].
      intros c' Hin. destruct (proj1 (Hwf n0 e0 Hg0) c' Hin) as [H1 H2].
      split; [exact H1 | now apply get_link_keeps].
Qed.

Lemma link_named d tn e b c v :
  named d -> Py.get d tn = Some e -> leaf v ->
  (forall r l, Forall level_ok l -> tn = pname r l ->
               c = pname r (l ++ [(TrieEntry.kind e, b)])%list) ->
  named (link d tn e b c v).
Proof.
  intros Hnm Hg [Hv1 _] Hc tn0 e0 b0 c0 r l Hg0 Hb0 Hi0 Hl Htn0.
  rewrite get_link in Hg0.
  destruct (String.eqb tn tn0) eqn:E1.
  - apply String.eqb_eq in E1. subst tn0. injection Hg0 as <-.
    unfold Py.len in Hb0. rewrite update_length in Hb0.
    rewrite update_index in Hi0 by exact Hb0. rewrite update_kind.
    destruct (b0 =? b) eqn:Eb.
    + apply Z.eqb_eq in Eb. subst b0. injection Hi0 as <-. now apply Hc.
    + exact (Hnm tn e b0 c0 r l Hg Hb0 Hi0 Hl Htn0).
  - destruct (String.eqb c tn0) eqn:E2.
    + injection Hg0 as <-. apply index_some_in in Hi0. now elim (Hv1 c0).
    + exact (Hnm tn0 e0 b0 c0 r l Hg0 Hb0 Hi0 Hl Htn0).
Qed.

Lemma link_rooted n d tn e b c v :
  rooted n d -> Py.get d tn = Some e ->
  (forall r, c <> Table.root_name r) ->
  rooted n (link d tn e b c v).
Proof.
  intros Hr Hg Hc r Hrange. destruct (Hr r Hrange) as (e0 & Hg0 & Hk0).
  rewrite get_link. destruct (String.eqb tn (Table.root_name r)) eqn:E1.
  - apply String.eqb_eq in E1. subst tn. rewrite Hg0 in Hg.
    injection Hg as <-. eexists. split; [reflexivity|]. now rewrite update_kind.
  - destruct (String.eqb c (Table.root_name r)) eqn:E2.
    + apply String.eqb_eq in E2. now elim (Hc r).
    + eauto.
Qed.

Lemma link_inv n d tn e b c v :
  inv n d -> Py.get d tn = Some e -> c <> "" -> leaf v ->
  (forall r, c <> Table.root_name r) ->
  (forall r l, Forall level_ok l -> tn = pname r l ->
               c = pname r (l ++ [(TrieEntry.kind e, b)])%list) ->
  inv n (link d tn e b c v).
Proof.
  intros (Hwf & Hnm & Hr) Hg Hc Hv Hcr Hcn. split; [|split].
  - now apply link_wf.
  - now apply link_named.
  - now apply link_rooted.
Qed.

(** The step of the walk into the next node, which it creates when the slot
    is empty. *)
Definition descend (root_idx : Z) (opcode : path) (i : nat) (tn : string)
           (byte : Z) (kind : EntryKind) (self : Table.t) (c : option string)
  : result (string * Table.t) :=
  match c with
  | None =>
      s <- format_opcode (firstn (i + 1) opcode) ;;
      entry <- TrieEntry.table kind ;;
      self' <- Table._update_table self tn byte
                                   (Table.node_name root_idx s) entry ;;
      Ok (Table.node_name root_idx s, self')
  | Some c => Ok (c, self)
  end.

Lemma walk_descend root_idx opcode i x0 x1 rest tn self :
  Table.walk root_idx opcode i (x0 :: x1 :: rest) tn self
  = (e <- Py.getitem (Table.data self) tn ;;
     c <- Py.index (TrieEntry.items e) (snd x0) ;;
     '(tn', self') <- descend root_idx opcode i tn (snd x0) (fst x1) self c ;;
     e' <- Py.getitem (Table.data self') tn' ;;
     if negb (EntryKind_eqb (TrieEntry.kind e') (fst x1)) then
       Raise (BuildError "{}, have {}, want {}")
     else Table.walk root_idx opcode (S i) (x1 :: rest) tn' self').
Proof. rewrite walk_step. reflexivity. Qed.

(** The walk from the node of the first [i] levels, and the insertion of the
    terminal at its end. *)
Definition finish (root_idx : Z) (opcode : path) (i : nat) (rest : path)
           (tn : string) (self : Table.t) (name : string) (v : TrieEntry.t)
  : result Table.t :=
  '(tn', self') <- Table.walk root_idx opcode i rest tn self ;;
  last <- Py.index opcode (-1) ;;
  Table._update_table self' tn' (snd last) name v.

Lemma add_opcode_finish (self : Table.t) (opcode : path) (w : list word)
      (root_idx : Z) :
  Table.add_opcode self opcode w root_idx
  = (s <- format_opcode opcode ;;
     finish root_idx opcode 0 opcode (Table.root_name root_idx) self
            (Table.node_name root_idx s) (TrieEntry.instr w)).
Proof. reflexivity. Qed.

(** A successful [_update_table] found the slot empty and made the two
    writes. *)
Lemma update_table_link (self : Table.t) name idx c v e t' :
  wf_nodes (Table.data self) ->
  Py.get (Table.data self) name = Some e ->
  0 <= idx < Py.len (TrieEntry.items e) ->
  c <> name ->
  Table._update_table self name idx c v = Ok t' ->
  Py.index (TrieEntry.items e) idx = Ok None
  /\ Table.data t' = link (Table.data self) name e idx c v.
Proof.
  intros Hwf Hg Hidx Hne. unfold Table._update_table, Py.getitem.
  rewrite Hg. cbn [from_option bind].
  destruct (index_ok _ idx Hidx) as (item & Hi & Hin). rewrite Hi.
  cbn [bind]. destruct item as [s|].
  - destruct (proj1 (Hwf name e Hg) s Hin) as [Hs _].
    apply String.eqb_neq in Hs. simpl. rewrite Hs. discriminate.
  - simpl. rewrite get_set_other by exact Hne. rewrite Hg.
    cbn [from_option bind]. intros H. injection H as <-. now split.
Qed.

Section Build.

Variable n : nat.
Variable root_idx : Z.
Variable opcode : path.
Hypothesis Hlevels : Forall level_ok opcode.
Hypothesis Hinner : Forall (fun x => fst x <> TABLE_ROOT) (tl opcode).

Lemma prefix_neq (i j : nat) (x : EntryKind * Z) (rest : path) :
  skipn i opcode = x :: rest -> (i < j)%nat ->
  pname root_idx (firstn i opcode) <> pname root_idx (firstn j opcode).
Proof.
  intros Hs Hij. replace j with (i + (j - i))%nat by lia.
  rewrite firstn_add. apply pname_app_neq.
  - now apply Forall_firstn.
  - now apply Forall_firstn, Forall_skipn.
  - intros Hne. destruct i as [|i]; [now elim Hne|].
    rewrite skipn_tl. now apply Forall_firstn, Forall_skipn.
  - rewrite Hs. destruct (j - i)%nat eqn:E; [lia|]. discriminate.
Qed.

Lemma prefix_next (i : nat) (x : EntryKind * Z) (rest : path) :
  skipn i opcode = x :: rest ->
  firstn (S i) opcode = (firstn i opcode ++ [x])%list
  /\ pname root_idx (firstn (S i) opcode)
     = Table.node_name root_idx (fmt (firstn (S i) opcode))
  /\ format_opcode (firstn (S i) opcode) = Ok (fmt (firstn (S i) opcode)).
Proof.
  intros Hs. destruct (firstn_S_skipn opcode i x rest Hs) as [Hf _].
  split; [exact Hf|]. split.
  - rewrite Hf. apply pname_snoc_node.
  - destruct (fmt_parts (firstn (S i) opcode)
                        (Forall_firstn _ _ (S i) Hlevels))
      as (cp & cs & _ & _ & _ & E1 & E2).
    now rewrite E1, E2.
Qed.

Lemma slot_in_range (i : nat) (x : EntryKind * Z) (rest : path)
      (d : nodes) (tn : string) (e : TrieEntry.t) :
  skipn i opcode = x :: rest -> wf_nodes d ->
  Py.get d tn = Some e -> TrieEntry.kind e = fst x ->
  0 <= snd x < Py.len (TrieEntry.items e).
Proof.
  intros Hs Hwf Hg Hk.
  destruct (level_in opcode Hlevels i x rest Hs) as (n0 & Hn0 & Hb).
  assert (Hi : TrieEntry.kind e <> INSTR).
  { rewrite Hk. intros E. rewrite E in Hn0. discriminate. }
  pose proof (proj2 (Hwf tn e Hg) Hi) as Hl. rewrite Hk, Hn0 in Hl.
  injection Hl as ->. exact Hb.
Qed.

End Build.

Section Descend.

Variable n : nat.
Variable root_idx : Z.
Variable opcode : path.
Hypothesis Hlevels : Forall level_ok opcode.
Hypothesis Hinner : Forall (fun x => fst x <> TABLE_ROOT) (tl opcode).

(** The name that the walk gives to a node fits every reading of the name
    of its parent. *)
Lemma prefix_fits (i : nat) (x : EntryKind * Z) (rest : path)
      (tn : string) (e : TrieEntry.t) :
  skipn i opcode = x :: rest ->
  tn = pname root_idx (firstn i opcode) ->
  TrieEntry.kind e = fst x ->
  forall r l, Forall level_ok l -> tn = pname r l ->
    pname root_idx (firstn (S i) opcode)
    = pname r (l ++ [(TrieEntry.kind e, snd x)])%list.
Proof.
  intros Hs Htn Hk r l Hl Hrl.
  destruct (firstn_S_skipn opcode i x rest Hs) as [Hf _]. rewrite Hf.
  rewrite Hk, <- surjective_pairing.
  apply pname_snoc.
  - now apply Forall_firstn.
  - exact Hl.
  - exact (level_in opcode Hlevels i x rest Hs).
  - now rewrite <- Htn.
Qed.

Lemma descend_spec (i : nat) (x0 x1 : EntryKind * Z) (rest : path)
      (tn : string) (self : Table.t) (e : TrieEntry.t)
      (item : option string) (c : string) (self1 : Table.t) :
  skipn i opcode = x0 :: x1 :: rest ->
  inv n (Table.data self) ->
  tn = pname root_idx (firstn i opcode) ->
  Py.get (Table.data self) tn = Some e ->
  TrieEntry.kind e = fst x0 ->
  Py.index (TrieEntry.items e) (snd x0) = Ok item ->
  descend root_idx opcode i tn (snd x0) (fst x1) self item = Ok (c, self1) ->
  c = pname root_idx (firstn (S i) opcode)
  /\ inv n (Table.data self1)
  /\ (exists et, Py.get (Table.data self1) tn = Some et
                 /\ TrieEntry.kind et = TrieEntry.kind e
                 /\ Py.index (TrieEntry.items et) (snd x0) = Ok (Some c))
  /\ (forall x, x <> tn -> x <> c ->
                Py.get (Table.data self1) x = Py.get (Table.data self) x).
Proof.
  intros Hs Hinv Htn Hg Hk Hi Hd.
  pose proof Hinv as (Hwf & Hnm & Hr).
  pose proof (slot_in_range opcode Hlevels i x0 _ _ tn e Hs Hwf Hg Hk) as Hb.
  destruct (prefix_next root_idx opcode Hlevels i x0 _ Hs) as (Hf & Hpn & Hfo).
  pose proof (prefix_fits i x0 _ tn e Hs Htn Hk) as Hfit.
  destruct item as [c0|]; cbn [descend] in Hd.
  - injection Hd as <- <-. split.
    + rewrite (Hfit root_idx (firstn i opcode)
                    (Forall_firstn _ _ i Hlevels) Htn).
      exact (Hnm tn e (snd x0) c0 root_idx (firstn i opcode) Hg Hb Hi
                 (Forall_firstn _ _ i Hlevels) Htn).
    + split; [exact Hinv|]. split; [eauto|]. reflexivity.
  - rewrite Nat.add_1_r, Hfo in Hd. cbn [bind] in Hd.
    assert (Hs1 : skipn (S i) opcode = x1 :: rest)
      by (apply (firstn_S_skipn opcode i x0 _ Hs)).
    destruct (level_in opcode Hlevels (S i) x1 rest Hs1) as (n1 & Hn1 & _).
    unfold TrieEntry.table in Hd. rewrite Hn1 in Hd.
    cbn [from_option bind] in Hd. rewrite <- Hpn in Hd.
    destruct (Table._update_table _ _ _ _ _) as [t1|] eqn:Hu;
      [|discriminate]. cbn [bind] in Hd. injection Hd as <- <-.
    assert (Hne : pname root_idx (firstn (S i) opcode) <> tn).
    { rewrite Htn. intros E. symmetry in E. revert E.
      apply (prefix_neq root_idx opcode Hlevels Hinner i (S i) x0 _ Hs). lia. }
    destruct (update_table_link self tn (snd x0) _ _ e t1 Hwf Hg Hb Hne Hu)
      as [_ Hdata].
    split; [reflexivity|]. rewrite Hdata. split; [|split].
    + apply link_inv; try assumption.
      * rewrite Hpn. apply node_name_nonempty.
      * now apply leaf_table.
      * intros r. rewrite Hpn. apply pname_root_neq.
    + eexists. rewrite get_link, String.eqb_refl. split; [reflexivity|].
      split; [reflexivity|]. rewrite update_index by exact Hb.
      now rewrite Z.eqb_refl.
    + intros x Hx1 Hx2. rewrite get_link.
      rewrite (proj2 (String.eqb_neq tn x)) by (intros E; now elim Hx1).
      rewrite (proj2 (String.eqb_neq _ x)) by (intros E; now elim Hx2).
      reflexivity.
Qed.

End Descend.

Section Finish.

Variable n : nat.
Variable root_idx : Z.
Variable opcode : path.
Variable name : string.
Variable v : TrieEntry.t.
Hypothesis Hlevels : Forall level_ok opcode.
Hypothesis Hinner : Forall (fun x => fst x <> TABLE_ROOT) (tl opcode).
Hypothesis Hname : name = pname root_idx opcode.
Hypothesis Hleaf : leaf v.

Lemma child_link d tn e b c w :
  0 <= b < Py.len (TrieEntry.items e) ->
  child (link d tn e b c w) tn b = Some c.
Proof.
  intros Hb. unfold child. rewrite get_link, String.eqb_refl.
  rewrite update_index by exact Hb. now rewrite Z.eqb_refl.
Qed.

(** The insertion of the terminal into the node that the walk ends on. *)
Lemma finish_last (i : nat) (x0 : EntryKind * Z) (tn : string)
      (self : Table.t) (e : TrieEntry.t) (t2 : Table.t) :
  skipn i opcode = [x0] ->
  inv n (Table.data self) ->
  tn = pname root_idx (firstn i opcode) ->
  Py.get (Table.data self) tn = Some e ->
  TrieEntry.kind e = fst x0 ->
  finish root_idx opcode i [x0] tn self name v = Ok t2 ->
  name = pname root_idx (firstn (S i) opcode)
  /\ name <> tn
  /\ 0 <= snd x0 < Py.len (TrieEntry.items e)
  /\ inv n (Table.data t2)
  /\ Table.data t2 = link (Table.data self) tn e (snd x0) name v.
Proof.
  intros Hs Hinv Htn Hg Hk Hfin. pose proof Hinv as (Hwf & Hnm & Hr).
  pose proof (slot_in_range opcode Hlevels i x0 _ _ tn e Hs Hwf Hg Hk) as Hb.
  destruct (prefix_next root_idx opcode Hlevels i x0 _ Hs) as (Hf & Hpn & _).
  assert (Hop : opcode = firstn (S i) opcode).
  { rewrite Hf. rewrite <- (firstn_skipn i opcode) at 1. now rewrite Hs. }
  assert (Hn : name = pname root_idx (firstn (S i) opcode))
    by (now rewrite <- Hop).
  assert (Hne : name <> tn).
  { rewrite Hn, Htn. intros E. symmetry in E. revert E.
    apply (prefix_neq root_idx opcode Hlevels Hinner i (S i) x0 _ Hs). lia. }
  unfold finish in Hfin.
  assert (Hw : Table.walk root_idx opcode i [x0] tn self = Ok (tn, self))
    by (destruct x0; reflexivity).
  rewrite Hw in Hfin. cbn [bind] in Hfin.
  assert (Hnil : opcode <> []).
  { intros E. rewrite E in Hs. destruct i; discriminate. }
  rewrite (index_last opcode (NONE, 0) Hnil) in Hfin. cbn [bind] in Hfin.
  assert (Hlast : last opcode (NONE, 0) = x0).
  { rewrite Hop, Hf. apply last_last. }
  rewrite Hlast in Hfin.
  destruct (update_table_link self tn (snd x0) _ _ e t2 Hwf Hg Hb Hne Hfin)
    as [_ Hdata].
  split; [exact Hn|]. split; [exact Hne|]. split; [exact Hb|].
  split; [|exact Hdata].
  rewrite Hdata. apply link_inv; try assumption.
  - rewrite Hn, Hpn. apply node_name_nonempty.
  - intros r. rewrite Hn, Hpn. apply pname_root_neq.
  - rewrite Hn.
    exact (prefix_fits root_idx opcode Hlevels i x0 _ tn e Hs Htn Hk).
Qed.

End Finish.

Section Inserted.

Variable n : nat.
Variable root_idx : Z.
Variable opcode : path.
Variable name : string.
Variable v : TrieEntry.t.
Hypothesis Hlevels : Forall level_ok opcode.
Hypothesis Hinner : Forall (fun x => fst x <> TABLE_ROOT) (tl opcode).
Hypothesis Hname : name = pname root_idx opcode.
Hypothesis Hleaf : leaf v.

(** After a successful insertion the table is again one that insertions
    build, every node of the path exists with the kind that the path
    demands, and the slot of the terminal is taken.  Nodes that are not
    on the path are as before. *)
Lemma finish_spec (rest : path) : forall i tn self e t2,
  skipn i opcode = rest -> rest <> [] ->
  inv n (Table.data self) ->
  tn = pname root_idx (firstn i opcode) ->
  Py.get (Table.data self) tn = Some e ->
  TrieEntry.kind e = fst (hd (NONE, 0) rest) ->
  finish root_idx opcode i rest tn self name v = Ok t2 ->
  inv n (Table.data t2)
  /\ (exists e', Py.get (Table.data t2) tn = Some e'
                 /\ TrieEntry.kind e' = TrieEntry.kind e)
  /\ mismatch (Table.data t2) tn rest = false
  /\ occupied (Table.data t2) tn rest = true
  /\ (forall x,
        (forall j, (i <= j)%nat -> x <> pname root_idx (firstn j opcode)) ->
        Py.get (Table.data t2) x = Py.get (Table.data self) x).
Proof.
  induction rest as [|x0 rest IH]; intros i tn self e t2 Hs Hne Hinv Htn Hg Hk
                                          Hfin; [congruence|].
  cbn [hd] in Hk. destruct rest as [|x1 rest].
  - destruct (finish_last n root_idx opcode name v Hlevels Hinner Hname Hleaf
                          i x0 tn self e t2 Hs Hinv Htn Hg Hk Hfin)
      as (Hn & Hnt & Hb & Hinv2 & Hdata).
    split; [exact Hinv2|]. rewrite Hdata. split; [|split; [|split]].
    + eexists. rewrite get_link, String.eqb_refl. split; reflexivity.
    + destruct x0. reflexivity.
    + destruct x0 as [k0 b0]. cbn [occupied snd] in *.
      now rewrite child_link.
    + intros x Hx. rewrite get_link.
      rewrite (proj2 (String.eqb_neq tn x))
        by (intros E; apply (Hx i); [lia | now rewrite <- Htn]).
      rewrite (proj2 (String.eqb_neq name x))
        by (intros E; apply (Hx (S i)); [lia | now rewrite <- Hn]).
      reflexivity.
  - pose proof Hinv as (Hwf & Hnm & Hr).
    pose proof (slot_in_range opcode Hlevels i x0 _ _ tn e Hs Hwf Hg Hk) as Hb.
    destruct (index_ok _ _ Hb) as (item & Hi & _).
    assert (Hs1 : skipn (S i) opcode = x1 :: rest)
      by (apply (firstn_S_skipn opcode i x0 _ Hs)).
    unfold finish in Hfin. rewrite walk_descend in Hfin.
    unfold Py.getitem at 1 in Hfin. rewrite Hg in Hfin.
    cbn [from_option bind] in Hfin. rewrite Hi in Hfin. cbn [bind] in Hfin.
    destruct (descend root_idx opcode i tn (snd x0) (fst x1) self item)
      as [[c self1]|] eqn:Hd; [|discriminate]. cbn [bind] in Hfin.
    unfold Py.getitem at 1 in Hfin.
    destruct (Py.get (Table.data self1) c) as [e1|] eqn:Hg1; [|discriminate].
    cbn [from_option bind] in Hfin.
    destruct (EntryKind_eqb (TrieEntry.kind e1) (fst x1)) eqn:Ek;
      [|discriminate]. cbn [negb] in Hfin.
    apply EntryKind_eqb_eq in Ek.
    destruct (descend_spec n root_idx opcode Hlevels Hinner i x0 x1 rest tn
                           self e item c self1 Hs Hinv Htn Hg Hk Hi Hd)
      as (Hc & Hinv1 & (et & Hget & Hket & Hiet) & Hframe1).
    destruct (IH (S i) c self1 e1 t2 Hs1 ltac:(discriminate) Hinv1 Hc Hg1 Ek
                 Hfin)
      as (Hinv2 & (e1' & Hg1' & Hk1') & Hmis & Hocc & Hframe2).
    assert (Hget2 : Py.get (Table.data t2) tn = Some et).
    { rewrite Hframe2; [exact Hget|]. intros j Hj. rewrite Htn.
      apply (prefix_neq root_idx opcode Hlevels Hinner i j x0 _ Hs). lia. }
    assert (Hchild : child (Table.data t2) tn (snd x0) = Some c).
    { unfold child. now rewrite Hget2, Hiet. }
    split; [exact Hinv2|]. split; [eauto|]. split; [|split].
    + destruct x0 as [k0 b0], x1 as [k1 b1]. cbn [fst snd] in *.
      rewrite mismatch_cons, Hchild, Hg1', Hk1', Ek.
      now rewrite (proj2 (EntryKind_eqb_eq _ _) eq_refl).
    + now rewrite occupied_cons, Hchild.
    + intros x Hx. rewrite Hframe2 by (intros j Hj; apply Hx; lia).
      apply Hframe1.
      * rewrite Htn. apply Hx. lia.
      * rewrite Hc. apply Hx. lia.
Qed.

End Inserted.

(** *** The empty table *)

Definition empty_root : TrieEntry.t :=
  TrieEntry.mk TABLE_ROOT (repeat None 8) [].

Definition add_root (d : nodes) (i : Z) : nodes :=
  Py.set d (Table.root_name i) empty_root.

Lemma init_data (n : nat) (t : Table.t) :
  Table.init n = Ok t ->
  Table.data t = fold_left add_root (Table.range n) [].
Proof. unfold Table.init. simpl. intros H. injection H as <-. reflexivity. Qed.

Lemma get_roots_inv (l : list Z) : forall d0 x e,
  Py.get (fold_left add_root l d0) x = Some e ->
  e = empty_root \/ Py.get d0 x = Some e.
Proof.
  induction l as [|a l IH]; intros d0 x e H; [now right|].
  simpl in H. destruct (IH _ _ _ H) as [E|E]; [now left|].
  unfold add_root in E. rewrite get_set in E.
  destruct (String.eqb (Table.root_name a) x); [|now right].
  injection E as <-. now left.
Qed.

Lemma get_roots_keep (l : list Z) : forall d0 x,
  Py.get d0 x = Some empty_root ->
  Py.get (fold_left add_root l d0) x = Some empty_root.
Proof.
  induction l as [|a l IH]; intros d0 x H; [exact H|].
  simpl. apply IH. unfold add_root. rewrite get_set.
  now destruct (String.eqb (Table.root_name a) x).
Qed.

Lemma get_roots_in (l : list Z) (r : Z) : forall d0,
  In r l ->
  Py.get (fold_left add_root l d0) (Table.root_name r) = Some empty_root.
Proof.
  induction l as [|a l IH]; intros d0 Hin; [destruct Hin|].
  simpl. destruct Hin as [->|Hin]; [|now apply IH].
  apply get_roots_keep. unfold add_root. apply get_set_same.
Qed.

Lemma leaf_empty_root : leaf empty_root.
Proof. now apply leaf_table. Qed.

(** The table of [Table.init] is one that insertions build on. *)
Lemma init_inv (n : nat) (t : Table.t) :
  Table.init n = Ok t -> inv n (Table.data t).
Proof.
  intros H. rewrite (init_data n t H).
  assert (Hall : forall x e,
             Py.get (fold_left add_root (Table.range n) []) x = Some e ->
             e = empty_root).
  { intros x e Hg. destruct (get_roots_inv _ _ _ _ Hg) as [E|E];
      [exact E | discriminate]. }
  split; [|split].
  - intros x e Hg. rewrite (Hall x e Hg). split; [|apply leaf_empty_root].
    intros c Hc. now elim (proj1 leaf_empty_root c).
  - intros tn e b c r l Hg Hb Hi _ _. rewrite (Hall tn e Hg) in Hi.
    apply index_some_in in Hi. now elim (proj1 leaf_empty_root c).
  - intros r Hr. exists empty_root. split; [|reflexivity].
    apply get_roots_in. unfold Table.range. apply in_map_iff.
    exists (Z.to_nat r). split; [lia|]. apply in_seq. lia.
Qed.

Section Fresh.

Variable n : nat.
Variable root_idx : Z.
Variable opcode : path.
Hypothesis Hlevels : Forall level_ok opcode.
Hypothesis Hinner : Forall (fun x => fst x <> TABLE_ROOT) (tl opcode).

(** In a table that insertions build, the node that the walk creates has
    another name than the node that it hangs under. *)
Lemma inv_names_fresh (d : nodes) (rest : path) : forall i tn e,
  inv n d ->
  skipn i opcode = rest ->
  tn = pname root_idx (firstn i opcode) ->
  Py.get d tn = Some e ->
  TrieEntry.kind e = fst (hd (NONE, 0) rest) ->
  names_fresh d root_idx opcode i tn rest.
Proof.
  induction rest as [|x0 rest IH]; intros i tn e Hinv Hs Htn Hg Hk;
    [exact I|].
  destruct rest as [|x1 rest]; [destruct x0; exact I|].
  cbn [hd] in Hk. rewrite names_fresh_cons.
  pose proof Hinv as (Hwf & Hnm & Hr).
  pose proof (slot_in_range opcode Hlevels i x0 _ _ tn e Hs Hwf Hg Hk) as Hb.
  destruct (index_ok _ _ Hb) as (item & Hi & _).
  unfold child. rewrite Hg, Hi.
  destruct (prefix_next root_idx opcode Hlevels i x0 _ Hs) as (Hf & Hpn & Hfo).
  destruct item as [c|].
  - destruct (Py.get d c) as [e1|] eqn:Hg1; [|exact I].
    destruct (EntryKind_eqb (TrieEntry.kind e1) (fst x1)) eqn:Ek; [|exact I].
    apply EntryKind_eqb_eq in Ek.
    apply (IH (S i) c e1 Hinv); try assumption.
    + apply (firstn_S_skipn opcode i x0 _ Hs).
    + rewrite (prefix_fits root_idx opcode Hlevels i x0 _ tn e Hs Htn Hk
                           root_idx (firstn i opcode)
                           (Forall_firstn _ _ i Hlevels) Htn).
      exact (Hnm tn e (snd x0) c root_idx (firstn i opcode) Hg Hb Hi
                 (Forall_firstn _ _ i Hlevels) Htn).
  - unfold prefix_name. rewrite Hfo. cbn [bind]. rewrite <- Hpn, Htn.
    intros E. apply Ok_inj in E. symmetry in E. revert E.
    apply (prefix_neq root_idx opcode Hlevels Hinner i (S i) x0 _ Hs). lia.
Qed.

End Fresh.

(** The tables that [Table.init] and successful insertions of well-formed
    paths under one of the [n] roots build. *)
Inductive built (n : nat) : Table.t -> Prop :=
| built_init (t : Table.t) :
    Table.init n = Ok t -> built n t
| built_add (t : Table.t) (opcode : path) (w : list word) (root_idx : Z)
            (t' : Table.t) :
    built n t -> wf_path opcode -> 0 <= root_idx < Z.of_nat n ->
    Table.add_opcode t opcode w root_idx = Ok t' ->
    built n t'.

Lemma wf_path_parts (opcode : path) :
  wf_path opcode ->
  opcode <> []
  /\ Forall level_ok opcode
  /\ Forall (fun x => fst x <> TABLE_ROOT) (tl opcode)
  /\ fst (hd (NONE, 0) opcode) = TABLE_ROOT.
Proof.
  destruct opcode as [|[k b] rest]; [intros []|].
  intros (Hk & Hl & Hi). repeat split; try assumption. discriminate.
Qed.

(** A successful insertion leaves a table that insertions build on, in
    which the path is taken. *)
Lemma add_opcode_inv (n : nat) (t : Table.t) (opcode : path) (w : list word)
      (root_idx : Z) (t' : Table.t) :
  inv n (Table.data t) -> wf_path opcode -> 0 <= root_idx < Z.of_nat n ->
  Table.add_opcode t opcode w root_idx = Ok t' ->
  inv n (Table.data t') /\ conflict t' root_idx opcode = true.
Proof.
  intros Hinv Hwf Hr Hadd.
  destruct (wf_path_parts opcode Hwf) as (Hne & Hlevels & Hinner & Hroot).
  destruct (proj2 (proj2 Hinv) root_idx Hr) as (e & Hg & Hk).
  rewrite add_opcode_finish in Hadd.
  destruct (fmt_parts opcode Hlevels) as (cp & cs & _ & _ & _ & E1 & E2).
  rewrite E1, <- E2 in Hadd. cbn [bind] in Hadd.
  assert (Hname : Table.node_name root_idx (fmt opcode) = pname root_idx opcode)
    by (destruct opcode; [congruence | reflexivity]).
  destruct (finish_spec n root_idx opcode _ _ Hlevels Hinner Hname
                        (leaf_instr w) opcode 0 (Table.root_name root_idx)
                        t e t' eq_refl Hne Hinv eq_refl Hg
                        ltac:(now rewrite Hk, Hroot) Hadd)
    as (Hinv' & _ & _ & Hocc & _).
  split; [exact Hinv'|]. unfold conflict. rewrite Hocc. apply orb_true_r.
Qed.

Lemma built_inv (n : nat) (t : Table.t) : built n t -> inv n (Table.data t).
Proof.
  induction 1 as [t H | t opcode w root_idx t' _ IH Hwf Hr Hadd].
  - now apply init_inv.
  - exact (proj1 (add_opcode_inv n t opcode w root_idx t' IH Hwf Hr Hadd)).
Qed.

(** C8 (as the code has it).  On a table that [Table.init] and successful
    insertions of well-formed paths have built, [add_opcode] of a
    well-formed path (a root level first, and every byte inside the table
    of its level) under one of the roots raises a build error exactly when
    the insertion conflicts with the table as it is, whatever the record:
    when a node on the path exists with another kind than the path demands,
    or when every node of the path exists and the slot of the terminal is
    already taken.  An insertion without conflict returns normally, and
    inserting the same path again directly afterwards raises a build error,
    whatever the record. *)
Theorem add_opcode_conflict
        (n : nat) (t : Table.t) (opcode : path) (w : list word)
        (root_idx : Z) :
  built n t -> wf_path opcode -> 0 <= root_idx < Z.of_nat n ->
  if conflict t root_idx opcode
  then exists msg,
      Table.add_opcode t opcode w root_idx = Raise (BuildError msg)
  else exists t',
      Table.add_opcode t opcode w root_idx = Ok t'
      /\ forall w', exists msg,
          Table.add_opcode t' opcode w' root_idx = Raise (BuildError msg).
Proof.
  intros Hb Hwf Hr.
  assert (Hgen : forall t0 w0, inv n (Table.data t0) ->
             if conflict t0 root_idx opcode
             then exists msg,
                 Table.add_opcode t0 opcode w0 root_idx = Raise (BuildError msg)
             else exists t',
                 Table.add_opcode t0 opcode w0 root_idx = Ok t').
  { intros t0 w0 Hinv.
    destruct (wf_path_parts opcode Hwf) as (Hne & Hlevels & Hinner & Hroot).
    pose proof (proj2 (proj2 Hinv) root_idx Hr) as Hex.
    destruct Hex as (e & Hg & Hk).
    apply add_opcode_conflict_wf;
      [exact Hwf | exact (proj1 Hinv) | eauto |].
    apply (inv_names_fresh n root_idx opcode Hlevels Hinner (Table.data t0)
                           opcode 0 (Table.root_name root_idx) e Hinv
                           eq_refl eq_refl Hg).
    now rewrite Hk, Hroot. }
  pose proof (built_inv n t Hb) as Hinv.
  pose proof (Hgen t w Hinv) as H.
  destruct (conflict t root_idx opcode); [exact H|].
  destruct H as [t' Hadd]. exists t'. split; [exact Hadd|].
  destruct (add_opcode_inv n t opcode w root_idx t' Hinv Hwf Hr Hadd)
    as [Hinv' Hc].
  intros w'. pose proof (Hgen t' w' Hinv') as H'. now rewrite Hc in H'.
Qed.

Definition one_root : Table.t :=
  Table.mk [("root0", TrieEntry.mk TABLE_ROOT (repeat None 8) [])]
           ["root0"] [] [].

Definition nop_path : path := [(TABLE_ROOT, 0); (TABLE256, 144)].

Definition nop_ext_path : path :=
  [(TABLE_ROOT, 0); (TABLE256, 144); (TABLE8, 0)].

Definition nop_record : list word := [Tag "FDI_NOP"; Int 0; Int 1024; Int 0].

Definition pause_record : list word :=
  [Tag "FDI_PAUSE"; Int 0; Int 1024; Int 0].

(** The table after the line [90 NP - - - - NOP]. *)
Definition after_nop : Table.t :=
  match Table.add_opcode one_root nop_path nop_record 0 with
  | Ok t => t
  | Raise _ => one_root
  end.

Ltac level_ok_tac :=
  eexists; split; [reflexivity | simpl; lia].

Lemma wf_nop_path : wf_path nop_path.
Proof.
  split; [reflexivity|]. split.
  - repeat constructor; level_ok_tac.
  - repeat constructor. discriminate.
Qed.

Lemma wf_nop_ext_path : wf_path nop_ext_path.
Proof.
  split; [reflexivity|]. split.
  - repeat constructor; level_ok_tac.
  - repeat constructor; discriminate.
Qed.

Lemma built_one_root : built 1 one_root.
Proof. apply built_init. reflexivity. Qed.

Lemma built_after_nop : built 1 after_nop.
Proof.
  apply (built_add 1 one_root nop_path nop_record 0 after_nop built_one_root
                   wf_nop_path); [lia | reflexivity].
Qed.

Lemma add_opcode_conflict_witness :
  Table.init 1 = Ok one_root
  /\ (exists t',
        Table.add_opcode one_root nop_path nop_record 0 = Ok t'
        /\ forall w', exists msg,
            Table.add_opcode t' nop_path w' 0 = Raise (BuildError msg))
  /\ (exists msg,
        Table.add_opcode after_nop nop_path pause_record 0
        = Raise (BuildError msg))
  /\ (exists msg,
        Table.add_opcode after_nop nop_ext_path nop_record 0
        = Raise (BuildError msg))
  /\ (exists t',
        Table.add_opcode after_nop [(TABLE_ROOT, 1); (TABLE256, 144)]
                         nop_record 0 = Ok t'
        /\ forall w', exists msg,
            Table.add_opcode t' [(TABLE_ROOT, 1); (TABLE256, 144)] w' 0
            = Raise (BuildError msg)).
Proof.
  assert (Hr : 0 <= 0 < Z.of_nat 1) by (simpl; lia).
  assert (Hw : wf_path [(TABLE_ROOT, 1); (TABLE256, 144)]).
  { split; [reflexivity|]. split.
    - repeat constructor; level_ok_tac.
    - repeat constructor. discriminate. }
  split; [reflexivity|].
  split.
  { exact (add_opcode_conflict 1 one_root nop_path nop_record 0
                               built_one_root wf_nop_path Hr). }
  split.
  { exact (add_opcode_conflict 1 after_nop nop_path pause_record 0
                               built_after_nop wf_nop_path Hr). }
  split.
  { exact (add_opcode_conflict 1 after_nop nop_ext_path nop_record 0
                               built_after_nop wf_nop_ext_path Hr). }
  exact (add_opcode_conflict 1 after_nop _ nop_record 0
                             built_after_nop Hw Hr).
Defined.

(** The last path of the pattern [f9+]: its byte lies outside TABLE256. *)
Definition f9_plus_last : path := [(TABLE_ROOT, 0); (TABLE256, 256)].

(** Two paths of which the second names one of its nodes as the first
    names its first table: both format a prefix as [0f]. *)
Definition escape_path : path :=
  [(TABLE_ROOT, 1); (TABLE256, 16); (TABLE8, 0)].

Definition shadow_path : path :=
  [(TABLE_ROOT, 0); (TABLE256, 15); (TABLE256, 0)].

(** C8, as stated, fails in both directions.  The pattern [f9+] expands to
    a path that does not conflict with an empty table, and its insertion
    raises: an IndexError, no build error.  And a path is inserted twice
    without an error when an insertion in between replaces one of its
    nodes by a new table of the same name. *)
Lemma add_opcode_raises_beyond_conflicts :
  (o <- Opcode.parse "f9+" ;;
   match o with
   | Some o => paths <- Opcode.for_trie o ;; Ok (nth 7 paths [])
   | None => Ok []
   end) = Ok f9_plus_last
  /\ Table.init 1 = Ok one_root
  /\ conflict one_root 0 f9_plus_last = false
  /\ Table.add_opcode one_root f9_plus_last nop_record 0 = Raise IndexError
  /\ (t1 <- Table.add_opcode one_root escape_path nop_record 0 ;;
      t2 <- Table.add_opcode t1 shadow_path nop_record 0 ;;
      t3 <- Table.add_opcode t2 escape_path nop_record 0 ;;
      Ok (conflict t1 0 escape_path, conflict t2 0 escape_path,
          Py.keys (Table.data t3)))
     = Ok (true, false,
           ["root0"; "t0,0f"; "t0,0f10"; "t0,0f10/0"; "t0,"; "t0,0f00"]).
Proof. repeat split; vm_compute; reflexivity. Qed.

(** * Further properties *)

(** ** Bit-structs *)

(** The value that the fields of a bit-struct pack to, the first field in
    the lowest bits. *)
Fixpoint packed (fields : list (string * Z)) (o : object) : Z :=
  match fields with
  | [] => 0
  | (name, size) :: rest =>
      match Py.get o name with
      | Some v => Z.land v (Z.shiftl 1 size - 1) + 2 ^ size * packed rest o
      | None => 0
      end
  end.

Lemma packed_range (fields : list (string * Z)) (o : object) :
  (forall n s, In (n, s) fields -> 0 <= s) ->
  0 <= packed fields o < 2 ^ total_size fields.
Proof.
  induction fields as [|[name size] fields IH]; intros Hs; simpl; [lia|].
  assert (Hsz : 0 <= size) by (apply (Hs name); now left).
  assert (Hr : 0 <= packed fields o < 2 ^ total_size fields)
    by (apply IH; intros n s Hn; apply (Hs n); now right).
  assert (Ht : 0 <= total_size fields).
  { clear -Hs. induction fields as [|[n s] fields IH]; simpl; [lia|].
    assert (0 <= s) by (apply (Hs n); now right; left).
    assert (0 <= total_size fields); [|lia].
    apply IH. intros n' s' [H'|H']; apply (Hs n'); [now left | now right; right]. }
  assert (Hp : 0 < 2 ^ size) by (apply Z.pow_pos_nonneg; lia).
  assert (Hq : 0 < 2 ^ total_size fields) by (apply Z.pow_pos_nonneg; lia).
  rewrite Z.pow_add_r by lia.
  destruct (Py.get o name) as [v|]; [|nia].
  pose proof (masked_range v size Hsz). nia.
Qed.

Lemma pack_packed (fields : list (string * Z)) (o : object) :
  forall offset enc r,
    (forall n s, In (n, s) fields -> 0 <= s) ->
    0 <= offset ->
    bitstruct.pack fields o offset enc = Ok r ->
    r = enc + 2 ^ offset * packed fields o.
Proof.
  induction fields as [|[name size] fields IH]; intros offset enc r Hs Ho H.
  - simpl in *. injection H as <-. lia.
  - simpl in H. unfold getattr in H.
    destruct (Py.get o name) as [v|] eqn:Ev; [|discriminate].
    cbn [from_option bind] in H.
    assert (Hsz : 0 <= size) by (apply (Hs name); now left).
    apply IH in H; [|intros n s Hn; apply (Hs n); now right | lia].
    subst r. cbn [packed]. rewrite Ev.
    rewrite Z.shiftl_mul_pow2 by exact Ho.
    rewrite Z.pow_add_r by lia. ring.
Qed.

Lemma packed_app (pre post : list (string * Z)) (o : object) :
  (forall n, In n (List.map fst pre) -> Py.get o n <> None) ->
  (forall n s, In (n, s) pre -> 0 <= s) ->
  packed (pre ++ post) o = packed pre o + 2 ^ total_size pre * packed post o.
Proof.
  induction pre as [|[name size] pre IH]; intros Hf Hs.
  - simpl. destruct (packed post o); reflexivity.
  - cbn [app packed total_size].
    destruct (Py.get o name) as [v|] eqn:Ev;
      [|exfalso; apply (Hf name); [now left | exact Ev]].
    rewrite IH.
    + assert (Hsz : 0 <= size) by (apply (Hs name); now left).
      assert (Ht : 0 <= total_size pre).
      { clear -Hs. induction pre as [|[n s] pre IH]; simpl; [lia|].
        assert (0 <= s) by (apply (Hs n); now right; left).
        assert (0 <= total_size pre); [|lia].
        apply IH. intros n' s' [H'|H']; apply (Hs n');
          [now left | now right; right]. }
      rewrite Z.pow_add_r by lia. ring.
    + intros n Hn. apply Hf. now right.
    + intros n s Hn. apply (Hs n). now right.
Qed.

Lemma pack_has (fields : list (string * Z)) (o : object) :
  forall offset enc r,
    bitstruct.pack fields o offset enc = Ok r ->
    forall n, In n (List.map fst fields) -> Py.get o n <> None.
Proof.
  induction fields as [|[name size] fields IH]; intros offset enc r H n Hn;
    [destruct Hn|].
  simpl in H. unfold getattr in H.
  destruct (Py.get o name) as [v|] eqn:Ev; [|discriminate].
  cbn [from_option bind] in H. destruct Hn as [<-|Hn].
  - simpl. now rewrite Ev.
  - now apply (IH _ _ _ H).
Qed.

Lemma total_size_nonneg (fields : list (string * Z)) :
  (forall n s, In (n, s) fields -> 0 <= s) -> 0 <= total_size fields.
Proof.
  induction fields as [|[n s] fields IH]; intros Hs; simpl; [lia|].
  assert (0 <= s) by (apply (Hs n); now left).
  assert (0 <= total_size fields); [|lia].
  apply IH. intros n' s' H'. apply (Hs n'). now right.
Qed.

Lemma mask_mod (x size : Z) :
  0 <= size -> Z.land x (Z.shiftl 1 size - 1) = x mod 2 ^ size.
Proof.
  intros Hs. rewrite Z.shiftl_1_l, Z.sub_1_r, <- Z.ones_equiv.
  now apply Z.land_ones.
Qed.

Lemma le_bytes_value (length : nat) : forall n,
  bitstruct.from_bytes (bitstruct.le_bytes length n)
  = n mod 256 ^ Z.of_nat length.
Proof.
  induction length as [|l IH]; intros n.
  - simpl. now rewrite Z.mod_1_r.
  - cbn [bitstruct.le_bytes bitstruct.from_bytes]. rewrite IH.
    replace (Z.of_nat (S l)) with (1 + Z.of_nat l) by lia.
    rewrite Z.pow_add_r by lia. change (256 ^ 1) with 256.
    rewrite Z.rem_mul_r by (try lia; apply Z.pow_nonzero; lia).
    reflexivity.
Qed.

(** The field declared after the fields [pre] is read back from the packed
    integer at bit [sum of the sizes of pre]. *)
Lemma pack_field (pre post : list (string * Z)) (o : object)
      (name : string) (size enc : Z) :
  (forall n s, In (n, s) (pre ++ (name, size) :: post)%list -> 0 <= s) ->
  bitstruct.pack (pre ++ (name, size) :: post)%list o 0 0 = Ok enc ->
  exists v, getattr o name = Ok v
            /\ Z.land (Z.shiftr enc (total_size pre)) (Z.shiftl 1 size - 1)
               = Z.land v (Z.shiftl 1 size - 1).
Proof.
  intros Hs Hp.
  pose proof (pack_has _ _ _ _ _ Hp) as Hhas.
  pose proof (pack_packed _ _ _ _ _ Hs (Z.le_refl 0) Hp) as He.
  rewrite Z.pow_0_r, Z.mul_1_l, Z.add_0_l in He.
  assert (Hpre : forall n s, In (n, s) pre -> 0 <= s).
  { intros n s Hn. apply (Hs n). apply in_or_app. now left. }
  assert (Hsz : 0 <= size).
  { apply (Hs name). apply in_or_app. right. now left. }
  destruct (Py.get o name) as [v|] eqn:Ev.
  2:{ exfalso. apply (Hhas name); [|exact Ev].
      rewrite List.map_app. apply in_or_app. right. now left. }
  exists v. split; [unfold getattr; now rewrite Ev|].
  rewrite packed_app in He.
  - cbn [packed] in He. rewrite Ev in He.
    pose proof (packed_range pre o Hpre) as Hpr.
    pose proof (total_size_nonneg pre Hpre) as Htp.
    rewrite Z.shiftr_div_pow2 by exact Htp.
    rewrite He, (Z.mul_comm (2 ^ total_size pre)), Z.div_add
      by (apply Z.pow_nonzero; lia).
    rewrite Z.div_small by exact Hpr. rewrite Z.add_0_l.
    rewrite !(mask_mod _ size Hsz).
    rewrite (Z.mul_comm (2 ^ size)), Z.mod_add
      by (apply Z.pow_nonzero; lia).
    now rewrite Z.mod_mod by (apply Z.pow_nonzero; lia).
  - intros n Hn. apply Hhas. rewrite List.map_app. apply in_or_app. now left.
  - exact Hpre.
Qed.

(** X1.  [_encode] lays the fields side by side, the first in the lowest
    bits: the bytes it returns are the little-endian form of an integer
    below [2 ^ (sum of the sizes)], in which the field declared after the
    fields [pre] is read back at bit [sum of the sizes of pre], cut to its
    size.  It returns whenever the sizes fit the requested number of
    bytes. *)
Theorem encode_fields_read_back
        (fields pre post : list (string * Z)) (o : object)
        (name : string) (size enc : Z) (length : nat) :
  (forall n s, In (n, s) fields -> 0 <= s) ->
  fields = (pre ++ (name, size) :: post)%list ->
  bitstruct.pack fields o 0 0 = Ok enc ->
  total_size fields <= 8 * Z.of_nat length ->
  0 <= enc < 2 ^ total_size fields
  /\ (exists bs, bitstruct._encode fields o length = Ok bs
                 /\ List.length bs = length
                 /\ bitstruct.from_bytes bs = enc)
  /\ exists v, getattr o name = Ok v
               /\ Z.land (Z.shiftr enc (total_size pre)) (Z.shiftl 1 size - 1)
                  = Z.land v (Z.shiftl 1 size - 1).
Proof.
  intros Hs Hf Hp Hlen.
  pose proof (pack_packed _ _ _ _ _ Hs (Z.le_refl 0) Hp) as He.
  rewrite Z.pow_0_r, Z.mul_1_l, Z.add_0_l in He.
  pose proof (packed_range fields o Hs) as Hr. rewrite <- He in Hr.
  pose proof (total_size_nonneg fields Hs) as Ht.
  assert (Hfit : enc < 256 ^ Z.of_nat length).
  { change 256 with (2 ^ 8). rewrite <- Z.pow_mul_r by lia.
    eapply Z.lt_le_trans; [apply Hr|]. apply Z.pow_le_mono_r; lia. }
  split; [exact Hr|]. split.
  - unfold bitstruct._encode. rewrite Hp. cbn [bind].
    unfold bitstruct.to_bytes.
    destruct (enc <? 0) eqn:E1; [apply Z.ltb_lt in E1; lia|].
    destruct (256 ^ Z.of_nat length <=? enc) eqn:E2;
      [apply Z.leb_le in E2; lia|].
    simpl. eexists. split; [reflexivity|]. split.
    + clear. revert enc. induction length as [|l IH]; intros enc; simpl;
        [|rewrite IH]; reflexivity.
    + rewrite le_bytes_value. apply Z.mod_small. lia.
  - subst fields. exact (pack_field pre post o name size enc Hs Hp).
Qed.

Definition lock_imm5 : object := InstrFlags [("lock", 1); ("imm_control", 5)].

Lemma encode_fields_read_back_witness :
  0 <= 22528 < 2 ^ total_size InstrFlags_fields
  /\ (exists bs, bitstruct._encode InstrFlags_fields lock_imm5 6 = Ok bs
                 /\ List.length bs = 6%nat
                 /\ bitstruct.from_bytes bs = 22528)
  /\ exists v, getattr lock_imm5 "imm_control" = Ok v
               /\ Z.land (Z.shiftr 22528 12) (Z.shiftl 1 3 - 1)
                  = Z.land v (Z.shiftl 1 3 - 1).
Proof.
  refine (encode_fields_read_back
            InstrFlags_fields
            [ ("modrm_idx", 2); ("modreg_idx", 2); ("vexreg_idx", 2);
              ("zeroreg_idx", 2); ("imm_idx", 2); ("zeroreg_val", 1);
              ("lock", 1) ]
            _ lock_imm5 "imm_control" 3 22528 6 _ eq_refl _ _).
  - intros n s Hin. simpl in Hin.
    repeat (destruct Hin as [Hin|Hin]; [injection Hin as <- <-; lia|]).
    destruct Hin.
  - reflexivity.
  - simpl. lia.
Defined.

(** ** The record of an instruction descriptor *)

Lemma op_attr_eqb (s a : string) :
  String.prefix "op" a = false ->
  String.eqb (String "o" (String "p" s)) a = false.
Proof.
  intros H. apply String.eqb_neq. intros <-. simpl in H.
  destruct s; discriminate H.
Qed.

(** The operand loop writes attributes named [op...] only. *)
Lemma encode_operands_other (sizes : list Z) (ops : list OpKind) (a : string) :
  String.prefix "op" a = false ->
  forall i flags flags',
    InstrDesc.encode_operands sizes ops i flags = Ok flags' ->
    Py.get flags' a = Py.get flags a.
Proof.
  intros Ha. induction ops as [|op ops IH]; intros i flags flags'; simpl.
  - intros H. now injection H as <-.
  - intros H. inv_bind H. inv_bind H.
    destruct (i <? 3).
    + apply IH in H. rewrite H. unfold setattr.
      now rewrite !get_set, !op_attr_eqb by exact Ha.
    + destruct (negb ((_ =? 7) || (_ =? 2))); [discriminate|].
      apply IH in H. rewrite H. unfold setattr.
      now rewrite get_set, op_attr_eqb by exact Ha.
Qed.

Lemma refine_imm_other (self : InstrDesc.t) (flags flags' : object) (a : string) :
  String.eqb "imm_control" a = false ->
  InstrDesc.refine_imm self flags = Ok flags' ->
  Py.get flags' a = Py.get flags a.
Proof.
  intros Ha. unfold InstrDesc.refine_imm. intros H. inv_bind H.
  destruct (4 <=? a0); [|now injection H as <-].
  inv_bind H. inv_bind H.
  destruct (_ || _); injection H as <-; [|reflexivity].
  unfold setattr. now rewrite get_set, Ha.
Qed.

(** No encoding form presets one of the miscellaneous flags. *)
Lemma encodings_defaults (name : string) (f : object) :
  Py.get ENCODINGS name = Some f ->
  Py.get f "lock" = Some 0 /\ Py.get f "vsib" = Some 0
  /\ Py.get f "size8" = Some 0 /\ Py.get f "sized64" = Some 0
  /\ Py.get f "instr_width" = Some 0.
Proof.
  unfold ENCODINGS. cbn [Py.get].
  repeat (destruct (String.eqb _ name);
          [intros H; injection H as <-; vm_compute; repeat split|]).
  discriminate.
Qed.

Lemma set_if_get (flag field : string) (self : InstrDesc.t) (o : object)
      (a : string) :
  Py.get (InstrDesc.set_if flag self field o) a
  = if String.eqb field a && Py.mem flag (InstrDesc.flags self)
    then Some 1 else Py.get o a.
Proof.
  unfold InstrDesc.set_if.
  destruct (Py.mem flag (InstrDesc.flags self)).
  - unfold setattr. rewrite get_set. now rewrite andb_true_r.
  - now rewrite andb_false_r.
Qed.

(** What [encode] has stored in an attribute that is neither an operand
    attribute nor a size or immediate field, before the record is packed. *)
Lemma encode_flags_get (d : InstrDesc.t) (flags0 f : object) (a : string) :
  InstrDesc.encode_flags d = Ok flags0 ->
  Py.get ENCODINGS (InstrDesc.encoding d) = Some f ->
  String.prefix "op" a = false ->
  String.eqb "size_fix1" a = false -> String.eqb "size_fix2" a = false ->
  Py.get flags0 a
  = if String.eqb "vsib" a && Py.mem "VSIB" (InstrDesc.flags d) then Some 1
    else if String.eqb "lock" a && Py.mem "LOCK" (InstrDesc.flags d)
    then Some 1
    else if String.eqb "instr_width" a
            && Py.mem "INSTR_WIDTH" (InstrDesc.flags d) then Some 1
    else if String.eqb "size8" a && Py.mem "SIZE_8" (InstrDesc.flags d)
    then Some 1
    else if String.eqb "sized64" a && Py.mem "DEF64" (InstrDesc.flags d)
    then Some 1
    else Py.get f a.
Proof.
  intros H Hf Hop H1 H2. unfold InstrDesc.encode_flags in H.
  unfold Py.getitem in H. rewrite Hf in H. cbn [from_option bind] in H.
  inv_bind H.
  destruct ((2 <? _) || _); [discriminate|].
  inv_bind H. inv_bind H. inv_bind H. injection H as <-.
  rewrite !set_if_get.
  rewrite (encode_operands_other _ _ a Hop _ _ _ Ha2).
  unfold setattr. now rewrite !get_set, H1, H2.
Qed.

Lemma InstrFlags_sizes (n : string) (s : Z) :
  In (n, s) InstrFlags_fields -> 0 <= s.
Proof.
  intros Hin. simpl in Hin.
  repeat (destruct Hin as [Hin|Hin]; [injection Hin as <- <-; lia|]).
  destruct Hin.
Qed.

Lemma record_bit (pre post : list (string * Z)) (o : object) (a : string)
      (enc : Z) (b : bool) :
  (forall n s, In (n, s) (pre ++ (a, 1) :: post)%list -> 0 <= s) ->
  bitstruct.pack (pre ++ (a, 1) :: post)%list o 0 0 = Ok enc ->
  Py.get o a = Some (Z.b2z b) ->
  Z.testbit enc (total_size pre) = b.
Proof.
  intros Hs Hp Hg.
  destruct (pack_field pre post o a 1 enc Hs Hp) as (v & Hv & E).
  unfold getattr in Hv. rewrite Hg in Hv. injection Hv as <-.
  assert (Ht : 0 <= total_size pre).
  { apply total_size_nonneg. intros n s Hn. apply (Hs n).
    apply in_or_app. now left. }
  rewrite !mask_mod in E by lia. change (2 ^ 1) with 2 in E.
  rewrite <- Z.bit0_mod, Z.shiftr_spec, Z.add_0_l in E by lia.
  destruct b, (Z.testbit enc (total_size pre)); simpl in E;
    try reflexivity; discriminate.
Qed.

Lemma packed_ext (fields : list (string * Z)) (o o' : object) :
  (forall n, In n (List.map fst fields) -> Py.get o n = Py.get o' n) ->
  packed fields o = packed fields o'.
Proof.
  induction fields as [|[name size] fields IH]; intros H; [reflexivity|].
  cbn [packed]. rewrite (H name) by now left.
  rewrite IH; [reflexivity|]. intros n Hn. apply H. now right.
Qed.

(** The fields that the encoding form alone decides. *)
Definition form_fields : list (string * Z) := firstn 6 InstrFlags_fields.

(** X2.  In the 48-bit record of a descriptor that encodes, bit 11 says
    whether the flag LOCK is given, bit 15 VSIB, bit 24 SIZE_8, bit 25 DEF64
    and bit 31 INSTR_WIDTH, and the low eleven bits are those of the
    encoding form, whatever the operands and flags. *)
Theorem encode_record_bits (d : InstrDesc.t) (p : list word) :
  InstrDesc.encode d = Ok p ->
  exists enc f,
    Py.get ENCODINGS (InstrDesc.encoding d) = Some f
    /\ p = Tag ("FDI_" ++ InstrDesc.mnemonic d) :: record_words enc
    /\ Z.testbit enc 11 = Py.mem "LOCK" (InstrDesc.flags d)
    /\ Z.testbit enc 15 = Py.mem "VSIB" (InstrDesc.flags d)
    /\ Z.testbit enc 24 = Py.mem "SIZE_8" (InstrDesc.flags d)
    /\ Z.testbit enc 25 = Py.mem "DEF64" (InstrDesc.flags d)
    /\ Z.testbit enc 31 = Py.mem "INSTR_WIDTH" (InstrDesc.flags d)
    /\ enc mod 2 ^ 11 = packed form_fields f.
Proof.
  unfold InstrDesc.encode. intros H. inv_bind H. inv_bind H.
  rename a into flags0, a0 into flags1.
  apply emit_words in H. destruct H as (enc & Hp & Hr & ->).
  destruct (encode_flags_keeps d flags0 Ha) as (f & Hf & _ & _).
  destruct (encodings_defaults _ f Hf) as (D1 & D2 & D3 & D4 & D5).
  exists enc, f. split; [exact Hf|]. split; [reflexivity|].
  assert (Hget : forall a,
             String.prefix "op" a = false ->
             String.eqb "size_fix1" a = false ->
             String.eqb "size_fix2" a = false ->
             String.eqb "imm_control" a = false ->
             Py.get flags1 a
             = if String.eqb "vsib" a && Py.mem "VSIB" (InstrDesc.flags d)
               then Some 1
               else if String.eqb "lock" a && Py.mem "LOCK" (InstrDesc.flags d)
               then Some 1
               else if String.eqb "instr_width" a
                       && Py.mem "INSTR_WIDTH" (InstrDesc.flags d)
               then Some 1
               else if String.eqb "size8" a
                       && Py.mem "SIZE_8" (InstrDesc.flags d)
               then Some 1
               else if String.eqb "sized64" a
                       && Py.mem "DEF64" (InstrDesc.flags d)
               then Some 1
               else Py.get f a).
  { intros a H1 H2 H3 H4. rewrite (refine_imm_other d flags0 flags1 a H4 Ha0).
    now apply encode_flags_get. }
  assert (Hbit : forall pre post a b,
             InstrFlags_fields = (pre ++ (a, 1) :: post)%list ->
             Py.get flags1 a = Some (Z.b2z b) ->
             Z.testbit enc (total_size pre) = b).
  { intros pre post a b E Hg. apply (record_bit pre post flags1 a enc b).
    - rewrite <- E. exact InstrFlags_sizes.
    - now rewrite <- E.
    - exact Hg. }
  split.
  { apply (Hbit (firstn 6 InstrFlags_fields) (skipn 7 InstrFlags_fields)
                "lock"); [reflexivity|].
    rewrite Hget by reflexivity. cbn [String.eqb Ascii.eqb Bool.eqb andb].
    rewrite D1. now destruct (Py.mem "LOCK" _). }
  split.
  { apply (Hbit (firstn 8 InstrFlags_fields) (skipn 9 InstrFlags_fields)
                "vsib"); [reflexivity|].
    rewrite Hget by reflexivity. cbn [String.eqb Ascii.eqb Bool.eqb andb].
    rewrite D2. now destruct (Py.mem "VSIB" _). }
  split.
  { apply (Hbit (firstn 13 InstrFlags_fields) (skipn 14 InstrFlags_fields)
                "size8"); [reflexivity|].
    rewrite Hget by reflexivity. cbn [String.eqb Ascii.eqb Bool.eqb andb].
    rewrite D3. now destruct (Py.mem "SIZE_8" _). }
  split.
  { apply (Hbit (firstn 14 InstrFlags_fields) (skipn 15 InstrFlags_fields)
                "sized64"); [reflexivity|].
    rewrite Hget by reflexivity. cbn [String.eqb Ascii.eqb Bool.eqb andb].
    rewrite D4. now destruct (Py.mem "DEF64" _). }
  split.
  { apply (Hbit (firstn 17 InstrFlags_fields) (skipn 18 InstrFlags_fields)
                "instr_width"); [reflexivity|].
    rewrite Hget by reflexivity. cbn [String.eqb Ascii.eqb Bool.eqb andb].
    rewrite D5. now destruct (Py.mem "INSTR_WIDTH" _). }
  pose proof (pack_has _ _ _ _ _ Hp) as Hhas.
  pose proof (pack_packed _ _ _ _ _ InstrFlags_sizes (Z.le_refl 0) Hp) as He.
  rewrite Z.pow_0_r, Z.mul_1_l, Z.add_0_l in He.
  change InstrFlags_fields
    with (form_fields ++ skipn 6 InstrFlags_fields)%list in He.
  assert (Hfs : forall n s, In (n, s) form_fields -> 0 <= s).
  { intros n s Hn. apply (InstrFlags_sizes n).
    change InstrFlags_fields
      with (form_fields ++ skipn 6 InstrFlags_fields)%list.
    apply in_or_app. now left. }
  rewrite packed_app in He.
  - pose proof (packed_range form_fields flags1 Hfs) as Hpr.
    change (total_size form_fields) with 11 in *.
    rewrite He, Z.mul_comm, Z.mod_add by lia.
    rewrite Z.mod_small by exact Hpr.
    apply packed_ext. intros n Hn. simpl in Hn.
    repeat (destruct Hn as [<-|Hn]; [now rewrite Hget by reflexivity|]).
    destruct Hn.
  - intros n Hn. apply Hhas.
    change InstrFlags_fields
      with (form_fields ++ skipn 6 InstrFlags_fields)%list.
    rewrite List.map_app. apply in_or_app. now left.
  - exact Hfs.
Qed.

Definition lock_add : InstrDesc.t :=
  InstrDesc.mk "ADD" "MR" [mkOpKind SZ_OP "GP"; mkOpKind SZ_OP "GP"] ["LOCK"].

Lemma encode_record_bits_witness :
  InstrDesc.encode lock_add = Ok [Tag "FDI_ADD"; Int 2059; Int 1034; Int 0]
  /\ exists enc f,
    Py.get ENCODINGS "MR" = Some f
    /\ [Tag "FDI_ADD"; Int 2059; Int 1034; Int 0]
       = Tag "FDI_ADD" :: record_words enc
    /\ Z.testbit enc 11 = true
    /\ Z.testbit enc 15 = false
    /\ Z.testbit enc 24 = false
    /\ Z.testbit enc 25 = false
    /\ Z.testbit enc 31 = false
    /\ enc mod 2 ^ 11 = packed form_fields f.
Proof.
  assert (He : InstrDesc.encode lock_add
               = Ok [Tag "FDI_ADD"; Int 2059; Int 1034; Int 0])
    by (vm_compute; reflexivity).
  split; [exact He|].
  exact (encode_record_bits lock_add _ He).
Defined.

(** ** Decimal numerals *)

(** The number that a string of decimal digits denotes, continuing from
    [acc]. *)
Fixpoint dec_value (acc : Z) (s : string) : Z :=
  match s with
  | EmptyString => acc
  | String c s' => dec_value (10 * acc + (Z.of_nat (nat_of_ascii c) - 48)) s'
  end.

Lemma digit_char_value (d : Z) :
  0 <= d < 10 -> Z.of_nat (nat_of_ascii (Py.digit_char d)) - 48 = d.
Proof.
  intros H.
  assert (E : d = 0 \/ d = 1 \/ d = 2 \/ d = 3 \/ d = 4 \/ d = 5 \/ d = 6
              \/ d = 7 \/ d = 8 \/ d = 9) by lia.
  destruct E as [-> | [-> | [-> | [-> | [-> | [-> | [-> | [-> | [-> | -> ]]]]]]]]];
    reflexivity.
Qed.

Lemma digits_value (fuel : nat) : forall n acc,
  0 <= n < 10 ^ Z.of_nat fuel ->
  dec_value 0 (Py.digits fuel 10 n acc) = dec_value n acc.
Proof.
  induction fuel as [|fuel IH]; intros n acc Hn.
  - simpl in Hn. assert (n = 0) by lia. now subst n.
  - cbn [Py.digits]. cbv zeta.
    assert (Hm : 0 <= n mod 10 < 10) by (apply Z.mod_pos_bound; lia).
    assert (Hd : n = 10 * (n / 10) + n mod 10) by (apply Z.div_mod; lia).
    destruct (n / 10 =? 0) eqn:E.
    + apply Z.eqb_eq in E. cbn [dec_value].
      rewrite digit_char_value by exact Hm. f_equal. lia.
    + rewrite IH.
      * cbn [dec_value]. rewrite digit_char_value by exact Hm. f_equal. lia.
      * replace (Z.of_nat (S fuel)) with (1 + Z.of_nat fuel) in Hn by lia.
        rewrite Z.pow_add_r in Hn by lia. change (10 ^ 1) with 10 in Hn.
        split; [apply Z.div_pos; lia|].
        apply Z.div_lt_upper_bound; lia.
Qed.

(** ["%d" % n] of a natural number reads back as that number. *)
Lemma dec_value_dec (n : Z) : 0 <= n -> dec_value 0 (Py.dec n) = n.
Proof.
  intros Hn. unfold Py.dec.
  destruct (n <? 0) eqn:E; [apply Z.ltb_lt in E; lia|].
  unfold Py.unsigned_str. rewrite digits_value; [reflexivity|].
  split; [exact Hn|].
  destruct (Z.eq_dec n 0) as [->|Hz]; [reflexivity|].
  pose proof (Z.log2_nonneg n) as Hl.
  rewrite Nat2Z.inj_succ, Z2Nat.id by exact Hl.
  pose proof (Z.log2_spec n ltac:(lia)) as [_ Hs].
  eapply Z.lt_le_trans; [exact Hs|].
  apply Z.pow_le_mono_l. lia.
Qed.

Lemma dec_inj (n m : Z) : 0 <= n -> 0 <= m -> Py.dec n = Py.dec m -> n = m.
Proof.
  intros Hn Hm E. rewrite <- (dec_value_dec n Hn), <- (dec_value_dec m Hm).
  now rewrite E.
Qed.

(** ** The operand fields of the record *)

Lemma append_inj_r (s : string) : forall x y, x ++ s = y ++ s -> x = y.
Proof.
  induction x as [|c x IH]; intros [|c' y] E; simpl in E.
  - reflexivity.
  - apply (f_equal String.length) in E. simpl in E.
    rewrite string_length_append in E. lia.
  - apply (f_equal String.length) in E. simpl in E.
    rewrite string_length_append in E. lia.
  - injection E as <- E. now rewrite (IH y E).
Qed.

Lemma last_char_app (x s : string) :
  s <> "" -> last_char (x ++ s) = last_char s.
Proof.
  intros Hs. induction x as [|c x IH]; [reflexivity|].
  simpl. rewrite IH. destruct (x ++ s) eqn:E; [|reflexivity].
  destruct x; simpl in E; [now elim Hs | discriminate].
Qed.

Definition op_size (i : Z) : string := "op" ++ Py.dec i ++ "_size".
Definition op_regty (i : Z) : string := "op" ++ Py.dec i ++ "_regty".

Lemma op_size_inj (i j : Z) :
  0 <= i -> 0 <= j -> op_size i = op_size j -> i = j.
Proof.
  intros Hi Hj E. unfold op_size in E. simpl in E. injection E as E.
  apply append_inj_r in E. now apply dec_inj.
Qed.

Lemma op_regty_size (i j : Z) : op_regty i <> op_size j.
Proof.
  unfold op_size, op_regty. simpl. intros E. injection E as E.
  apply (f_equal last_char) in E.
  rewrite !last_char_app in E by discriminate. discriminate.
Qed.

(** The iterations for the later operands leave the size attribute of an
    earlier one alone. *)
Lemma encode_operands_later (sizes : list Z) (ops : list OpKind) (k : Z) :
  0 <= k ->
  forall i flags flags',
    k < i ->
    InstrDesc.encode_operands sizes ops i flags = Ok flags' ->
    Py.get flags' (op_size k) = Py.get flags (op_size k).
Proof.
  intros Hk. induction ops as [|op ops IH]; intros i flags flags' Hi H.
  - simpl in H. now injection H as <-.
  - cbn [InstrDesc.encode_operands] in H. inv_bind H. inv_bind H.
    cbv zeta in H.
    assert (N1 : String.eqb (op_size i) (op_size k) = false).
    { apply String.eqb_neq. intros E. apply op_size_inj in E; lia. }
    assert (N2 : String.eqb (op_regty i) (op_size k) = false).
    { apply String.eqb_neq. apply op_regty_size. }
    fold (op_size i) in H. fold (op_regty i) in H.
    destruct (i <? 3).
    + apply IH in H; [|lia]. rewrite H. unfold setattr.
      now rewrite !get_set, N1, N2.
    + destruct (negb ((_ =? 7) || (_ =? 2))); [discriminate|].
      apply IH in H; [|lia]. rewrite H. unfold setattr.
      now rewrite get_set, N1.
Qed.

Lemma index_of_nth (x : Z) (l : list Z) : forall idx,
  Py.index_of Z.eqb x l = Ok idx ->
  0 <= idx < Py.len l /\ nth (Z.to_nat idx) l 0 = x.
Proof.
  induction l as [|y l IH]; intros idx H; simpl in H; [discriminate|].
  destruct (Z.eqb y x) eqn:E.
  - injection H as <-. apply Z.eqb_eq in E. unfold Py.len. simpl. split; [lia|].
    exact E.
  - inv_bind H. injection H as <-. destruct (IH a Ha) as [Hr Hn].
    unfold Py.len in *. cbn [List.length]. split; [lia|].
    replace (Z.to_nat (a + 1)) with (S (Z.to_nat a)) by lia. exact Hn.
Qed.

(** The size attribute of the operand at position [i + k] after the loop
    that starts at position [i]. *)
Lemma encode_operands_size (sizes : list Z) (ops : list OpKind) :
  forall k i flags flags' op,
    0 <= i ->
    InstrDesc.encode_operands sizes ops i flags = Ok flags' ->
    nth_error ops k = Some op ->
    exists code idx,
      InstrDesc.zget InstrDesc.OPKIND_SIZES (size op) = Ok code
      /\ Py.index_of Z.eqb code sizes = Ok idx
      /\ Py.get flags' (op_size (i + Z.of_nat k)) = Some idx.
Proof.
  induction ops as [|op0 ops IH]; intros k i flags flags' op Hi H Hn;
    [destruct k; discriminate|].
  destruct k as [|k].
  - injection Hn as ->. rewrite Z.add_0_r.
    cbn [InstrDesc.encode_operands] in H. inv_bind H. inv_bind H.
    cbv zeta in H. exists a, a0. split; [exact Ha|]. split; [exact Ha0|].
    fold (op_size i) in H. fold (op_regty i) in H.
    destruct (i <? 3).
    + rewrite (encode_operands_later _ _ i Hi (i + 1) _ _ ltac:(lia) H).
      unfold setattr. rewrite !get_set.
      rewrite (proj2 (String.eqb_neq _ _) (op_regty_size i i)).
      now rewrite String.eqb_refl.
    + destruct (negb ((_ =? 7) || (_ =? 2))); [discriminate|].
      rewrite (encode_operands_later _ _ i Hi (i + 1) _ _ ltac:(lia) H).
      unfold setattr. now rewrite get_set, String.eqb_refl.
  - cbn [nth_error] in Hn.
    cbn [InstrDesc.encode_operands] in H. inv_bind H. inv_bind H.
    cbv zeta in H.
    replace (i + Z.of_nat (S k)) with ((i + 1) + Z.of_nat k) by lia.
    destruct (i <? 3).
    + exact (IH k (i + 1) _ flags' op ltac:(lia) H Hn).
    + destruct (negb ((_ =? 7) || (_ =? 2))); [discriminate|].
      exact (IH k (i + 1) _ flags' op ltac:(lia) H Hn).
Qed.

Lemma fixed_range (codes : list Z) :
  Forall (fun x => 0 <= x <= 6)
         (InstrDesc.sort_fixed (InstrDesc.fixed_codes codes)).
Proof.
  apply Forall_forall. intros x Hx. unfold InstrDesc.sort_fixed in Hx.
  assert (Hin : In x [0; 1; 2; 3; 4; 5; 6]).
  { apply in_app_or in Hx.
    destruct Hx as [Hx|Hx]; apply filter_In in Hx; destruct Hx as [Hx _];
      unfold InstrDesc.fixed_codes in Hx; apply filter_In in Hx; apply Hx. }
  simpl in Hin. lia.
Qed.

(** The size table of a descriptor that passes the size check: two fixed
    sizes, the second of them between 1 and 4, then the operand size and
    the vector size. *)
Lemma size_table (fixed : list Z) :
  Forall (fun x => 0 <= x <= 6) fixed ->
  (2 <? Py.len fixed)
  || ((Py.len fixed =? 2) && negb (InstrDesc.in_1_4 (nth 1 fixed 0))) = false ->
  exists s0 s1,
    0 <= s0 <= 6 /\ 1 <= s1 <= 4
    /\ (firstn 2 (fixed ++ [1; 1]) ++ [-2; -3])%list = [s0; s1; -2; -3].
Proof.
  intros Hr E. apply orb_false_iff in E. destruct E as [E1 E2].
  destruct fixed as [|x [|y [|z r]]].
  - exists 1, 1. repeat split; lia.
  - exists x, 1. inversion Hr; subst. repeat split; lia.
  - exists x, y. inversion Hr as [|? ? Hx Hr']; subst.
    change (Py.len [x; y] =? 2) with true in E2. cbn [nth andb] in E2.
    apply negb_false_iff in E2. unfold InstrDesc.in_1_4 in E2.
    apply andb_true_iff in E2. destruct E2 as [Ea Eb].
    apply Z.leb_le in Ea, Eb. repeat split; lia.
  - exfalso. apply Z.ltb_ge in E1. unfold Py.len in E1. simpl in E1. lia.
Qed.

Lemma eqb_op_size (field : string) (k : Z) :
  String.prefix "op" field = false -> String.eqb field (op_size k) = false.
Proof.
  intros H. rewrite String.eqb_sym. unfold op_size. simpl.
  now apply op_attr_eqb.
Qed.

Lemma encode_flags_sizes (d : InstrDesc.t) (flags0 : object) :
  InstrDesc.encode_flags d = Ok flags0 ->
  exists s0 s1,
    0 <= s0 <= 6 /\ 1 <= s1 <= 4
    /\ Py.get flags0 "size_fix1" = Some s0
    /\ Py.get flags0 "size_fix2" = Some (s1 - 1)
    /\ forall k op,
         nth_error (InstrDesc.operands d) k = Some op ->
         exists code idx,
           InstrDesc.zget InstrDesc.OPKIND_SIZES (size op) = Ok code
           /\ Py.get flags0 (op_size (Z.of_nat k)) = Some idx
           /\ 0 <= idx <= 3
           /\ nth (Z.to_nat idx) [s0; s1; -2; -3] 0 = code.
Proof.
  unfold InstrDesc.encode_flags. intros H. inv_bind H. inv_bind H.
  rename a into f, a0 into codes.
  destruct ((2 <? _) || _) eqn:E; [discriminate|].
  destruct (size_table _ (fixed_range codes) E)
    as (s0 & s1 & H0 & H1 & Hs).
  rewrite Hs in H. cbn [Py.index Py.len List.length Z.of_nat] in H.
  change (Py.index [s0; s1; -2; -3] 0) with (Ok (A:=Z) s0) in H.
  change (Py.index [s0; s1; -2; -3] 1) with (Ok (A:=Z) s1) in H.
  cbn [bind] in H. inv_bind H. injection H as <-. rename a into flags.
  exists s0, s1. split; [exact H0|]. split; [exact H1|].
  rewrite !set_if_get. cbn [String.eqb Ascii.eqb Bool.eqb andb].
  rewrite (encode_operands_other _ _ "size_fix1" eq_refl _ _ _ Ha1).
  rewrite (encode_operands_other _ _ "size_fix2" eq_refl _ _ _ Ha1).
  unfold setattr at 1 2 3 4. rewrite !get_set.
  cbn [String.eqb Ascii.eqb Bool.eqb].
  split; [reflexivity|]. split; [reflexivity|].
  intros k op Hn.
  destruct (encode_operands_size _ _ k 0 _ _ op (Z.le_refl 0) Ha1 Hn)
    as (code & idx & Hc & Hi & Hg).
  exists code, idx. split; [exact Hc|].
  rewrite Z.add_0_l in Hg.
  destruct (index_of_nth _ _ _ Hi) as [Hr Hnth].
  unfold Py.len in Hr. cbn [List.length] in Hr.
  split; [|split; [lia | exact Hnth]].
  rewrite !set_if_get, !eqb_op_size by reflexivity. exact Hg.
Qed.

Lemma record_field (pre post : list (string * Z)) (o : object) (a : string)
      (size enc v : Z) :
  InstrFlags_fields = (pre ++ (a, size) :: post)%list ->
  bitstruct.pack InstrFlags_fields o 0 0 = Ok enc ->
  Py.get o a = Some v -> 0 <= v < 2 ^ size ->
  Z.land (Z.shiftr enc (total_size pre)) (Z.shiftl 1 size - 1) = v.
Proof.
  intros E Hp Hg Hv. rewrite E in Hp.
  assert (Hs : forall n s, In (n, s) (pre ++ (a, size) :: post)%list -> 0 <= s)
    by (rewrite <- E; exact InstrFlags_sizes).
  destruct (pack_field pre post o a size enc Hs Hp) as (v' & Hv' & Eq).
  unfold getattr in Hv'. rewrite Hg in Hv'. injection Hv' as <-.
  rewrite Eq. assert (0 <= size).
  { apply (Hs a). apply in_or_app. right. now left. }
  rewrite mask_mod by assumption. now apply Z.mod_small.
Qed.

(** X3.  The record of a descriptor that encodes holds a size table and,
    for each of the first four operands, an index into it: bits 26 to 28
    give the first fixed size, at most 6, bits 29 and 30 the second fixed
    size less one, the second being between 1 and 4, and the entry that
    the two bits at [16 + 2k] select among (first, second, -2, -3) is the
    size code of operand [k]. *)
Theorem encode_operand_sizes (d : InstrDesc.t) (p : list word) :
  InstrDesc.encode d = Ok p ->
  exists enc,
    p = Tag ("FDI_" ++ InstrDesc.mnemonic d) :: record_words enc
    /\ let s0 := Z.land (Z.shiftr enc 26) 7 in
       let s1 := Z.land (Z.shiftr enc 29) 3 + 1 in
       0 <= s0 <= 6 /\ 1 <= s1 <= 4
       /\ forall k op,
            (k < 4)%nat ->
            nth_error (InstrDesc.operands d) k = Some op ->
            InstrDesc.zget InstrDesc.OPKIND_SIZES (size op)
            = Ok (nth (Z.to_nat (Z.land (Z.shiftr enc (16 + 2 * Z.of_nat k))
                                        3))
                      [s0; s1; -2; -3] 0).
Proof.
  unfold InstrDesc.encode. intros H. inv_bind H. inv_bind H.
  rename a into flags0, a0 into flags1.
  apply emit_words in H. destruct H as (enc & Hp & Hr & ->).
  exists enc. split; [reflexivity|].
  destruct (encode_flags_sizes d flags0 Ha)
    as (s0 & s1 & H0 & H1 & G0 & G1 & Hops).
  assert (Hsame : forall a, String.eqb "imm_control" a = false ->
                            Py.get flags1 a = Py.get flags0 a).
  { intros a Hne. exact (refine_imm_other d flags0 flags1 a Hne Ha0). }
  assert (E0 : Z.land (Z.shiftr enc 26) 7 = s0).
  { rewrite <- Hsame in G0 by reflexivity.
    exact (record_field (firstn 15 InstrFlags_fields)
                        (skipn 16 InstrFlags_fields) flags1 "size_fix1" 3
                        enc _ eq_refl Hp G0 ltac:(simpl; lia)). }
  assert (E1 : Z.land (Z.shiftr enc 29) 3 = s1 - 1).
  { rewrite <- Hsame in G1 by reflexivity.
    exact (record_field (firstn 16 InstrFlags_fields)
                        (skipn 17 InstrFlags_fields) flags1 "size_fix2" 2
                        enc _ eq_refl Hp G1 ltac:(simpl; lia)). }
  cbv zeta. rewrite E0, E1. replace (s1 - 1 + 1) with s1 by lia.
  split; [exact H0|]. split; [exact H1|].
  intros k op Hk Hn.
  destruct (Hops k op Hn) as (code & idx & Hc & Hg & Hi & Hnth).
  rewrite Hc. f_equal. rewrite <- Hnth. f_equal. f_equal.
  rewrite <- Hsame in Hg by (apply eqb_op_size; reflexivity).
  symmetry. destruct k as [|[|[|[|k]]]]; [| | | |lia].
  - exact (record_field (firstn 9 InstrFlags_fields)
                         (skipn 10 InstrFlags_fields) flags1 "op0_size" 2
                         enc idx eq_refl Hp Hg ltac:(simpl; lia)).
  - exact (record_field (firstn 10 InstrFlags_fields)
                         (skipn 11 InstrFlags_fields) flags1 "op1_size" 2
                         enc idx eq_refl Hp Hg ltac:(simpl; lia)).
  - exact (record_field (firstn 11 InstrFlags_fields)
                         (skipn 12 InstrFlags_fields) flags1 "op2_size" 2
                         enc idx eq_refl Hp Hg ltac:(simpl; lia)).
  - exact (record_field (firstn 12 InstrFlags_fields)
                         (skipn 13 InstrFlags_fields) flags1 "op3_size" 2
                         enc idx eq_refl Hp Hg ltac:(simpl; lia)).
Qed.

Definition movzx : InstrDesc.t :=
  InstrDesc.mk "MOVZX" "RM" [mkOpKind SZ_OP "GP"; mkOpKind 1 "GP"] [].

Lemma encode_operand_sizes_witness :
  InstrDesc.encode movzx = Ok [Tag "FDI_MOVZX"; Int 14; Int 1026; Int 0]
  /\ exists enc,
    [Tag "FDI_MOVZX"; Int 14; Int 1026; Int 0]
    = Tag "FDI_MOVZX" :: record_words enc
    /\ let s0 := Z.land (Z.shiftr enc 26) 7 in
       let s1 := Z.land (Z.shiftr enc 29) 3 + 1 in
       0 <= s0 <= 6 /\ 1 <= s1 <= 4
       /\ forall k op,
            (k < 4)%nat ->
            nth_error [mkOpKind SZ_OP "GP"; mkOpKind 1 "GP"] k = Some op ->
            InstrDesc.zget InstrDesc.OPKIND_SIZES (size op)
            = Ok (nth (Z.to_nat (Z.land (Z.shiftr enc (16 + 2 * Z.of_nat k))
                                        3))
                      [s0; s1; -2; -3] 0).
Proof.
  assert (He : InstrDesc.encode movzx
               = Ok [Tag "FDI_MOVZX"; Int 14; Int 1026; Int 0])
    by (vm_compute; reflexivity).
  split; [exact He|].
  exact (encode_operand_sizes movzx _ He).
Defined.

(** ** The outcomes of [encode] *)

(** The register type of an operand is a vector or unknown. *)
Definition vec_or_none (op : OpKind) : bool :=
  let reg_type := match Py.get InstrDesc.OPKIND_REGTYS (kind op) with
                  | Some r => r
                  | None => 7
                  end in
  (reg_type =? 7) || (reg_type =? 2).

Lemma size_code_values (s code : Z) :
  InstrDesc.zget InstrDesc.OPKIND_SIZES s = Ok code ->
  In code [0; 1; 2; 3; 4; 5; 6; -2; -3].
Proof.
  unfold InstrDesc.OPKIND_SIZES. cbn [InstrDesc.zget].
  repeat (destruct (Z.eqb _ s);
          [intros H; injection H as <-; simpl; tauto|]).
  discriminate.
Qed.

Lemma size_codes_in (ops : list OpKind) : forall codes,
  InstrDesc.size_codes ops = Ok codes ->
  forall op, In op ops ->
    exists code, InstrDesc.zget InstrDesc.OPKIND_SIZES (size op) = Ok code
                 /\ In code codes.
Proof.
  induction ops as [|op0 ops IH]; intros codes H op Hin; [destruct Hin|].
  simpl in H. inv_bind H. inv_bind H. injection H as <-.
  destruct Hin as [->|Hin].
  - exists a. split; [exact Ha | now left].
  - destruct (IH a0 Ha0 op Hin) as (code & Hc & Hi).
    exists code. split; [exact Hc | now right].
Qed.

Lemma sort_fixed_in (l : list Z) (x : Z) :
  In x l -> In x (InstrDesc.sort_fixed l).
Proof.
  intros H. unfold InstrDesc.sort_fixed. apply in_or_app.
  destruct (InstrDesc.in_1_4 x) eqn:E.
  - right. apply filter_In. now split.
  - left. apply filter_In. split; [exact H | now rewrite E].
Qed.

Lemma sort_fixed_length (l : list Z) :
  List.length (InstrDesc.sort_fixed l) = List.length l.
Proof.
  unfold InstrDesc.sort_fixed. rewrite length_app.
  induction l as [|x l IH]; [reflexivity|]. simpl.
  destruct (InstrDesc.in_1_4 x); simpl; lia.
Qed.

(** With two fixed sizes the sort puts one between 1 and 4 second, if there
    is one. *)
Lemma sort_fixed_second (l : list Z) :
  List.length l = 2%nat ->
  InstrDesc.in_1_4 (nth 1 (InstrDesc.sort_fixed l) 0)
  = existsb InstrDesc.in_1_4 l.
Proof.
  destruct l as [|a [|b [|c l]]]; try discriminate. intros _.
  unfold InstrDesc.sort_fixed. simpl.
  destruct (InstrDesc.in_1_4 a) eqn:Ea, (InstrDesc.in_1_4 b) eqn:Eb; simpl;
    now rewrite ?Ea, ?Eb.
Qed.

Definition bad_sizes (codes : list Z) : bool :=
  let fixed := InstrDesc.fixed_codes codes in
  (2 <? Py.len fixed)
  || ((Py.len fixed =? 2) && negb (existsb InstrDesc.in_1_4 fixed)).

Lemma bad_sizes_check (codes : list Z) :
  let fixed := InstrDesc.sort_fixed (InstrDesc.fixed_codes codes) in
  (2 <? Py.len fixed)
  || ((Py.len fixed =? 2) && negb (InstrDesc.in_1_4 (nth 1 fixed 0)))
  = bad_sizes codes.
Proof.
  cbv zeta. unfold bad_sizes, Py.len. rewrite sort_fixed_length.
  destruct (Z.of_nat (List.length (InstrDesc.fixed_codes codes)) =? 2) eqn:E;
    [|reflexivity].
  apply Z.eqb_eq in E. rewrite sort_fixed_second by lia. reflexivity.
Qed.

Lemma index_of_in (x : Z) (l : list Z) :
  In x l -> exists idx, Py.index_of Z.eqb x l = Ok idx.
Proof.
  induction l as [|y l IH]; intros H; [destruct H|]. simpl.
  destruct (Z.eqb y x) eqn:E; [eauto|].
  destruct H as [->|H]; [rewrite Z.eqb_refl in E; discriminate|].
  destruct (IH H) as [idx Hi]. rewrite Hi. simpl. eauto.
Qed.

(** Every size code of the operands is in the size table. *)
Lemma code_in_sizes (codes : list Z) (code : Z) :
  In code codes -> In code [0; 1; 2; 3; 4; 5; 6; -2; -3] ->
  bad_sizes codes = false ->
  In code (firstn 2 (InstrDesc.sort_fixed (InstrDesc.fixed_codes codes)
                     ++ [1; 1]) ++ [-2; -3])%list.
Proof.
  intros Hc Hv Hb. apply in_or_app.
  assert (Hcase : In code [0; 1; 2; 3; 4; 5; 6] \/ In code [-2; -3])
    by (simpl in *; tauto).
  destruct Hcase as [Hf|Ht]; [left | now right].
  assert (Hin : In code (InstrDesc.sort_fixed (InstrDesc.fixed_codes codes))).
  { apply sort_fixed_in. unfold InstrDesc.fixed_codes. apply filter_In.
    split; [exact Hf|]. apply existsb_exists. exists code.
    split; [exact Hc | apply Z.eqb_refl]. }
  unfold bad_sizes in Hb. apply orb_false_iff in Hb. destruct Hb as [Hb _].
  apply Z.ltb_ge in Hb. unfold Py.len in Hb.
  rewrite <- sort_fixed_length in Hb.
  destruct (InstrDesc.sort_fixed (InstrDesc.fixed_codes codes))
    as [|a [|b [|c l]]]; simpl in *; try tauto. lia.
Qed.

(** The operand loop fails only on a typed operand that is not a vector at
    position 3 or later. *)
Lemma encode_operands_outcome (sizes : list Z) (ops : list OpKind) :
  forall i flags,
    0 <= i ->
    (forall op, In op ops ->
       exists code, InstrDesc.zget InstrDesc.OPKIND_SIZES (size op) = Ok code
                    /\ In code sizes) ->
    if existsb (fun op => negb (vec_or_none op))
               (skipn (Z.to_nat (3 - i)) ops)
    then InstrDesc.encode_operands sizes ops i flags
         = Raise (BuildError "invalid regty for op 3, must be VEC")
    else exists flags',
        InstrDesc.encode_operands sizes ops i flags = Ok flags'.
Proof.
  induction ops as [|op ops IH]; intros i flags Hi Hops.
  - rewrite skipn_nil. simpl. eauto.
  - destruct (Hops op (or_introl eq_refl)) as (code & Hc & Hin).
    destruct (index_of_in code sizes Hin) as [idx Hidx].
    cbn [InstrDesc.encode_operands]. rewrite Hc. cbn [bind].
    rewrite Hidx. cbn [bind]. cbv zeta.
    assert (Hrest : forall op', In op' ops ->
              exists code, InstrDesc.zget InstrDesc.OPKIND_SIZES (size op')
                           = Ok code /\ In code sizes)
      by (intros op' H'; apply Hops; now right).
    destruct (i <? 3) eqn:E.
    + apply Z.ltb_lt in E.
      replace (Z.to_nat (3 - i)) with (S (Z.to_nat (3 - (i + 1)))) by lia.
      cbn [skipn]. apply IH; [lia | exact Hrest].
    + apply Z.ltb_ge in E.
      replace (Z.to_nat (3 - i)) with 0%nat by lia. cbn [skipn existsb].
      fold (vec_or_none op).
      destruct (vec_or_none op); cbn [negb orb]; [|reflexivity].
      specialize (IH (i + 1) (setattr flags ("op" ++ Py.dec i ++ "_size") idx)
                     ltac:(lia) Hrest).
      replace (Z.to_nat (3 - (i + 1))) with 0%nat in IH by lia.
      exact IH.
Qed.

Lemma encode_flags_outcome (d : InstrDesc.t) (f : object) (codes : list Z) :
  Py.get ENCODINGS (InstrDesc.encoding d) = Some f ->
  InstrDesc.size_codes (InstrDesc.operands d) = Ok codes ->
  if bad_sizes codes
  then InstrDesc.encode_flags d
       = Raise (BuildError "invalid fixed operand sizes")
  else if existsb (fun op => negb (vec_or_none op))
                  (skipn 3 (InstrDesc.operands d))
  then InstrDesc.encode_flags d
       = Raise (BuildError "invalid regty for op 3, must be VEC")
  else exists flags0, InstrDesc.encode_flags d = Ok flags0.
Proof.
  intros Hf Hc. unfold InstrDesc.encode_flags, Py.getitem.
  rewrite Hf, Hc. cbn [from_option bind]. cbv zeta.
  pose proof (bad_sizes_check codes) as Hb. cbv zeta in Hb. rewrite Hb.
  destruct (bad_sizes codes) eqn:E; [reflexivity|].
  destruct (size_table _ (fixed_range codes) Hb) as (s0 & s1 & _ & _ & Hs).
  assert (Hops : forall op, In op (InstrDesc.operands d) ->
            exists code,
              InstrDesc.zget InstrDesc.OPKIND_SIZES (size op) = Ok code
              /\ In code [s0; s1; -2; -3]).
  { intros op Hin. destruct (size_codes_in _ _ Hc op Hin) as (code & H1 & H2).
    exists code. split; [exact H1|]. rewrite <- Hs.
    apply code_in_sizes; [exact H2 | | exact E].
    eapply size_code_values; eauto. }
  rewrite Hs.
  change (Py.index [s0; s1; -2; -3] 0) with (Ok (A:=Z) s0).
  change (Py.index [s0; s1; -2; -3] 1) with (Ok (A:=Z) s1).
  cbn [bind].
  pose proof (encode_operands_outcome
                [s0; s1; -2; -3] (InstrDesc.operands d) 0
                (setattr (setattr f "size_fix1" s0) "size_fix2" (s1 - 1))
                (Z.le_refl 0) Hops) as Ho.
  change (Z.to_nat (3 - 0)) with 3%nat in Ho.
  destruct (existsb _ (skipn 3 (InstrDesc.operands d))).
  - now rewrite Ho.
  - destruct Ho as [flags' Ho]. rewrite Ho. cbn [bind]. eauto.
Qed.

(** X4.  The outcome of [encode] is decided by four tests, in this order.
    With more than two distinct fixed operand sizes, or with two of which
    none has a code between 1 and 4, it raises the size error.  With a
    typed operand that is not a vector at position 3 or later it raises
    the register-type error.  With an encoding form whose immediate control
    is 4 or more and no immediate operand it raises StopIteration.
    Otherwise it returns.  An unknown encoding form or operand size is a
    KeyError. *)
Theorem encode_outcomes (d : InstrDesc.t) :
  (Py.get ENCODINGS (InstrDesc.encoding d) = None ->
   InstrDesc.encode d = Raise KeyError)
  /\ forall f codes,
       Py.get ENCODINGS (InstrDesc.encoding d) = Some f ->
       InstrDesc.size_codes (InstrDesc.operands d) = Ok codes ->
       if bad_sizes codes
       then InstrDesc.encode d
            = Raise (BuildError "invalid fixed operand sizes")
       else if existsb (fun op => negb (vec_or_none op))
                       (skipn 3 (InstrDesc.operands d))
       then InstrDesc.encode d
            = Raise (BuildError "invalid regty for op 3, must be VEC")
       else if control_ge_4 f && negb (has_imm (InstrDesc.operands d))
       then InstrDesc.encode d = Raise StopIteration
       else exists p, InstrDesc.encode d = Ok p.
Proof.
  split.
  { intros Hn. unfold InstrDesc.encode, InstrDesc.encode_flags, Py.getitem.
    now rewrite Hn. }
  intros f codes Hf Hc.
  pose proof (encode_flags_outcome d f codes Hf Hc) as Ho.
  unfold InstrDesc.encode.
  destruct (bad_sizes codes); [now rewrite Ho|].
  destruct (existsb _ (skipn 3 (InstrDesc.operands d))); [now rewrite Ho|].
  destruct Ho as [flags0 Hflags]. rewrite Hflags. cbn [bind].
  destruct (encode_flags_keeps d flags0 Hflags) as (f' & Hf' & Hic & Hfields).
  rewrite Hf in Hf'. injection Hf' as <-.
  assert (Hicv : exists ic, Py.get flags0 "imm_control" = Some ic).
  { destruct (Py.get flags0 "imm_control") as [ic|] eqn:E; [eauto|].
    exfalso. apply (Hfields "imm_control"); [simpl; tauto | exact E]. }
  destruct Hicv as [ic Hicv].
  assert (Hs8 : exists s8, Py.get flags0 "size8" = Some s8).
  { destruct (Py.get flags0 "size8") as [s8|] eqn:E; [eauto|].
    exfalso. apply (Hfields "size8"); [simpl; tauto | exact E]. }
  destruct Hs8 as [s8 Hs8].
  unfold control_ge_4. rewrite <- Hic, Hicv.
  unfold InstrDesc.refine_imm, getattr. rewrite Hicv. cbn [from_option bind].
  destruct (4 <=? ic); cbn [andb].
  - unfold InstrDesc.next_imm, has_imm. rewrite find_existsb.
    destruct (find _ (InstrDesc.operands d)) as [imm_op|];
      cbn [is_some negb from_option bind]; [|reflexivity].
    rewrite Hs8. cbn [from_option bind].
    destruct (Py.mem "IMM_8" (InstrDesc.flags d) || (size imm_op =? 1)
              || (size imm_op =? SZ_OP) && negb (s8 =? 0)); cbn [bind].
    + apply emit_ok. now apply has_fields_set.
    + now apply emit_ok.
  - now apply emit_ok.
Qed.

Definition two_odd_sizes : InstrDesc.t :=
  InstrDesc.mk "X" "RM" [mkOpKind 16 "XMM"; mkOpKind 32 "XMM"] [].

Definition fourth_gp : InstrDesc.t :=
  InstrDesc.mk "X" "RVMR"
               [mkOpKind SZ_VEC "XMM"; mkOpKind SZ_VEC "XMM";
                mkOpKind SZ_VEC "XMM"; mkOpKind SZ_OP "GP"] [].

Lemma encode_outcomes_witness :
  InstrDesc.encode (InstrDesc.mk "X" "ZZ" [] []) = Raise KeyError
  /\ InstrDesc.encode two_odd_sizes
     = Raise (BuildError "invalid fixed operand sizes")
  /\ InstrDesc.encode fourth_gp
     = Raise (BuildError "invalid regty for op 3, must be VEC")
  /\ InstrDesc.encode rol_no_imm = Raise StopIteration
  /\ exists p, InstrDesc.encode rol_imm = Ok p.
Proof.
  split; [exact (proj1 (encode_outcomes (InstrDesc.mk "X" "ZZ" [] [])) eq_refl)|].
  split; [exact (proj2 (encode_outcomes two_odd_sizes) _ [5; 6]
                       eq_refl eq_refl)|].
  split; [exact (proj2 (encode_outcomes fourth_gp) _ [-3; -3; -3; -2]
                       eq_refl eq_refl)|].
  split; [exact (proj2 (encode_outcomes rol_no_imm) _ [1] eq_refl eq_refl)|].
  exact (proj2 (encode_outcomes rol_imm) _ [1; 1] eq_refl eq_refl).
Defined.

(** ** Parsing a descriptor *)

Lemma parse_operands_ok (l : list string) : forall ks,
  InstrDesc.parse_operands l = Ok ks ->
  (List.length ks <= List.length l)%nat
  /\ Forall (fun k => In k (List.map snd OPKINDS)) ks.
Proof.
  induction l as [|op l IH]; intros ks H; simpl in H.
  - injection H as <-. split; [simpl; lia | constructor].
  - destruct (String.eqb op "-").
    + destruct (IH ks H) as [H1 H2]. split; [simpl; lia | exact H2].
    + inv_bind H. inv_bind H. injection H as <-.
      destruct (IH a0 Ha0) as [H1 H2]. split; [simpl; lia|].
      constructor; [|exact H2].
      unfold Py.getitem in Ha.
      destruct (Py.get OPKINDS op) as [k|] eqn:E; [|discriminate].
      injection Ha as <-. apply get_in in E.
      apply in_map_iff. exists (op, k). now split.
Qed.

Lemma parse_operands_raise (l : list string) : forall e,
  InstrDesc.parse_operands l = Raise e ->
  e = KeyError
  /\ exists op, In op l /\ op <> "-" /\ Py.get OPKINDS op = None.
Proof.
  induction l as [|op l IH]; intros e H; simpl in H; [discriminate|].
  destruct (String.eqb op "-") eqn:Eop.
  - destruct (IH e H) as (H1 & op' & H2 & H3). split; [exact H1|].
    exists op'. split; [now right | exact H3].
  - apply String.eqb_neq in Eop. unfold Py.getitem in H.
    destruct (Py.get OPKINDS op) as [k|] eqn:E.
    + cbn [from_option bind] in H.
      destruct (InstrDesc.parse_operands l) as [ks|e'] eqn:El;
        [discriminate|].
      cbn [bind] in H. injection H as <-.
      destruct (IH e' eq_refl) as (H1 & op' & H2 & H3). split; [exact H1|].
      exists op'. split; [now right | exact H3].
    + cbn [from_option bind] in H. injection H as <-.
      split; [reflexivity|]. exists op. split; [now left | now split].
Qed.

Definition known_size (k : OpKind) : bool :=
  is_ok (InstrDesc.zget InstrDesc.OPKIND_SIZES (size k)).

Lemma opkinds_sizes : forallb known_size (List.map snd OPKINDS) = true.
Proof. vm_compute. reflexivity. Qed.

Lemma size_codes_known (ks : list OpKind) :
  Forall (fun k => In k (List.map snd OPKINDS)) ks ->
  exists codes, InstrDesc.size_codes ks = Ok codes.
Proof.
  induction 1 as [|k ks Hk _ [codes IH]]; [simpl; eauto|].
  pose proof opkinds_sizes as Ha. rewrite forallb_forall in Ha.
  specialize (Ha k Hk). unfold known_size in Ha.
  cbn [InstrDesc.size_codes].
  destruct (InstrDesc.zget InstrDesc.OPKIND_SIZES (size k)) as [c|];
    [|discriminate Ha].
  rewrite IH. cbn [bind]. eauto.
Qed.

Lemma index_nat {A} (l : list A) (i : nat) (d : A) :
  Py.index l (Z.of_nat i)
  = if (i <? List.length l)%nat then Ok (nth i l d) else Raise IndexError.
Proof.
  unfold Py.index, Py.len.
  destruct (0 <=? Z.of_nat i) eqn:E0; [|apply Z.leb_gt in E0; lia].
  destruct (i <? List.length l)%nat eqn:E.
  - apply Nat.ltb_lt in E.
    destruct (Z.of_nat i <? Z.of_nat (List.length l)) eqn:E1;
      [|apply Z.ltb_ge in E1; lia].
    cbn [andb]. rewrite Nat2Z.id.
    rewrite (nth_error_nth' l d E). reflexivity.
  - apply Nat.ltb_ge in E.
    destruct (Z.of_nat i <? Z.of_nat (List.length l)) eqn:E1;
      [apply Z.ltb_lt in E1; lia|].
    cbn [andb].
    destruct (Z.of_nat i <? 0) eqn:E2; [apply Z.ltb_lt in E2; lia|].
    now rewrite andb_false_r.
Qed.

(** X5.  [InstrDesc.parse] splits the line at white space.  It returns when
    there are at least six fields and each of the fields 1 to 4 is ['-'] or
    the name of an operand kind: the encoding is field 0, the mnemonic
    field 5, the flags are the fields from 6 on, there are at most four
    operands and each has a size that [encode] knows.  An unknown operand
    name is a KeyError; otherwise fewer than six fields are an
    IndexError. *)
Theorem parse_outcomes (s : string) :
  let fs := split s in
  match InstrDesc.parse s with
  | Ok d =>
      (6 <= List.length fs)%nat
      /\ InstrDesc.encoding d = nth 0 fs ""
      /\ InstrDesc.mnemonic d = nth 5 fs ""
      /\ InstrDesc.flags d = skipn 6 fs
      /\ (List.length (InstrDesc.operands d) <= 4)%nat
      /\ exists codes, InstrDesc.size_codes (InstrDesc.operands d) = Ok codes
  | Raise e =>
      (e = KeyError
       /\ exists op, In op (firstn 4 (skipn 1 fs)) /\ op <> "-"
                     /\ Py.get OPKINDS op = None)
      \/ (e = IndexError /\ (List.length fs < 6)%nat)
  end.
Proof.
  cbv zeta. unfold InstrDesc.parse.
  destruct (InstrDesc.parse_operands (firstn 4 (skipn 1 (split s))))
    as [ks|e] eqn:Eo; cbn [bind].
  - change 5 with (Z.of_nat 5). change 0 with (Z.of_nat 0).
    rewrite (index_nat (split s) 5 ""), (index_nat (split s) 0 "").
    destruct (5 <? List.length (split s))%nat eqn:E5; cbn [bind].
    + apply Nat.ltb_lt in E5.
      destruct (0 <? List.length (split s))%nat eqn:E0;
        [|apply Nat.ltb_ge in E0; lia].
      cbn [bind InstrDesc.encoding InstrDesc.mnemonic InstrDesc.flags
           InstrDesc.operands].
      destruct (parse_operands_ok _ _ Eo) as [Hl Hk].
      split; [lia|]. split; [reflexivity|]. split; [reflexivity|].
      split; [reflexivity|]. split.
      * rewrite length_firstn in Hl. lia.
      * now apply size_codes_known.
    + right. apply Nat.ltb_ge in E5. split; [reflexivity | lia].
  - left. exact (parse_operands_raise _ _ Eo).
Qed.

(** ** Looking up what was inserted *)

(** The entry that a path leads to: from the node [tn], the slot of each
    level is followed while the node found has the kind of the next level. *)
Fixpoint reach (d : nodes) (tn : string) (rest : path) : option TrieEntry.t :=
  match rest with
  | [] => None
  | (_, byte) :: rest' =>
      match child d tn byte with
      | Some c =>
          match rest' with
          | [] => Py.get d c
          | (kind, _) :: _ =>
              match Py.get d c with
              | Some e => if EntryKind_eqb (TrieEntry.kind e) kind
                          then reach d c rest' else None
              | None => None
              end
          end
      | None => None
      end
  end.

Lemma reach_cons d tn x0 x1 rest :
  reach d tn (x0 :: x1 :: rest)
  = match child d tn (snd x0) with
    | Some c =>
        match Py.get d c with
        | Some e => if EntryKind_eqb (TrieEntry.kind e) (fst x1)
                    then reach d c (x1 :: rest) else None
        | None => None
        end
    | None => None
    end.
Proof. destruct x0, x1. reflexivity. Qed.

Section Reach.

Variable n : nat.
Variable root_idx : Z.
Variable opcode : path.
Variable name : string.
Variable v : TrieEntry.t.
Hypothesis Hlevels : Forall level_ok opcode.
Hypothesis Hinner : Forall (fun x => fst x <> TABLE_ROOT) (tl opcode).
Hypothesis Hname : name = pname root_idx opcode.
Hypothesis Hleaf : leaf v.

Lemma finish_reach (rest : path) : forall i tn self e t2,
  skipn i opcode = rest -> rest <> [] ->
  inv n (Table.data self) ->
  tn = pname root_idx (firstn i opcode) ->
  Py.get (Table.data self) tn = Some e ->
  TrieEntry.kind e = fst (hd (NONE, 0) rest) ->
  finish root_idx opcode i rest tn self name v = Ok t2 ->
  reach (Table.data t2) tn rest = Some v.
Proof.
  induction rest as [|x0 rest IH]; intros i tn self e t2 Hs Hne Hinv Htn Hg Hk
                                          Hfin; [congruence|].
  cbn [hd] in Hk. destruct rest as [|x1 rest].
  - destruct (finish_last n root_idx opcode name v Hlevels Hinner Hname Hleaf
                          i x0 tn self e t2 Hs Hinv Htn Hg Hk Hfin)
      as (Hn & Hnt & Hb & Hinv2 & Hdata).
    rewrite Hdata. destruct x0 as [k0 b0]. cbn [reach snd] in *.
    rewrite child_link by exact Hb. rewrite get_link.
    rewrite (proj2 (String.eqb_neq tn name)) by congruence.
    now rewrite String.eqb_refl.
  - pose proof Hinv as (Hwf & Hnm & Hr).
    pose proof (slot_in_range opcode Hlevels i x0 _ _ tn e Hs Hwf Hg Hk) as Hb.
    destruct (index_ok _ _ Hb) as (item & Hi & _).
    assert (Hs1 : skipn (S i) opcode = x1 :: rest)
      by (apply (firstn_S_skipn opcode i x0 _ Hs)).
    pose proof Hfin as Hfin0.
    unfold finish in Hfin. rewrite walk_descend in Hfin.
    unfold Py.getitem at 1 in Hfin. rewrite Hg in Hfin.
    cbn [from_option bind] in Hfin. rewrite Hi in Hfin. cbn [bind] in Hfin.
    destruct (descend root_idx opcode i tn (snd x0) (fst x1) self item)
      as [[c self1]|] eqn:Hd; [|discriminate]. cbn [bind] in Hfin.
    unfold Py.getitem at 1 in Hfin.
    destruct (Py.get (Table.data self1) c) as [e1|] eqn:Hg1; [|discriminate].
    cbn [from_option bind] in Hfin.
    destruct (EntryKind_eqb (TrieEntry.kind e1) (fst x1)) eqn:Ek;
      [|discriminate]. cbn [negb] in Hfin.
    apply EntryKind_eqb_eq in Ek.
    destruct (descend_spec n root_idx opcode Hlevels Hinner i x0 x1 rest tn
                           self e item c self1 Hs Hinv Htn Hg Hk Hi Hd)
      as (Hc & Hinv1 & (et & Hget & Hket & Hiet) & Hframe1).
    pose proof (IH (S i) c self1 e1 t2 Hs1 ltac:(discriminate) Hinv1 Hc Hg1
                   Ek Hfin) as Hreach.
    destruct (finish_spec n root_idx opcode name v Hlevels Hinner Hname Hleaf
                          (x1 :: rest) (S i) c self1 e1 t2 Hs1
                          ltac:(discriminate) Hinv1 Hc Hg1 Ek Hfin)
      as (_ & (e1' & Hg1' & Hk1') & _ & _ & Hframe2).
    assert (Hget2 : Py.get (Table.data t2) tn = Some et).
    { rewrite Hframe2; [exact Hget|]. intros j Hj. rewrite Htn.
      apply (prefix_neq root_idx opcode Hlevels Hinner i j x0 _ Hs). lia. }
    rewrite reach_cons. unfold child. rewrite Hget2, Hiet, Hg1', Hk1', Ek.
    now rewrite (proj2 (EntryKind_eqb_eq _ _) eq_refl).
Qed.

End Reach.

(** X6.  In a table that [Table.init] and successful insertions have built,
    a successful [add_opcode] of a well-formed path is found again: walking
    the path from its root in the new table, through nodes of the kinds
    that the path names, ends on the instruction node with the inserted
    record. *)
Theorem add_opcode_reach
        (n : nat) (t : Table.t) (opcode : path) (w : list word)
        (root_idx : Z) (t' : Table.t) :
  built n t -> wf_path opcode -> 0 <= root_idx < Z.of_nat n ->
  Table.add_opcode t opcode w root_idx = Ok t' ->
  reach (Table.data t') (Table.root_name root_idx) opcode
  = Some (TrieEntry.instr w).
Proof.
  intros Hb Hwf Hr Hadd. pose proof (built_inv n t Hb) as Hinv.
  destruct (wf_path_parts opcode Hwf) as (Hne & Hlevels & Hinner & Hroot).
  destruct (proj2 (proj2 Hinv) root_idx Hr) as (e & Hg & Hk).
  rewrite add_opcode_finish in Hadd.
  destruct (fmt_parts opcode Hlevels) as (cp & cs & _ & _ & _ & E1 & E2).
  rewrite E1, <- E2 in Hadd. cbn [bind] in Hadd.
  assert (Hname : Table.node_name root_idx (fmt opcode) = pname root_idx opcode)
    by (destruct opcode; [congruence | reflexivity]).
  exact (finish_reach n root_idx opcode _ _ Hlevels Hinner Hname
                      (leaf_instr w) opcode 0 (Table.root_name root_idx)
                      t e t' eq_refl Hne Hinv eq_refl Hg
                      ltac:(now rewrite Hk, Hroot) Hadd).
Qed.

Lemma add_opcode_reach_witness :
  reach (Table.data after_nop) (Table.root_name 0) nop_path
  = Some (TrieEntry.instr nop_record).
Proof.
  exact (add_opcode_reach 1 one_root nop_path nop_record 0 after_nop
                          built_one_root wf_nop_path
                          ltac:(simpl; lia) eq_refl).
Defined.

(** ** Roots and deduplication *)

Lemma pass_keys_incl (d : nodes) (x : string) :
  In x (Py.keys (Dedup.pass d)) -> In x (Py.keys d).
Proof.
  unfold Dedup.pass, Dedup.apply, Dedup.delete. intros H.
  apply delete_keys_incl in H. now rewrite Dedup.rewrite_keys in H.
Qed.

Lemma pass_NoDup (d : nodes) :
  NoDup (Py.keys d) -> NoDup (Py.keys (Dedup.pass d)).
Proof.
  unfold Dedup.pass, Dedup.apply, Dedup.delete. intros H.
  rewrite <- (Dedup.rewrite_keys (Dedup.scan d [] []) d) in H.
  revert H. generalize (Dedup.rewrite (Dedup.scan d [] []) d).
  induction (Py.keys (Dedup.scan d [] [])) as [|k ks IH]; intros l H;
    [exact H|].
  simpl. apply IH. now apply del_NoDup.
Qed.

(** The loop keeps no node that its first pass deletes. *)
Lemma loop_keys_pass (d : nodes) (x : string) :
  In x (Py.keys (Dedup.loop d)) -> In x (Py.keys (Dedup.pass d)).
Proof.
  funelim (Dedup.loop d).
  - unfold Dedup.pass. now rewrite e.
  - intros Hx. apply H in Hx. apply pass_keys_incl in Hx.
    unfold Dedup.pass. now rewrite Heq.
Qed.

Lemma loop_NoDup (d : nodes) :
  NoDup (Py.keys d) -> NoDup (Py.keys (Dedup.loop d)).
Proof.
  funelim (Dedup.loop d).
  - now rewrite apply_nil.
  - intros Hnd. apply H.
    pose proof (pass_NoDup d Hnd) as Hp. unfold Dedup.pass in Hp.
    now rewrite Heq in Hp.
Qed.

Lemma getitem_raise {V} (d : list (string * V)) (k : string) (e : exn) :
  Py.getitem d k = Raise e -> e = KeyError.
Proof.
  unfold Py.getitem. destruct (Py.get d k); simpl; [discriminate|].
  intros H. now injection H.
Qed.

Lemma encode_item_raise (self : Table.t) (name : string) (e : exn) :
  Layout.encode_item self name = Raise e -> e = KeyError.
Proof.
  unfold Layout.encode_item. intros H.
  destruct (Py.getitem (Table.offsets self) name) eqn:E1;
    [|apply getitem_raise in E1; simpl in H; congruence].
  simpl in H.
  destruct (Py.getitem (Table.data self) name) eqn:E2;
    [discriminate | apply getitem_raise in E2; simpl in H; congruence].
Qed.

Lemma encode_items_raise (f : string -> result Z) (l : list (option string))
      (e : exn) :
  (forall name e', f name = Raise e' -> e' = KeyError) ->
  TrieEntry.encode_items f l = Raise e -> e = KeyError.
Proof.
  intros Hf. induction l as [|item l IH]; simpl; [discriminate|].
  intros H.
  destruct (match item with
            | Some name => if String.eqb name "" then Ok 0 else f name
            | None => Ok 0
            end) as [w|e'] eqn:E.
  - simpl in H. destruct (TrieEntry.encode_items f l); [discriminate|].
    simpl in H. injection H as <-. now apply IH.
  - simpl in H. injection H as <-.
    destruct item as [name|]; [|discriminate].
    destruct (String.eqb name ""); [discriminate|]. now apply (Hf name).
Qed.

Lemma emit_raise (self : Table.t) (l : list (Z * TrieEntry.t)) :
  forall data e, Layout.emit self l data = Raise e -> e = KeyError.
Proof.
  induction l as [|[off entry] l IH]; intros data e H; simpl in H;
    [discriminate|].
  destruct (TrieEntry.encode entry (Layout.encode_item self)) as [enc|e'] eqn:E.
  - simpl in H. now apply IH in H.
  - simpl in H. injection H as <-. unfold TrieEntry.encode in E.
    destruct (TrieEntry.encode_items _ _) eqn:Ei; [discriminate|].
    simpl in E. injection E as <-.
    eapply encode_items_raise; [|exact Ei].
    intros name e'. apply encode_item_raise.
Qed.

Lemma placed_raise (self : Table.t) (offs : list (string * Z)) (e : exn) :
  Layout.placed self offs = Raise e -> e = KeyError.
Proof.
  induction offs as [|[k off] offs IH]; simpl; [discriminate|].
  intros H.
  destruct (Py.getitem (Table.data self) k) eqn:E1;
    [|apply getitem_raise in E1; simpl in H; congruence].
  simpl in H. destruct (Layout.placed self offs); [discriminate|].
  simpl in H. injection H as <-. now apply IH.
Qed.

Lemma root_offsets_raise (self : Table.t) (roots : list string) (e : exn) :
  Layout.root_offsets self roots = Raise e -> e = KeyError.
Proof.
  induction roots as [|k roots IH]; simpl; [discriminate|].
  intros H.
  destruct (Py.getitem (Table.offsets self) k) eqn:E1;
    [|apply getitem_raise in E1; simpl in H; congruence].
  simpl in H. destruct (Layout.root_offsets self roots); [discriminate|].
  simpl in H. injection H as <-. now apply IH.
Qed.

Lemma tuple_lt_raise {A} (eqb : A -> A -> bool) (lt : A -> A -> result bool)
      (v : list A) : forall w e,
  (forall x y e', lt x y = Raise e' -> e' = TypeError) ->
  Layout.tuple_lt eqb lt v w = Raise e -> e = TypeError.
Proof.
  induction v as [|x v IH]; intros [|y w] e Hlt H; simpl in H;
    try discriminate.
  destruct (eqb x y); [now apply (IH w) | now apply (Hlt x y)].
Qed.

Lemma pair_lt_raise (x y : Z * TrieEntry.t) (e : exn) :
  Layout.pair_lt x y = Raise e -> e = TypeError.
Proof.
  unfold Layout.pair_lt, Layout.entry_lt.
  destruct (fst x =? fst y); [|discriminate].
  destruct (negb (EntryKind_eqb _ _)); [intros H; now injection H|].
  destruct (negb (list_eqb _ _ _)); apply tuple_lt_raise.
  - intros [a|] [b|] e' H; simpl in H; try discriminate; now injection H.
  - intros [a|a] [b|b] e' H; simpl in H; try discriminate; now injection H.
Qed.

Lemma insert_raise (x : Z * TrieEntry.t) (acc : list (Z * TrieEntry.t))
      (e : exn) :
  Layout.insert x acc = Raise e -> e = TypeError.
Proof.
  induction acc as [|y acc IH]; simpl; [discriminate|].
  destruct (Layout.pair_lt x y) as [b|e'] eqn:E.
  - cbn [bind]. destruct b; [|discriminate].
    destruct (Layout.insert x acc); [discriminate|].
    cbn [bind]. intros H. injection H as <-. now apply IH.
  - cbn [bind]. intros H. injection H as <-. now apply pair_lt_raise in E.
Qed.

(** Sorting fails on a type error only. *)
Lemma sorted_raise (l : list (Z * TrieEntry.t)) (e : exn) :
  Layout.sorted l = Raise e -> e = TypeError.
Proof.
  unfold Layout.sorted. generalize (@nil (Z * TrieEntry.t)).
  induction l as [|x l IH]; intros acc H; simpl in H; [discriminate|].
  destruct (Layout.insert x acc) as [acc'|e'] eqn:E.
  - now apply (IH acc').
  - cbn [bind] in H. injection H as <-. now apply insert_raise in E.
Qed.

(** [compile] fails with the capacity error, with a KeyError or with the
    TypeError of the sort, and with nothing else. *)
Lemma compile_raise (t : Table.t) (e : exn) :
  Layout.compile t = Raise e ->
  e = KeyError \/ e = BuildError "maximum table size exceeded: {:x}"
  \/ e = TypeError.
Proof.
  unfold Layout.compile. intros H.
  destruct (Layout.calc_offsets t) as [t'|e'] eqn:Ec.
  2:{ simpl in H. injection H as <-. right. left.
      unfold Layout.calc_offsets in Ec.
      destruct (Layout.assign (Table.data t) 0 t) as [s cur].
      destruct (32768 <=? cur); [now injection Ec | discriminate]. }
  cbn [bind] in H.
  destruct (Layout.placed t' (Table.offsets t')) as [ordered|e'] eqn:Ep;
    [|cbn [bind] in H; injection H as <-; left; eapply placed_raise; eauto].
  cbn [bind] in H.
  destruct (Layout.sorted ordered) as [ordered'|e'] eqn:Es;
    [|cbn [bind] in H; injection H as <-; right; right;
      eapply sorted_raise; eauto].
  cbn [bind] in H. left.
  destruct (Layout.emit t' ordered' []) as [data|e'] eqn:Ee;
    [|cbn [bind] in H; injection H as <-; eapply emit_raise; eauto].
  cbn [bind] in H.
  destruct (Layout.root_offsets t' (Table.roots t')) as [offs|e'] eqn:Er;
    [discriminate|].
  cbn [bind] in H. injection H as <-. eapply root_offsets_raise; eauto.
Qed.

(** On a table in which every node has words, the sort of [compile]
    returns. *)
Lemma compile_no_type_error (t : Table.t) :
  Table.offsets t = [] -> NoDup (Py.keys (Table.data t)) ->
  (forall n e, In (n, e) (Table.data t) -> 0 < TrieEntry.encode_length e) ->
  Layout.compile t <> Raise TypeError.
Proof.
  intros Hoff Hnd Hne H. unfold Layout.compile in H.
  destruct (Layout.calc_offsets t) as [t'|e'] eqn:Ec.
  2:{ unfold Layout.calc_offsets in Ec.
      destruct (Layout.assign (Table.data t) 0 t) as [s cur].
      destruct (32768 <=? cur); [|discriminate].
      injection Ec as <-. discriminate H. }
  cbn [bind] in H.
  assert (Ht' : t' = fst (Layout.assign (Table.data t) 0 t)).
  { unfold Layout.calc_offsets in Ec.
    destruct (Layout.assign (Table.data t) 0 t) as [s cur].
    destruct (32768 <=? cur); [discriminate|]. now injection Ec as <-. }
  destruct (assign_spec (Table.data t) 0 t Hnd) as (Ho & Hd & Hr).
  { rewrite Hoff. auto. }
  rewrite <- Ht', Hoff in Ho. rewrite <- Ht' in Hd, Hr. simpl in Ho.
  rewrite Ho in H.
  rewrite (placed_layout t' (Table.data t) 0) in H.
  2:{ intros n e Hin. rewrite Hd. now apply get_in_nodup. }
  cbn [bind] in H. unfold Layout.sorted in H.
  rewrite (sorted_placed_ok (Table.data t) 0 [] I Hne) in H.
  cbn [bind rev app] in H.
  destruct (Layout.emit t' _ []) as [data|e'] eqn:Ee.
  - cbn [bind] in H.
    destruct (Layout.root_offsets t' (Table.roots t')) as [offs|e''] eqn:Er;
      [discriminate|].
    cbn [bind] in H. apply root_offsets_raise in Er. congruence.
  - cbn [bind] in H. apply emit_raise in Ee. congruence.
Qed.

Lemma del_in {V} (d : list (string * V)) (k : string) (x : string * V) :
  In x (Py.del d k) -> In x d.
Proof.
  induction d as [|[k' v] d IH]; simpl; [tauto|].
  destruct (String.eqb k' k); simpl; tauto.
Qed.

(** Every node after a pass is a node from before with its child
    references renamed, and so with as many words. *)
Lemma pass_lengths (d : nodes) (n : string) (e : TrieEntry.t) :
  In (n, e) (Dedup.pass d) ->
  exists e0, In (n, e0) d
             /\ TrieEntry.encode_length e = TrieEntry.encode_length e0.
Proof.
  unfold Dedup.pass, Dedup.apply, Dedup.delete.
  generalize (Py.keys (Dedup.scan d [] [])). intros ks H.
  assert (Hin : In (n, e) (Dedup.rewrite (Dedup.scan d [] []) d)).
  { revert H. generalize (Dedup.rewrite (Dedup.scan d [] []) d).
    induction ks as [|k ks IH]; intros l H; [exact H|].
    simpl in H. apply IH in H. now apply del_in in H. }
  unfold Dedup.rewrite in Hin. apply in_map_iff in Hin.
  destruct Hin as ([n0 e0] & E & Hin). injection E as <- <-.
  exists e0. split; [exact Hin|].
  unfold TrieEntry.encode_length, TrieEntry.map, Py.len. simpl.
  now rewrite map_from_length.
Qed.

Lemma loop_lengths (d : nodes) :
  (forall n e, In (n, e) d -> 0 < TrieEntry.encode_length e) ->
  forall n e, In (n, e) (Dedup.loop d) -> 0 < TrieEntry.encode_length e.
Proof.
  funelim (Dedup.loop d); intros Hd n1 e1 Hin.
  - rewrite apply_nil in Hin. now apply (Hd n1).
  - refine (H _ n1 e1 Hin).
    intros n0 e0 Hin0.
    assert (Hp : Dedup.apply (s :: syn) d = Dedup.pass d)
      by (unfold Dedup.pass; now rewrite Heq).
    rewrite Hp in Hin0. apply pass_lengths in Hin0.
    destruct Hin0 as (e2 & H1 & ->). now apply (Hd n0).
Qed.

(** When [compile] returns, every root is a node of the table. *)
Lemma compile_roots (t : Table.t) r :
  Table.offsets t = [] -> NoDup (Py.keys (Table.data t)) ->
  Layout.compile t = Ok r ->
  forall k, In k (Table.roots t) -> In k (Py.keys (Table.data t)).
Proof.
  intros Hoff Hnd H k Hk. unfold Layout.compile in H.
  inv_bind H. rename a into t'. inv_bind H. inv_bind H. inv_bind H.
  inv_bind H. rename Ha3 into Hro.
  assert (Ht' : t' = fst (Layout.assign (Table.data t) 0 t)).
  { unfold Layout.calc_offsets in Ha.
    destruct (Layout.assign (Table.data t) 0 t) as [s cur].
    destruct (32768 <=? cur); [discriminate|]. now injection Ha as <-. }
  destruct (assign_spec (Table.data t) 0 t Hnd) as (H1 & _ & H3).
  { rewrite Hoff. intros ? _ []. }
  rewrite <- Ht', Hoff in H1. rewrite <- Ht' in H3. cbn [app] in H1.
  destruct (In_nth_error _ _ Hk) as [i Hi]. rewrite <- H3 in Hi.
  destruct (root_offsets_nth _ _ _ Hro) as [_ Hn].
  destruct (Hn i k Hi) as (off & _ & Hg).
  rewrite H1 in Hg. apply get_in in Hg. apply (in_map fst) in Hg.
  fold (Py.keys (layout (Table.data t) 0)) in Hg.
  now rewrite layout_keys in Hg.
Qed.

(** X7.  A root is a node like any other to [deduplicate]: when a root
    holds the same entry as an earlier node (two roots with the same
    content, for instance two roots that received nothing), the root is
    deleted, and [compile] on the deduplicated table does not return.  It
    raises the capacity error if the table is too large, the TypeError of
    the sort if entries of different kinds meet at one offset, and a
    KeyError otherwise; the TypeError needs a node that has no words. *)
Theorem equal_root_breaks_compile
        (t : Table.t) (i j : nat) (k1 k2 : string) (e : TrieEntry.t) :
  NoDup (Py.keys (Table.data t)) -> Table.offsets t = [] ->
  (i < j)%nat ->
  nth_error (Table.data t) i = Some (k1, e) ->
  nth_error (Table.data t) j = Some (k2, e) ->
  In k2 (Table.roots t) ->
  ~ In k2 (Py.keys (Table.data (deduplicate t)))
  /\ exists e', Layout.compile (deduplicate t) = Raise e'
                /\ (e' = KeyError
                    \/ e' = BuildError "maximum table size exceeded: {:x}"
                    \/ e' = TypeError)
                /\ ((forall n e0, In (n, e0) (Table.data t) ->
                                  0 < TrieEntry.encode_length e0) ->
                    e' <> TypeError).
Proof.
  intros Hnd Hoff Hlt Hi Hj Hroot.
  assert (Hgone : ~ In k2 (Py.keys (Table.data (deduplicate t)))).
  { unfold deduplicate. cbn [Table.with_data Table.data]. intros H.
    apply loop_keys_pass in H. revert H.
    unfold Dedup.pass, Dedup.apply, Dedup.delete.
    apply delete_removes.
    - now rewrite Dedup.rewrite_keys.
    - eapply scan_dup; eauto. }
  assert (Hnd' : NoDup (Py.keys (Table.data (deduplicate t)))).
  { unfold deduplicate. cbn [Table.with_data Table.data].
    now apply loop_NoDup. }
  split; [exact Hgone|].
  destruct (Layout.compile (deduplicate t)) as [r|e'] eqn:Ec.
  - exfalso. apply Hgone.
    now apply (compile_roots (deduplicate t) r).
  - exists e'. split; [reflexivity|]. split; [exact (compile_raise _ _ Ec)|].
    intros Hne ->. revert Ec.
    apply compile_no_type_error; try assumption.
    unfold deduplicate. cbn [Table.with_data Table.data].
    now apply loop_lengths.
Qed.

Definition two_roots : Table.t :=
  match Table.init 2 with Ok t => t | Raise _ => one_root end.

Lemma equal_root_breaks_compile_witness :
  Main.main [32; 64] [] = Raise KeyError
  /\ ~ In "root1" (Py.keys (Table.data (deduplicate two_roots)))
  /\ exists e', Layout.compile (deduplicate two_roots) = Raise e'
                /\ (e' = KeyError
                    \/ e' = BuildError "maximum table size exceeded: {:x}"
                    \/ e' = TypeError)
                /\ ((forall n e0, In (n, e0) (Table.data two_roots) ->
                                  0 < TrieEntry.encode_length e0) ->
                    e' <> TypeError).
Proof.
  split; [vm_compute; reflexivity|].
  refine (equal_root_breaks_compile two_roots 0 1 "root0" "root1" _
            _ eq_refl ltac:(lia) eq_refl eq_refl _).
  - vm_compute. repeat constructor; simpl; intuition discriminate.
  - vm_compute. tauto.
Defined.

(** Three roots, an instruction without words and a table after it: the
    two share the offset 272, and the sort compares their kinds. *)
Definition tied_table : Table.t :=
  match (t0 <- Table.init 3 ;;
         t1 <- Table.add_opcode t0 nop_path [] 0 ;;
         Table.add_opcode t1 [(TABLE_ROOT, 1); (TABLE256, 16)] nop_record 0)
  with
  | Ok t => t
  | Raise _ => one_root
  end.

Lemma tied_offsets_type_error :
  Py.keys (Table.data (deduplicate tied_table))
  = ["root0"; "root1"; "t0,"; "t0,90"; "t0,0f"; "t0,0f10"]
  /\ Layout.compile (deduplicate tied_table) = Raise TypeError.
Proof. split; vm_compute; reflexivity. Qed.

(** ** Offsets and child pointers *)

Lemma round4_eq (x : Z) : Layout.round4 x = 4 * ((x + 3) / 4).
Proof.
  unfold Layout.round4. rewrite <- Z.ldiff_land.
  change 3 with (Z.ones 2) at 2. rewrite Z.ldiff_ones_r by lia.
  rewrite Z.shiftl_mul_pow2, Z.shiftr_div_pow2 by lia.
  change (2 ^ 2) with 4. lia.
Qed.

Lemma total_words_mod4 (d : nodes) : total_words d mod 4 = 0.
Proof.
  induction d as [|[n e] d IH]; [reflexivity|].
  cbn [total_words]. rewrite round4_eq.
  rewrite Z.add_comm, Z.mul_comm, Z.mod_add by lia. exact IH.
Qed.

Lemma total_words_app (a b : nodes) :
  total_words (a ++ b)%list = total_words a + total_words b.
Proof.
  induction a as [|[n e] a IH]; [reflexivity|].
  cbn [app total_words]. rewrite IH. lia.
Qed.

(** The offset of a node is the padded size of the nodes before it. *)
Lemma get_layout (d : nodes) : forall c j name e,
  NoDup (Py.keys d) ->
  nth_error d j = Some (name, e) ->
  Py.get (layout d c) name = Some (c + total_words (firstn j d)).
Proof.
  induction d as [|[n0 e0] d IH]; intros c j name e Hnd Hj;
    [destruct j; discriminate|].
  inversion Hnd as [|? ? Hn Hd]; subst.
  destruct j as [|j]; simpl in Hj.
  - injection Hj as -> ->. simpl. rewrite String.eqb_refl. f_equal. lia.
  - cbn [layout Py.get firstn total_words].
    destruct (String.eqb n0 name) eqn:E.
    + apply String.eqb_eq in E. subst n0. exfalso. apply Hn.
      apply nth_error_In in Hj. apply (in_map fst) in Hj. exact Hj.
    + rewrite (IH _ j name e Hd Hj). f_equal. lia.
Qed.

Lemma calc_offsets_layout (t t' : Table.t) :
  NoDup (Py.keys (Table.data t)) -> Table.offsets t = [] ->
  Layout.calc_offsets t = Ok t' ->
  Table.offsets t' = layout (Table.data t) 0
  /\ Table.data t' = Table.data t
  /\ Table.roots t' = Table.roots t
  /\ total_words (Table.data t) < 32768.
Proof.
  intros Hnd Hoff H. unfold Layout.calc_offsets in H.
  pose proof (assign_current (Table.data t) 0 t) as Hc.
  destruct (assign_spec (Table.data t) 0 t Hnd) as (H1 & H2 & H3).
  { rewrite Hoff. intros ? _ []. }
  destruct (Layout.assign (Table.data t) 0 t) as [s cur].
  cbn [fst snd] in *.
  destruct (32768 <=? cur) eqn:E; [discriminate|]. injection H as <-.
  apply Z.leb_gt in E. rewrite Hoff in H1. cbn [app] in H1.
  repeat split; try assumption. lia.
Qed.

(** X8.  After [calc_offsets] the offset of every node is the padded size,
    in words, of the nodes before it: a multiple of 4, and the node ends
    below 0x8000.  The child pointer that [encode_item] gives for a node
    that is not a root fits a 16-bit word; its low three bits are the kind
    of the node and the rest is twice the offset, the byte offset of the
    node. *)
Theorem child_pointer_format
        (t t' : Table.t) (j : nat) (name : string) (e : TrieEntry.t) :
  NoDup (Py.keys (Table.data t)) -> Table.offsets t = [] ->
  Layout.calc_offsets t = Ok t' ->
  nth_error (Table.data t) j = Some (name, e) ->
  let off := total_words (firstn j (Table.data t)) in
  Py.get (Table.offsets t') name = Some off
  /\ off mod 4 = 0
  /\ 0 <= off
  /\ off + Layout.round4 (TrieEntry.encode_length e) < 32768
  /\ (TrieEntry.kind e <> TABLE_ROOT ->
      exists v, Layout.encode_item t' name = Ok v
                /\ 0 <= v < 65536
                /\ Z.land v 7 = EntryKind_value (TrieEntry.kind e)
                /\ v - Z.land v 7 = 2 * off).
Proof.
  intros Hnd Hoff Hc Hj. cbv zeta.
  destruct (calc_offsets_layout t t' Hnd Hoff Hc) as (Ho & Hd & _ & Hlt).
  pose proof (get_layout (Table.data t) 0 j name e Hnd Hj) as Hg.
  rewrite Z.add_0_l in Hg.
  pose proof (total_words_mod4 (firstn j (Table.data t))) as Hm.
  pose proof (total_words_nonneg (firstn j (Table.data t))) as H0.
  assert (Hsum : total_words (firstn j (Table.data t))
                 + Layout.round4 (TrieEntry.encode_length e)
                 <= total_words (Table.data t)).
  { assert (Hsplit : total_words (Table.data t)
                     = total_words (firstn j (Table.data t))
                       + total_words (skipn j (Table.data t)))
      by (now rewrite <- total_words_app, firstn_skipn).
    rewrite Hsplit.
    destruct (skipn j (Table.data t)) as [|[n1 e1] rest] eqn:Es.
    - exfalso. apply (f_equal (@List.length _)) in Es.
      rewrite length_skipn in Es. simpl in Es.
      assert (j < List.length (Table.data t))%nat
        by (apply nth_error_Some; congruence). lia.
    - assert (E1 : nth_error (Table.data t) j = Some (n1, e1)).
      { rewrite <- (firstn_skipn j (Table.data t)), Es.
        rewrite nth_error_app2 by (rewrite length_firstn; lia).
        rewrite length_firstn.
        assert (j < List.length (Table.data t))%nat
          by (apply nth_error_Some; congruence).
        replace (j - Nat.min j (List.length (Table.data t)))%nat with 0%nat
          by lia.
        reflexivity. }
      rewrite Hj in E1. injection E1 as <- <-. cbn [total_words].
      pose proof (total_words_nonneg rest). lia. }
  set (off := total_words (firstn j (Table.data t))) in *.
  split; [now rewrite Ho|]. split; [exact Hm|]. split; [exact H0|].
  split; [lia|]. intros Hk.
  unfold Layout.encode_item, Py.getitem. rewrite Ho, Hg, Hd.
  rewrite (get_in_nodup _ name e Hnd (nth_error_In _ _ Hj)).
  cbn [from_option bind]. eexists. split; [reflexivity|].
  pose proof (round4_nonneg _ (encode_length_nonneg e)) as Hr.
  assert (Hq : off = 4 * (off / 4)).
  { pose proof (Z.div_mod off 4 ltac:(lia)). lia. }
  assert (Hkv : 0 <= EntryKind_value (TrieEntry.kind e) < 8)
    by (destruct (TrieEntry.kind e); simpl; try lia; congruence).
  assert (Hor : Z.lor (Z.shiftl off 1) (EntryKind_value (TrieEntry.kind e))
                = 8 * (off / 4) + EntryKind_value (TrieEntry.kind e)).
  { assert (E2 : Z.shiftl off 1 = Z.shiftl (off / 4) 3).
    { rewrite !Z.shiftl_mul_pow2 by lia. change (2 ^ 1) with 2.
      change (2 ^ 3) with 8. lia. }
    rewrite E2.
    pose proof (Z.add_lor_land (Z.shiftl (off / 4) 3)
                               (EntryKind_value (TrieEntry.kind e))) as Ha.
    assert (Hz : Z.land (Z.shiftl (off / 4) 3)
                        (EntryKind_value (TrieEntry.kind e)) = 0).
    { apply Z.bits_inj'. intros k Hk0. rewrite Z.land_spec, Z.bits_0.
      destruct (Z.ltb_spec k 3).
      - rewrite Z.shiftl_spec_low by lia. reflexivity.
      - rewrite (Z.bits_above_log2 (EntryKind_value _) k);
          [apply andb_false_r | lia |].
        destruct (TrieEntry.kind e); simpl in *; try lia; congruence. }
    rewrite Hz in Ha. rewrite Z.shiftl_mul_pow2 in Ha at 2 by lia.
    change (2 ^ 3) with 8 in Ha. lia. }
  rewrite Hor.
  assert (Hland : Z.land (8 * (off / 4) + EntryKind_value (TrieEntry.kind e)) 7
                  = EntryKind_value (TrieEntry.kind e)).
  { change 7 with (Z.ones 3). rewrite Z.land_ones by lia.
    change (2 ^ 3) with 8.
    rewrite Z.add_comm, Z.mul_comm, Z.mod_add by lia.
    apply Z.mod_small. exact Hkv. }
  rewrite Hland. repeat split; lia.
Qed.

Definition after_nop_laid_out : Table.t :=
  match Layout.calc_offsets after_nop with
  | Ok t => t
  | Raise _ => after_nop
  end.

Lemma child_pointer_format_witness :
  Py.get (Table.offsets after_nop_laid_out) "t0,90" = Some 264
  /\ 264 mod 4 = 0
  /\ 0 <= 264
  /\ 264 + Layout.round4 4 < 32768
  /\ exists v, Layout.encode_item after_nop_laid_out "t0,90" = Ok v
               /\ 0 <= v < 65536
               /\ Z.land v 7 = 1
               /\ v - Z.land v 7 = 2 * 264.
Proof.
  destruct (child_pointer_format after_nop after_nop_laid_out 2 "t0,90"
              (TrieEntry.instr nop_record)) as (H1 & H2 & H3 & H4 & H5);
    try reflexivity.
  - vm_compute. repeat constructor; simpl; intuition discriminate.
  - split; [exact H1|]. split; [exact H2|]. split; [exact H3|].
    split; [exact H4|]. apply H5. discriminate.
Defined.

(** ** The table data *)

Lemma layout_nth (d : nodes) : forall c j n e,
  nth_error d j = Some (n, e) ->
  nth_error (layout d c) j = Some (n, c + total_words (firstn j d)).
Proof.
  induction d as [|[n0 e0] d IH]; intros c j n e Hj;
    [destruct j; discriminate|].
  destruct j as [|j]; simpl in Hj.
  - injection Hj as -> ->. simpl. do 2 f_equal. lia.
  - cbn [layout nth_error firstn total_words].
    rewrite (IH _ j n e Hj). do 2 f_equal. lia.
Qed.

Lemma emit_length (self : Table.t) (d : nodes) :
  forall c data out,
    Py.len data <= c ->
    Layout.emit self (placed_at d c) data = Ok out ->
    Py.len out <= c + total_words d.
Proof.
  induction d as [|[n0 e0] d IH]; intros c data out Hlen H.
  - simpl in H. injection H as <-. simpl. lia.
  - simpl in H. inv_bind H.
    pose proof (encode_len _ _ _ Ha) as Hae.
    pose proof (round4_ge (TrieEntry.encode_length e0)).
    apply IH in H.
    + cbn [total_words]. lia.
    + unfold Py.len in *. rewrite !List.length_app, repeat_length. lia.
Qed.

(** X9.  When [compile] returns, the table data holds the serialisation of
    every node at the offset of the node, the padded size of the nodes
    before it, in the order of insertion; the data is no longer than the
    padded size of all nodes, and each serialisation has the length of its
    node. *)
Theorem compile_places_nodes
        (t : Table.t) (data : list word) (notes : list (Z * string))
        (offs : list Z) :
  Table.offsets t = [] ->
  NoDup (Py.keys (Table.data t)) ->
  Layout.compile t = Ok (data, notes, offs) ->
  exists t',
    Layout.calc_offsets t = Ok t'
    /\ Py.len data <= total_words (Table.data t)
    /\ forall j name e,
         nth_error (Table.data t) j = Some (name, e) ->
         exists enc,
           TrieEntry.encode e (Layout.encode_item t') = Ok enc
           /\ Py.len enc = TrieEntry.encode_length e
           /\ slice_at data (total_words (firstn j (Table.data t))) enc.
Proof.
  intros Hoff Hnd H. unfold Layout.compile in H.
  inv_bind H. rename a into t'. exists t'. split; [exact Ha|].
  destruct (calc_offsets_layout t t' Hnd Hoff Ha) as (Ho & Hd & Hr & _).
  rewrite Ho, Hr in H.
  rewrite (placed_layout t' (Table.data t) 0) in H.
  2:{ intros n e Hin. rewrite Hd. now apply get_in_nodup. }
  cbn [bind] in H.
  destruct (Layout.sorted (placed_at (Table.data t) 0)) as [ordered|] eqn:Hs;
    [|discriminate H].
  apply (sorted_placed _ 0 []) in Hs; [|exact I]. simpl in Hs. subst ordered.
  cbn [bind] in H.
  inv_bind H. inv_bind H. injection H as <- _ _.
  split.
  - pose proof (emit_length t' (Table.data t) 0 [] a
                            ltac:(unfold Py.len; simpl; lia) Ha0).
    lia.
  - intros j name e Hj.
    pose proof (layout_nth (Table.data t) 0 j name e Hj) as Hl.
    rewrite Z.add_0_l in Hl.
    destruct (emit_slices t' (Table.data t) 0 [] a
                          ltac:(unfold Py.len; simpl; lia) Ha0 j name e _
                          Hj Hl)
      as (enc & Henc & Hs).
    exists enc. split; [exact Henc|]. split; [|exact Hs].
    eapply encode_len; eauto.
Qed.

Lemma compile_places_nodes_witness :
  exists data notes offs,
    Layout.compile after_nop = Ok (data, notes, offs)
    /\ exists t',
      Layout.calc_offsets after_nop = Ok t'
      /\ Py.len data <= total_words (Table.data after_nop)
      /\ forall j name e,
           nth_error (Table.data after_nop) j = Some (name, e) ->
           exists enc,
             TrieEntry.encode e (Layout.encode_item t') = Ok enc
             /\ Py.len enc = TrieEntry.encode_length e
             /\ slice_at data
                         (total_words (firstn j (Table.data after_nop))) enc.
Proof.
  destruct (Layout.compile after_nop) as [[[data notes] offs]|] eqn:E;
    [|vm_compute in E; discriminate E].
  exists data, notes, offs. split; [reflexivity|].
  refine (compile_places_nodes after_nop data notes offs eq_refl _ E).
  vm_compute. repeat constructor; simpl; intuition discriminate.
Defined.

(** ** The paths of a pattern *)

Fixpoint choices (values : list (list Z)) : nat :=
  match values with
  | [] => 1%nat
  | vs :: rest => (List.length vs * choices rest)%nat
  end.

Lemma product_length (values : list (list Z)) :
  List.length (Opcode.product values) = choices values.
Proof.
  induction values as [|vs values IH]; [reflexivity|].
  cbn [Opcode.product choices]. rewrite <- IH.
  induction vs as [|v vs IHv]; [reflexivity|].
  cbn [flat_map List.length]. rewrite length_app, length_map, IHv. lia.
Qed.

(** Each element of the product takes one value from every position. *)
Lemma product_in (values : list (list Z)) : forall el,
  In el (Opcode.product values) -> Forall2 (fun x vs => In x vs) el values.
Proof.
  induction values as [|vs values IH]; intros el H.
  - simpl in H. destruct H as [<-|[]]. constructor.
  - cbn [Opcode.product] in H. apply in_flat_map in H.
    destruct H as (v & Hv & H). apply in_map_iff in H.
    destruct H as (el' & <- & Hel). constructor; [exact Hv | now apply IH].
Qed.

(** A path of the expansion takes, level by level, the kind of the level
    and one of its bytes. *)
Lemma expansion_in (L : list (EntryKind * list Z)) (p : path) :
  In p (List.map (fun prod => combine (List.map fst L) prod)
                 (Opcode.product (List.map snd L))) ->
  Forall2 (fun x lv => fst x = fst lv /\ In (snd x) (snd lv)) p L.
Proof.
  intros H. apply in_map_iff in H. destruct H as (el & <- & Hel).
  apply product_in in Hel. revert el Hel.
  induction L as [|[k vs] L IH]; intros el Hel; inversion Hel; subst;
    [constructor|].
  cbn [List.map combine fst snd]. constructor; [now split|].
  now apply IH.
Qed.

(** Levels that make every path of the expansion well-formed. *)
Definition levels_ok (L : list (EntryKind * list Z)) : Prop :=
  match L with
  | [] => False
  | (k, vs) :: rest =>
      k = TABLE_ROOT
      /\ Forall (fun lv => forall b, In b (snd lv) -> level_ok (fst lv, b)) L
      /\ Forall (fun lv => fst lv <> TABLE_ROOT) rest
  end.

Lemma levels_ok_paths (L : list (EntryKind * list Z)) (p : path) :
  levels_ok L ->
  Forall2 (fun x lv => fst x = fst lv /\ In (snd x) (snd lv)) p L ->
  wf_path p.
Proof.
  intros HL H. destruct L as [|[k vs] L]; [destruct HL|].
  destruct HL as (Hk & Hall & Hrest).
  inversion H as [|[k0 b0] lv p' L' [Hk0 Hb0] Hp]; subst.
  cbn [fst snd] in *. subst k0. split; [reflexivity|]. split.
  - clear Hrest. revert H Hall.
    generalize ((TABLE_ROOT, b0) :: p') ((TABLE_ROOT, vs) :: L).
    induction 1 as [|[k1 b1] lv1 q M [E1 E2] _ IH]; intros Hall;
      [constructor|].
    inversion Hall as [|? ? Hlv HM]; subst. constructor; [|now apply IH].
    cbn [fst snd] in *. subst k1. now apply Hlv.
  - clear Hall H. revert Hp Hrest. generalize p' L.
    induction 1 as [|[k1 b1] lv1 q M [E1 E2] _ IH]; intros Hrest;
      [constructor|].
    inversion Hrest as [|? ? Hlv HM]; subst. constructor; [|now apply IH].
    cbn [fst snd] in *. now rewrite E1.
Qed.

Definition bit_count (x : option string) : nat :=
  match Opcode.bit_values 0 (Opcode.or_IG x) with
  | Ok l => List.length l
  | Raise _ => 0%nat
  end.

(** The number of (W, L) combinations of a pattern. *)
Definition vex_count (o : Opcode.t) : nat :=
  if Opcode.is_bit (Opcode.vexl o) || Opcode.is_bit (Opcode.rexw o)
  then (bit_count (Opcode.rexw o) * bit_count (Opcode.vexl o))%nat
  else 1%nat.

(** The ['+'] marker does not push a byte out of its table. *)
Definition plus_in_range (o : Opcode.t) : Prop :=
  Opcode.extended o = true ->
  match Opcode.opcext o with
  | None => Opcode.opc o <= 248
  | Some (_, v) => v < 8 \/ v <= 248
  end.

Lemma root_byte_range (escape : Z) (vex : bool) :
  0 <= escape < 4 ->
  0 <= Z.lor escape (Z.shiftl (Z.b2z vex) 2) < 8.
Proof.
  intros H.
  assert (E : escape = 0 \/ escape = 1 \/ escape = 2 \/ escape = 3) by lia.
  destruct E as [-> | [-> | [-> | -> ]]]; destruct vex; simpl; lia.
Qed.

Ltac level_range :=
  eexists; split; [reflexivity|];
  match goal with
  | |- context [Z.of_nat ?n] =>
      let v := eval vm_compute in (Z.of_nat n) in
      change (Z.of_nat n) with v
  end;
  cbn [snd]; lia.

Ltac level_bytes :=
  let b := fresh "b" in
  let Hb := fresh "Hb" in
  intros b Hb; cbn [snd fst List.map In] in Hb;
  repeat (destruct Hb as [Hb|Hb]; [subst b; level_range|]);
  destruct Hb.

Ltac levels_ok_tac :=
  split; [reflexivity|];
  split; [repeat (constructor; [level_bytes|]); constructor
         | repeat (constructor; [simpl; discriminate|]); constructor].

Lemma levels_spec (o : Opcode.t) :
  canonical o ->
  (Opcode.extended o = true ->
   Opcode.opcext o = None \/ exists v, Opcode.opcext o = Some (true, v)) ->
  exists L,
    Opcode.levels o = Ok L
    /\ choices (List.map snd L)
       = ((if Opcode.extended o then 8 else 1) * vex_count o)%nat
    /\ (plus_in_range o -> levels_ok L).
Proof.
  destruct o as [prefix escape opc opcext extended vex vexl rexw].
  unfold canonical, plus_in_range, vex_count.
  cbn [Opcode.prefix Opcode.escape Opcode.opc Opcode.opcext Opcode.extended
       Opcode.vex Opcode.vexl Opcode.rexw].
  intros (He & Ho & Hx & Hp) Hext.
  pose proof (root_byte_range escape vex He) as Hroot.
  remember (Z.lor escape (Z.shiftl (Z.b2z vex) 2)) as rb eqn:Erb.
  unfold Opcode.levels.
  cbn [Opcode.prefix Opcode.escape Opcode.opc Opcode.opcext Opcode.extended
       Opcode.vex Opcode.vexl Opcode.rexw].
  rewrite <- Erb. clear Erb He.
  assert (Hxc : opcext = None
                \/ (exists is72 v, opcext = Some (is72, v) /\ 0 <= v < 8
                                   /\ (v <? 8) = true)
                \/ (exists v, opcext = Some (true, v) /\ 192 <= v < 256
                              /\ (v <? 8) = false)).
  { destruct Hx as [->|(is72 & v & -> & [Hv|[-> Hv]])]; [now left| |].
    - right. left. exists is72, v. repeat split; lia.
    - right. right. exists v. repeat split; lia. }
  clear Hx.
  assert (Hpc : (prefix = None /\ vexl = None /\ rexw = None)
                \/ (exists i, prefix = Some (true, i) /\ 0 <= i < 4
                              /\ vexl = None /\ rexw = None)
                \/ (exists i, prefix = Some (false, i) /\ 0 <= i < 4
                              /\ In vexl bit_opts /\ In rexw bit_opts)).
  { destruct Hp as [(-> & _ & -> & ->)
                   |[(i & -> & Hi & _ & -> & ->)|(i & -> & Hi & Hl & Hw)]].
    - now left.
    - right. left. exists i. simpl in Hi. repeat split; lia.
    - right. right. exists i. now repeat split. }
  clear Hp.
  destruct Hxc as [->|[(is72 & v & -> & Hv & Hlt)|(v & -> & Hv & Hlt)]];
    [| destruct is72; rewrite Hlt | rewrite Hlt];
    (destruct extended;
     [destruct (Hext eq_refl) as [Hn|[v' Hn]];
      try discriminate Hn; try (injection Hn as -> ->)
     |]);
    (destruct Hpc as [(-> & -> & ->)
                     |[(i & -> & Hi & -> & ->)|(i & -> & Hi & Hl & Hw)]];
     [| | simpl in Hl, Hw;
          destruct Hl as [<-|[<-|[<-|[<-|[]]]]];
          destruct Hw as [<-|[<-|[<-|[<-|[]]]]] ]);
    (eexists; split; [reflexivity|]; split; [reflexivity|];
     intros Hin; try specialize (Hin eq_refl); simpl; levels_ok_tac).
Qed.

(** X10.  Every pattern that [Opcode.parse] accepts expands: [for_trie]
    returns eight paths for each byte range marked ['+'] and one path
    otherwise, times the number of (W, L) combinations when W or L is fixed.
    When the ['+'] range stays inside its table (opcode byte at most f8, or
    ['//'] extension at most f8), every path is well-formed: a root level
    first, no root level below, and every byte inside the table of its
    kind. *)
Theorem for_trie_paths (s : string) (o : Opcode.t) :
  Opcode.parse s = Ok (Some o) ->
  exists paths,
    Opcode.for_trie o = Ok paths
    /\ List.length paths
       = ((if Opcode.extended o then 8 else 1) * vex_count o)%nat
    /\ (plus_in_range o -> Forall wf_path paths).
Proof.
  intros H.
  destruct (levels_spec o (parse_canonical s o H)) as (L & HL & Hc & Hok).
  { intros He. exact (parse_extended s o H He). }
  unfold Opcode.for_trie. rewrite HL. cbn [bind].
  eexists. split; [reflexivity|]. split.
  - now rewrite length_map, product_length.
  - intros Hin. apply Forall_forall. intros p Hp.
    apply (levels_ok_paths L p (Hok Hin)). now apply expansion_in.
Qed.

Definition vex_w0 : Opcode.t :=
  Opcode.mk (Some (false, 1)) 1 16 None false true None (Some "0").

Lemma for_trie_paths_witness :
  Opcode.parse "VEX.66.W0.0f10" = Ok (Some vex_w0)
  /\ exists paths,
    Opcode.for_trie vex_w0 = Ok paths
    /\ List.length paths = 2%nat
    /\ (plus_in_range vex_w0 -> Forall wf_path paths).
Proof.
  assert (Hp : Opcode.parse "VEX.66.W0.0f10" = Ok (Some vex_w0))
    by (vm_compute; reflexivity).
  split; [exact Hp|].
  exact (for_trie_paths "VEX.66.W0.0f10" vex_w0 Hp).
Defined.

(** ** The outcomes of [Opcode.parse] *)

Lemma index_of_raise (x : string) (l : list string) (e : exn) :
  Py.index_of String.eqb x l = Raise e -> e = ValueError /\ ~ In x l.
Proof.
  induction l as [|y l IH]; simpl; intros H.
  - injection H as <-. tauto.
  - destruct (String.eqb y x) eqn:E; [discriminate|].
    apply String.eqb_neq in E.
    destruct (Py.index_of String.eqb x l); [discriminate|].
    simpl in H. injection H as <-. destruct (IH eq_refl) as [-> Hn].
    split; [reflexivity|]. intros [Hy|Hy]; [congruence | tauto].
Qed.

(** X11.  [Opcode.parse] returns [None] when the string does not match the
    expression.  On a match it returns an opcode in canonical form, in which
    ['+'] comes with no extension or with a ['//'] extension only, or it
    raises: the build error for ['+'] after a single-slash extension, or a
    ValueError when the bytes before the last opcode byte are not one of the
    escapes 0f, 0f38 and 0f3a.  It raises nothing else. *)
Theorem opcode_parse_outcomes (s : string) :
  match Opcode.parse s with
  | Ok None => Regex.match_ s = None
  | Ok (Some o) =>
      canonical o
      /\ (Opcode.extended o = true ->
          Opcode.opcext o = None \/ exists v, Opcode.opcext o = Some (true, v))
  | Raise e =>
      exists m, Regex.match_ s = Some m
        /\ (e = BuildError "invalid opcode extension: {}"
            \/ (e = ValueError
                /\ ~ In (all_but_last2 (Regex.opcode m))
                        [""; "0f"; "0f38"; "0f3a"]))
  end.
Proof.
  destruct (Opcode.parse s) as [[o|]|e] eqn:Ep.
  - split; [exact (parse_canonical s o Ep)|].
    intros He. exact (parse_extended s o Ep He).
  - unfold Opcode.parse in Ep.
    destruct (Regex.match_ s) as [m|]; [|reflexivity]. exfalso.
    destruct (Opcode.parse_opcext (Regex.modrm m)); [|discriminate].
    cbn [bind] in Ep. destruct (is_some _ && _); [discriminate|].
    destruct (Opcode.parse_prefix _ _); [|discriminate]. cbn [bind] in Ep.
    destruct (Py.index_of _ _ _); [|discriminate]. cbn [bind] in Ep.
    destruct (int16 _); discriminate.
  - unfold Opcode.parse in Ep. unfold Regex.match_ in *.
    destruct (Regex.head s) as [[[[[vex leg] rexw] vexl] repp] s1] eqn:Eh.
    destruct (Regex.tail vex leg rexw vexl repp s1) as [m|] eqn:Et;
      [|discriminate].
    exists m. split; [reflexivity|].
    apply tail_inv in Et.
    destruct Et as (Hvex & Hleg & Hrexw & Hvexl & Hrepp & Hhex & Hne & Hmod).
    destruct (Opcode.parse_opcext (Regex.modrm m)) as [opcext|e0] eqn:Eo.
    2:{ exfalso. destruct (Hmod _ Eo) as [E|(? & ? & E & _)]; discriminate. }
    cbn [bind] in Ep.
    destruct (is_some (Regex.extended m) && _).
    { injection Ep as <-. now left. }
    rewrite Hleg, Hrepp in Ep.
    assert (Hpre : exists pr, Opcode.parse_prefix leg repp = Ok pr).
    { apply head_inv in Eh.
      destruct Eh as [(-> & -> & _)
                     |[(-> & _ & _ & _ & p & -> & Hp)
                      |(-> & _ & _ & p & -> & Hp)]].
      - simpl. eauto.
      - simpl in Hp. destruct Hp as [<-|[<-|[<-|[]]]]; vm_compute; eauto.
      - simpl in Hp. destruct Hp as [<-|[<-|[<-|[<-|[]]]]]; vm_compute; eauto. }
    destruct Hpre as [pr Hpr]. rewrite Hpr in Ep. cbn [bind] in Ep.
    destruct (Py.index_of String.eqb (all_but_last2 (Regex.opcode m)) _)
      as [esc|e1] eqn:Ei.
    2:{ cbn [bind] in Ep. injection Ep as <-. right.
        exact (index_of_raise _ _ _ Ei). }
    cbn [bind] in Ep. exfalso.
    destruct (last2_hexpairs _ Hhex Hne) as (a & b & Hl & Hxa & Hxb).
    rewrite Hl in Ep.
    destruct (hex_value_digit a Hxa) as (va & Hva & _).
    destruct (hex_value_digit b Hxb) as (vb & Hvb & _).
    rewrite (int16_two a b va vb Hva Hvb) in Ep. discriminate.
Qed.

(** ** Catalog lines whose opcode does not match *)

Lemma add_entry_None (desc : InstrDesc.t) (modes : list Z) : forall table i,
  Main.add_entry table None desc i modes
  = if existsb (fun m => Main.selected m desc) modes
    then Raise AttributeError else Ok table.
Proof.
  induction modes as [|m modes IH]; intros table i; simpl; [reflexivity|].
  destruct (Main.selected m desc); simpl; [reflexivity | apply IH].
Qed.

(** X12.  An opcode string that the expression does not match is parsed to
    [None] without an error.  The driver then fails with an AttributeError
    when it reaches the entry if the filter selects it for at least one of
    the modes, and passes over the entry without a trace otherwise. *)
Theorem unmatched_opcode_entry (s : string) (desc : InstrDesc.t)
        (table : Table.t) (rest : list (option Opcode.t * InstrDesc.t))
        (modes : list Z) :
  Regex.match_ s = None ->
  Opcode.parse s = Ok None
  /\ Main.add_entries table ((None, desc) :: rest) modes
     = if existsb (fun m => Main.selected m desc) modes
       then Raise AttributeError
       else Main.add_entries table rest modes.
Proof.
  intros Hm. split.
  - unfold Opcode.parse. now rewrite Hm.
  - cbn [Main.add_entries]. rewrite add_entry_None.
    now destruct (existsb _ modes).
Qed.

Definition only64_desc : InstrDesc.t :=
  InstrDesc.mk "FDI_NOP" "NP" [] ["ONLY64"].

Lemma unmatched_opcode_entry_witness :
  Opcode.parse "0f.1" = Ok None
  /\ Main.add_entries (Table.mk [] [] [] []) [(None, only64_desc)] [32]
     = Ok (Table.mk [] [] [] [])
  /\ Main.add_entries (Table.mk [] [] [] []) [(None, only64_desc)] [32; 64]
     = Raise AttributeError.
Proof.
  assert (Hm : Regex.match_ "0f.1" = None) by (vm_compute; reflexivity).
  split; [exact (proj1 (unmatched_opcode_entry _ only64_desc
                          (Table.mk [] [] [] []) [] [32] Hm))|].
  split.
  - exact (proj2 (unmatched_opcode_entry _ only64_desc
                    (Table.mk [] [] [] []) [] [32] Hm)).
  - exact (proj2 (unmatched_opcode_entry _ only64_desc
                    (Table.mk [] [] [] []) [] [32; 64] Hm)).
Defined.

(** ** What deduplication keeps *)

Lemma get_app {V} (p q : list (string * V)) (k : string) :
  Py.get (p ++ q)%list k
  = match Py.get p k with Some v => Some v | None => Py.get q k end.
Proof.
  induction p as [|[k' v] p IH]; simpl; [reflexivity|].
  destruct (String.eqb k' k); [reflexivity | exact IH].
Qed.

Lemma get_none_keys {V} (d : list (string * V)) (k : string) :
  Py.get d k = None <-> ~ In k (Py.keys d).
Proof.
  induction d as [|[k' v] d IH]; simpl; [tauto|].
  destruct (String.eqb k' k) eqn:E.
  - apply String.eqb_eq in E. subst k'. split; [discriminate | tauto].
  - apply String.eqb_neq in E. rewrite IH. tauto.
Qed.

(** The state of the first loop of a pass after the nodes [p]: every entry
    seen is recorded under the name of a node of [p] that carries it and is
    no synonym, and every synonym is a node of [p] mapped to the name
    recorded for its entry. *)
Definition scan_inv (p : nodes) (entries : list (TrieEntry.t * string))
           (synonyms : list (string * string)) : Prop :=
  (forall e f, In (e, f) entries ->
               Py.get p f = Some e /\ Py.get synonyms f = None)
  /\ (forall n f, Py.get synonyms n = Some f ->
                  exists e, Py.get p n = Some e /\ In (e, f) entries).

Lemma scan_inv_end (d : nodes) : forall p entries synonyms,
  NoDup (Py.keys (p ++ d)%list) ->
  scan_inv p entries synonyms ->
  exists entries',
    scan_inv (p ++ d)%list entries' (Dedup.scan d entries synonyms).
Proof.
  induction d as [|[name entry] d IH]; intros p entries synonyms Hnd Hinv.
  - simpl. rewrite app_nil_r. eauto.
  - assert (Hp : Py.get p name = None).
    { apply get_none_keys. unfold Py.keys in *. rewrite List.map_app in Hnd.
      simpl in Hnd. apply NoDup_remove_2 in Hnd. intros H. apply Hnd.
      apply in_or_app. now left. }
    assert (Hnd' : NoDup (Py.keys ((p ++ [(name, entry)]) ++ d)%list))
      by now rewrite <- app_assoc.
    assert (Hnew : Py.get (p ++ [(name, entry)])%list name = Some entry)
      by (rewrite get_app, Hp; simpl; now rewrite String.eqb_refl).
    assert (Hold : forall f e, Py.get p f = Some e ->
                     Py.get (p ++ [(name, entry)])%list f = Some e)
      by (intros f e H; now rewrite get_app, H).
    destruct Hinv as [Ha Hb].
    replace (p ++ (name, entry) :: d)%list
      with ((p ++ [(name, entry)]) ++ d)%list
      by (rewrite <- app_assoc; reflexivity).
    simpl. destruct (Dedup.lookup entries entry) as [first|] eqn:El.
    + apply IH; [exact Hnd'|]. apply lookup_in in El. split.
      * intros e f Hin. destruct (Ha e f Hin) as [H1 H2].
        split; [now apply Hold|].
        rewrite get_set_other; [exact H2|]. intros ->. congruence.
      * intros n f Hg. rewrite get_set in Hg.
        destruct (String.eqb name n) eqn:E.
        -- apply String.eqb_eq in E. subst n. injection Hg as <-.
           exists entry. split; [exact Hnew | exact El].
        -- destruct (Hb n f Hg) as (e & H1 & H2). exists e.
           split; [now apply Hold | exact H2].
    + apply IH; [exact Hnd'|]. split.
      * intros e f Hin. apply in_app_or in Hin.
        destruct Hin as [Hin|[Hin|[]]].
        -- destruct (Ha e f Hin) as [H1 H2]. split; [now apply Hold | exact H2].
        -- injection Hin as <- <-. split; [exact Hnew|].
           destruct (Py.get synonyms name) as [f|] eqn:Eg; [|reflexivity].
           destruct (Hb name f Eg) as (e & H1 & _). congruence.
      * intros n f Hg. destruct (Hb n f Hg) as (e & H1 & H2). exists e.
        split; [now apply Hold | apply in_or_app; now left].
Qed.

(** A synonym stands for a node with the same entry that is no synonym. *)
Lemma scan_get (d : nodes) (n f : string) :
  NoDup (Py.keys d) ->
  Py.get (Dedup.scan d [] []) n = Some f ->
  exists e, Py.get d n = Some e /\ Py.get d f = Some e
            /\ Py.get (Dedup.scan d [] []) f = None.
Proof.
  intros Hnd Hg.
  destruct (scan_inv_end d [] [] [] Hnd) as (entries & Ha & Hb).
  { split; [intros e f0 [] | intros n0 f0 H; discriminate H]. }
  simpl in Ha, Hb. destruct (Hb n f Hg) as (e & H1 & H2).
  destruct (Ha e f H2) as [H3 H4]. eauto.
Qed.

(** The node that stands for [n] after a pass. *)
Definition canon (synonyms : list (string * string)) (n : string) : string :=
  match Py.get synonyms n with
  | Some u => u
  | None => n
  end.

(** The entry of a node after the second loop of a pass. *)
Definition renamed (synonyms : list (string * string)) (e : TrieEntry.t)
  : TrieEntry.t :=
  TrieEntry.map e (fun _ v => Dedup.rename synonyms v).

Lemma map_from_map (g : option string -> option string)
      (l : list (option string)) : forall i,
  TrieEntry.map_from i (fun _ v => g v) l = List.map g l.
Proof.
  induction l as [|v l IH]; intros i; simpl; [|rewrite IH]; reflexivity.
Qed.

Lemma index_map {A B} (g : A -> B) (l : list A) (b : Z) :
  Py.index (List.map g l) b
  = match Py.index l b with Ok x => Ok (g x) | Raise e => Raise e end.
Proof.
  unfold Py.index, Py.len. rewrite length_map.
  assert (H : forall k, from_option IndexError (nth_error (List.map g l) k)
            = match from_option IndexError (nth_error l k) with
              | Ok x => Ok (g x) | Raise e => Raise e end).
  { intros k. rewrite nth_error_map. now destruct (nth_error l k). }
  destruct ((0 <=? b) && _); [apply H|].
  destruct ((_ <=? b) && _); [apply H | reflexivity].
Qed.

Lemma get_rewrite (synonyms : list (string * string)) (d : nodes) (n : string) :
  Py.get (Dedup.rewrite synonyms d) n
  = option_map (renamed synonyms) (Py.get d n).
Proof.
  unfold Dedup.rewrite. induction d as [|[k e] d IH]; simpl; [reflexivity|].
  destruct (String.eqb k n); [reflexivity | exact IH].
Qed.

Lemma get_del_other {V} (d : list (string * V)) (k n : string) :
  k <> n -> Py.get (Py.del d k) n = Py.get d n.
Proof.
  intros Hne. induction d as [|[k' v] d IH]; simpl; [reflexivity|].
  destruct (String.eqb k' k) eqn:E; simpl.
  - apply String.eqb_eq in E. subst k'.
    apply String.eqb_neq in Hne. now rewrite Hne.
  - destruct (String.eqb k' n); [reflexivity | exact IH].
Qed.

Lemma get_delete_other (ks : list string) (n : string) : forall d : nodes,
  ~ In n ks ->
  Py.get (fold_left (fun d key => Py.del d key) ks d) n = Py.get d n.
Proof.
  induction ks as [|k ks IH]; intros d Hn; simpl; [reflexivity|].
  rewrite IH by (intros H; apply Hn; now right).
  apply get_del_other. intros ->. apply Hn. now left.
Qed.

(** The nodes after a pass: a synonym is gone, every other node has its
    child references sent through the synonyms. *)
Lemma get_pass (d : nodes) (n : string) :
  NoDup (Py.keys d) ->
  Py.get (Dedup.pass d) n
  = match Py.get (Dedup.scan d [] []) n with
    | Some _ => None
    | None => option_map (renamed (Dedup.scan d [] [])) (Py.get d n)
    end.
Proof.
  intros Hnd. unfold Dedup.pass, Dedup.apply, Dedup.delete.
  destruct (Py.get (Dedup.scan d [] []) n) as [f|] eqn:Eg.
  - apply get_none_keys. apply delete_removes.
    + now rewrite Dedup.rewrite_keys.
    + apply get_in in Eg. unfold Py.keys. apply (in_map fst) in Eg. exact Eg.
  - rewrite get_delete_other by now apply get_none_keys.
    apply get_rewrite.
Qed.

(** The node that stands for [n] carries the entry of [n], renamed. *)
Lemma get_pass_canon (d : nodes) (n : string) :
  NoDup (Py.keys d) ->
  Py.get (Dedup.pass d) (canon (Dedup.scan d [] []) n)
  = option_map (renamed (Dedup.scan d [] [])) (Py.get d n).
Proof.
  intros Hnd. unfold canon.
  destruct (Py.get (Dedup.scan d [] []) n) as [f|] eqn:Eg.
  - destruct (scan_get d n f Hnd Eg) as (e & H1 & H2 & H3).
    rewrite get_pass, H3, H2, H1 by exact Hnd. reflexivity.
  - rewrite get_pass, Eg by exact Hnd. reflexivity.
Qed.

Lemma child_pass (d : nodes) (tn : string) (byte : Z) :
  NoDup (Py.keys d) ->
  child (Dedup.pass d) (canon (Dedup.scan d [] []) tn) byte
  = option_map (canon (Dedup.scan d [] [])) (child d tn byte).
Proof.
  intros Hnd. unfold child. rewrite get_pass_canon by exact Hnd.
  destruct (Py.get d tn) as [e|]; [|reflexivity].
  cbn [option_map renamed TrieEntry.map TrieEntry.items].
  rewrite map_from_map, index_map.
  destruct (Py.index (TrieEntry.items e) byte) as [[c|]|]; try reflexivity.
  unfold Dedup.rename, canon. simpl.
  now destruct (Py.get (Dedup.scan d [] []) c).
Qed.

(** A pass keeps what every path leads to, up to the renaming of the child
    references of the entry found. *)
Lemma reach_pass (d : nodes) (rest : path) : forall tn,
  NoDup (Py.keys d) ->
  reach (Dedup.pass d) (canon (Dedup.scan d [] []) tn) rest
  = option_map (renamed (Dedup.scan d [] [])) (reach d tn rest).
Proof.
  induction rest as [|[k0 b0] rest IH]; intros tn Hnd; [reflexivity|].
  destruct rest as [|[k1 b1] rest].
  - simpl. rewrite child_pass by exact Hnd.
    destruct (child d tn b0) as [c|]; [|reflexivity].
    simpl. now apply get_pass_canon.
  - rewrite !reach_cons. cbn [fst snd]. rewrite child_pass by exact Hnd.
    destruct (child d tn b0) as [c|]; [|reflexivity].
    cbn [option_map]. rewrite get_pass_canon by exact Hnd.
    destruct (Py.get d c) as [e|]; [|reflexivity].
    cbn [option_map renamed TrieEntry.map TrieEntry.kind].
    destruct (EntryKind_eqb (TrieEntry.kind e) k1); [|reflexivity].
    now apply IH.
Qed.

Lemma renamed_instr (synonyms : list (string * string)) (e : TrieEntry.t)
      (w : list word) :
  renamed synonyms e = TrieEntry.instr w <-> e = TrieEntry.instr w.
Proof.
  destruct e as [k items payload]. unfold renamed, TrieEntry.map, TrieEntry.instr.
  simpl. split; intros H.
  - injection H as -> Hi ->. destruct items; [reflexivity | discriminate Hi].
  - injection H as -> -> ->. reflexivity.
Qed.

Lemma loop_reach (d : nodes) :
  NoDup (Py.keys d) ->
  forall r rest w,
    In r (Py.keys (Dedup.loop d)) ->
    (reach (Dedup.loop d) r rest = Some (TrieEntry.instr w)
     <-> reach d r rest = Some (TrieEntry.instr w)).
Proof.
  funelim (Dedup.loop d); intros Hnd r rest w Hr.
  - rewrite apply_nil. tauto.
  - assert (Hp : Dedup.apply (s :: syn) d = Dedup.pass d)
      by (unfold Dedup.pass; now rewrite Heq).
    rewrite Hp in *.
    rewrite (H (pass_NoDup d Hnd) r rest w Hr).
    apply loop_keys_pass in Hr. apply pass_keys_incl in Hr.
    assert (Hc : canon (Dedup.scan d [] []) r = r).
    { unfold canon.
      destruct (Py.get (Dedup.scan d [] []) r) as [f|] eqn:Eg; [|reflexivity].
      exfalso. apply get_none_keys in Hr; [exact Hr|].
      now rewrite get_pass, Eg. }
    pose proof (reach_pass d rest r Hnd) as Hrp. rewrite Hc in Hrp.
    rewrite Hrp. destruct (reach d r rest) as [e|]; cbn [option_map].
    + split; intros E; f_equal.
      * apply (proj1 (renamed_instr (Dedup.scan d [] []) e w)). congruence.
      * apply (proj2 (renamed_instr (Dedup.scan d [] []) e w)). congruence.
    + tauto.
Qed.

(** X13.  Deduplication does not change what the table decodes: from every
    node name that is still in the table afterwards, in particular from
    every root that is kept, a path leads to an instruction record after
    [deduplicate] exactly when it led to that record before. *)
Theorem deduplicate_keeps_instructions (t : Table.t) (r : string)
        (opcode : path) (w : list word) :
  NoDup (Py.keys (Table.data t)) ->
  In r (Py.keys (Table.data (deduplicate t))) ->
  (reach (Table.data (deduplicate t)) r opcode = Some (TrieEntry.instr w)
   <-> reach (Table.data t) r opcode = Some (TrieEntry.instr w)).
Proof.
  intros Hnd Hr. unfold deduplicate in *. destruct t as [d rs os an].
  simpl in *. now apply loop_reach.
Qed.

(** A root with the same record under its first two slots. *)
Definition twin_leaves : Table.t :=
  Table.mk
    [ ("root0", TrieEntry.mk TABLE_ROOT
                  [Some "t0,00"; Some "t0,01"; None; None;
                   None; None; None; None] []);
      ("t0,00", TrieEntry.instr nop_record);
      ("t0,01", TrieEntry.instr nop_record) ]
    ["root0"] [] [].

Lemma deduplicate_keeps_instructions_witness :
  Table.data (deduplicate twin_leaves)
  = [ ("root0", TrieEntry.mk TABLE_ROOT
                  [Some "t0,00"; Some "t0,00"; None; None;
                   None; None; None; None] []);
      ("t0,00", TrieEntry.instr nop_record) ]
  /\ reach (Table.data (deduplicate twin_leaves)) "root0" [(TABLE_ROOT, 1)]
     = Some (TrieEntry.instr nop_record).
Proof.
  split; [vm_compute; reflexivity|].
  apply (deduplicate_keeps_instructions twin_leaves "root0"
           [(TABLE_ROOT, 1)] nop_record).
  - repeat constructor; simpl; intuition discriminate.
  - vm_compute. now left.
  - vm_compute. reflexivity.
Defined.

(** ** The node names of the paths of one pattern *)

(** What one level adds to the prefix part and to the opcode part of a
    name. *)
Definition lparts (x : EntryKind * Z) : string * string :=
  match format_acc [x] "" "" with
  | Ok ps => ps
  | Raise _ => ("", "")
  end.

Fixpoint cparts (l : path) : string :=
  match l with
  | [] => ""
  | x :: r => fst (lparts x) ++ cparts r
  end.

Fixpoint sparts (l : path) : string :=
  match l with
  | [] => ""
  | x :: r => snd (lparts x) ++ sparts r
  end.

Lemma lparts_format (x : EntryKind * Z) :
  level_ok x ->
  forall p s,
    format_acc [x] p s = Ok (p ++ fst (lparts x), s ++ snd (lparts x)).
Proof.
  intros Hx. destruct (level_format x Hx) as (cp & cs & Hf & _).
  unfold lparts. rewrite (Hf "" ""). exact Hf.
Qed.

Lemma format_acc_parts (l : path) :
  Forall level_ok l ->
  forall p s, format_acc l p s = Ok (p ++ cparts l, s ++ sparts l).
Proof.
  induction 1 as [|x l Hx Hl IH]; intros p s.
  - simpl. now rewrite !append_nil_r.
  - change (x :: l) with ([x] ++ l)%list at 1.
    rewrite format_acc_app, (lparts_format x Hx). cbn [bind].
    rewrite IH. cbn [cparts sparts]. now rewrite !append_assoc.
Qed.

(** A name splits in one way into its prefix part and its opcode part. *)
Lemma fmt_eq_parts (l1 l2 : path) :
  Forall level_ok l1 -> Forall level_ok l2 -> fmt l1 = fmt l2 ->
  cparts l1 = cparts l2 /\ sparts l1 = sparts l2.
Proof.
  intros H1 H2 E.
  destruct (fmt_parts l1 H1) as (p1 & s1 & F1 & D1 & S1 & _ & E1).
  destruct (fmt_parts l2 H2) as (p2 & s2 & F2 & D2 & S2 & _ & E2).
  pose proof (format_acc_parts l1 H1 "" "") as G1. rewrite (F1 "" "") in G1.
  pose proof (format_acc_parts l2 H2 "" "") as G2. rewrite (F2 "" "") in G2.
  simpl in G1, G2. injection G1 as <- <-. injection G2 as <- <-.
  rewrite E1, E2 in E. now apply split_dot.
Qed.

(** The parts of a level by its kind: an opcode byte gives two characters,
    an extension a slash and digits, the other tables a prefix. *)
Definition level_facts_b (x : EntryKind * Z) : bool :=
  let '(cp, cs) := lparts x in
  match fst x with
  | TABLE256 =>
      String.eqb cp "" && Nat.eqb (String.length cs) 2
      && negb (contains "/" cs)
  | TABLE8 | TABLE72 =>
      String.eqb cp ""
      && match cs with
         | String c h => Ascii.eqb c "/" && negb (contains "/" h)
         | EmptyString => false
         end
  | TABLE_PREFIX | TABLE_PREFIX_REP | TABLE_VEX =>
      String.eqb cs "" && negb (String.eqb cp "")
  | _ => true
  end.

Lemma all_level_facts : forallb level_facts_b all_levels = true.
Proof. vm_compute. reflexivity. Qed.

Definition same_parts_b (x y : EntryKind * Z) : bool :=
  EntryKind_eqb (fst x) (fst y)
  && String.eqb (fst (lparts x)) (fst (lparts y))
  && String.eqb (snd (lparts x)) (snd (lparts y)).

Lemma all_levels_inj :
  forallb (fun x => forallb (fun y => implb (same_parts_b x y)
                                            (snd x =? snd y))
                            all_levels)
          all_levels = true.
Proof. vm_compute. reflexivity. Qed.

(** Two slots of one kind of table do not give the same parts. *)
Lemma lparts_inj (x y : EntryKind * Z) :
  level_ok x -> level_ok y -> fst x = fst y -> lparts x = lparts y -> x = y.
Proof.
  intros Hx Hy Hk Hp. pose proof all_levels_inj as H.
  rewrite forallb_forall in H. specialize (H x (level_in_all x Hx)).
  rewrite forallb_forall in H. specialize (H y (level_in_all y Hy)).
  unfold same_parts_b in H. rewrite Hk, Hp, !String.eqb_refl in H.
  rewrite (proj2 (EntryKind_eqb_eq _ _) eq_refl) in H. simpl in H.
  apply Z.eqb_eq in H. destruct x, y. simpl in *. congruence.
Qed.

Lemma level_facts (x : EntryKind * Z) : level_ok x -> level_facts_b x = true.
Proof.
  intros Hx. pose proof all_level_facts as H. rewrite forallb_forall in H.
  exact (H x (level_in_all x Hx)).
Qed.

Lemma opcode_parts (x : EntryKind * Z) :
  level_ok x -> fst x = TABLE256 ->
  exists h, lparts x = ("", h) /\ String.length h = 2%nat
            /\ contains "/" h = false.
Proof.
  intros Hx Hk. pose proof (level_facts x Hx) as H. unfold level_facts_b in H.
  destruct (lparts x) as [cp cs]. rewrite Hk in H.
  apply andb_prop in H. destruct H as [H H3]. apply andb_prop in H.
  destruct H as [H1 H2]. apply String.eqb_eq in H1. apply Nat.eqb_eq in H2.
  apply negb_true_iff in H3. exists cs. now subst cp.
Qed.

Lemma ext_parts (x : EntryKind * Z) :
  level_ok x -> fst x = TABLE8 \/ fst x = TABLE72 ->
  exists h, lparts x = ("", String "/" h) /\ contains "/" h = false.
Proof.
  intros Hx Hk. pose proof (level_facts x Hx) as H. unfold level_facts_b in H.
  destruct (lparts x) as [cp cs].
  assert (H' : String.eqb cp ""
               && match cs with
                  | String c h => Ascii.eqb c "/" && negb (contains "/" h)
                  | EmptyString => false
                  end = true)
    by (destruct Hk as [Hk|Hk]; rewrite Hk in H; exact H).
  apply andb_prop in H'. destruct H' as [H1 H2]. apply String.eqb_eq in H1.
  destruct cs as [|c h]; [discriminate|]. apply andb_prop in H2.
  destruct H2 as [H2 H3]. apply Ascii.eqb_eq in H2.
  apply negb_true_iff in H3. exists h. now subst.
Qed.

Lemma prefix_parts (x : EntryKind * Z) :
  level_ok x ->
  fst x = TABLE_PREFIX \/ fst x = TABLE_PREFIX_REP \/ fst x = TABLE_VEX ->
  exists p, lparts x = (p, "") /\ p <> "".
Proof.
  intros Hx Hk. pose proof (level_facts x Hx) as H. unfold level_facts_b in H.
  destruct (lparts x) as [cp cs].
  assert (H' : String.eqb cs "" && negb (String.eqb cp "") = true)
    by (destruct Hk as [Hk|[Hk|Hk]]; rewrite Hk in H; exact H).
  apply andb_prop in H'. destruct H' as [H1 H2]. apply String.eqb_eq in H1.
  apply negb_true_iff, String.eqb_neq in H2. exists cp. now subst.
Qed.

Lemma append_inj_l (s : string) : forall x y, s ++ x = s ++ y -> x = y.
Proof.
  induction s as [|c s IH]; intros x y E; simpl in E; [exact E|].
  injection E as E. now apply IH.
Qed.

Definition opt_level (o : option (EntryKind * Z)) : path :=
  match o with
  | Some x => [x]
  | None => []
  end.

(** The opcode part tells the opcode byte and the extension of a path, and
    how many of the two levels it covers. *)
Lemma sparts_inj (x1 x2 : EntryKind * Z) (oe1 oe2 : option (EntryKind * Z))
      (k k' : nat) :
  fst x1 = TABLE256 -> fst x2 = TABLE256 -> level_ok x1 -> level_ok x2 ->
  match oe1, oe2 with
  | None, None => True
  | Some e1, Some e2 =>
      fst e1 = fst e2 /\ (fst e1 = TABLE8 \/ fst e1 = TABLE72)
      /\ level_ok e1 /\ level_ok e2
  | _, _ => False
  end ->
  sparts (firstn k (x1 :: opt_level oe1))
  = sparts (firstn k' (x2 :: opt_level oe2)) ->
  firstn k (x1 :: opt_level oe1) = firstn k' (x2 :: opt_level oe2).
Proof.
  intros K1 K2 L1 L2 He E.
  destruct (opcode_parts x1 L1 K1) as (h1 & P1 & N1 & S1).
  destruct (opcode_parts x2 L2 K2) as (h2 & P2 & N2 & S2).
  assert (Hx : h1 = h2 -> x1 = x2).
  { intros ->. apply lparts_inj; congruence. }
  destruct oe1 as [e1|], oe2 as [e2|]; try contradiction.
  - destruct He as (Ke & Kt & Le1 & Le2).
    destruct (ext_parts e1 Le1 Kt) as (g1 & Q1 & T1).
    destruct (ext_parts e2 Le2 ltac:(now rewrite <- Ke)) as (g2 & Q2 & T2).
    assert (Hg : g1 = g2 -> e1 = e2).
    { intros ->. apply lparts_inj; congruence. }
    destruct k as [|[|k]], k' as [|[|k']]; cbn [firstn opt_level] in *;
      rewrite ?firstn_nil in *; cbn [sparts] in E;
      rewrite ?P1, ?P2, ?Q1, ?Q2 in E; cbn [fst snd] in E;
      rewrite ?append_nil_r in E;
      try reflexivity;
      try (apply (f_equal String.length) in E; simpl in E;
           rewrite ?string_length_append in E; simpl in E; lia).
    + now rewrite (Hx E).
    + change (h1 ++ String "/" g1 = h2 ++ String "/" g2) in E.
      apply split_first in E; [|assumption..]. destruct E as [E1 E2].
      now rewrite (Hx E1), (Hg E2).
  - destruct k as [|[|k]], k' as [|[|k']]; cbn [firstn opt_level] in *;
      rewrite ?firstn_nil in *; cbn [sparts] in E;
      rewrite ?P1, ?P2 in E; cbn [fst snd] in E;
      rewrite ?append_nil_r in E;
      try reflexivity;
      try (apply (f_equal String.length) in E; simpl in E;
           rewrite ?string_length_append in E; simpl in E; lia);
      now rewrite (Hx E).
Qed.

(** The prefix part tells the VEX level of a path, and how many of its
    prefix levels it covers. *)
Lemma cparts_inj (op ov1 ov2 : option (EntryKind * Z)) (k k' : nat) :
  match op with
  | Some p => level_ok p /\ (fst p = TABLE_PREFIX \/ fst p = TABLE_PREFIX_REP)
  | None => True
  end ->
  match ov1, ov2 with
  | None, None => True
  | Some v1, Some v2 =>
      fst v1 = TABLE_VEX /\ fst v2 = TABLE_VEX /\ level_ok v1 /\ level_ok v2
  | _, _ => False
  end ->
  cparts (firstn k (opt_level op ++ opt_level ov1))
  = cparts (firstn k' (opt_level op ++ opt_level ov2)) ->
  firstn k (opt_level op ++ opt_level ov1)%list
  = firstn k' (opt_level op ++ opt_level ov2)%list.
Proof.
  intros Hp Hv E.
  assert (Hlen : forall a b : string,
             a <> "" -> (0 < String.length (a ++ b))%nat).
  { intros [|c a] b H; [now elim H | simpl; lia]. }
  destruct ov1 as [v1|], ov2 as [v2|]; try contradiction.
  - destruct Hv as (K1 & K2 & L1 & L2).
    destruct (prefix_parts v1 L1 ltac:(tauto)) as (w1 & Q1 & N1).
    destruct (prefix_parts v2 L2 ltac:(tauto)) as (w2 & Q2 & N2).
    assert (Hw : w1 = w2 -> v1 = v2).
    { intros ->. apply lparts_inj; congruence. }
    destruct op as [p|].
    + destruct Hp as [Lp Kp].
      destruct (prefix_parts p Lp ltac:(tauto)) as (c & Qp & Np).
      destruct k as [|[|k]], k' as [|[|k']]; cbn [firstn opt_level app] in *;
        rewrite ?firstn_nil in *; cbn [cparts] in E;
        rewrite ?Q1, ?Q2, ?Qp in E; cbn [fst snd] in E;
        rewrite ?append_nil_r in E;
        try reflexivity;
        try (apply (f_equal String.length) in E; simpl in E;
             rewrite ?string_length_append in E;
             pose proof (Hlen c "" Np); pose proof (Hlen w1 "" N1);
             pose proof (Hlen w2 "" N2);
             rewrite ?append_nil_r in *; simpl in *; lia).
      apply append_inj_l in E. now rewrite (Hw E).
    + destruct k as [|k], k' as [|k']; cbn [firstn opt_level app] in *;
        rewrite ?firstn_nil in *; cbn [cparts] in E;
        rewrite ?Q1, ?Q2 in E; cbn [fst snd] in E;
        rewrite ?append_nil_r in E;
        try reflexivity;
        try (apply (f_equal String.length) in E; simpl in E;
             pose proof (Hlen w1 "" N1); pose proof (Hlen w2 "" N2);
             rewrite ?append_nil_r in *; simpl in *; lia).
      now rewrite (Hw E).
  - destruct op as [p|].
    + destruct Hp as [Lp Kp].
      destruct (prefix_parts p Lp ltac:(tauto)) as (c & Qp & Np).
      destruct k as [|k], k' as [|k']; cbn [firstn opt_level app] in *;
        rewrite ?firstn_nil in *; cbn [cparts] in E;
        rewrite ?Qp in E; cbn [fst snd] in E;
        rewrite ?append_nil_r in E;
        try reflexivity;
        apply (f_equal String.length) in E; simpl in E;
        pose proof (Hlen c "" Np); rewrite ?append_nil_r in *;
        simpl in *; lia.
    + cbn [opt_level app]. now rewrite !firstn_nil.
Qed.

Lemma cparts_app (a b : path) :
  cparts (a ++ b)%list = cparts a ++ cparts b.
Proof.
  induction a as [|x a IH]; simpl; [reflexivity|].
  now rewrite IH, append_assoc.
Qed.

Lemma sparts_app (a b : path) :
  sparts (a ++ b)%list = sparts a ++ sparts b.
Proof.
  induction a as [|x a IH]; simpl; [reflexivity|].
  now rewrite IH, append_assoc.
Qed.

Lemma cparts_none (l : path) :
  Forall (fun x => fst (lparts x) = "") l -> cparts l = "".
Proof. induction 1 as [|x l Hx _ IH]; simpl; [|rewrite Hx, IH]; reflexivity. Qed.

Lemma sparts_none (l : path) :
  Forall (fun x => snd (lparts x) = "") l -> sparts l = "".
Proof. induction 1 as [|x l Hx _ IH]; simpl; [|rewrite Hx, IH]; reflexivity. Qed.

(** The form of the paths of a pattern: the root level, the opcode byte,
    and then the extension, the prefix and the VEX level where the pattern
    has them. *)
Definition mkpath (x0 x1 : EntryKind * Z) (oe op ov : option (EntryKind * Z))
  : path :=
  x0 :: ((x1 :: opt_level oe) ++ (opt_level op ++ opt_level ov))%list.

Definition ext_pair (oe1 oe2 : option (EntryKind * Z)) : Prop :=
  match oe1, oe2 with
  | None, None => True
  | Some e1, Some e2 =>
      fst e1 = fst e2 /\ (fst e1 = TABLE8 \/ fst e1 = TABLE72)
      /\ level_ok e1 /\ level_ok e2
  | _, _ => False
  end.

Definition prefix_level (op : option (EntryKind * Z)) : Prop :=
  match op with
  | Some p => level_ok p /\ (fst p = TABLE_PREFIX \/ fst p = TABLE_PREFIX_REP)
  | None => True
  end.

Definition vex_pair (ov1 ov2 : option (EntryKind * Z)) : Prop :=
  match ov1, ov2 with
  | None, None => True
  | Some v1, Some v2 =>
      fst v1 = TABLE_VEX /\ fst v2 = TABLE_VEX /\ level_ok v1 /\ level_ok v2
  | _, _ => False
  end.

(** Two paths of this form that share the root level and the prefix level
    give the same name to two of their prefixes only when the prefixes are
    the same. *)
Lemma mkpath_names_inj (x0 x1 y1 : EntryKind * Z)
      (oe1 oe2 op ov1 ov2 : option (EntryKind * Z)) (j m : nat) :
  level_ok x0 ->
  fst x1 = TABLE256 -> fst y1 = TABLE256 -> level_ok x1 -> level_ok y1 ->
  ext_pair oe1 oe2 -> prefix_level op -> vex_pair ov1 ov2 ->
  (1 <= j)%nat -> (1 <= m)%nat ->
  fmt (firstn j (mkpath x0 x1 oe1 op ov1))
  = fmt (firstn m (mkpath x0 y1 oe2 op ov2)) ->
  firstn j (mkpath x0 x1 oe1 op ov1) = firstn m (mkpath x0 y1 oe2 op ov2).
Proof.
  intros L0 K1 K2 L1 L2 He Hp Hv Hj Hm E.
  unfold ext_pair, prefix_level, vex_pair in *.
  destruct j as [|j]; [lia|]. destruct m as [|m]; [lia|].
  unfold mkpath in *. cbn [firstn] in *.
  rewrite (firstn_app j (x1 :: opt_level oe1)),
          (firstn_app m (y1 :: opt_level oe2)) in E.
  rewrite (firstn_app j (x1 :: opt_level oe1)),
          (firstn_app m (y1 :: opt_level oe2)).
  assert (HS1 : Forall level_ok (x1 :: opt_level oe1)).
  { constructor; [exact L1|]. destruct oe1 as [e1|], oe2 as [e2|];
      try contradiction; simpl; [|constructor].
    constructor; [tauto | constructor]. }
  assert (HS2 : Forall level_ok (y1 :: opt_level oe2)).
  { constructor; [exact L2|]. destruct oe1 as [e1|], oe2 as [e2|];
      try contradiction; simpl; [|constructor].
    constructor; [tauto | constructor]. }
  assert (HC1 : Forall level_ok (opt_level op ++ opt_level ov1)).
  { apply Forall_app. split.
    - destruct op; simpl; [constructor; [tauto | constructor] | constructor].
    - destruct ov1 as [v1|], ov2 as [v2|]; try contradiction; simpl;
        [constructor; [tauto | constructor] | constructor]. }
  assert (HC2 : Forall level_ok (opt_level op ++ opt_level ov2)).
  { apply Forall_app. split.
    - destruct op; simpl; [constructor; [tauto | constructor] | constructor].
    - destruct ov1 as [v1|], ov2 as [v2|]; try contradiction; simpl;
        [constructor; [tauto | constructor] | constructor]. }
  assert (HSc : forall x1 oe,
             fst x1 = TABLE256 -> level_ok x1 ->
             Forall level_ok (x1 :: opt_level oe) ->
             match oe with
             | Some e => fst e = TABLE8 \/ fst e = TABLE72
             | None => True
             end ->
             Forall (fun x => fst (lparts x) = "") (x1 :: opt_level oe)).
  { intros z oe Kz Lz Hall Hk. constructor.
    - destruct (opcode_parts z Lz Kz) as (h & -> & _). reflexivity.
    - destruct oe as [e|]; simpl; [|constructor].
      constructor; [|constructor]. inversion Hall as [|? ? _ Hr]; subst.
      inversion Hr; subst.
      destruct (ext_parts e ltac:(assumption) Hk) as (h & -> & _).
      reflexivity. }
  assert (HCs : forall ov,
             Forall level_ok (opt_level op ++ opt_level ov) ->
             match ov with Some v => fst v = TABLE_VEX | None => True end ->
             Forall (fun x => snd (lparts x) = "")
                    (opt_level op ++ opt_level ov)).
  { intros ov Hall Hk. apply Forall_app in Hall. destruct Hall as [Ha Hb].
    apply Forall_app. split.
    - destruct op as [p|]; simpl; [|constructor].
      constructor; [|constructor]. destruct Hp as [Lp Kp].
      destruct (prefix_parts p Lp ltac:(tauto)) as (c & -> & _). reflexivity.
    - destruct ov as [v|]; simpl; [|constructor].
      constructor; [|constructor]. inversion Hb; subst.
      destruct (prefix_parts v ltac:(assumption) ltac:(tauto))
        as (c & -> & _). reflexivity. }
  assert (Hk1 : match oe1 with
                | Some e => fst e = TABLE8 \/ fst e = TABLE72
                | None => True
                end)
    by (destruct oe1, oe2; try contradiction; [tauto | exact I]).
  assert (Hk2 : match oe2 with
                | Some e => fst e = TABLE8 \/ fst e = TABLE72
                | None => True
                end).
  { destruct oe1, oe2; try contradiction; [|exact I].
    destruct He as (Hk & Ht & _). now rewrite <- Hk. }
  assert (Hv1 : match ov1 with Some v => fst v = TABLE_VEX | None => True end)
    by (destruct ov1, ov2; try contradiction; [tauto | exact I]).
  assert (Hv2 : match ov2 with Some v => fst v = TABLE_VEX | None => True end)
    by (destruct ov1, ov2; try contradiction; [tauto | exact I]).
  apply fmt_eq_parts in E.
  2:{ constructor; [exact L0|]. apply Forall_app.
      split; now apply Forall_firstn. }
  2:{ constructor; [exact L0|]. apply Forall_app.
      split; now apply Forall_firstn. }
  destruct E as [Ec Es]. cbn [cparts sparts] in Ec, Es.
  rewrite !cparts_app in Ec. rewrite !sparts_app in Es.
  rewrite (cparts_none (firstn j (x1 :: opt_level oe1))) in Ec
    by (apply Forall_firstn, HSc; assumption).
  rewrite (cparts_none (firstn m (y1 :: opt_level oe2))) in Ec
    by (apply Forall_firstn, HSc; assumption).
  rewrite (sparts_none (firstn _ (opt_level op ++ opt_level ov1))) in Es
    by (apply Forall_firstn, HCs; assumption).
  rewrite (sparts_none (firstn _ (opt_level op ++ opt_level ov2))) in Es
    by (apply Forall_firstn, HCs; assumption).
  cbn [append] in Ec. rewrite !append_nil_r in Es.
  apply append_inj_l in Ec. apply append_inj_l in Es.
  apply sparts_inj in Es; try assumption.
  apply cparts_inj in Ec; try assumption.
  now rewrite Es, Ec.
Qed.

(** The kinds of the levels of a pattern, in the order in which [for_trie]
    puts them. *)
Definition after_prefix (K : list EntryKind) : bool :=
  match K with
  | [] | [TABLE_VEX] => true
  | _ => false
  end.

Definition after_ext (K : list EntryKind) : bool :=
  match K with
  | [] | [TABLE_VEX] => true
  | (TABLE_PREFIX | TABLE_PREFIX_REP) :: K' => after_prefix K'
  | _ => false
  end.

Definition kinds_form (K : list EntryKind) : bool :=
  match K with
  | TABLE_ROOT :: TABLE256 :: K' =>
      match K' with
      | (TABLE8 | TABLE72) :: K'' => after_ext K''
      | _ => after_ext K'
      end
  | _ => false
  end.

(** The levels that take one byte in every path of a pattern. *)
Definition fixed_kind (k : EntryKind) : bool :=
  match k with
  | TABLE_ROOT | TABLE_PREFIX | TABLE_PREFIX_REP => true
  | _ => false
  end.

Definition ext_of (P : path) : option (EntryKind * Z) :=
  match P with
  | _ :: _ :: e :: _ =>
      match fst e with
      | TABLE8 | TABLE72 => Some e
      | _ => None
      end
  | _ => None
  end.

Definition prefix_of (P : path) : option (EntryKind * Z) :=
  find (fun x => match fst x with
                 | TABLE_PREFIX | TABLE_PREFIX_REP => true
                 | _ => false
                 end) P.

Definition vex_of (P : path) : option (EntryKind * Z) :=
  find (fun x => match fst x with TABLE_VEX => true | _ => false end) P.

Lemma form_pair (P Q : path) :
  kinds_form (List.map fst P) = true ->
  Forall2 (fun x y => fst x = fst y
                      /\ (fixed_kind (fst x) = true -> x = y)) P Q ->
  Forall level_ok P -> Forall level_ok Q ->
  exists x0 x1 y1 oe1 oe2 op ov1 ov2,
    P = mkpath x0 x1 oe1 op ov1 /\ Q = mkpath x0 y1 oe2 op ov2
    /\ level_ok x0
    /\ fst x1 = TABLE256 /\ fst y1 = TABLE256 /\ level_ok x1 /\ level_ok y1
    /\ ext_pair oe1 oe2 /\ prefix_level op /\ vex_pair ov1 ov2.
Proof.
  intros HK H2 HP HQ.
  exists (hd (NONE, 0) P), (nth 1 P (NONE, 0)), (nth 1 Q (NONE, 0)),
         (ext_of P), (ext_of Q), (prefix_of P), (vex_of P), (vex_of Q).
  destruct P as [|[k0 b0] P]; [discriminate|].
  destruct k0; try discriminate.
  destruct P as [|[k1 b1] P]; [discriminate|].
  destruct k1; try discriminate.
  inversion H2 as [|? [k0' b0'] ? Q1 [E0 F0] H2a]; subst.
  inversion H2a as [|? [k1' b1'] ? Q2 [E1 F1] H2b]; subst.
  cbn [fst snd] in *. subst k0' k1'. specialize (F0 eq_refl).
  injection F0 as <-.
  inversion HP as [|? ? L0 HP1]; subst. inversion HP1 as [|? ? L1 HP2]; subst.
  inversion HQ as [|? ? _ HQ1]; subst. inversion HQ1 as [|? ? M1 HQ2]; subst.
  clear H2 H2a HP HP1 HQ HQ1.
  destruct P as [|[k2 b2] P];
    [inversion H2b; subst; repeat split; cbn; auto|].
  destruct k2; try discriminate;
    inversion H2b as [|? [k2' b2'] ? Q3 [E2 F2] H2c]; subst;
    cbn [fst snd fixed_kind] in *; subst k2';
    inversion HP2 as [|? ? L2 HP3]; subst;
    inversion HQ2 as [|? ? M2 HQ3]; subst;
    (destruct P as [|[k3 b3] P];
     [inversion H2c; subst; repeat split; cbn; auto; try tauto;
      try (specialize (F2 eq_refl); injection F2 as <-; reflexivity)|]);
    destruct k3; try discriminate;
    inversion H2c as [|? [k3' b3'] ? Q4 [E3 F3] H2d]; subst;
    cbn [fst snd fixed_kind] in *; subst k3';
    inversion HP3 as [|? ? L3 HP4]; subst;
    inversion HQ3 as [|? ? M3 HQ4]; subst;
    (destruct P as [|[k4 b4] P];
     [inversion H2d; subst; repeat split; cbn; auto; try tauto;
      try (specialize (F2 eq_refl); injection F2 as <-; reflexivity);
      try (specialize (F3 eq_refl); injection F3 as <-; reflexivity)|]);
    destruct k4; try discriminate;
    inversion H2d as [|? [k4' b4'] ? Q5 [E4 F4] H2e]; subst;
    cbn [fst snd fixed_kind] in *; subst k4';
    inversion HP4 as [|? ? L4 HP5]; subst;
    inversion HQ4 as [|? ? M4 HQ5]; subst;
    (destruct P as [|[k5 b5] P]; [|destruct k5; discriminate]);
    inversion H2e; subst; repeat split; cbn; auto; try tauto;
    try (specialize (F3 eq_refl); injection F3 as <-; reflexivity).
Qed.

(** The levels of every pattern have these kinds, and the root and the
    prefix level take one byte. *)
Lemma levels_form (o : Opcode.t) (L : list (EntryKind * list Z)) :
  Opcode.levels o = Ok L ->
  kinds_form (List.map fst L) = true
  /\ Forall (fun lv => fixed_kind (fst lv) = true -> exists b, snd lv = [b]) L.
Proof.
  destruct o as [prefix escape opc opcext extended vex vexl rexw].
  unfold Opcode.levels.
  cbn [Opcode.prefix Opcode.escape Opcode.opc Opcode.opcext Opcode.extended
       Opcode.vex Opcode.vexl Opcode.rexw].
  destruct opcext as [[[|] v]|], extended, prefix as [[[|] pv]|];
    cbn [app rev bind Py.index];
    (destruct (Opcode.is_bit vexl || Opcode.is_bit rexw);
     [destruct (Opcode.bit_values 0 (Opcode.or_IG rexw)) as [rw|];
      [|discriminate];
      destruct (Opcode.bit_values 1 (Opcode.or_IG vexl)) as [vl|];
      [|discriminate]|]);
    cbn [bind]; intros H; injection H as <-;
    (split; [reflexivity|]);
    repeat (constructor; [cbn [fst snd fixed_kind]; intros;
                          try discriminate; eauto|]);
    constructor.
Qed.

Lemma same_fixed (L : list (EntryKind * list Z)) : forall P Q,
  Forall (fun lv => fixed_kind (fst lv) = true -> exists b, snd lv = [b]) L ->
  Forall2 (fun x lv => fst x = fst lv /\ In (snd x) (snd lv)) P L ->
  Forall2 (fun x lv => fst x = fst lv /\ In (snd x) (snd lv)) Q L ->
  Forall2 (fun x y => fst x = fst y /\ (fixed_kind (fst x) = true -> x = y))
          P Q.
Proof.
  induction L as [|lv L IH]; intros P Q HL HP HQ;
    inversion HP; inversion HQ; subst; constructor.
  - inversion HL as [|? ? Hf _]; subst.
    match goal with
    | H1 : fst ?x = fst lv /\ _, H2 : fst ?y = fst lv /\ _ |- _ =>
        destruct H1 as [K1 I1]; destruct H2 as [K2 I2];
        split; [congruence|]; intros Hk; rewrite K1 in Hk;
        destruct (Hf Hk) as [b Hb]; rewrite Hb in I1, I2;
        destruct I1 as [I1|[]]; destruct I2 as [I2|[]];
        destruct x, y; simpl in *; congruence
    end.
  - apply IH; [now inversion HL | assumption..].
Qed.

(** The paths of one pattern give the same name to two of their prefixes
    only when the prefixes are the same. *)
Lemma for_trie_names_inj (s : string) (o : Opcode.t) (paths : list path)
      (P Q : path) (j m : nat) :
  Opcode.parse s = Ok (Some o) -> plus_in_range o ->
  Opcode.for_trie o = Ok paths -> In P paths -> In Q paths ->
  (1 <= j)%nat -> (1 <= m)%nat ->
  fmt (firstn j P) = fmt (firstn m Q) -> firstn j P = firstn m Q.
Proof.
  intros Hp Hr Hf HP HQ Hj Hm E.
  destruct (levels_spec o (parse_canonical s o Hp)) as (L & HL & _ & Hok).
  { intros He. exact (parse_extended s o Hp He). }
  specialize (Hok Hr).
  unfold Opcode.for_trie in Hf. rewrite HL in Hf. cbn [bind] in Hf.
  injection Hf as <-.
  apply expansion_in in HP, HQ.
  destruct (levels_form o L HL) as [HK HF].
  pose proof (levels_ok_paths L P Hok HP) as WP.
  pose proof (levels_ok_paths L Q Hok HQ) as WQ.
  apply wf_path_parts in WP, WQ.
  destruct WP as (_ & LP & _). destruct WQ as (_ & LQ & _).
  assert (HKP : kinds_form (List.map fst P) = true).
  { replace (List.map fst P) with (List.map fst L); [exact HK|].
    clear -HP. induction HP as [|x lv P L [K _] _ IH]; [reflexivity|].
    simpl. now rewrite K, IH. }
  destruct (form_pair P Q HKP (same_fixed L P Q HF HP HQ) LP LQ)
    as (x0 & x1 & y1 & oe1 & oe2 & op & ov1 & ov2 & -> & -> & H0 & K1 & K2
        & L1 & L2 & He & Hpl & Hv).
  now apply mkpath_names_inj.
Qed.

(** ** What an insertion keeps *)

Section Same.

Variable n : nat.
Variable r : Z.
Variable Q : path.
Hypothesis HQ : Forall level_ok Q.

(** The walk along [Q] from its node of depth [m] sees the slot that it
    takes in that node and the nodes of [Q] below it, and nothing else. *)
Lemma reach_same (d d' : nodes) (qrest : path) : forall m tn e e',
  skipn m Q = qrest ->
  inv n d ->
  tn = pname r (firstn m Q) ->
  Py.get d tn = Some e ->
  TrieEntry.kind e = fst (hd (NONE, 0) qrest) ->
  Py.get d' tn = Some e' ->
  Py.index (TrieEntry.items e') (snd (hd (NONE, 0) qrest))
  = Py.index (TrieEntry.items e) (snd (hd (NONE, 0) qrest)) ->
  (forall m', (m < m')%nat ->
              Py.get d' (pname r (firstn m' Q))
              = Py.get d (pname r (firstn m' Q))) ->
  reach d' tn qrest = reach d tn qrest.
Proof.
  induction qrest as [|q0 qrest IH]; intros m tn e e' Hs Hinv Htn Hg Hk Hg'
                                            Hi Hsame; [reflexivity|].
  cbn [hd] in Hk, Hi. pose proof Hinv as (Hwf & Hnm & _).
  pose proof (slot_in_range Q HQ m q0 _ _ tn e Hs Hwf Hg Hk) as Hb.
  destruct (firstn_S_skipn Q m q0 _ Hs) as [Hf Hs1].
  assert (Hc : child d' tn (snd q0) = child d tn (snd q0))
    by (unfold child; now rewrite Hg, Hg', Hi).
  assert (Hname : forall c, child d tn (snd q0) = Some c ->
                            c = pname r (firstn (S m) Q)).
  { intros c H. unfold child in H. rewrite Hg in H.
    destruct (Py.index (TrieEntry.items e) (snd q0)) as [[c0|]|] eqn:E;
      try discriminate.
    injection H as ->. rewrite Hf.
    replace q0 with (TrieEntry.kind e, snd q0)
      by (destruct q0; simpl in *; congruence).
    apply (Hnm tn e (snd q0) c r (firstn m Q) Hg Hb E);
      [now apply Forall_firstn | exact Htn]. }
  destruct qrest as [|q1 qrest].
  - destruct q0 as [k0 b0]. cbn [reach snd] in *. rewrite Hc.
    destruct (child d tn b0) as [c|] eqn:Ec; [|reflexivity].
    rewrite (Hname c eq_refl). apply Hsame. lia.
  - rewrite !reach_cons, Hc.
    destruct (child d tn (snd q0)) as [c|] eqn:Ec; [|reflexivity].
    pose proof (Hname c eq_refl) as Hcn.
    assert (Hgc : Py.get d' c = Py.get d c)
      by (rewrite Hcn; apply Hsame; lia).
    rewrite Hgc. destruct (Py.get d c) as [e1|] eqn:Eg1; [|reflexivity].
    destruct (EntryKind_eqb (TrieEntry.kind e1) (fst q1)) eqn:Ek;
      [|reflexivity].
    apply EntryKind_eqb_eq in Ek.
    apply (IH (S m) c e1 e1); try assumption; try reflexivity.
    intros m' Hm'. apply Hsame. lia.
Qed.

End Same.

Section Slots.

Variable n : nat.
Variable root_idx : Z.
Variable opcode : path.
Variable name : string.
Variable v : TrieEntry.t.
Hypothesis Hlevels : Forall level_ok opcode.
Hypothesis Hinner : Forall (fun x => fst x <> TABLE_ROOT) (tl opcode).
Hypothesis Hname : name = pname root_idx opcode.
Hypothesis Hleaf : leaf v.

(** The step of the walk leaves the other slots of the node alone. *)
Lemma descend_slots (i : nat) (x0 x1 : EntryKind * Z) (rest : path)
      (tn : string) (self : Table.t) (e : TrieEntry.t)
      (item : option string) (c : string) (self1 : Table.t) :
  skipn i opcode = x0 :: x1 :: rest ->
  inv n (Table.data self) ->
  tn = pname root_idx (firstn i opcode) ->
  Py.get (Table.data self) tn = Some e ->
  TrieEntry.kind e = fst x0 ->
  Py.index (TrieEntry.items e) (snd x0) = Ok item ->
  descend root_idx opcode i tn (snd x0) (fst x1) self item = Ok (c, self1) ->
  forall et b,
    Py.get (Table.data self1) tn = Some et ->
    0 <= b < Py.len (TrieEntry.items e) -> b <> snd x0 ->
    Py.index (TrieEntry.items et) b = Py.index (TrieEntry.items e) b.
Proof.
  intros Hs Hinv Htn Hg Hk Hi Hd et b Hget Hb Hne.
  pose proof Hinv as (Hwf & Hnm & Hr).
  pose proof (slot_in_range opcode Hlevels i x0 _ _ tn e Hs Hwf Hg Hk) as Hb0.
  destruct (prefix_next root_idx opcode Hlevels i x0 _ Hs) as (Hf & Hpn & Hfo).
  destruct item as [c0|]; cbn [descend] in Hd.
  - injection Hd as <- <-. congruence.
  - rewrite Nat.add_1_r, Hfo in Hd. cbn [bind] in Hd.
    assert (Hs1 : skipn (S i) opcode = x1 :: rest)
      by (apply (firstn_S_skipn opcode i x0 _ Hs)).
    destruct (level_in opcode Hlevels (S i) x1 rest Hs1) as (n1 & Hn1 & _).
    unfold TrieEntry.table in Hd. rewrite Hn1 in Hd.
    cbn [from_option bind] in Hd. rewrite <- Hpn in Hd.
    destruct (Table._update_table _ _ _ _ _) as [t1|] eqn:Hu;
      [|discriminate]. cbn [bind] in Hd. injection Hd as <- <-.
    assert (Hneq : pname root_idx (firstn (S i) opcode) <> tn).
    { rewrite Htn. intros E. symmetry in E. revert E.
      apply (prefix_neq root_idx opcode Hlevels Hinner i (S i) x0 _ Hs). lia. }
    destruct (update_table_link self tn (snd x0) _ _ e t1 Hwf Hg Hb0 Hneq Hu)
      as [_ Hdata].
    rewrite Hdata, get_link, String.eqb_refl in Hget. injection Hget as <-.
    rewrite update_index by exact Hb.
    now rewrite (proj2 (Z.eqb_neq b (snd x0)) Hne).
Qed.

(** An insertion changes one slot of a node on its path at most. *)
Lemma finish_slots (rest : path) (i : nat) (tn : string) (self : Table.t)
      (e : TrieEntry.t) (t2 : Table.t) :
  skipn i opcode = rest -> rest <> [] ->
  inv n (Table.data self) ->
  tn = pname root_idx (firstn i opcode) ->
  Py.get (Table.data self) tn = Some e ->
  TrieEntry.kind e = fst (hd (NONE, 0) rest) ->
  finish root_idx opcode i rest tn self name v = Ok t2 ->
  exists e', Py.get (Table.data t2) tn = Some e'
             /\ forall b, 0 <= b < Py.len (TrieEntry.items e) ->
                          b <> snd (hd (NONE, 0) rest) ->
                          Py.index (TrieEntry.items e') b
                          = Py.index (TrieEntry.items e) b.
Proof.
  intros Hs Hne Hinv Htn Hg Hk Hfin.
  destruct rest as [|x0 rest]; [congruence|]. cbn [hd] in *.
  destruct rest as [|x1 rest].
  - destruct (finish_last n root_idx opcode name v Hlevels Hinner Hname Hleaf
                          i x0 tn self e t2 Hs Hinv Htn Hg Hk Hfin)
      as (Hn & Hnt & Hb & Hinv2 & Hdata).
    rewrite Hdata, get_link, String.eqb_refl. eexists. split; [reflexivity|].
    intros b Hb' Hbne. rewrite update_index by exact Hb'.
    now rewrite (proj2 (Z.eqb_neq b (snd x0)) Hbne).
  - pose proof Hinv as (Hwf & Hnm & Hr).
    pose proof (slot_in_range opcode Hlevels i x0 _ _ tn e Hs Hwf Hg Hk) as Hb.
    destruct (index_ok _ _ Hb) as (item & Hi & _).
    assert (Hs1 : skipn (S i) opcode = x1 :: rest)
      by (apply (firstn_S_skipn opcode i x0 _ Hs)).
    unfold finish in Hfin. rewrite walk_descend in Hfin.
    unfold Py.getitem at 1 in Hfin. rewrite Hg in Hfin.
    cbn [from_option bind] in Hfin. rewrite Hi in Hfin. cbn [bind] in Hfin.
    destruct (descend root_idx opcode i tn (snd x0) (fst x1) self item)
      as [[c self1]|] eqn:Hd; [|discriminate]. cbn [bind] in Hfin.
    unfold Py.getitem at 1 in Hfin.
    destruct (Py.get (Table.data self1) c) as [e1|] eqn:Hg1; [|discriminate].
    cbn [from_option bind] in Hfin.
    destruct (EntryKind_eqb (TrieEntry.kind e1) (fst x1)) eqn:Ek;
      [|discriminate]. cbn [negb] in Hfin.
    apply EntryKind_eqb_eq in Ek.
    destruct (descend_spec n root_idx opcode Hlevels Hinner i x0 x1 rest tn
                           self e item c self1 Hs Hinv Htn Hg Hk Hi Hd)
      as (Hc & Hinv1 & (et & Hget & Hket & Hiet) & Hframe1).
    destruct (finish_spec n root_idx opcode name v Hlevels Hinner Hname Hleaf
                          (x1 :: rest) (S i) c self1 e1 t2 Hs1
                          ltac:(discriminate) Hinv1 Hc Hg1 Ek Hfin)
      as (_ & _ & _ & _ & Hframe2).
    exists et. split.
    + rewrite Hframe2; [exact Hget|]. intros j Hj. rewrite Htn.
      apply (prefix_neq root_idx opcode Hlevels Hinner i j x0 _ Hs). lia.
    + intros b Hb' Hbne.
      exact (descend_slots i x0 x1 rest tn self e item c self1 Hs Hinv Htn
                           Hg Hk Hi Hd et b Hget Hb' Hbne).
Qed.

End Slots.

Section Keep.

Variable n : nat.
Variable root_idx : Z.
Variable opcode : path.
Variable name : string.
Variable v : TrieEntry.t.
Hypothesis Hlevels : Forall level_ok opcode.
Hypothesis Hinner : Forall (fun x => fst x <> TABLE_ROOT) (tl opcode).
Hypothesis Hname : name = pname root_idx opcode.
Hypothesis Hleaf : leaf v.

Variable Q : path.
Variable w0 : list word.
Hypothesis HQ : Forall level_ok Q.
Hypothesis HQinner : Forall (fun x => fst x <> TABLE_ROOT) (tl Q).

(** No prefix of the inserted path has the name of another prefix of
    [Q]. *)
Hypothesis Hcond : forall j m,
  (1 <= j <= List.length opcode)%nat -> (1 <= m <= List.length Q)%nat ->
  pname root_idx (firstn j opcode) = pname root_idx (firstn m Q) ->
  firstn j opcode = firstn m Q.

Lemma skipn_length_lt {A} (l : list A) (i : nat) (x : A) (rest : list A) :
  skipn i l = x :: rest -> (i < List.length l)%nat.
Proof.
  intros H. destruct (Nat.lt_ge_cases i (List.length l)) as [Hlt|Hge];
    [exact Hlt|].
  rewrite skipn_all2 in H by exact Hge. discriminate.
Qed.

Lemma skipn_nth {A} (l : list A) (i : nat) (x : A) (rest : list A) :
  skipn i l = x :: rest -> nth_error l i = Some x.
Proof.
  revert i. induction l as [|y l IH]; intros [|i] H; simpl in *;
    try discriminate; [now injection H as -> _ | now apply IH].
Qed.

(** A node of [Q] below the place where the two paths part is not on the
    inserted path. *)
Lemma parted_names (i : nat) (x0 q0 : EntryKind * Z) (rest qrest : path)
      (m j : nat) :
  skipn i opcode = x0 :: rest -> skipn i Q = q0 :: qrest ->
  firstn i Q = firstn i opcode -> x0 <> q0 ->
  (i < m)%nat -> (i <= j)%nat ->
  pname root_idx (firstn m Q) <> pname root_idx (firstn j opcode).
Proof.
  intros Hs Hq Hf Hne Hm Hj E.
  pose proof (skipn_length_lt _ _ _ _ Hs) as Hl.
  pose proof (skipn_length_lt _ _ _ _ Hq) as Hlq.
  destruct (Nat.eq_dec j i) as [->|Hji].
  - rewrite <- Hf in E. symmetry in E. revert E.
    now apply (prefix_neq root_idx Q HQ HQinner i m q0 qrest Hq).
  - set (j' := Nat.min j (List.length opcode)).
    set (m' := Nat.min m (List.length Q)).
    assert (Ej : firstn j opcode = firstn j' opcode).
    { unfold j'. destruct (Nat.le_ge_cases j (List.length opcode)).
      - now rewrite Nat.min_l.
      - rewrite Nat.min_r by assumption.
        now rewrite !firstn_all2 by lia. }
    assert (Em : firstn m Q = firstn m' Q).
    { unfold m'. destruct (Nat.le_ge_cases m (List.length Q)).
      - now rewrite Nat.min_l.
      - rewrite Nat.min_r by assumption.
        now rewrite !firstn_all2 by lia. }
    rewrite Ej, Em in E. symmetry in E.
    apply Hcond in E; [|unfold j'; lia | unfold m'; lia].
    apply (f_equal (fun l => nth_error l i)) in E.
    rewrite !nth_error_firstn in E.
    destruct (Nat.ltb_spec i j'); [|unfold j' in *; lia].
    destruct (Nat.ltb_spec i m'); [|unfold m' in *; lia].
    rewrite (skipn_nth _ _ _ _ Hs), (skipn_nth _ _ _ _ Hq) in E.
    congruence.
Qed.

(** The terminal of a successful insertion found its slot empty. *)
Lemma finish_last_empty (i : nat) (x0 : EntryKind * Z) (tn : string)
      (self : Table.t) (e : TrieEntry.t) (t2 : Table.t) :
  skipn i opcode = [x0] ->
  inv n (Table.data self) ->
  tn = pname root_idx (firstn i opcode) ->
  Py.get (Table.data self) tn = Some e ->
  TrieEntry.kind e = fst x0 ->
  finish root_idx opcode i [x0] tn self name v = Ok t2 ->
  child (Table.data self) tn (snd x0) = None.
Proof.
  intros Hs Hinv Htn Hg Hk Hfin. pose proof Hinv as (Hwf & Hnm & Hr).
  pose proof (slot_in_range opcode Hlevels i x0 _ _ tn e Hs Hwf Hg Hk) as Hb.
  destruct (finish_last n root_idx opcode name v Hlevels Hinner Hname Hleaf
                        i x0 tn self e t2 Hs Hinv Htn Hg Hk Hfin)
    as (Hn & Hnt & _ & _ & _).
  unfold finish in Hfin.
  assert (Hw : Table.walk root_idx opcode i [x0] tn self = Ok (tn, self))
    by (destruct x0; reflexivity).
  rewrite Hw in Hfin. cbn [bind] in Hfin.
  assert (Hnil : opcode <> []).
  { intros E. rewrite E in Hs. destruct i; discriminate. }
  rewrite (index_last opcode (NONE, 0) Hnil) in Hfin. cbn [bind] in Hfin.
  destruct (firstn_S_skipn opcode i x0 _ Hs) as [Hf _].
  assert (Hlast : last opcode (NONE, 0) = x0).
  { rewrite <- (firstn_skipn i opcode), Hs. apply last_last. }
  rewrite Hlast in Hfin.
  destruct (update_table_link self tn (snd x0) _ _ e t2 Hwf Hg Hb Hnt Hfin)
    as [Hi _].
  unfold child. now rewrite Hg, Hi.
Qed.

(** An insertion keeps the instruction that [Q] leads to, from every node
    that the two paths share. *)
Lemma finish_keeps (rest : path) : forall i tn self e t2 qrest,
  skipn i opcode = rest -> rest <> [] ->
  inv n (Table.data self) ->
  tn = pname root_idx (firstn i opcode) ->
  Py.get (Table.data self) tn = Some e ->
  TrieEntry.kind e = fst (hd (NONE, 0) rest) ->
  finish root_idx opcode i rest tn self name v = Ok t2 ->
  firstn i Q = firstn i opcode -> skipn i Q = qrest ->
  TrieEntry.kind e = fst (hd (NONE, 0) qrest) ->
  reach (Table.data self) tn qrest = Some (TrieEntry.instr w0) ->
  reach (Table.data t2) tn qrest = Some (TrieEntry.instr w0).
Proof.
  induction rest as [|x0 rest IH];
    intros i tn self e t2 qrest Hs Hne Hinv Htn Hg Hk Hfin Hf Hq Hkq Hreach;
    [congruence|].
  destruct qrest as [|q0 qrest]; [discriminate Hreach|].
  cbn [hd] in Hk, Hkq. pose proof Hinv as (Hwf & Hnm & Hr).
  destruct (finish_spec n root_idx opcode name v Hlevels Hinner Hname Hleaf
                        (x0 :: rest) i tn self e t2 Hs Hne Hinv Htn Hg Hk
                        Hfin)
    as (Hinv2 & (e2 & Hg2 & Hk2) & _ & _ & Hframe).
  destruct (finish_slots n root_idx opcode name v Hlevels Hinner Hname Hleaf
                         (x0 :: rest) i tn self e t2 Hs Hne Hinv Htn Hg Hk
                         Hfin)
    as (e2' & Hg2' & Hslots).
  rewrite Hg2 in Hg2'. injection Hg2' as <-. cbn [hd] in Hslots.
  pose proof (slot_in_range Q HQ i q0 _ _ tn e Hq Hwf Hg Hkq) as Hbq.
  destruct (Z.eq_dec (snd q0) (snd x0)) as [Eb|Nb].
  - (* the two paths take the same slot *)
    assert (Eq : q0 = x0) by (destruct q0, x0; simpl in *; congruence).
    subst q0.
    destruct (child (Table.data self) tn (snd x0)) as [c|] eqn:Ec.
    2:{ destruct qrest as [|q1 qrest].
        - destruct x0 as [k0 b0]. cbn [reach snd] in Hreach, Ec.
          rewrite Ec in Hreach. discriminate.
        - rewrite reach_cons, Ec in Hreach. discriminate. }
    destruct rest as [|x1 rest].
    { rewrite (finish_last_empty i x0 tn self e t2 Hs Hinv Htn Hg Hk Hfin)
        in Ec. discriminate. }
    assert (Hs1 : skipn (S i) opcode = x1 :: rest)
      by (apply (firstn_S_skipn opcode i x0 _ Hs)).
    assert (Hq1 : skipn (S i) Q = qrest)
      by (apply (firstn_S_skipn Q i x0 _ Hq)).
    assert (Hf1 : firstn (S i) Q = firstn (S i) opcode).
    { rewrite (proj1 (firstn_S_skipn Q i x0 _ Hq)),
              (proj1 (firstn_S_skipn opcode i x0 _ Hs)). now rewrite Hf. }
    pose proof (slot_in_range opcode Hlevels i x0 _ _ tn e Hs Hwf Hg Hk) as Hb.
    assert (Hi : Py.index (TrieEntry.items e) (snd x0) = Ok (Some c)).
    { unfold child in Ec. rewrite Hg in Ec.
      destruct (Py.index (TrieEntry.items e) (snd x0)) as [[c0|]|];
        try discriminate. now injection Ec as ->. }
    pose proof Hfin as Hfin0.
    unfold finish in Hfin. rewrite walk_descend in Hfin.
    unfold Py.getitem at 1 in Hfin. rewrite Hg in Hfin.
    cbn [from_option bind] in Hfin. rewrite Hi in Hfin.
    cbn [bind descend] in Hfin.
    unfold Py.getitem at 1 in Hfin.
    destruct (Py.get (Table.data self) c) as [e1|] eqn:Hg1; [|discriminate].
    cbn [from_option bind] in Hfin.
    destruct (EntryKind_eqb (TrieEntry.kind e1) (fst x1)) eqn:Ek;
      [|discriminate]. cbn [negb] in Hfin.
    apply EntryKind_eqb_eq in Ek.
    destruct (descend_spec n root_idx opcode Hlevels Hinner i x0 x1 rest tn
                           self e (Some c) c self Hs Hinv Htn Hg Hk Hi
                           eq_refl)
      as (Hc & _ & _ & _).
    destruct (level_in opcode Hlevels (S i) x1 rest Hs1) as (n1 & Hn1 & _).
    destruct qrest as [|q1 qrest].
    { destruct x0 as [k0 b0]. cbn [reach snd] in Hreach.
      cbn [snd] in Ec. rewrite Ec, Hg1 in Hreach. injection Hreach as ->.
      cbn [TrieEntry.instr TrieEntry.kind] in Ek. rewrite <- Ek in Hn1.
      discriminate. }
    rewrite reach_cons, Ec, Hg1 in Hreach.
    destruct (EntryKind_eqb (TrieEntry.kind e1) (fst q1)) eqn:Ekq;
      [|discriminate].
    apply EntryKind_eqb_eq in Ekq.
    pose proof (IH (S i) c self e1 t2 (q1 :: qrest) Hs1 ltac:(discriminate)
                   Hinv Hc Hg1 Ek Hfin Hf1 Hq1 Ekq Hreach) as Hkeep.
    destruct (finish_spec n root_idx opcode name v Hlevels Hinner Hname Hleaf
                          (x1 :: rest) (S i) c self e1 t2 Hs1
                          ltac:(discriminate) Hinv Hc Hg1 Ek Hfin)
      as (_ & (e1' & Hg1' & Hk1') & _ & _ & Hframe1).
    assert (Hgt : Py.get (Table.data t2) tn = Some e).
    { rewrite Hframe1; [exact Hg|]. intros j Hj. rewrite Htn.
      apply (prefix_neq root_idx opcode Hlevels Hinner i j x0 _ Hs). lia. }
    rewrite reach_cons. unfold child. rewrite Hgt, Hi, Hg1', Hk1', Ekq.
    rewrite (proj2 (EntryKind_eqb_eq _ _) eq_refl). exact Hkeep.
  - (* the two paths part here *)
    rewrite <- Hreach.
    apply (reach_same n root_idx Q HQ (Table.data self) (Table.data t2)
                      (q0 :: qrest) i tn e e2); try assumption.
    + now rewrite Hf.
    + cbn [hd]. apply Hslots; [exact Hbq | exact Nb].
    + intros m' Hm'. apply Hframe. intros j Hj.
      apply (parted_names i x0 q0 rest qrest m' j); try assumption.
      intros E. apply Nb. now rewrite E.
Qed.

End Keep.

(** The names of the nodes of one root: the root and the nodes named after
    it. *)
Definition family (r : Z) (x : string) : Prop :=
  x = Table.root_name r \/ exists s, x = Table.node_name r s.

Lemma pname_family (r : Z) (l : path) : family r (pname r l).
Proof. destruct l; [now left | right; eexists; reflexivity]. Qed.

Lemma root_name_inj (r r' : Z) :
  0 <= r -> 0 <= r' -> Table.root_name r = Table.root_name r' -> r = r'.
Proof.
  intros H H' E. unfold Table.root_name in E.
  apply append_inj_l in E. now apply dec_inj.
Qed.

(** Two roots share no name. *)
Lemma family_disjoint (r r' : Z) (x : string) :
  0 <= r -> 0 <= r' -> family r x -> family r' x -> r = r'.
Proof.
  intros H H' [->|[s ->]] [E|[s' E]].
  - now apply root_name_inj.
  - symmetry in E. now apply pname_root_neq in E.
  - now apply pname_root_neq in E.
  - apply node_name_inj in E. destruct E as [E _]. now apply dec_inj.
Qed.

(** The walk from a root sees the nodes of the root only. *)
Lemma reach_family (n : nat) (r : Z) (Q : path) (d d' : nodes) :
  inv n d -> wf_path Q -> 0 <= r < Z.of_nat n ->
  (forall x, family r x -> Py.get d' x = Py.get d x) ->
  reach d' (Table.root_name r) Q = reach d (Table.root_name r) Q.
Proof.
  intros Hinv HQ Hr Hsame.
  destruct (wf_path_parts Q HQ) as (Hne & Hlevels & Hinner & Hroot).
  destruct (proj2 (proj2 Hinv) r Hr) as (e & Hg & Hk).
  apply (reach_same n r Q Hlevels d d' Q 0 (Table.root_name r) e e);
    try assumption; try reflexivity.
  - now rewrite Hk, Hroot.
  - rewrite Hsame; [exact Hg | now left].
  - intros m' _. apply Hsame, pname_family.
Qed.

(** An insertion under a root changes nodes of that root only. *)
Lemma add_opcode_frame (n : nat) (t : Table.t) (opcode : path)
      (w : list word) (root_idx : Z) (t' : Table.t) :
  inv n (Table.data t) -> wf_path opcode -> 0 <= root_idx < Z.of_nat n ->
  Table.add_opcode t opcode w root_idx = Ok t' ->
  forall r x, 0 <= r -> r <> root_idx -> family r x ->
              Py.get (Table.data t') x = Py.get (Table.data t) x.
Proof.
  intros Hinv Hwf Hr Hadd r x Hr0 Hne Hx.
  destruct (wf_path_parts opcode Hwf) as (Hnil & Hlevels & Hinner & Hroot).
  destruct (proj2 (proj2 Hinv) root_idx Hr) as (e & Hg & Hk).
  rewrite add_opcode_finish in Hadd.
  destruct (fmt_parts opcode Hlevels) as (cp & cs & _ & _ & _ & E1 & E2).
  rewrite E1, <- E2 in Hadd. cbn [bind] in Hadd.
  assert (Hname : Table.node_name root_idx (fmt opcode) = pname root_idx opcode)
    by (destruct opcode; [congruence | reflexivity]).
  destruct (finish_spec n root_idx opcode _ _ Hlevels Hinner Hname
                        (leaf_instr w) opcode 0 (Table.root_name root_idx)
                        t e t' eq_refl Hnil Hinv eq_refl Hg
                        ltac:(now rewrite Hk, Hroot) Hadd)
    as (_ & _ & _ & _ & Hframe).
  apply Hframe. intros j _ E. apply Hne.
  apply (family_disjoint r root_idx x); try lia; [exact Hx|].
  rewrite E. apply pname_family.
Qed.

(** An insertion keeps the instructions that other paths under its root
    lead to, when it names none of their nodes. *)
Lemma add_opcode_keeps (n : nat) (t : Table.t) (opcode : path)
      (w : list word) (root_idx : Z) (t' : Table.t) (Q : path)
      (w0 : list word) :
  inv n (Table.data t) -> wf_path opcode -> wf_path Q ->
  0 <= root_idx < Z.of_nat n ->
  Table.add_opcode t opcode w root_idx = Ok t' ->
  (forall j m, (1 <= j)%nat -> (1 <= m)%nat ->
               fmt (firstn j opcode) = fmt (firstn m Q) ->
               firstn j opcode = firstn m Q) ->
  reach (Table.data t) (Table.root_name root_idx) Q
  = Some (TrieEntry.instr w0) ->
  reach (Table.data t') (Table.root_name root_idx) Q
  = Some (TrieEntry.instr w0).
Proof.
  intros Hinv Hwf HQ Hr Hadd Hinj Hreach.
  destruct (wf_path_parts opcode Hwf) as (Hnil & Hlevels & Hinner & Hroot).
  destruct (wf_path_parts Q HQ) as (HQnil & HQl & HQi & HQroot).
  destruct (proj2 (proj2 Hinv) root_idx Hr) as (e & Hg & Hk).
  rewrite add_opcode_finish in Hadd.
  destruct (fmt_parts opcode Hlevels) as (cp & cs & _ & _ & _ & E1 & E2).
  rewrite E1, <- E2 in Hadd. cbn [bind] in Hadd.
  assert (Hname : Table.node_name root_idx (fmt opcode) = pname root_idx opcode)
    by (destruct opcode; [congruence | reflexivity]).
  apply (finish_keeps n root_idx opcode _ _ Hlevels Hinner Hname
                      (leaf_instr w) Q w0 HQl HQi) with
    (rest := opcode) (i := 0%nat) (self := t) (e := e);
    try assumption; try reflexivity.
  - intros j m [Hj _] [Hm _] E. apply Hinj; try assumption.
    destruct opcode as [|x0 P]; [congruence|].
    destruct Q as [|q0 Q]; [congruence|].
    destruct j as [|j]; [lia|]. destruct m as [|m]; [lia|].
    cbn [firstn pname] in E. apply node_name_inj in E. exact (proj2 E).
  - now rewrite Hk, Hroot.
  - now rewrite Hk, HQroot.
Qed.

(** ** The roots that an entry goes into *)

(** No prefix of [P] has the name of another prefix of [Q]. *)
Definition names_apart (P Q : path) : Prop :=
  forall j m, (1 <= j)%nat -> (1 <= m)%nat ->
              fmt (firstn j P) = fmt (firstn m Q) ->
              firstn j P = firstn m Q.

Lemma insert_reach (n : nat) (t : Table.t) (opcode : path) (w : list word)
      (root_idx : Z) (t' : Table.t) :
  inv n (Table.data t) -> wf_path opcode -> 0 <= root_idx < Z.of_nat n ->
  Table.add_opcode t opcode w root_idx = Ok t' ->
  reach (Table.data t') (Table.root_name root_idx) opcode
  = Some (TrieEntry.instr w).
Proof.
  intros Hinv Hwf Hr Hadd.
  destruct (wf_path_parts opcode Hwf) as (Hne & Hlevels & Hinner & Hroot).
  destruct (proj2 (proj2 Hinv) root_idx Hr) as (e & Hg & Hk).
  rewrite add_opcode_finish in Hadd.
  destruct (fmt_parts opcode Hlevels) as (cp & cs & _ & _ & _ & E1 & E2).
  rewrite E1, <- E2 in Hadd. cbn [bind] in Hadd.
  assert (Hname : Table.node_name root_idx (fmt opcode) = pname root_idx opcode)
    by (destruct opcode; [congruence | reflexivity]).
  exact (finish_reach n root_idx opcode _ _ Hlevels Hinner Hname
                      (leaf_instr w) opcode 0 (Table.root_name root_idx)
                      t e t' eq_refl Hne Hinv eq_refl Hg
                      ltac:(now rewrite Hk, Hroot) Hadd).
Qed.

Section Entry.

Variable n : nat.
Variable desc : InstrDesc.t.
Variable enc : list word.
Hypothesis Henc : InstrDesc.encode desc = Ok enc.

(** The loop over the paths of an entry, for one root: every path leads
    to the record afterwards, what other paths led to is kept, and the
    nodes of the other roots are as before. *)
Lemma add_paths_spec (i : Z) (paths : list path) : forall t t',
  0 <= i < Z.of_nat n ->
  inv n (Table.data t) -> Forall wf_path paths ->
  (forall P Q, In P paths -> In Q paths -> names_apart P Q) ->
  Main.add_paths t paths desc i = Ok t' ->
  inv n (Table.data t')
  /\ (forall p, In p paths ->
                reach (Table.data t') (Table.root_name i) p
                = Some (TrieEntry.instr enc))
  /\ (forall Q w0,
        wf_path Q -> (forall P, In P paths -> names_apart P Q) ->
        reach (Table.data t) (Table.root_name i) Q
        = Some (TrieEntry.instr w0) ->
        reach (Table.data t') (Table.root_name i) Q
        = Some (TrieEntry.instr w0))
  /\ (forall r x, 0 <= r -> r <> i -> family r x ->
                  Py.get (Table.data t') x = Py.get (Table.data t) x).
Proof.
  induction paths as [|p paths IH]; intros t t' Hi Hinv Hwf Hap Hadd.
  - simpl in Hadd. injection Hadd as <-.
    split; [exact Hinv|]. split; [intros p []|]. split; auto.
  - cbn [Main.add_paths] in Hadd. rewrite Henc in Hadd. cbn [bind] in Hadd.
    destruct (Table.add_opcode t p enc i) as [t1|] eqn:E1; [|discriminate].
    cbn [bind] in Hadd.
    inversion Hwf as [|? ? Hp Hps]; subst.
    destruct (add_opcode_inv n t p enc i t1 Hinv Hp Hi E1) as [Hinv1 _].
    destruct (IH t1 t' Hi Hinv1 Hps
                 ltac:(intros P Q HP HQ; apply Hap; now right) Hadd)
      as (Hinv' & Hall & Hkeep & Hframe).
    split; [exact Hinv'|]. split; [|split].
    + intros q [<-|Hq]; [|now apply Hall].
      apply Hkeep; [exact Hp | |].
      * intros P HP. apply Hap; [now right | now left].
      * exact (insert_reach n t p enc i t1 Hinv Hp Hi E1).
    + intros Q w0 HQ HapQ Hreach. apply Hkeep; [exact HQ | |].
      * intros P HP. apply HapQ. now right.
      * apply (add_opcode_keeps n t p enc i t1 Q w0); try assumption.
        apply HapQ. now left.
    + intros r x Hr Hne Hx. rewrite (Hframe r x Hr Hne Hx).
      exact (add_opcode_frame n t p enc i t1 Hinv Hp Hi E1 r x Hr Hne Hx).
Qed.

Variable o : Opcode.t.
Variable paths : list path.
Hypothesis Hpaths : Opcode.for_trie o = Ok paths.
Hypothesis Hwf : Forall wf_path paths.
Hypothesis Hapart : forall P Q, In P paths -> In Q paths -> names_apart P Q.

(** The loop over the modes, from the root [i0] on: the roots of the
    modes that the filter selects hold every path of the entry, and the
    nodes of every other root are as before. *)
Lemma add_entry_spec (modes : list Z) : forall i0 t t',
  0 <= i0 -> i0 + Z.of_nat (List.length modes) <= Z.of_nat n ->
  inv n (Table.data t) ->
  Main.add_entry t (Some o) desc i0 modes = Ok t' ->
  inv n (Table.data t')
  /\ (forall r x,
        0 <= r -> r < i0 \/ i0 + Z.of_nat (List.length modes) <= r ->
        family r x -> Py.get (Table.data t') x = Py.get (Table.data t) x)
  /\ (forall k mode,
        nth_error modes k = Some mode ->
        if Main.selected mode desc
        then forall p, In p paths ->
               reach (Table.data t') (Table.root_name (i0 + Z.of_nat k)) p
               = Some (TrieEntry.instr enc)
        else forall x, family (i0 + Z.of_nat k) x ->
               Py.get (Table.data t') x = Py.get (Table.data t) x).
Proof.
  induction modes as [|mode modes IH]; intros i0 t t' H0 Hn Hinv Hadd.
  - simpl in Hadd. injection Hadd as <-.
    split; [exact Hinv|]. split; [reflexivity|].
    intros [|k] mode H; discriminate H.
  - cbn [Main.add_entry] in Hadd. cbn [List.length] in Hn.
    assert (Hi0 : 0 <= i0 < Z.of_nat n) by lia.
    destruct (Main.selected mode desc) eqn:Esel.
    + cbn [from_option bind] in Hadd. rewrite Hpaths in Hadd.
      cbn [bind] in Hadd.
      destruct (Main.add_paths t paths desc i0) as [t1|] eqn:E1;
        [|discriminate].
      cbn [bind] in Hadd.
      destruct (add_paths_spec i0 paths t t1 Hi0 Hinv Hwf Hapart E1)
        as (Hinv1 & Hall & _ & Hframe1).
      destruct (IH (i0 + 1) t1 t' ltac:(lia) ltac:(lia) Hinv1 Hadd)
        as (Hinv' & Hframe & Hmodes).
      split; [exact Hinv'|]. split; [|].
      * intros r x Hr Hout Hx. cbn [List.length] in Hout.
        rewrite (Hframe r x Hr ltac:(lia) Hx).
        apply (Hframe1 r x Hr ltac:(lia) Hx).
      * intros [|k] m Hk.
        -- injection Hk as <-. rewrite Esel. rewrite Z.add_0_r.
           intros p Hp. rewrite <- (Hall p Hp).
           apply (reach_family n i0 p); try assumption.
           ++ rewrite Forall_forall in Hwf. now apply Hwf.
           ++ intros x Hx. apply (Hframe i0 x); [lia | lia | exact Hx].
        -- specialize (Hmodes k m Hk).
           replace (i0 + Z.of_nat (S k)) with (i0 + 1 + Z.of_nat k) by lia.
           destruct (Main.selected m desc); [exact Hmodes|].
           intros x Hx. rewrite (Hmodes x Hx).
           apply (Hframe1 (i0 + 1 + Z.of_nat k) x); [lia | lia | exact Hx].
    + cbn [bind] in Hadd.
      destruct (IH (i0 + 1) t t' ltac:(lia) ltac:(lia) Hinv Hadd)
        as (Hinv' & Hframe & Hmodes).
      split; [exact Hinv'|]. split; [|].
      * intros r x Hr Hout Hx. cbn [List.length] in Hout.
        apply (Hframe r x Hr); [lia | exact Hx].
      * intros [|k] m Hk.
        -- injection Hk as <-. rewrite Esel. rewrite Z.add_0_r.
           intros x Hx. apply (Hframe i0 x); [lia | lia | exact Hx].
        -- specialize (Hmodes k m Hk).
           replace (i0 + Z.of_nat (S k)) with (i0 + 1 + Z.of_nat k) by lia.
           exact Hmodes.
Qed.

End Entry.

Lemma for_trie_wf (s : string) (o : Opcode.t) (paths : list path) :
  Opcode.parse s = Ok (Some o) -> plus_in_range o ->
  Opcode.for_trie o = Ok paths -> Forall wf_path paths.
Proof.
  intros Hp Hr Hf.
  destruct (levels_spec o (parse_canonical s o Hp)) as (L & HL & _ & Hok).
  { intros He. exact (parse_extended s o Hp He). }
  unfold Opcode.for_trie in Hf. rewrite HL in Hf. cbn [bind] in Hf.
  injection Hf as <-. apply Forall_forall. intros p Hin.
  apply (levels_ok_paths L p (Hok Hr)). now apply expansion_in.
Qed.

(** C7 (as the code has it).  The driver puts the paths of an entry under
    the roots of the modes that pass the test
    ['ONLY%d' % (96 - mode) not in flags], and under no other root.  When
    the loop over the modes returns, then for the root of every requested
    mode: the root of a 32-bit mode holds every path of the entry, each
    leading to the record of the descriptor, unless the flags contain
    ONLY64, and the root of a 64-bit mode holds them unless the flags
    contain ONLY32; the root that the filter excludes, and every node named
    after it, is as before.  So a descriptor with ONLY32 and without ONLY64
    goes into the 32-bit root only, one with ONLY64 and without ONLY32 into
    the 64-bit root only, one with neither flag into every requested root,
    and one with both flags into none. *)
Theorem mode_filter
        (n : nat) (t t' : Table.t) (s : string) (o : Opcode.t)
        (desc : InstrDesc.t) (modes : list Z) (paths : list path)
        (enc : list word) :
  built n t -> List.length modes = n ->
  Opcode.parse s = Ok (Some o) -> plus_in_range o ->
  Opcode.for_trie o = Ok paths ->
  InstrDesc.encode desc = Ok enc ->
  Main.add_entry t (Some o) desc 0 modes = Ok t' ->
  forall i mode,
    nth_error modes i = Some mode ->
    let root := Table.root_name (Z.of_nat i) in
    let inserted :=
      forall p, In p paths ->
                reach (Table.data t') root p = Some (TrieEntry.instr enc) in
    let untouched :=
      forall x, family (Z.of_nat i) x ->
                Py.get (Table.data t') x = Py.get (Table.data t) x in
    (mode = 32 ->
     (~ In "ONLY64" (InstrDesc.flags desc) -> inserted)
     /\ (In "ONLY64" (InstrDesc.flags desc) -> untouched))
    /\ (mode = 64 ->
        (~ In "ONLY32" (InstrDesc.flags desc) -> inserted)
        /\ (In "ONLY32" (InstrDesc.flags desc) -> untouched)).
Proof.
  intros Hb Hlen Hp Hr Hf Henc Hadd i mode Hi root inserted untouched.
  pose proof (for_trie_wf s o paths Hp Hr Hf) as Hwf.
  assert (Hap : forall P Q, In P paths -> In Q paths -> names_apart P Q).
  { intros P Q HP HQ j m Hj Hm.
    now apply (for_trie_names_inj s o paths P Q j m). }
  destruct (add_entry_spec n desc enc Henc o paths Hf Hwf Hap modes 0 t t'
                           ltac:(lia) ltac:(lia) (built_inv n t Hb) Hadd)
    as (_ & _ & Hmodes).
  specialize (Hmodes i mode Hi). rewrite Z.add_0_l in Hmodes.
  pose proof (selected_iff mode desc) as Hsel.
  assert (Hcase : forall flag,
             "ONLY" ++ Py.dec (96 - mode) = flag ->
             (~ In flag (InstrDesc.flags desc) -> inserted)
             /\ (In flag (InstrDesc.flags desc) -> untouched)).
  { intros flag E. rewrite E in Hsel.
    destruct (Main.selected mode desc).
    - split; [intros _; exact Hmodes|]. intros Hin.
      exfalso. apply (proj1 Hsel eq_refl). exact Hin.
    - split; [|intros _; exact Hmodes]. intros Hout.
      apply Hsel in Hout. discriminate. }
  split; intros ->; apply Hcase; reflexivity.
Qed.

(** A table with a root for each of the two modes. *)
Definition two_mode_roots : Table.t :=
  Table.mk [("root0", TrieEntry.mk TABLE_ROOT (repeat None 8) []);
            ("root1", TrieEntry.mk TABLE_ROOT (repeat None 8) [])]
           ["root0"; "root1"] [] [].

Definition lahf : InstrDesc.t := InstrDesc.mk "LAHF" "NP" [] ["ONLY32"].

Definition lahf_record : list word :=
  [Tag "FDI_LAHF"; Int 0; Int 1024; Int 0].

(** The pattern [c8+] and its eight paths. *)
Definition plus_c8 : Opcode.t :=
  Opcode.mk None 0 200 None true false None None.

Definition plus_c8_paths : list path :=
  List.map (fun i => [(TABLE_ROOT, 0); (TABLE256, 200 + i)])
           [0; 1; 2; 3; 4; 5; 6; 7].

(** The table after the entry [c8+ NP - - - - LAHF ONLY32], for the modes
    32 and 64. *)
Definition after_lahf : Table.t :=
  match Main.add_entry two_mode_roots (Some plus_c8) lahf 0 [32; 64] with
  | Ok t => t
  | Raise _ => two_mode_roots
  end.

Lemma mode_filter_witness :
  Table.init 2 = Ok two_mode_roots
  /\ Opcode.parse "c8+" = Ok (Some plus_c8)
  /\ (forall p, In p plus_c8_paths ->
                reach (Table.data after_lahf) (Table.root_name 0) p
                = Some (TrieEntry.instr lahf_record))
  /\ (forall x, family 1 x ->
                Py.get (Table.data after_lahf) x
                = Py.get (Table.data two_mode_roots) x).
Proof.
  assert (Hi : Table.init 2 = Ok two_mode_roots) by reflexivity.
  assert (Hp : Opcode.parse "c8+" = Ok (Some plus_c8))
    by (vm_compute; reflexivity).
  assert (Hr : plus_in_range plus_c8) by (intros _; simpl; lia).
  assert (Hf : Opcode.for_trie plus_c8 = Ok plus_c8_paths)
    by (vm_compute; reflexivity).
  assert (He : InstrDesc.encode lahf = Ok lahf_record)
    by (vm_compute; reflexivity).
  assert (Ha : Main.add_entry two_mode_roots (Some plus_c8) lahf 0 [32; 64]
               = Ok after_lahf) by (vm_compute; reflexivity).
  pose proof (mode_filter 2 two_mode_roots after_lahf "c8+" plus_c8 lahf
                          [32; 64] plus_c8_paths lahf_record
                          (built_init 2 two_mode_roots Hi) eq_refl Hp Hr Hf
                          He Ha) as H.
  split; [exact Hi|]. split; [exact Hp|]. split.
  - apply (proj1 (proj1 (H 0%nat 32 eq_refl) eq_refl)).
    simpl. intros [E|[]]. discriminate E.
  - apply (proj2 (proj2 (H 1%nat 64 eq_refl) eq_refl)). simpl. tauto.
Defined.

Definition both_flags : InstrDesc.t :=
  InstrDesc.mk "NOP" "NP" [] ["ONLY32"; "ONLY64"].

Definition opcode_90 : Opcode.t :=
  Opcode.mk None 0 144 None false false None None.

(** C7, as stated, fails for a descriptor that carries both flags: its
    flags contain ONLY32, and the entry goes into no root, the 32-bit root
    included. *)
Lemma both_flags_go_nowhere :
  InstrDesc.parse "NP - - - - NOP ONLY32 ONLY64" = Ok both_flags
  /\ In "ONLY32" (InstrDesc.flags both_flags)
  /\ Opcode.parse "90" = Ok (Some opcode_90)
  /\ Opcode.for_trie opcode_90 = Ok [nop_path]
  /\ Main.add_entry two_mode_roots (Some opcode_90) both_flags 0 [32; 64]
     = Ok two_mode_roots
  /\ reach (Table.data two_mode_roots) (Table.root_name 0) nop_path = None.
Proof.
  split; [vm_compute; reflexivity|]. split; [simpl; tauto|].
  repeat split; vm_compute; reflexivity.
Qed.
